(** * RetroCompress-Lite: the codec library, embedded and verified

    Shallow embedding of the codecs of the repository (MDK-RLE, LZF,
    BitBuster v1.2, Pletter v0.5, DAN1, DAN3, ZX7, ZX0) and the theorems that
    settle the specification's testable properties against them.

    Conventions of the embedding
    - a byte is a [Z] in [0, 256); a [Uint8Array] or a JS array of bytes is a
      [list Z];
    - a thrown [Error] is the [Throw] case of [result]; the error kinds are those
      of the specification's error section, plus the two JS run-time errors the
      code can raise by itself ([TypeError], [RangeError]);
    - [for] loops run over [seq]; [while] loops whose trip count has a bound
      that is visible in the source recurse on that bound. [FuelExhausted] is
      not an error of the code: a loop of the embedding reports with it that
      its bound was reached before the loop of the code ended. *)

From Stdlib Require Import ZArith List Lia Bool.
From stdpp Require Import base option list gmap.
Import ListNotations.

Local Open Scope Z_scope.
#[local] Set Warnings "-register-all,-abstract-large-number".

(** ** Common definitions *)

Inductive error : Type :=
  | InputTooLarge
  | TruncatedStream
  | InvalidHeader
  | InvalidBackReference
  | InvalidQValue
  | TypeError
  | RangeError
  | FuelExhausted.

Inductive result (A : Type) : Type :=
  | Ok (a : A)
  | Throw (e : error).

Arguments Ok {A} a.
Arguments Throw {A} e.

Definition rbind {A B} (k : A -> result B) (r : result A) : result B :=
  match r with
  | Ok a => k a
  | Throw e => Throw e
  end.

#[global] Instance result_bind : MBind result := @rbind.
#[global] Instance result_ret : MRet result := @Ok.

(** [a[i]] on an array of bytes; [None] is JS's [undefined]. *)
Definition at_ (a : list Z) (i : nat) : option Z := a !! i.

(** [a[i]] where the source has established [i < a.length]. *)
Definition get (a : list Z) (i : nat) : Z := default 0 (a !! i).

(** JS [===] on two array reads. *)
Definition js_eq (x y : option Z) : bool :=
  match x, y with
  | Some a, Some b => a =? b
  | None, None => true
  | _, _ => false
  end.

(** [new Uint8Array(xs)]: every element is reduced modulo 256. *)
Definition to_u8 (xs : list Z) : list Z := map (fun v => v mod 256) xs.

(** ** MDK-RLE  (src/js/codecs/mdkrle.js) *)

Module MdkRLE.

(** The inner [while] of [flushRaw]: one RAW packet per round, at most 128
    payload bytes each. Every round consumes at least one byte of the
    buffer, whose length therefore bounds the rounds. *)
Fixpoint flushRaw_loop (fuel : nat) (rawBuffer : list Z) (offset : nat)
    (compressed : list Z) : list Z :=
  match fuel with
  | O => compressed
  | S fuel' =>
      if (offset <? length rawBuffer)%nat then
        let chunkSize := Nat.min (length rawBuffer - offset) 128 in
        let compressed := compressed ++ [Z.of_nat chunkSize - 1] in
        let compressed := compressed ++ take chunkSize (drop offset rawBuffer) in
        flushRaw_loop fuel' rawBuffer (offset + chunkSize) compressed
      else compressed
  end.

(** [flushRaw]: returns the new [compressed] and the emptied [rawBuffer]. *)
Definition flushRaw (compressed rawBuffer : list Z) : list Z * list Z :=
  match rawBuffer with
  | [] => (compressed, rawBuffer)
  | _ => (flushRaw_loop (length rawBuffer) rawBuffer 0 compressed, [])
  end.

(** The look-ahead [while]: [runLength] grows while the next byte equals
    [inputData[i]]. *)
Fixpoint run_loop (fuel : nat) (inputData : list Z) (i runLength : nat) : nat :=
  match fuel with
  | O => runLength
  | S fuel' =>
      if ((i + runLength <? length inputData)%nat
          && js_eq (at_ inputData i) (at_ inputData (i + runLength)))%bool
      then run_loop fuel' inputData i (S runLength)
      else runLength
  end.

(** The [while (remainingRun > 0)] that splits a run into RLE packets. *)
Fixpoint rle_loop (fuel : nat) (value : Z) (remainingRun : nat)
    (compressed : list Z) : list Z :=
  match fuel with
  | O => compressed
  | S fuel' =>
      if (0 <? remainingRun)%nat then
        let chunkSize := Nat.min remainingRun 127 in
        let compressed := compressed ++ [Z.lor 0x80 (Z.of_nat chunkSize - 1)] in
        let compressed := compressed ++ [value] in
        rle_loop fuel' value (remainingRun - chunkSize) compressed
      else compressed
  end.

(** The main [while (i < inputData.length)]; [i] grows every round. *)
Fixpoint main_loop (fuel : nat) (inputData : list Z) (i : nat)
    (compressed rawBuffer : list Z) : list Z * list Z :=
  match fuel with
  | O => (compressed, rawBuffer)
  | S fuel' =>
      if (i <? length inputData)%nat then
        let runLength := run_loop (length inputData) inputData i 1 in
        if (3 <=? runLength)%nat then
          let '(compressed, rawBuffer) := flushRaw compressed rawBuffer in
          let compressed := rle_loop runLength (get inputData i) runLength compressed in
          main_loop fuel' inputData (i + runLength) compressed rawBuffer
        else
          main_loop fuel' inputData (S i) compressed (rawBuffer ++ [get inputData i])
      else (compressed, rawBuffer)
  end.

Definition compress (inputData : list Z) : list Z :=
  match inputData with
  | [] => [0xFF]
  | _ =>
      let '(compressed, rawBuffer) :=
        main_loop (length inputData) inputData 0 [] [] in
      let '(compressed, _) := flushRaw compressed rawBuffer in
      to_u8 (compressed ++ [0xFF])
  end.

(** The decoder's [while (i < compressedData.length)]; every round reads
    the control byte, so [i] grows. *)
Fixpoint decode_loop (fuel : nat) (compressedData : list Z) (i : nat)
    (decompressed : list Z) : result (list Z) :=
  match fuel with
  | O => Ok decompressed
  | S fuel' =>
      if (i <? length compressedData)%nat then
        let controlByte := get compressedData i in
        let i := S i in
        if controlByte =? 0xFF then Ok decompressed
        else if controlByte <? 0x80 then
          let len := Z.to_nat (controlByte + 1) in
          if (length compressedData <? i + len)%nat then Throw TruncatedStream
          else
            decode_loop fuel' compressedData (i + len)
              (decompressed ++ take len (drop i compressedData))
        else
          let len := Z.to_nat (Z.land controlByte 0x7F + 1) in
          if (length compressedData <=? i)%nat then Throw TruncatedStream
          else
            let value := get compressedData i in
            decode_loop fuel' compressedData (S i)
              (decompressed ++ repeat value len)
      else Ok decompressed
  end.

Definition decompress (compressedData : list Z) : result (list Z) :=
  match compressedData with
  | [] => Ok []
  | _ =>
      decompressed ← decode_loop (length compressedData) compressedData 0 [];
      Ok (to_u8 decompressed)
  end.

End MdkRLE.

(** ** LZF, end-marker variant  (src/js/codecs/lzf.js) *)

Module LZF.

Definition END_MARKER : Z := 0xFF.
Definition MAX_OFFSET : nat := Z.to_nat 7936.
Definition MIN_MATCH : nat := 3.
Definition MAX_LENGTH : nat := 256.

Definition literalCost (length : nat) : nat := 1 + length.
Definition matchCost (length : nat) : nat := if (length <=? 8)%nat then 2%nat else 3%nat.

(** The two shapes of [path] entries; [from] is the position the token
    starts at. *)
Inductive op : Type :=
  | Literal (length from : nat)
  | Match (length offset from : nat).

Definition op_from (o : op) : nat :=
  match o with Literal _ f => f | Match _ _ f => f end.

(** [cost < dp[k]], where [None] is [Infinity]. *)
Definition lt_inf (cost : nat) (d : option nat) : bool :=
  match d with
  | None => true
  | Some v => (cost <? v)%nat
  end.

(** The DP tables [dp] and [path], both of length [n + 1]. *)
Record tables : Type := mkTables { dp : list (option nat); path : list (option op) }.

Definition relax (cost : nat) (k : nat) (o : op) (t : tables) : tables :=
  if lt_inf cost (mjoin (dp t !! k)) then
    mkTables (<[k := Some cost]> (dp t)) (<[k := Some o]> (path t))
  else t.

(** Option 1, [for (len = 1; len <= 32 && i + len <= n; len++)]: the guard
    [i + len <= n] is monotone in [len], so leaving the loop and skipping
    the remaining rounds coincide. *)
Definition literal_options (n i : nat) (base : nat) (t : tables) : tables :=
  fold_left (fun t len =>
      if (i + len <=? n)%nat then
        relax (base + literalCost len) (i + len) (Literal len i) t
      else t)
    (seq 1 32) t.

(** The [while] that measures a match; it stops at [MAX_LENGTH] at the latest. *)
Fixpoint match_len (fuel : nat) (input : list Z) (n p i len : nat) : nat :=
  match fuel with
  | O => len
  | S fuel' =>
      if ((i + len <? n)%nat && js_eq (at_ input (p + len)) (at_ input (i + len))
          && (len <? MAX_LENGTH)%nat)%bool
      then match_len fuel' input n p i (S len)
      else len
  end.

(** Option 2, [for (p = searchStart; p < i; p++)]. *)
Definition match_options (input : list Z) (n i : nat) (base : nat) (t : tables) : tables :=
  let searchStart := (i - MAX_OFFSET)%nat in
  fold_left (fun t p =>
      let len := match_len MAX_LENGTH input n p i 0 in
      if (MIN_MATCH <=? len)%nat then
        relax (base + matchCost len) (i + len) (Match len (i - p) i) t
      else t)
    (seq searchStart (i - searchStart)) t.

(** One round of the outer [for (i = 0; i < n; i++)]. *)
Definition dp_step (input : list Z) (n : nat) (t : tables) (i : nat) : tables :=
  match mjoin (dp t !! i) with
  | None => t
  | Some base =>
      let t := literal_options n i base t in
      match_options input n i base t
  end.

Definition dp_run (input : list Z) : tables :=
  let n := length input in
  fold_left (dp_step input n) (seq 0 n)
    (mkTables (<[0%nat := Some 0%nat]> (replicate (n + 1) None)) (replicate (n + 1) None)).

(** [for (pos = n; pos > 0; pos = path[pos].from) operations.unshift(path[pos])];
    reading [.from] of a [null] entry is a [TypeError]. [from] is smaller than
    [pos] on every entry the DP writes, so [n] rounds suffice. *)
Fixpoint reconstruct (fuel : nat) (path : list (option op)) (pos : nat)
    (operations : list op) : result (list op) :=
  if (0 <? pos)%nat then
    match fuel with
    | O => Throw FuelExhausted
    | S fuel' =>
        match mjoin (path !! pos) with
        | Some o => reconstruct fuel' path (op_from o) (o :: operations)
        | None => Throw TypeError
        end
    end
  else Ok operations.

(** The bytes one operation pushes to [output]. *)
Definition emit_op (input : list Z) (o : op) : list Z :=
  match o with
  | Literal len from =>
      (Z.of_nat len - 1) :: map (fun i => get input (from + i)) (seq 0 len)
  | Match len offset _ =>
      let storedOffset := Z.of_nat offset - 1 in
      if (len <=? 8)%nat then
        [ Z.lor (Z.shiftl (Z.of_nat len - 2) 5) (Z.land (Z.shiftr storedOffset 8) 0x1F);
          Z.land storedOffset 0xFF ]
      else
        [ Z.lor 0xE0 (Z.land (Z.shiftr storedOffset 8) 0x1F);
          Z.of_nat len - 9;
          Z.land storedOffset 0xFF ]
  end.

Definition operations (input : list Z) : result (list op) :=
  let n := length input in
  reconstruct n (path (dp_run input)) n [].

Definition compress (input : list Z) : result (list Z) :=
  ops ← operations input;
  let output := flat_map (emit_op input) ops in
  Ok (to_u8 (output ++ [END_MARKER])).

(** The decoder keeps [output] as a JS array that may receive [undefined]
    (a read outside [input] or [output]); the final [new Uint8Array(output)]
    turns those into 0. *)
Definition out_at (output : list (option Z)) (k : Z) : option Z :=
  if k <? 0 then None else mjoin (output !! Z.to_nat k).

(** [for (i = 0; i < len; i++) output.push(output[copyPos + i])]. *)
Definition copy_match (output : list (option Z)) (copyPos : Z) (len : nat)
    : list (option Z) :=
  fold_left (fun output i => output ++ [out_at output (copyPos + Z.of_nat i)])
    (seq 0 len) output.

(** [undefined | 0] and [undefined + 9]: the former is 0, the latter [NaN],
    which no loop counter is below. *)
Definition or0 (x : option Z) : Z := default 0 x.
Definition count_of (x : option Z) (k : Z) : nat :=
  match x with Some v => Z.to_nat (v + k) | None => O end.

Fixpoint decode_loop (fuel : nat) (input : list Z) (pos : nat)
    (output : list (option Z)) : list (option Z) :=
  match fuel with
  | O => output
  | S fuel' =>
      if ((pos <? length input)%nat && negb (js_eq (at_ input pos) (Some END_MARKER)))%bool
      then
        let byte := get input pos in
        let pos := S pos in
        let control := Z.shiftr byte 5 in
        if control =? 0 then
          let len := Z.to_nat (Z.land byte 0x1F + 1) in
          decode_loop fuel' input (pos + len)
            (output ++ map (fun i => at_ input (pos + i)) (seq 0 len))
        else if control =? 7 then
          let len := count_of (at_ input pos) 9 in
          let pos := S pos in
          let storedOffset := Z.lor (Z.shiftl (Z.land byte 0x1F) 8) (or0 (at_ input pos)) in
          let pos := S pos in
          let copyPos := Z.of_nat (length output) - (storedOffset + 1) in
          decode_loop fuel' input pos (copy_match output copyPos len)
        else
          let len := Z.to_nat (control + 2) in
          let storedOffset := Z.lor (Z.shiftl (Z.land byte 0x1F) 8) (or0 (at_ input pos)) in
          let pos := S pos in
          let copyPos := Z.of_nat (length output) - (storedOffset + 1) in
          decode_loop fuel' input pos (copy_match output copyPos len)
      else output
  end.

Definition decompress (input : list Z) : list Z :=
  to_u8 (map or0 (decode_loop (length input) input 0 [])).

End LZF.

(** ** BitBuster v1.2  (BitBusterV12Codec) *)

Module BitBuster.

(** The constructor's fields; [MAX_INPUT] is its argument (default 512 KiB). *)
Record codec : Type := mkCodec { MAX_INPUT : Z; MAX_OFFSET : Z }.

Definition constructor (maxInput : Z) : codec := mkCodec maxInput 0x07ff.
Definition default_codec : codec := constructor (512 * 1024).

(** *** Encoder *)

(** The closure state of [_beginWriter]. *)
Record writer : Type := mkWriter
  { out : list Z; bitPos : nat; bitData : Z; bitCount : Z }.

(** [x >>> 0]. *)
Definition to_u32 (x : Z) : Z := x mod 2 ^ 32.
(** [x | 0]. *)
Definition to_i32 (x : Z) : Z := (x + 2 ^ 31) mod 2 ^ 32 - 2 ^ 31.

(** [DataView.setUint32(0, v, true)] on a fresh 4-byte buffer. *)
Definition setUint32_le (v : Z) : list Z :=
  [ v mod 256; (v / 2 ^ 8) mod 256; (v / 2 ^ 16) mod 256; (v / 2 ^ 24) mod 256 ].

Definition beginWriter (origLen : Z) : writer :=
  let out := setUint32_le (to_u32 origLen) in
  mkWriter (out ++ [0]) (length out) 0 0.

Definition writeByte (b : Z) (w : writer) : writer :=
  mkWriter (out w ++ [Z.land b 0xff]) (bitPos w) (bitData w) (bitCount w).

Definition rotateBitByte (w : writer) : writer :=
  let out1 := <[bitPos w := Z.land (bitData w) 0xff]> (out w) in
  mkWriter (out1 ++ [0]) (length out1) 0 0.

(** [v] is used for its truthiness. *)
Definition writeBit (v : Z) (w : writer) : writer :=
  let w := if bitCount w =? 8 then rotateBitByte w else w in
  mkWriter (out w) (bitPos w)
    (Z.land (Z.lor (Z.shiftl (bitData w) 1) (if v =? 0 then 0 else 1)) 0xff)
    (bitCount w + 1).

(** [for (let t = n; t > 1; t >>= 1) k++]; [n] has at most 33 bits. *)
Fixpoint gamma_k (fuel : nat) (t k : Z) : Z :=
  match fuel with
  | O => k
  | S fuel' => if 1 <? t then gamma_k fuel' (Z.shiftr t 1) (k + 1) else k
  end.

Definition writeGamma (value : Z) (w : writer) : writer :=
  let n := to_u32 value + 1 in
  let k := gamma_k 33 n 0 in
  let w := fold_left (fun w _ => writeBit 1 w) (seq 0 (Z.to_nat k)) w in
  let w := writeBit 0 w in
  fold_left (fun w i => writeBit (Z.land (Z.shiftr n (Z.of_nat i)) 1) w)
    (rev (seq 0 (Z.to_nat k))) w.

Definition writeOffset (dist : Z) (w : writer) : writer :=
  let x := to_u32 (dist - 1) in
  if x <=? 127 then writeByte x w
  else
    let w := writeByte (Z.lor 0x80 (Z.land x 0x7f)) w in
    let hi := Z.land (Z.shiftr x 7) 0x0f in
    let w := writeBit (Z.land hi 0x8) w in
    let w := writeBit (Z.land hi 0x4) w in
    let w := writeBit (Z.land hi 0x2) w in
    writeBit (Z.land hi 0x1) w.

Definition endStream (w : writer) : writer :=
  let w := writeBit 1 w in
  let w := writeByte 0 w in
  let w := fold_left (fun w _ => writeBit 1 w) (seq 0 16) w in
  let w := writeBit 0 w in
  if 0 <? bitCount w then
    mkWriter (<[bitPos w := Z.land (Z.shiftl (bitData w) (8 - bitCount w)) 0xff]> (out w))
      (bitPos w) (bitData w) (bitCount w)
  else w.

(** [while (v) { v--; g += 2; v >>= 1; }]; in [_optimalPlan] [v] is below 2^16. *)
Fixpoint gammaSize_loop (fuel : nat) (v g : Z) : Z :=
  match fuel with
  | O => g
  | S fuel' => if v =? 0 then g else gammaSize_loop fuel' (Z.shiftr (v - 1) 1) (g + 2)
  end.

Definition gammaSize (v : Z) : Z := gammaSize_loop 64 v 1.

(** The tables of [_optimalPlan]: [cost] is an [Int32Array(n + 1)], the other
    two are [Uint32Array(n)]. *)
Record plan : Type := mkPlan { cost : list Z; bestLen : list Z; bestOff : list Z }.

(** [while (i + l < n && input[i + l] === input[i - off + l]) { l++; if (l >= 65535) break; }] *)
Fixpoint plan_match (fuel : nat) (input : list Z) (n i off l : nat) : nat :=
  match fuel with
  | O => l
  | S fuel' =>
      if ((i + l <? n)%nat && js_eq (at_ input (i + l)) (at_ input (i - off + l)))%bool
      then
        let l := S l in
        if (Z.to_nat 65535 <=? l)%nat then l else plan_match fuel' input n i off l
      else l
  end.

(** One round of [for (let i = n - 1; i >= 0; i--)]. *)
Definition plan_step (c : codec) (input : list Z) (n : nat) (p : plan) (i : nat) : plan :=
  let best0 := get (cost p) (i + 1) + 9 in
  let maxOff := Z.to_nat (Z.min (MAX_OFFSET c) (Z.of_nat i)) in
  let '(best, bl, bo) :=
    fold_left (fun '(best, bl, bo) off =>
        let l := plan_match n input n i off 0 in
        if (1 <? l)%nat then
          let bits := 1 + gammaSize (Z.of_nat l - 2) + (if (off <=? 128)%nat then 8 else 12) in
          let c := get (cost p) (Nat.min n (i + l)) + bits in
          if c <? best then (c, Z.of_nat l, Z.of_nat off) else (best, bl, bo)
        else (best, bl, bo))
      (seq 1 maxOff) (best0, 0, 0) in
  mkPlan (<[i := to_i32 best]> (cost p)) (<[i := to_u32 bl]> (bestLen p))
    (<[i := to_u32 bo]> (bestOff p)).

Definition optimalPlan (c : codec) (input : list Z) : plan :=
  let n := length input in
  fold_left (plan_step c input n) (rev (seq 0 n))
    (mkPlan (replicate (n + 1) 0) (replicate n 0) (replicate n 0)).

(** [for (let i = 0; i < n;)] of [compress]; [i] grows every round. *)
Fixpoint emit_loop (fuel : nat) (input : list Z) (n : nat) (p : plan) (i : nat)
    (w : writer) : writer :=
  match fuel with
  | O => w
  | S fuel' =>
      if (i <? n)%nat then
        let l := to_i32 (get (bestLen p) i) in
        if 1 <? l then
          let w := writeBit 1 w in
          let w := writeOffset (to_i32 (get (bestOff p) i)) w in
          let w := writeGamma (to_i32 (l - 2)) w in
          emit_loop fuel' input n p (i + Z.to_nat l) w
        else
          let w := writeBit 0 w in
          let w := writeByte (get input i) w in
          emit_loop fuel' input n p (S i) w
      else w
  end.

Definition compress (c : codec) (input : list Z) : result (list Z) :=
  let input := to_u8 input in
  let n := length input in
  if (n =? 0)%nat then Ok [0; 0; 0; 0]
  else if MAX_INPUT c <? Z.of_nat n then Throw InputTooLarge
  else
    let p := optimalPlan c input in
    let w := beginWriter (Z.of_nat n) in
    let w := emit_loop n input n p 0 w in
    let w := endStream w in
    Ok (to_u8 (out w)).

(** *** Decoder *)

(** The closure state of the readers: the single cursor [pos] and the
    current bit byte with its mask. *)
Record reader : Type := mkReader { pos : nat; bitMask : Z; bitByte : Z }.

Definition readBit (bytes : list Z) (r : reader) : result (Z * reader) :=
  r ← (if bitMask r =? 0 then
       if (length bytes <=? pos r)%nat then Throw TruncatedStream
       else Ok (mkReader (S (pos r)) 0x80 (get bytes (pos r)))
     else Ok r);
  let b := if Z.land (bitByte r) (bitMask r) =? 0 then 0 else 1 in
  Ok (b, mkReader (pos r) (Z.shiftr (bitMask r) 1) (bitByte r)).

Definition readByte (bytes : list Z) (r : reader) : result (Z * reader) :=
  if (length bytes <=? pos r)%nat then Throw TruncatedStream
  else Ok (get bytes (pos r), mkReader (S (pos r)) (bitMask r) (bitByte r)).

(** [while (readBit() === 1) { k++; if (k === 16) return { value: 0, k }; }]:
    returns [(k, r, true)] when the 16th one has been read. *)
Fixpoint gamma_ones (fuel : nat) (bytes : list Z) (k : Z) (r : reader)
    : result (Z * reader * bool) :=
  match fuel with
  | O => Ok (k, r, true)
  | S fuel' =>
      '(b, r) ← readBit bytes r;
      if b =? 1 then
        let k := k + 1 in
        if k =? 16 then Ok (k, r, true) else gamma_ones fuel' bytes k r
      else Ok (k, r, false)
  end.

(** [for (let i = 0; i < k; i++) val = (val << 1) | readBit()]. *)
Fixpoint gamma_bits (k : nat) (bytes : list Z) (val : Z) (r : reader)
    : result (Z * reader) :=
  match k with
  | O => Ok (val, r)
  | S k' =>
      '(b, r) ← readBit bytes r;
      gamma_bits k' bytes (Z.lor (Z.shiftl val 1) b) r
  end.

(** [readGammaEx]: the pair [(value, k)]. *)
Definition readGammaEx (bytes : list Z) (r : reader) : result (Z * Z * reader) :=
  '(k, r, sentinel) ← gamma_ones 16 bytes 0 r;
  if (sentinel : bool) then Ok (0, k, r)
  else
    '(val, r) ← gamma_bits (Z.to_nat k) bytes 1 r;
    Ok (val - 1, k, r).

(** The four [hi = (hi << 1) | readBit()] of the extended distance. *)
Definition readHi (bytes : list Z) (r : reader) : result (Z * reader) :=
  gamma_bits 4 bytes 0 r.

(** [for (let k = 0; k < len; k++) out[i + k] = out[ref + k]] on the
    [Uint8Array] [out]: a store outside the array is dropped. *)
Definition copy (out : list Z) (i ref : nat) (len : nat) : list Z :=
  fold_left (fun out k => <[(i + k)%nat := get out (ref + k)]> out) (seq 0 len) out.

(** The tail shared by the three match branches. *)
Definition do_match (out : list Z) (i : nat) (dist len : Z) : result (list Z * nat) :=
  let ref := Z.of_nat i - dist in
  if ref <? 0 then Throw InvalidBackReference
  else Ok (copy out i (Z.to_nat ref) (Z.to_nat len), (i + Z.to_nat len)%nat).

(** [while (i < outLen)]: every round starts by reading one bit, so the
    number of bits of [bytes] bounds the rounds. *)
Fixpoint decode_loop (fuel : nat) (bytes : list Z) (outLen : nat) (out : list Z)
    (i : nat) (r : reader) : result (list Z) :=
  match fuel with
  | O => Throw FuelExhausted
  | S fuel' =>
      if (i <? outLen)%nat then
        '(tag, r) ← readBit bytes r;
        if tag =? 0 then
          '(b, r) ← readByte bytes r;
          decode_loop fuel' bytes outLen (<[i := b]> out) (S i) r
        else
          '(b0, r) ← readByte bytes r;
          if b0 =? 0 then
            '(value, k, r) ← readGammaEx bytes r;
            if k =? 16 then Ok out
            else
              '(out, i) ← do_match out i 1 (to_i32 (value + 2));
              decode_loop fuel' bytes outLen out i r
          else if Z.land b0 0x80 =? 0 then
            let dist := Z.land b0 0x7f + 1 in
            '(value, _, r) ← readGammaEx bytes r;
            '(out, i) ← do_match out i dist (to_i32 (value + 2));
            decode_loop fuel' bytes outLen out i r
          else
            '(hi, r) ← readHi bytes r;
            let dist := Z.lor (Z.land b0 0x7f) (Z.shiftl hi 7) + 1 in
            '(value, _, r) ← readGammaEx bytes r;
            '(out, i) ← do_match out i dist (to_i32 (value + 2));
            decode_loop fuel' bytes outLen out i r
      else Ok out
  end.

(** [DataView.getUint32(0, true)]. *)
Definition getUint32_le (bytes : list Z) : Z :=
  get bytes 0 + 2 ^ 8 * get bytes 1 + 2 ^ 16 * get bytes 2 + 2 ^ 24 * get bytes 3.

Definition decompress (bytes : list Z) : result (list Z) :=
  let bytes := to_u8 bytes in
  if (length bytes <? 4)%nat then Throw InvalidHeader
  else
    let outLen := Z.to_nat (getUint32_le bytes) in
    decode_loop (8 * length bytes + 1) bytes outLen (replicate outLen 0) 0
      (mkReader 4 0 0).

End BitBuster.

(** ** Pletter v0.5  (src/js/codecs/pletter.js) *)

Module Pletter.

(** The fields of the constructor that [compress] and [decompress] read.
    [varcost] is [new Array(65536)]: slot 0 is never written. *)
Record codec : Type := mkCodec
  { MAX_LEN : nat; maxlen : list nat; varcost : list (option nat) }.

(** [initVarCost]: [v] runs through 1, 2, 3, ... so the stores fill the
    array from left to right; round [r] stores [r] times the cost [b], for
    [r] = 1, 2, 4, ..., 32768. *)
Definition initVarCost : list (option nat) :=
  let '(table, _, _) :=
    fold_left (fun '(table, b, r) _ =>
        (table ++ replicate r (Some b), b + 2, r * 2)%nat)
      (seq 0 16) ([None], 1%nat, 1%nat) in
  table.

Definition constructor : codec :=
  mkCodec (Z.to_nat 65536)
    [128; 128 + 128; 512 + 128; 1024 + 128; 2048 + 128; 4096 + 128; 8192 + 128]%nat
    initVarCost.

(** One element of [metadata]. *)
Record meta : Type := mkMeta { reeks : nat; cpos : list nat; clen : list nat }.

Definition meta0 : meta := mkMeta 0 (replicate 7 0%nat) (replicate 7 0%nat).

Definition nth_meta (metadata : list meta) (i : nat) : meta :=
  default meta0 (metadata !! i).
Definition cpos_at (metadata : list meta) (i q : nat) : nat :=
  default 0%nat (cpos (nth_meta metadata i) !! q).
Definition clen_at (metadata : list meta) (i q : nat) : nat :=
  default 0%nat (clen (nth_meta metadata i) !! q).
Definition reeks_at (metadata : list meta) (i : nat) : nat :=
  reeks (nth_meta metadata i).

(** The first loop of [createMetadata]: [prev[i] = last[index]; last[index] = i].
    [None] stands for -1. *)
Definition build_prev (data : list Z) : list (option nat) :=
  let length_ := length data in
  let '(prev, _) :=
    fold_left (fun '(prev, last) i =>
        let index := get data i
                     + (if (i + 1 <? length_)%nat then get data (i + 1) * 256 else 0) in
        (<[i := (last : gmap Z nat) !! index]> prev, <[index := i]> last))
      (seq 0 length_) (replicate (length_ + 1) None, ∅) in
  prev.

(** The second loop: run lengths, scanned from the end. *)
Definition build_reeks (data : list Z) (metadata : list meta) : list meta :=
  let '(metadata, _, _) :=
    fold_left (fun '(metadata, r, t) i =>
        let m := nth_meta metadata i in
        if js_eq (at_ data i) r then
          (<[i := mkMeta (S t) (cpos m) (clen m)]> metadata, r, S t)
        else
          (<[i := mkMeta 1 (cpos m) (clen m)]> metadata, at_ data i, 1%nat))
      (rev (seq 0 (length data))) (metadata, Some (-1), 0%nat) in
  metadata.

(** The innermost [while] of the third loop: the length of the match of
    position [i] against position [p], jumping over runs. *)
Fixpoint match_len (fuel : nat) (data : list Z) (metadata : list meta)
    (p i l : nat) : nat :=
  match fuel with
  | O => l
  | S fuel' =>
      if (js_eq (at_ data (p + l)) (at_ data (i + l)) && (i + l <? length data)%nat)%bool
      then
        if (1 <? reeks_at metadata (i + l))%nat then
          let j := reeks_at metadata (i + l) in
          let j := if (reeks_at metadata (p + l) <? j)%nat
                   then reeks_at metadata (p + l) else j in
          match_len fuel' data metadata p i (l + j)
        else match_len fuel' data metadata p i (S l)
      else l
  end.

(** [while ((p = prev[p]) !== -1)]: the chain of position [i], walked towards
    the start of the data; [best] is the pair [(clen[bl], cpos[bl])] of [i]. *)
Fixpoint chain_loop (fuel : nat) (c : codec) (data : list Z) (prev : list (option nat))
    (metadata : list meta) (bl i p : nat) (best : nat * nat) : nat * nat :=
  match fuel with
  | O => best
  | S fuel' =>
      match mjoin (prev !! p) with
      | None => best
      | Some p =>
          if (default 0%nat (maxlen c !! bl) <? i - p)%nat then best
          else
            let l := match_len (length data) data metadata p i 0 in
            let best := if (fst best <? l)%nat then (l, (i - p)%nat) else best in
            chain_loop fuel' c data prev metadata bl i p best
      end
  end.

(** One round of the third loop, for offset subset [bl] and position [i]. *)
Definition match_step (c : codec) (data : list Z) (prev : list (option nat))
    (bl : nat) (metadata : list meta) (i : nat) : list meta :=
  let m := nth_meta metadata i in
  let '(m, p) :=
    if (bl =? 0)%nat then (m, i)
    else
      let len := clen_at metadata i (bl - 1) in
      let pos := cpos_at metadata i (bl - 1) in
      (mkMeta (reeks m) (<[bl := pos]> (cpos m)) (<[bl := len]> (clen m)), (i - pos)%nat) in
  let metadata := <[i := m]> metadata in
  let '(len, pos) :=
    chain_loop (S i) c data prev metadata bl i p
      (clen_at metadata i bl, cpos_at metadata i bl) in
  <[i := mkMeta (reeks m) (<[bl := pos]> (cpos m)) (<[bl := len]> (clen m))]> metadata.

Definition createMetadata (c : codec) (data : list Z) : list meta :=
  let length_ := length data in
  let metadata := replicate (length_ + 1) meta0 in
  let prev := build_prev data in
  let metadata := build_reeks data metadata in
  fold_left (fun metadata bl =>
      fold_left (match_step c data prev bl) (seq 0 length_) metadata)
    (seq 0 7) metadata.

(** One element of the table [p] of [getLen]. *)
Record pak : Type := mkPak { cost : nat; mode : nat; mlen : nat }.

Definition pak0 : pak := mkPak 0 0 0.
Definition nth_pak (p : list pak) (i : nat) : pak := default pak0 (p !! i).

(** [varcost[j - 1]], with 1000000 for an empty slot. *)
Definition varcost_val (c : codec) (j : nat) : nat :=
  match mjoin (varcost c !! (j - 1)%nat) with
  | Some v => v
  | None => Z.to_nat 1000000
  end.

(** [while (j > 1) { ...; --j; }] for one of the two match kinds: [base] is
    the fixed part of the cost, [m] the mode to record. *)
Definition try_lengths (c : codec) (p : list pak) (i : nat) (base m : nat) (j : nat)
    (k : nat * nat * nat) : nat * nat * nat :=
  fold_left (fun '(kc, kmode, kl) j =>
      let cc := (base + varcost_val c j + cost (nth_pak p (i + j)))%nat in
      if (cc <? kc)%nat then (cc, m, j) else (kc, kmode, kl))
    (rev (seq 2 (j - 1))) k.

(** One round of [for (let i = length - 1; i !== -1; --i)]. *)
Definition getLen_step (c : codec) (metadata : list meta) (q : nat)
    (p : list pak) (i : nat) : list pak :=
  let k := ((9 + cost (nth_pak p (i + 1)))%nat, 0%nat, 0%nat) in
  let k := try_lengths c p i 9 1 (clen_at metadata i 0) k in
  let ccc := if (q =? 1)%nat then 9%nat else (9 + q)%nat in
  let '(kc, kmode, kl) := try_lengths c p i ccc 2 (clen_at metadata i q) k in
  <[i := mkPak kc kmode kl]> p.

(** [getLen]: the pair [(cost, pakdata)]. *)
Definition getLen (c : codec) (data : list Z) (metadata : list meta) (q : nat)
    : nat * list pak :=
  let length_ := length data in
  let p := fold_left (getLen_step c metadata q) (rev (seq 0 length_))
             (replicate (length_ + 1) pak0) in
  (cost (nth_pak p 0), p).

(** *** The bit writer.  [dataDest[0 .. dataPos)] is the list [dest], so
    [dataPos] is its length; no slot at or above [dataPos] is read before it
    is written. *)
Record writer : Type := mkWriter
  { dest : list Z; eventPos : nat; pendingBits : nat; eventByte : Z }.

Definition writeByte (value : Z) (w : writer) : writer :=
  mkWriter (dest w ++ [Z.land value 0xFF]) (eventPos w) (pendingBits w) (eventByte w).

Definition claimEvent (w : writer) : writer :=
  mkWriter (dest w ++ [0]) (length (dest w)) (pendingBits w) (eventByte w).

Definition addEvent (w : writer) : writer :=
  mkWriter (<[eventPos w := eventByte w mod 256]> (dest w)) (eventPos w) 0 0.

(** [bit] is used for its truthiness. *)
Definition addBit (bit : Z) (w : writer) : writer :=
  let w := if (pendingBits w =? 0)%nat then claimEvent w else w in
  let w := mkWriter (dest w) (eventPos w) (S (pendingBits w))
             (eventByte w * 2 + (if bit =? 0 then 0 else 1)) in
  if (pendingBits w =? 8)%nat then addEvent w else w.

Definition add3 (value : Z) (w : writer) : writer :=
  addBit (Z.land value 1) (addBit (Z.land value 2) (addBit (Z.land value 4) w)).

(** [while (!(i & j)) j = Math.floor(j / 2)], from [j = 32768]. *)
Fixpoint top_bit (fuel : nat) (i j : Z) : Z :=
  match fuel with
  | O => j
  | S fuel' => if Z.land i j =? 0 then top_bit fuel' i (j / 2) else j
  end.

(** The [do ... while (true)] of [_addVar]. *)
Fixpoint addVar_loop (fuel : nat) (i j : Z) (w : writer) : writer :=
  match fuel with
  | O => w
  | S fuel' =>
      if j =? 1 then addBit 0 w
      else
        let j := j / 2 in
        let w := addBit 1 w in
        let w := if Z.land i j =? 0 then addBit 0 w else addBit 1 w in
        addVar_loop fuel' i j w
  end.

Definition addVar (i : Z) (w : writer) : writer :=
  addVar_loop 17 i (top_bit 16 i 32768) w.

Definition addData (value : Z) (w : writer) : writer := writeByte value w.

(** [_done]: pad the pending event byte with zeros and store it. *)
Definition done (w : writer) : writer :=
  if (pendingBits w =? 0)%nat then w
  else
    addEvent (mkWriter (dest w) (eventPos w) 8
                (eventByte w * 2 ^ Z.of_nat (8 - pendingBits w))).

(** The masks of the [switch (q)] of mode 2, with its fall-through. *)
Definition extra_masks (q : nat) : list Z :=
  match q with
  | 6%nat => [4096; 2048; 1024; 512; 256; 128]
  | 5%nat => [2048; 1024; 512; 256; 128]
  | 4%nat => [1024; 512; 256; 128]
  | 3%nat => [512; 256; 128]
  | 2%nat => [256; 128]
  | _ => []
  end.

(** Mode 1: the offset byte of a short match. *)
Definition save_offset1 (cpos0 : nat) (w : writer) : writer :=
  let j := Z.of_nat cpos0 - 1 in
  addData j w.

(** Mode 2: the offset byte and the extra bits of a long match. *)
Definition save_offset2 (q : nat) (cposq : nat) (w : writer) : writer :=
  let j := Z.of_nat cposq - 1 in
  let j := j - 128 in
  let w := addData (Z.lor 128 (Z.land j 127)) w in
  fold_left (fun w mask => addBit (Z.land j mask) w) (extra_masks q) w.

(** [while (i < length)] of [save]; [i] grows every round in the three
    modes the DP produces. *)
Fixpoint save_loop (fuel : nat) (data : list Z) (metadata : list meta)
    (pakdata : list pak) (q : nat) (i : nat) (w : writer) : writer :=
  match fuel with
  | O => w
  | S fuel' =>
      if (i <? length data)%nat then
        let pk := nth_pak pakdata i in
        match mode pk with
        | 0%nat =>
            let w := addBit 0 w in
            let w := addData (get data i) w in
            save_loop fuel' data metadata pakdata q (S i) w
        | 1%nat =>
            let w := addBit 1 w in
            let w := addVar (Z.of_nat (mlen pk) - 1) w in
            let w := save_offset1 (cpos_at metadata i 0) w in
            save_loop fuel' data metadata pakdata q (i + mlen pk) w
        | 2%nat =>
            let w := addBit 1 w in
            let w := addVar (Z.of_nat (mlen pk) - 1) w in
            let w := save_offset2 q (cpos_at metadata i q) w in
            save_loop fuel' data metadata pakdata q (i + mlen pk) w
        | _ => save_loop fuel' data metadata pakdata q i w
        end
      else w
  end.

Definition save (data : list Z) (metadata : list meta) (pakdata : list pak) (q : nat)
    : list Z :=
  let w := mkWriter [] 0 0 0 in
  let w := add3 (Z.of_nat q - 1) w in
  let w := addData (get data 0) w in
  let w := save_loop (length data) data metadata pakdata q 1 w in
  let w := fold_left (fun w _ => addBit 1 w) (seq 0 34) w in
  dest (done w).

(** The search [for (let i = 1; i !== 7; ++i)] of [compress]: the pair
    [(minlen, minbl)]. *)
Definition q_search (c : codec) (data : list Z) (metadata : list meta) : nat * nat :=
  fold_left (fun '(minlen, minbl) i =>
      let '(cost, _) := getLen c data metadata i in
      if ((cost <? minlen)%nat && negb (i =? 0)%nat)%bool then (cost, i)
      else (minlen, minbl))
    (seq 1 6) ((length data * 1000)%nat, 0%nat).

(** The subset [compress] emits with. *)
Definition chosen_q (c : codec) (data : list Z) (metadata : list meta) : nat :=
  let '(_, minbl) := q_search c data metadata in
  if ((minbl =? 0)%nat && (0 <? length data)%nat)%bool then 1%nat else minbl.

Definition compress (c : codec) (data : list Z) : result (list Z) :=
  if (length data =? 0)%nat then Ok []
  else if (MAX_LEN c <? length data)%nat then Throw InputTooLarge
  else
    let metadata := createMetadata c data in
    let minbl := chosen_q c data metadata in
    let '(_, bestPakdata) := getLen c data metadata minbl in
    Ok (save data metadata bestPakdata minbl).

(** *** Decoder *)

Record reader : Type := mkReader
  { dataPosition : nat; varPosition : nat; bitForVarPosition : Z }.

Definition getByte (compressedData : list Z) (r : reader) : result (Z * reader) :=
  if (length compressedData <=? dataPosition r)%nat then Throw TruncatedStream
  else Ok (get compressedData (dataPosition r),
           mkReader (S (dataPosition r)) (varPosition r) (bitForVarPosition r)).

(** A bit byte beyond the input reads as [undefined], whose bits are 0. *)
Definition getBit (compressedData : list Z) (r : reader) : Z * reader :=
  let r := if bitForVarPosition r =? 7
           then mkReader (dataPosition r + 1) (dataPosition r) 7 else r in
  let bit := Z.land (Z.shiftr (default 0 (at_ compressedData (varPosition r)))
                       (bitForVarPosition r)) 1 in
  let b := bitForVarPosition r - 1 in
  (bit, mkReader (dataPosition r) (varPosition r) (if b =? -1 then 7 else b)).

(** [while (getBit()) value = (value << 1) | getBit()], on 32-bit integers.
    The bits behind the input are 0, so the bits of the input bound the
    rounds. *)
Fixpoint gamma_loop (fuel : nat) (compressedData : list Z) (value : Z) (r : reader)
    : Z * reader :=
  match fuel with
  | O => (value, r)
  | S fuel' =>
      let '(c, r) := getBit compressedData r in
      if c =? 0 then (value, r)
      else
        let '(b, r) := getBit compressedData r in
        gamma_loop fuel' compressedData
          (BitBuster.to_i32 (Z.lor (Z.shiftl value 1) b)) r
  end.

Definition getInterlacedEliasGamma (compressedData : list Z) (r : reader) : Z * reader :=
  gamma_loop (8 * length compressedData + 8) compressedData 1 r.

(** The shifts of the [switch (qValue)] of the decoder, with its fall-through;
    [None] is the [default] branch. *)
Definition extra_shifts (qValue : Z) : option (list Z) :=
  if qValue =? 7 then Some [13; 12; 11; 10; 9; 8; 7]
  else if qValue =? 6 then Some [12; 11; 10; 9; 8; 7]
  else if qValue =? 5 then Some [11; 10; 9; 8; 7]
  else if qValue =? 4 then Some [10; 9; 8; 7]
  else if qValue =? 3 then Some [9; 8; 7]
  else if qValue =? 2 then Some [8; 7]
  else if qValue =? 1 then Some []
  else None.

(** The offset of a match: [getByte], the extra bits, and the final [+ 1]. *)
Definition read_offset (compressedData : list Z) (qValue : Z) (r : reader)
    : result (Z * reader) :=
  '(offset, r) ← getByte compressedData r;
  if Z.land offset 0x80 =? 0 then Ok (offset + 1, r)
  else
    let offset := Z.land offset 0x7F in
    match extra_shifts qValue with
    | None => Throw InvalidQValue
    | Some shifts =>
        let '(offset, r) :=
          fold_left (fun '(offset, r) sh =>
              let '(b, r) := getBit compressedData r in
              (Z.lor offset (Z.shiftl b sh), r))
            shifts (offset, r) in
        Ok (offset + 128 + 1, r)
    end.

(** [for (let i = 0; i < length; i++)] of a match, with its range check. *)
Fixpoint copy_loop (n : nat) (offset : Z) (output : list Z) : result (list Z) :=
  match n with
  | O => Ok output
  | S n' =>
      let sourceIndex := Z.of_nat (length output) - offset in
      if ((sourceIndex <? 0) || (Z.of_nat (length output) <=? sourceIndex))%bool
      then Throw InvalidBackReference
      else copy_loop n' offset (output ++ [get output (Z.to_nat sourceIndex)])
  end.

Definition END_MARKER_NORMAL : Z := 262143.
Definition END_MARKER_DSK2ROM : Z := 131072.

(** [while (dataPosition < compressedData.length)]: every round reads a bit. *)
Fixpoint decode_loop (fuel : nat) (compressedData : list Z) (dsk2rom : bool)
    (qValue : Z) (r : reader) (output : list Z) : result (list Z) :=
  match fuel with
  | O => Throw FuelExhausted
  | S fuel' =>
      if (dataPosition r <? length compressedData)%nat then
        let '(tag, r) := getBit compressedData r in
        if tag =? 0 then
          '(b, r) ← getByte compressedData r;
          decode_loop fuel' compressedData dsk2rom qValue r (output ++ [b])
        else
          let '(g, r) := getInterlacedEliasGamma compressedData r in
          let length_ := g + 1 in
          if ((length_ =? END_MARKER_NORMAL)
              || (dsk2rom && (length_ =? END_MARKER_DSK2ROM)))%bool
          then Ok output
          else
            '(offset, r) ← read_offset compressedData qValue r;
            output ← copy_loop (Z.to_nat length_) offset output;
            decode_loop fuel' compressedData dsk2rom qValue r output
      else Ok output
  end.

Definition decompress (compressedData : list Z) (dsk2rom : bool) : result (list Z) :=
  let r := mkReader 0 0 7 in
  let '(qValue, r) :=
    if dsk2rom then (2, r)
    else
      let '(b2, r) := getBit compressedData r in
      let '(b1, r) := getBit compressedData r in
      let '(b0, r) := getBit compressedData r in
      (Z.lor (Z.lor (Z.shiftl b2 2) (Z.shiftl b1 1)) b0 + 1, r) in
  '(firstByte, r) ← getByte compressedData r;
  let output := [firstByte] in
  let r := mkReader (if dsk2rom then 1 else 2) (varPosition r) (bitForVarPosition r) in
  output ← decode_loop (8 * length compressedData + 8) compressedData dsk2rom qValue r output;
  Ok (to_u8 output).

End Pletter.

(** ** DAN1  (src/js/codecs/dan1.js) *)

Module DAN1.

Definition MAX_LEN : Z := 2 ^ 16 - 1.
Definition BIT_OFFSET1 : Z := 1.
Definition BIT_OFFSET2 : Z := 4.
Definition BIT_OFFSET3 : Z := 8.
Definition BIT_OFFSET4 : Z := 12.
Definition MAX_OFFSET1 : Z := 2 ^ BIT_OFFSET1.
Definition MAX_OFFSET2 : Z := MAX_OFFSET1 + 2 ^ BIT_OFFSET2.
Definition MAX_OFFSET3 : Z := MAX_OFFSET2 + 2 ^ BIT_OFFSET3.
Definition MAX_OFFSET : Z := MAX_OFFSET3 + 2 ^ BIT_OFFSET4.
Definition RLE_MIN : Z := 27.
Definition RLE_RANGE : Z := 256.

(** The part of the instance that survives a call and is read by the next:
    [MAX] (the constructor's argument, default 512 KiB), the flag [bRLE], and
    the work buffer [data_src], a [Uint8Array(MAX)] shared by [compress] and
    [decompress]. The list holds the prefix of the buffer written so far;
    the rest of the buffer is still 0. *)
Record codec : Type := mkCodec { MAX : Z; bRLE : bool; data_src : list Z }.

Definition constructor (maxSize : Z) : codec := mkCodec maxSize false [].
Definition default_codec : codec := constructor (512 * 1024).

(** [data_src.set(bytes)]. *)
Definition load (bytes : list Z) (c : codec) : codec :=
  mkCodec (MAX c) (bRLE c) (bytes ++ drop (length bytes) (data_src c)).

(** [this.data_src[i]]; a slot never written, or outside the buffer, gives 0
    under the masks the code applies. *)
Definition src (c : codec) (i : nat) : Z := default 0 (data_src c !! i).

(** *** The bit writer over [data_dest]: [dest] is [data_dest[0 .. index_dest)]. *)
Record writer : Type := mkWriter { dest : list Z; w_mask : Z; w_index : nat }.

Definition resetWriter : writer := mkWriter [] 0 0.

Definition writeByte (v : Z) (w : writer) : writer :=
  mkWriter (dest w ++ [Z.land v 0xFF]) (w_mask w) (w_index w).

(** [bit] is used for its truthiness. *)
Definition writeBit (bit : Z) (w : writer) : writer :=
  let w := if w_mask w =? 0
           then writeByte 0 (mkWriter (dest w) 128 (length (dest w))) else w in
  let d := if bit =? 0 then dest w
           else <[w_index w := Z.lor (get (dest w) (w_index w)) (w_mask w)]> (dest w) in
  mkWriter d (Z.shiftr (w_mask w) 1) (w_index w).

(** [_writeBits]: [mask] starts at [2 ^ size]. *)
Fixpoint writeBits_loop (fuel : nat) (value mask : Z) (w : writer) : writer :=
  match fuel with
  | O => w
  | S fuel' =>
      if 1 <? mask then
        let mask := Z.shiftr mask 1 in
        writeBits_loop fuel' value mask (writeBit (Z.land value mask) w)
      else w
  end.

Definition writeBits (value : Z) (size : Z) (w : writer) : writer :=
  writeBits_loop (Z.to_nat size) value (Z.shiftl 1 size) w.

(** [for (i = 2; i <= value; i <<= 1) this._writeBit(0)]: returns the final [i]. *)
Fixpoint gamma_zeros (fuel : nat) (value i : Z) (w : writer) : Z * writer :=
  match fuel with
  | O => (i, w)
  | S fuel' =>
      if i <=? value then gamma_zeros fuel' value (Z.shiftl i 1) (writeBit 0 w)
      else (i, w)
  end.

(** [while ((i >>= 1) > 0) this._writeBit(value & i)]. *)
Fixpoint gamma_value (fuel : nat) (value i : Z) (w : writer) : writer :=
  match fuel with
  | O => w
  | S fuel' =>
      let i := Z.shiftr i 1 in
      if 0 <? i then gamma_value fuel' value i (writeBit (Z.land value i) w) else w
  end.

Definition writeEliasGamma (value : Z) (w : writer) : writer :=
  let '(i, w) := gamma_zeros 32 value 2 w in
  gamma_value 33 value i w.

Definition writeOffset (offset optionLen : Z) (w : writer) : writer :=
  let value := offset - 1 in
  if MAX_OFFSET3 <=? value then
    let w := writeBit 1 w in
    let value := value - MAX_OFFSET3 in
    let w := writeBits (Z.shiftr value 8) (BIT_OFFSET4 - 8) w in
    writeByte (Z.land value 0xFF) w
  else if MAX_OFFSET2 <=? value then
    let w := if 2 <? optionLen then writeBit 0 w else w in
    let w := writeBit 1 w in
    let value := value - MAX_OFFSET2 in
    writeByte (Z.land value 0xFF) w
  else if MAX_OFFSET1 <=? value then
    let w := if 2 <? optionLen then writeBit 0 w else w in
    let w := if 1 <? optionLen then writeBit 0 w else w in
    let w := writeBit 1 w in
    let value := value - MAX_OFFSET1 in
    writeBits value BIT_OFFSET2 w
  else
    let w := if 2 <? optionLen then writeBit 0 w else w in
    let w := if 1 <? optionLen then writeBit 0 w else w in
    let w := writeBit 0 w in
    writeBits value BIT_OFFSET1 w.

Definition writeDoublet (length_ offset : Z) (w : writer) : writer :=
  let w := writeBit 0 w in
  let w := writeEliasGamma length_ w in
  writeOffset offset length_ w.

Definition writeLiteralsLength (length_ : Z) (w : writer) : writer :=
  let w := writeBit 0 w in
  let w := writeBits 0 16 w in
  let w := writeBit 1 w in
  writeByte (length_ - RLE_MIN) w.

Definition writeLiteral (c : Z) (w : writer) : writer :=
  writeByte c (writeBit 1 w).

Definition writeEnd (w : writer) : writer :=
  let w := writeBit 0 w in
  let w := writeBits 0 16 w in
  writeBit 0 w.

(** *** Cost model *)

Fixpoint eliasGammaBits_loop (fuel : nat) (value bits : Z) : Z :=
  match fuel with
  | O => bits
  | S fuel' =>
      if 1 <? value then eliasGammaBits_loop fuel' (Z.shiftr value 1) (bits + 2) else bits
  end.

Definition eliasGammaBits (value : Z) : Z := eliasGammaBits_loop 32 value 1.

Definition countBits (offset len : Z) : Z :=
  let bits := 1 + eliasGammaBits len in
  if len =? 1 then
    bits + 1 + (if MAX_OFFSET1 <? offset then BIT_OFFSET2 else BIT_OFFSET1)
  else if len =? 2 then
    bits + 1 + (if MAX_OFFSET2 <? offset then BIT_OFFSET3
                else 1 + (if MAX_OFFSET1 <? offset then BIT_OFFSET2 else BIT_OFFSET1))
  else
    bits + 1 +
      (if MAX_OFFSET3 <? offset then BIT_OFFSET4
       else 1 + (if MAX_OFFSET2 <? offset then BIT_OFFSET3
                 else 1 + (if MAX_OFFSET1 <? offset then BIT_OFFSET2 else BIT_OFFSET1))).

(** *** Encoder *)

(** One element of [optimals]. *)
Record optimal : Type := mkOpt { bits : Z; offset : Z; len : Z }.

Definition opt_at (optimals : list optimal) (i : Z) : optimal :=
  default (mkOpt 0 0 0) (optimals !! Z.to_nat i).

(** The DP state: [optimals], and the hash chains [match_heads] (-1 where
    absent) and [match_prev]. *)
Record dp : Type := mkDp
  { optimals : list optimal; match_heads : gmap Z Z; match_prev : list Z }.

Definition head_of (d : dp) (key : Z) : Z := default (-1) (match_heads d !! key).
Definition prev_of (d : dp) (pos : Z) : Z := default 0 (match_prev d !! Z.to_nat pos).

Definition set_opt (i : Z) (o : optimal) (d : dp) : dp :=
  mkDp (<[Z.to_nat i := o]> (optimals d)) (match_heads d) (match_prev d).

(** The string-of-literals candidates, [for (let k = j; k > RLE_MIN - 1; k--)]. *)
Definition rle_candidates (i : Z) (d : dp) : dp :=
  let j := RLE_RANGE + RLE_MIN in
  let j := if i <? j then i else j in
  fold_left (fun d k =>
      let k := Z.of_nat k in
      let cost := bits (opt_at (optimals d) (i - k)) + (1 + 16 + 1 + 8) + k * 8 in
      if cost <? bits (opt_at (optimals d) i) then set_opt i (mkOpt cost 0 k) d else d)
    (rev (seq (Z.to_nat RLE_MIN) (Z.to_nat (j - RLE_MIN + 1)))) d.

(** The length-1 match, [for (let k = 1; k <= limit1; k++)], left at the
    first offset whose byte equals the current one. *)
Fixpoint len1_loop (n : nat) (c : codec) (i k limit1 : Z) (d : dp) : dp :=
  match n with
  | O => d
  | S n' =>
      if k <=? limit1 then
        if src c (Z.to_nat i) =? src c (Z.to_nat (i - k)) then
          let cost := bits (opt_at (optimals d) (i - 1)) + countBits k 1 in
          if cost <? bits (opt_at (optimals d) i) then set_opt i (mkOpt cost k 1) d else d
        else len1_loop n' c i (k + 1) limit1 d
      else d
  end.

(** [for (len = 2; len <= MAX_LEN; len++)] at one chain node: returns the
    [len] the loop is left with, [best_len] and the tables. *)
Fixpoint extend_loop (fuel : nat) (c : codec) (i offset_ len_ best_len : Z) (d : dp)
    : Z * Z * dp :=
  match fuel with
  | O => (len_, best_len, d)
  | S fuel' =>
      if len_ <=? MAX_LEN then
        let '(best_len, d) :=
          if best_len <? len_ then
            if negb ((len_ =? 2) && (MAX_OFFSET3 <? offset_)) then
              let cost := bits (opt_at (optimals d) (i - len_)) + countBits offset_ len_ in
              (len_,
               if cost <? bits (opt_at (optimals d) i)
               then set_opt i (mkOpt cost offset_ len_) d else d)
            else (best_len, d)
          else (best_len, d) in
        if ((i <? offset_ + len_)
            || negb (src c (Z.to_nat (i - len_)) =? src c (Z.to_nat (i - len_ - offset_))))%bool
        then (len_, best_len, d)
        else extend_loop fuel' c i offset_ (len_ + 1) best_len d
      else (len_, best_len, d)
  end.

(** The fast-forward [while (p !== -1)] of the skip step: [Some pos'] when
    the walk ends with [p !== -1] ([pos'] is the new [pos], or the old one),
    [None] when it runs off the chain. *)
Fixpoint skip_loop (fuel : nat) (i len_ steps p pos : Z) (d : dp) : option Z :=
  match fuel with
  | O => Some pos
  | S fuel' =>
      if p =? -1 then None
      else
        let off2 := i - p in
        if MAX_OFFSET <? off2 then Some pos
        else
          let steps := steps + 1 in
          if steps =? len_ then Some p
          else skip_loop fuel' i len_ steps (prev_of d p) pos d
  end.

(** [while (pos !== -1 && best_len < MAX_LEN)]: the positions on a chain
    decrease, so [i] rounds are enough. *)
Fixpoint chain_loop (fuel : nat) (c : codec) (i pos best_len : Z) (d : dp) : dp :=
  match fuel with
  | O => d
  | S fuel' =>
      if (negb (pos =? -1) && (best_len <? MAX_LEN))%bool then
        let offset_ := i - pos in
        if MAX_OFFSET <? offset_ then d
        else
          let '(len_, best_len, d) :=
            extend_loop (Z.to_nat i + 1) c i offset_ 2 best_len d in
          let next := prev_of d pos in
          let walked :=
            if ((6 <? len_) && (len_ =? best_len - 1) && negb (next =? -1)
                && (pos =? next + 1))%bool
            then skip_loop (Z.to_nat i + 1) i len_ 1 next pos d
            else Some pos in
          match walked with
          | None => d
          | Some pos => chain_loop fuel' c i (prev_of d pos) best_len d
          end
      else d
  end.

(** One round of the main loop, [for (let i = 1; i < this.index_src; i++)]. *)
Definition dp_step (c : codec) (d : dp) (i : nat) : dp :=
  let i := Z.of_nat i in
  let d := set_opt i (mkOpt (bits (opt_at (optimals d) (i - 1)) + 1 + 8) 0 1) d in
  let d := if (bRLE c && (RLE_MIN <=? i))%bool then rle_candidates i d else d in
  let limit1 := if i <? MAX_OFFSET2 then i else MAX_OFFSET2 in
  let d := len1_loop (Z.to_nat limit1) c i 1 limit1 d in
  let key := Z.land (Z.lor (Z.shiftl (src c (Z.to_nat (i - 1))) 8) (src c (Z.to_nat i))) 0xFFFF in
  let d := chain_loop (Z.to_nat i + 1) c i (head_of d key) 1 d in
  mkDp (optimals d) (<[key := i]> (match_heads d))
    (<[Z.to_nat i := head_of d key]> (match_prev d)).

(** [_cleanupOptimals]: [while (i > 1)]. *)
Fixpoint cleanup_loop (fuel : nat) (i : Z) (optimals : list optimal)
    : result (list optimal) :=
  if 1 <? i then
    match fuel with
    | O => Throw FuelExhausted
    | S fuel' =>
        let len_ := len (opt_at optimals i) in
        let optimals :=
          fold_left (fun optimals j =>
              <[j := mkOpt (bits (opt_at optimals (Z.of_nat j))) 0 0]> optimals)
            (rev (seq (Z.to_nat (i - len_ + 1)) (Z.to_nat (len_ - 1)))) optimals in
        cleanup_loop fuel' (i - len_) optimals
    end
  else Ok optimals.

(** [_writeLZStream], up to the final copy out of [data_dest]. *)
Definition writeLZStream (c : codec) (index_src : nat) (optimals : list optimal)
    : writer :=
  let w := resetWriter in
  let w := writeByte (src c 0) w in
  let w :=
    fold_left (fun w i =>
        let opt := opt_at optimals (Z.of_nat i) in
        if len opt <=? 0 then w
        else
          let start := Z.of_nat i - len opt + 1 in
          if offset opt =? 0 then
            if len opt =? 1 then writeLiteral (src c (Z.to_nat start)) w
            else
              let w := writeLiteralsLength (len opt) w in
              fold_left (fun w k => writeByte (src c (Z.to_nat start + k)) w)
                (seq 0 (Z.to_nat (len opt))) w
          else writeDoublet (len opt) (offset opt) w)
      (seq 1 (index_src - 1)) w in
  writeEnd w.

(** [data_dest] is a [Uint8Array(2 * MAX)]: a store behind its end is
    dropped, and the final [slice] stops at its end. *)
Definition out_of_dest (c : codec) (dest : list Z) : list Z :=
  take (Z.to_nat (2 * MAX c)) dest.

(** [compress(inputData, { rle })]: the new state of the instance and the
    result. [rle = None] is an absent option. *)
Definition compress (c : codec) (inputData : list Z) (rle : option bool)
    : codec * result (list Z) :=
  let inputData := to_u8 inputData in
  if (length inputData =? 0)%nat then (c, Ok [])
  else if MAX c <? Z.of_nat (length inputData) then (c, Throw InputTooLarge)
  else
    let c := mkCodec (MAX c) (default (bRLE c) rle) (data_src c) in
    let index_src := length inputData in
    let c := load inputData c in
    let d := mkDp (<[0%nat := mkOpt 8 0 1]> (replicate index_src (mkOpt 0x7fffffff 0 0)))
               ∅ (replicate index_src 0) in
    let d := fold_left (dp_step c) (seq 1 (index_src - 1)) d in
    (c,
     optimals ← cleanup_loop index_src (Z.of_nat index_src - 1) (optimals d);
     Ok (out_of_dest c (dest (writeLZStream c index_src optimals)))).

(** *** Decoder *)

(** The reader over [data_src]. *)
Record reader : Type := mkReader { index_src : nat; r_mask : Z; r_index : nat }.

Definition readByte (c : codec) (r : reader) : Z * reader :=
  (Z.land (src c (index_src r)) 0xFF, mkReader (S (index_src r)) (r_mask r) (r_index r)).

Definition readBit (c : codec) (r : reader) : Z * reader :=
  let r := if r_mask r =? 0 then mkReader (S (index_src r)) 128 (index_src r) else r in
  let bit := if Z.land (src c (r_index r)) (r_mask r) =? 0 then 0 else 1 in
  (bit, mkReader (index_src r) (Z.shiftr (r_mask r) 1) (r_index r)).

Fixpoint readBits (n : nat) (c : codec) (v : Z) (r : reader) : Z * reader :=
  match n with
  | O => (v, r)
  | S n' =>
      let '(b, r) := readBit c r in
      readBits n' c (Z.lor (Z.shiftl v 1) b) r
  end.

Definition readNibble (c : codec) (r : reader) : Z * reader := readBits 4 c 0 r.

(** [while (counter < 17) { b = readBit(); counter++; if (b === 1) break; }] *)
Fixpoint gamma_count (fuel : nat) (c : codec) (counter : Z) (r : reader) : Z * reader :=
  match fuel with
  | O => (counter, r)
  | S fuel' =>
      if counter <? 17 then
        let '(b, r) := readBit c r in
        let counter := counter + 1 in
        if b =? 1 then (counter, r) else gamma_count fuel' c counter r
      else (counter, r)
  end.

Definition readEliasGamma (c : codec) (r : reader) : Z * reader :=
  let '(counter, r) := gamma_count 17 c 0 r in
  if 17 <=? counter then (0, r)
  else readBits (Z.to_nat (counter - 1)) c 1 r.

Definition readOffset (c : codec) (optionLen : Z) (r : reader) : Z * reader :=
  let tier3 :=
    if 2 <? optionLen then
      let '(b, r) := readBit c r in
      if b =? 0 then inr r
      else
        let '(n, r) := readNibble c r in
        let hi := n + 1 in
        let '(lo, r) := readByte c r in
        inl (Z.shiftl hi 8 + lo + 18, r)
    else inr r in
  match tier3 with
  | inl res => res
  | inr r =>
      let tier2 :=
        if 1 <? optionLen then
          let '(b, r) := readBit c r in
          if b =? 0 then inr r
          else
            let '(v, r) := readByte c r in
            inl (v + 18, r)
        else inr r in
      match tier2 with
      | inl res => res
      | inr r =>
          let '(b, r) := readBit c r in
          if b =? 0 then
            let '(b, r) := readBit c r in
            ((if b =? 0 then 0 else 1), r)
          else
            let '(n, r) := readNibble c r in
            (n + 2, r)
      end
  end.

(** [for (let i = 0; i < len; i++) data_dest[index_dest + i] = data_dest[from + i]],
    on the list of the bytes written so far. *)
Definition copy (dest : list Z) (from : nat) (len_ : nat) : list Z :=
  fold_left (fun dest i => dest ++ [get dest (from + i)]) (seq 0 len_) dest.

(** [while (this.index_src <= compressed.length)]: every round reads a bit. *)
Fixpoint decode_loop (fuel : nat) (c : codec) (clen : nat) (r : reader) (dest : list Z)
    : result (list Z) :=
  match fuel with
  | O => Throw FuelExhausted
  | S fuel' =>
      if (index_src r <=? clen)%nat then
        let '(tag, r) := readBit c r in
        if tag =? 1 then
          let '(b, r) := readByte c r in
          decode_loop fuel' c clen r (dest ++ [b])
        else
          let '(len_, r) := readEliasGamma c r in
          if negb (len_ =? 0) then
            let '(value, r) := readOffset c len_ r in
            let from := Z.of_nat (length dest) - value - 1 in
            if from <? 0 then Throw InvalidBackReference
            else decode_loop fuel' c clen r (copy dest (Z.to_nat from) (Z.to_nat len_))
          else
            let '(b, r) := readBit c r in
            if b =? 1 then
              let '(v, r) := readByte c r in
              let rleLen := v + RLE_MIN in
              let '(r, dest) :=
                fold_left (fun '(r, dest) _ =>
                    let '(b, r) := readByte c r in (r, dest ++ [b]))
                  (seq 0 (Z.to_nat rleLen)) (r, dest) in
              decode_loop fuel' c clen r dest
            else Ok dest
      else Ok dest
  end.

(** [decompress(compressed)]: the new state of the instance and the result. *)
Definition decompress (c : codec) (compressed : list Z) : codec * result (list Z) :=
  let compressed := to_u8 compressed in
  if MAX c <? Z.of_nat (length compressed) then (c, Throw RangeError)
  else
    let c := load compressed c in
    if (length compressed =? 0)%nat then (c, Ok [])
    else
      let '(b, r) := readByte c (mkReader 0 0 0) in
      (c,
       dest ← decode_loop (8 * (length compressed + 2)) c (length compressed) r [b];
       Ok (out_of_dest c dest)).

(** [decompress(compress(x, { rle }))] on one instance, as the validation
    pass of the application runs it. *)
Definition round_trip (c : codec) (x : list Z) (rle : option bool) : result (list Z) :=
  let '(c, compressed) := compress c x rle in
  compressed ← compressed;
  snd (decompress c compressed).

End DAN1.

(** ** ZX7  (src/js/codecs/zx7.js) *)

Module ZX7.

Definition MAX_LEN : Z := 65536.
Definition BIT_OFFSET1 : Z := 7.
Definition BIT_OFFSET2 : Z := 11.
Definition MAX_OFFSET1 : Z := 128.
Definition MAX_OFFSET2 : Z := MAX_OFFSET1 + 2048.

(** *** The bit writer over [dataDest] (same discipline as DAN1's). *)
Record writer : Type := mkWriter { dest : list Z; bitMask : Z; bitIndex : nat }.

Definition writeByte (value : Z) (w : writer) : writer :=
  mkWriter (dest w ++ [Z.land value 0xFF]) (bitMask w) (bitIndex w).

Definition writeBit (value : Z) (w : writer) : writer :=
  let w := if bitMask w =? 0
           then writeByte 0 (mkWriter (dest w) 128 (length (dest w))) else w in
  let d := if value =? 0 then dest w
           else <[bitIndex w := Z.lor (get (dest w) (bitIndex w)) (bitMask w)]> (dest w) in
  mkWriter d (Z.shiftr (bitMask w) 1) (bitIndex w).

Fixpoint writeBits_loop (fuel : nat) (value mask : Z) (w : writer) : writer :=
  match fuel with
  | O => w
  | S fuel' =>
      if 1 <? mask then
        let mask := Z.shiftr mask 1 in
        writeBits_loop fuel' value mask (writeBit (Z.land value mask) w)
      else w
  end.

Definition writeBits (value size : Z) (w : writer) : writer :=
  writeBits_loop (Z.to_nat size) value (Z.shiftl 1 size) w.

Fixpoint gamma_zeros (fuel : nat) (value i : Z) (w : writer) : Z * writer :=
  match fuel with
  | O => (i, w)
  | S fuel' =>
      if i <=? value then gamma_zeros fuel' value (Z.shiftl i 1) (writeBit 0 w)
      else (i, w)
  end.

Fixpoint gamma_value (fuel : nat) (value i : Z) (w : writer) : writer :=
  match fuel with
  | O => w
  | S fuel' =>
      let i := Z.shiftr i 1 in
      if 0 <? i then gamma_value fuel' value i (writeBit (Z.land value i) w) else w
  end.

Definition writeEliasGamma (value : Z) (w : writer) : writer :=
  let '(i, w) := gamma_zeros 32 value 2 w in
  gamma_value 33 value i w.

Definition writeOffset (offset : Z) (w : writer) : writer :=
  let offset := offset - 1 in
  if MAX_OFFSET1 <=? offset then
    let offset := offset - MAX_OFFSET1 in
    let high := offset / MAX_OFFSET1 in
    let low := offset mod MAX_OFFSET1 in
    let w := writeByte (Z.lor low 0x80) w in
    writeBits high 4 w
  else writeByte offset w.

Definition writeDoublet (length_ offset : Z) (w : writer) : writer :=
  let w := writeBit 1 w in
  let w := writeEliasGamma (length_ - 1) w in
  writeOffset offset w.

Definition writeEnd (w : writer) : writer :=
  let w := writeBit 1 w in
  let w := writeBits 0 16 w in
  writeBit 1 w.

Definition writeLiteral (c : Z) (w : writer) : writer :=
  writeByte c (writeBit 0 w).

Definition eliasGammaBits (value : Z) : Z := DAN1.eliasGammaBits_loop 32 value 1.

Definition countBits (offset len : Z) : Z :=
  let bits := 1 + eliasGammaBits (len - 1) in
  bits + 1 + (if MAX_OFFSET1 <? offset then BIT_OFFSET2 else BIT_OFFSET1).

(** *** Encoder *)

Record optimal : Type := mkOpt { bits : Z; offset : Z; len : Z }.

Definition opt_at (optimals : list optimal) (i : Z) : optimal :=
  default (mkOpt 0 0 0) (optimals !! Z.to_nat i).

(** [matches[key]] is a linked list of nodes [{ index, next }] that ends in a
    node whose [next] is [null]; the list of the [index] fields of the nodes
    before that last one, newest first, stands for it. *)
Record dp : Type := mkDp { optimals : list optimal; matches : gmap Z (list Z) }.

Definition chain_of (d : dp) (key : Z) : list Z := default [] (matches d !! key).

Definition set_opt (i : Z) (o : optimal) (d : dp) : dp :=
  mkDp (<[Z.to_nat i := o]> (optimals d)) (matches d).

(** [for (let k = 1; k <= j; k++)], left when a length-1 match improves. *)
Fixpoint len1_loop (n : nat) (data : list Z) (i k j : Z) (d : dp) : dp :=
  match n with
  | O => d
  | S n' =>
      if k <=? j then
        if js_eq (at_ data (Z.to_nat i)) (at_ data (Z.to_nat (i - k))) then
          let tempBits := bits (opt_at (optimals d) (i - 1)) + countBits k 1 in
          if tempBits <? bits (opt_at (optimals d) i)
          then set_opt i (mkOpt tempBits k 1) d
          else len1_loop n' data i (k + 1) j d
        else len1_loop n' data i (k + 1) j d
      else d
  end.

(** [for (len = 2; len <= this.MAX_LEN; len++)] at one node. *)
Fixpoint extend_loop (fuel : nat) (data : list Z) (i offset_ len_ bestLen : Z) (d : dp)
    : Z * dp :=
  match fuel with
  | O => (bestLen, d)
  | S fuel' =>
      if len_ <=? MAX_LEN then
        let '(bestLen, d) :=
          if bestLen <? len_ then
            let tempBits := bits (opt_at (optimals d) (i - len_)) + countBits offset_ len_ in
            (len_,
             if tempBits <? bits (opt_at (optimals d) i)
             then set_opt i (mkOpt tempBits offset_ len_) d else d)
          else (bestLen, d) in
        if ((i <? offset_ + len_)
            || negb (js_eq (at_ data (Z.to_nat (i - len_)))
                           (at_ data (Z.to_nat (i - len_ - offset_)))))%bool
        then (bestLen, d)
        else extend_loop fuel' data i offset_ (len_ + 1) bestLen d
      else (bestLen, d)
  end.

(** [while (match.next !== null && bestLen < this.MAX_LEN)]: [kept] counts
    the nodes passed; [Some kept] reports a [_flushMatch] at the node
    reached, which cuts the chain there. *)
Fixpoint chain_loop (chain : list Z) (data : list Z) (i bestLen : Z) (kept : nat) (d : dp)
    : option nat * dp :=
  match chain with
  | [] => (None, d)
  | index :: rest =>
      if bestLen <? MAX_LEN then
        let offset_ := i - index in
        if MAX_OFFSET2 <? offset_ then (Some kept, d)
        else
          let '(bestLen, d) := extend_loop (Z.to_nat i + 1) data i offset_ 2 bestLen d in
          chain_loop rest data i bestLen (S kept) d
      else (None, d)
  end.

Definition dp_step (data : list Z) (d : dp) (i : nat) : dp :=
  let i := Z.of_nat i in
  let d := set_opt i (mkOpt (bits (opt_at (optimals d) (i - 1)) + 1 + 8) 0 1) d in
  let j := if i <? MAX_OFFSET2 then i else MAX_OFFSET2 in
  let d := len1_loop (Z.to_nat j) data i 1 j d in
  let matchIndex := Z.lor (Z.shiftl (get data (Z.to_nat (i - 1))) 8) (get data (Z.to_nat i)) in
  let chain := chain_of d matchIndex in
  let '(flushed, d) := chain_loop chain data i 1 0 d in
  let chain := match flushed with Some kept => take kept chain | None => chain end in
  mkDp (optimals d) (<[matchIndex := i :: chain]> (matches d)).

(** The clean-up [while (i > 1)]. *)
Fixpoint cleanup_loop (fuel : nat) (i : Z) (optimals : list optimal)
    : result (list optimal) :=
  if 1 <? i then
    match fuel with
    | O => Throw FuelExhausted
    | S fuel' =>
        let len_ := len (opt_at optimals i) in
        let optimals :=
          fold_left (fun optimals j =>
              <[j := mkOpt (bits (opt_at optimals (Z.of_nat j))) 0 0]> optimals)
            (rev (seq (Z.to_nat (i - len_ + 1)) (Z.to_nat (len_ - 1)))) optimals in
        cleanup_loop fuel' (i - len_) optimals
    end
  else Ok optimals.

Definition write_stream (dataSrc : list Z) (optimals : list optimal) : writer :=
  let w := writeByte (get dataSrc 0) (mkWriter [] 0 0) in
  let w :=
    fold_left (fun w i =>
        let opt := opt_at optimals (Z.of_nat i) in
        if 0 <? len opt then
          let index := Z.of_nat i - len opt + 1 in
          if offset opt =? 0 then writeLiteral (get dataSrc (Z.to_nat index)) w
          else writeDoublet (len opt) (offset opt) w
        else w)
      (seq 1 (length dataSrc - 1)) w in
  writeEnd w.

(** [dataDest] is a [Uint8Array(512 * 1024)]. *)
Definition compress (data : list Z) : result (list Z) :=
  if (length data =? 0)%nat then Ok []
  else
    let dataSrc := to_u8 data in
    let indexSrc := length data in
    let d := mkDp (<[0%nat := mkOpt 8 0 1]> (replicate indexSrc (mkOpt 0 0 0))) ∅ in
    let d := fold_left (dp_step dataSrc) (seq 1 (indexSrc - 1)) d in
    optimals ← cleanup_loop indexSrc (Z.of_nat indexSrc - 1) (optimals d);
    Ok (take (Z.to_nat (512 * 1024)) (dest (write_stream dataSrc optimals))).

(** *** Decoder, written over the Z80 registers [regA] and [flagCarry]. *)
Record reader : Type := mkReader { inputIndex : nat; regA : Z; flagCarry : Z }.

Definition readByte (compressedData : list Z) (r : reader) : result (Z * reader) :=
  if (length compressedData <=? inputIndex r)%nat then Throw TruncatedStream
  else Ok (get compressedData (inputIndex r),
           mkReader (S (inputIndex r)) (regA r) (flagCarry r)).

(** [updateFlags]: the new state and the zero flag. *)
Definition updateFlags (r : reader) : bool * reader :=
  let carry := if Z.land (regA r) 0x100 =? 0 then 0 else 1 in
  let a := Z.land (regA r) 0xFF in
  (a =? 0, mkReader (inputIndex r) a carry).

Definition sla (r : reader) : bool * reader :=
  updateFlags (mkReader (inputIndex r) (Z.shiftl (regA r) 1) (flagCarry r)).

(** [readBit]: the bit is left in [flagCarry]. *)
Definition readBit (compressedData : list Z) (r : reader) : result reader :=
  let '(flagZero, r) := sla r in
  if flagZero then
    '(b, r) ← readByte compressedData r;
    let '(_, r) := sla (mkReader (inputIndex r) b (flagCarry r)) in
    Ok (mkReader (inputIndex r) (Z.lor (regA r) 1) (flagCarry r))
  else Ok r.

(** [while (flagCarry === 0) { readBit(); counter++; if (counter === 17) break; }] *)
Fixpoint gamma_count (fuel : nat) (compressedData : list Z) (counter : Z) (r : reader)
    : result (Z * reader) :=
  match fuel with
  | O => Ok (counter, r)
  | S fuel' =>
      if flagCarry r =? 0 then
        r ← readBit compressedData r;
        let counter := counter + 1 in
        if counter =? 17 then Ok (counter, r)
        else gamma_count fuel' compressedData counter r
      else Ok (counter, r)
  end.

(** The loops that shift the bits read into a value. *)
Fixpoint read_into (n : nat) (compressedData : list Z) (v : Z) (r : reader)
    : result (Z * reader) :=
  match n with
  | O => Ok (v, r)
  | S n' =>
      r ← readBit compressedData r;
      let v := Z.shiftl v 1 in
      let v := if flagCarry r =? 0 then v else Z.lor v 1 in
      read_into n' compressedData v r
  end.

Definition readEliasGamma (compressedData : list Z) (r : reader) : result (Z * reader) :=
  let r := mkReader (inputIndex r) (regA r) 0 in
  '(counter, r) ← gamma_count 17 compressedData 0 r;
  if counter <? 17 then read_into (Z.to_nat (counter - 1)) compressedData 1 r
  else Ok (0, r).

Definition readOffset (compressedData : list Z) (r : reader) : result (Z * reader) :=
  '(offsetLow, r) ← readByte compressedData r;
  if 127 <? offsetLow then
    '(offsetHi, r) ← read_into 4 compressedData 0 r;
    Ok (Z.shiftl offsetHi 7 + Z.land offsetLow 0x7F + MAX_OFFSET1 + 1, r)
  else Ok (offsetLow + 1, r).

Definition copy (output : list Z) (offset_ : Z) (length_ : nat) : list Z :=
  fold_left (fun output _ =>
      output ++ [get output (Z.to_nat (Z.of_nat (length output) - offset_))])
    (seq 0 length_) output.

(** [while (inputIndex < compressedData.length)]: every round reads a bit. *)
Fixpoint decode_loop (fuel : nat) (compressedData : list Z) (r : reader)
    (output : list Z) : result (list Z) :=
  match fuel with
  | O => Throw FuelExhausted
  | S fuel' =>
      if (inputIndex r <? length compressedData)%nat then
        r ← readBit compressedData r;
        if flagCarry r =? 0 then
          '(b, r) ← readByte compressedData r;
          decode_loop fuel' compressedData r (output ++ [b])
        else
          '(matchLength, r) ← readEliasGamma compressedData r;
          if matchLength =? 0 then Ok output
          else
            let length_ := matchLength + 1 in
            '(offset_, r) ← readOffset compressedData r;
            if Z.of_nat (length output) <? offset_ then Throw InvalidBackReference
            else decode_loop fuel' compressedData r (copy output offset_ (Z.to_nat length_))
      else Ok output
  end.

Definition decompress (compressedData : list Z) : result (list Z) :=
  if (length compressedData =? 0)%nat then Ok []
  else
    '(b, r) ← readByte compressedData (mkReader 0 128 0);
    output ← decode_loop (8 * length compressedData + 8) compressedData r [b];
    Ok (to_u8 output).

End ZX7.

(** ** ZX0  (ZX0Codec) *)

Module ZX0.

Definition MAX_OFFSET_ZX0 : Z := 32640.
Definition MAX_OFFSET_ZX7 : Z := 2176.
Definition INITIAL_OFFSET : Z := 1.

(** The options object; [skip = 0] and [false] stand for absent fields. *)
Record options : Type := mkOptions
  { skip : Z; backwards : bool; classic : bool; quick : bool }.

Definition no_options : options := mkOptions 0 false false false.

(** [createBlock]: the blocks form chains through [chain]. *)
Inductive block : Type :=
  | Block (bits index offset : Z) (chain : option block).

Definition b_bits (b : block) : Z := match b with Block x _ _ _ => x end.
Definition b_index (b : block) : Z := match b with Block _ x _ _ => x end.
Definition b_offset (b : block) : Z := match b with Block _ _ x _ => x end.
Definition b_chain (b : block) : option block := match b with Block _ _ _ x => x end.

Definition eliasGammaBits (value : Z) : Z := DAN1.eliasGammaBits_loop 64 value 1.

(** The arrays of [optimize]. *)
Record tables : Type := mkTables
  { lastLiteral : list (option block);
    lastMatch : list (option block);
    optimal : list (option block);
    matchLength : list Z;
    bestLength : list Z }.

Definition blk_at (a : list (option block)) (i : Z) : option block :=
  if i <? 0 then None else mjoin (a !! Z.to_nat i).
Definition z_at (a : list Z) (i : Z) : Z :=
  if i <? 0 then 0 else default 0 (a !! Z.to_nat i).

(** [optimal[i].bits]; reading [.bits] of [null] is a [TypeError]. *)
Definition optimal_bits (t : tables) (i : Z) : result Z :=
  match blk_at (optimal t) i with
  | Some b => Ok (b_bits b)
  | None => Throw TypeError
  end.

(** [optimalBlock === null || optimalBlock.bits > bits]. *)
Definition better (optimalBlock : option block) (bits : Z) : bool :=
  match optimalBlock with
  | None => true
  | Some b => bits <? b_bits b
  end.

(** The [do ... while (bestLengthSize < matchLength[offset])]. *)
Fixpoint bestLength_loop (fuel : nat) (index ml : Z) (bestLengthSize bits : Z)
    (t : tables) : result (Z * tables) :=
  match fuel with
  | O => Throw FuelExhausted
  | S fuel' =>
      let bestLengthSize := bestLengthSize + 1 in
      ob ← optimal_bits t (index - bestLengthSize);
      let bits2 := ob + eliasGammaBits (bestLengthSize - 1) in
      let '(bl, bits) :=
        if bits2 <=? bits then (bestLengthSize, bits2)
        else (z_at (bestLength t) (bestLengthSize - 1), bits) in
      let t := mkTables (lastLiteral t) (lastMatch t) (optimal t) (matchLength t)
                 (<[Z.to_nat bestLengthSize := bl]> (bestLength t)) in
      if bestLengthSize <? ml then bestLength_loop fuel' index ml bestLengthSize bits t
      else Ok (bestLengthSize, t)
  end.

(** The body of [for (let offset = initialOffset; offset <= finalOffset; offset++)]:
    the state is [bestLengthSize], [optimalBlock] and the arrays. *)
Definition offset_step (index skip : Z) (input : list Z)
    (st : Z * option block * tables) (offset : Z) : result (Z * option block * tables) :=
  let '(bestLengthSize, optimalBlock, t) := st in
  if (negb (index =? skip) && (offset <=? index)
      && js_eq (at_ input (Z.to_nat index)) (at_ input (Z.to_nat (index - offset))))%bool
  then
    let '(optimalBlock, t) :=
      match blk_at (lastLiteral t) offset with
      | Some ll =>
          let length_ := index - b_index ll in
          let bits := b_bits ll + 1 + eliasGammaBits length_ in
          let lm := Block bits index offset (Some ll) in
          let t := mkTables (lastLiteral t) (<[Z.to_nat offset := Some lm]> (lastMatch t))
                     (optimal t) (matchLength t) (bestLength t) in
          (if better optimalBlock bits then Some lm else optimalBlock, t)
      | None => (optimalBlock, t)
      end in
    let ml := z_at (matchLength t) offset + 1 in
    let t := mkTables (lastLiteral t) (lastMatch t) (optimal t)
               (<[Z.to_nat offset := ml]> (matchLength t)) (bestLength t) in
    if 1 <? ml then
      '(bestLengthSize, t) ←
        (if bestLengthSize <? ml then
           let bl := z_at (bestLength t) bestLengthSize in
           ob ← optimal_bits t (index - bl);
           bestLength_loop (Z.to_nat (ml - bestLengthSize)) index ml bestLengthSize
             (ob + eliasGammaBits (bl - 1)) t
         else Ok (bestLengthSize, t));
      let length_ := z_at (bestLength t) ml in
      match blk_at (optimal t) (index - length_) with
      | Some ob =>
          let bits := b_bits ob + 8 + eliasGammaBits ((offset - 1) / 128 + 1)
                      + eliasGammaBits (length_ - 1) in
          let replace :=
            match blk_at (lastMatch t) offset with
            | None => true
            | Some lm => (negb (b_index lm =? index) || (bits <? b_bits lm))%bool
            end in
          if replace then
            let lm := Block bits index offset (Some ob) in
            let t := mkTables (lastLiteral t) (<[Z.to_nat offset := Some lm]> (lastMatch t))
                       (optimal t) (matchLength t) (bestLength t) in
            Ok (bestLengthSize, (if better optimalBlock bits then Some lm else optimalBlock), t)
          else Ok (bestLengthSize, optimalBlock, t)
      | None => Ok (bestLengthSize, optimalBlock, t)
      end
    else Ok (bestLengthSize, optimalBlock, t)
  else
    let t := mkTables (lastLiteral t) (lastMatch t) (optimal t)
               (<[Z.to_nat offset := 0]> (matchLength t)) (bestLength t) in
    match blk_at (lastMatch t) offset with
    | Some lm =>
        let length_ := index - b_index lm in
        let bits := b_bits lm + 1 + eliasGammaBits length_ + length_ * 8 in
        let ll := Block bits index 0 (Some lm) in
        let t := mkTables (<[Z.to_nat offset := Some ll]> (lastLiteral t)) (lastMatch t)
                   (optimal t) (matchLength t) (bestLength t) in
        Ok (bestLengthSize, (if better optimalBlock bits then Some ll else optimalBlock), t)
    | None => Ok (bestLengthSize, optimalBlock, t)
    end.

Fixpoint offsets_loop (offsets : list nat) (index skip : Z) (input : list Z)
    (st : Z * option block * tables) : result (Z * option block * tables) :=
  match offsets with
  | [] => Ok st
  | offset :: rest =>
      st ← offset_step index skip input st (Z.of_nat offset);
      offsets_loop rest index skip input st
  end.

(** [processOptimalBlock]: the block found and the updated arrays. *)
Definition processOptimalBlock (initialOffset finalOffset index skip : Z)
    (input : list Z) (t : tables) : result (option block * tables) :=
  '(_, optimalBlock, t) ←
    offsets_loop (seq (Z.to_nat initialOffset) (Z.to_nat (finalOffset - initialOffset + 1)))
      index skip input (2, None, t);
  Ok (optimalBlock, t).

Fixpoint optimize_loop (indexes : list nat) (skip offsetLimit : Z) (input : list Z)
    (t : tables) : result tables :=
  match indexes with
  | [] => Ok t
  | index :: rest =>
      let index := Z.of_nat index in
      let maxOffset := Z.min (Z.max index INITIAL_OFFSET) offsetLimit in
      '(ob, t) ← processOptimalBlock 1 maxOffset index skip input t;
      let t := mkTables (lastLiteral t) (lastMatch t) (<[Z.to_nat index := ob]> (optimal t))
                 (matchLength t) (bestLength t) in
      optimize_loop rest skip offsetLimit input t
  end.

Definition optimize (input : list Z) (skip offsetLimit : Z) : result (option block) :=
  let n := Z.of_nat (length input) in
  let arraySize := Z.to_nat (Z.min (Z.max (n - 1) INITIAL_OFFSET) offsetLimit + 1) in
  let bestLength := replicate (length input) 0 in
  let bestLength := if 2 <? n then <[2%nat := 2]> bestLength else bestLength in
  let lastMatch :=
    <[Z.to_nat INITIAL_OFFSET := Some (Block (-1) (skip - 1) INITIAL_OFFSET None)]>
      (replicate arraySize None) in
  let t := mkTables (replicate arraySize None) lastMatch (replicate (length input) None)
             (replicate arraySize 0) bestLength in
  t ← optimize_loop (seq (Z.to_nat skip) (length input - Z.to_nat skip)) skip offsetLimit input t;
  Ok (blk_at (optimal t) (n - 1)).

(** *** Emitter *)

Record writer : Type := mkWriter
  { output : list Z; bitMask : Z; bitIndex : nat; backtrack : bool }.

Definition writeByte (value : Z) (w : writer) : writer :=
  mkWriter (output w ++ [Z.land value 0xff]) (bitMask w) (bitIndex w) (backtrack w).

(** With [backtrack] set the bit goes to the low bit of the last byte of
    [output]; on an empty [output] that store creates no element. *)
Definition writeBit (value : Z) (w : writer) : writer :=
  if backtrack w then
    let out :=
      if 0 <? value then
        match length (output w) with
        | O => output w
        | S k => <[k := Z.lor (get (output w) k) 1]> (output w)
        end
      else output w in
    mkWriter out (bitMask w) (bitIndex w) false
  else
    let w := if bitMask w =? 0
             then writeByte 0 (mkWriter (output w) 128 (length (output w)) false) else w in
    let out := if 0 <? value
               then <[bitIndex w := Z.lor (get (output w) (bitIndex w)) (bitMask w)]> (output w)
               else output w in
    mkWriter out (Z.shiftr (bitMask w) 1) (bitIndex w) false.

(** [let i = 2; while (i <= value) i <<= 1; i >>= 1]. *)
Fixpoint gamma_top (fuel : nat) (value i : Z) : Z :=
  match fuel with
  | O => Z.shiftr i 1
  | S fuel' => if i <=? value then gamma_top fuel' value (Z.shiftl i 1) else Z.shiftr i 1
  end.

(** [while ((i >>= 1) > 0) { writeBit(...); writeBit(...); }] *)
Fixpoint gamma_pairs (fuel : nat) (value i : Z) (backwardsMode invertMode : bool)
    (w : writer) : writer :=
  match fuel with
  | O => w
  | S fuel' =>
      let i := Z.shiftr i 1 in
      if 0 <? i then
        let w := writeBit (if backwardsMode then 1 else 0) w in
        let w := writeBit (if eqb invertMode (Z.land value i =? 0) then 1 else 0) w in
        gamma_pairs fuel' value i backwardsMode invertMode w
      else w
  end.

Definition writeInterlacedEliasGamma (value : Z) (backwardsMode invertMode : bool)
    (w : writer) : writer :=
  let i := gamma_top 64 value 2 in
  let w := gamma_pairs 64 value i backwardsMode invertMode w in
  writeBit (if negb backwardsMode then 1 else 0) w.

(** The chain that starts at [b], as the list of its blocks: [b] first. *)
Fixpoint chain_list (b : block) : list block :=
  match b with
  | Block _ _ _ None => [b]
  | Block _ _ _ (Some c) => b :: chain_list c
  end.

(** The emitter state next to the writer. *)
Record emitter : Type := mkEmitter { wr : writer; inputIndex : Z; lastOffset : Z }.

(** One round of [for (optimal = prev.chain; optimal !== null; prev = optimal, ...)]. *)
Definition emit_block (input : list Z) (backwardsMode invertMode : bool)
    (prev optimal : block) (e : emitter) : emitter :=
  let length_ := b_index optimal - b_index prev in
  let w := wr e in
  if b_offset optimal =? 0 then
    let w := writeBit 0 w in
    let w := writeInterlacedEliasGamma length_ backwardsMode false w in
    let w := fold_left (fun w k => writeByte (default 0 (at_ input (Z.to_nat (inputIndex e) + k))) w)
               (seq 0 (Z.to_nat length_)) w in
    mkEmitter w (inputIndex e + length_) (lastOffset e)
  else if b_offset optimal =? lastOffset e then
    let w := writeBit 0 w in
    let w := writeInterlacedEliasGamma length_ backwardsMode false w in
    mkEmitter w (inputIndex e + length_) (lastOffset e)
  else
    let w := writeBit 1 w in
    let w := writeInterlacedEliasGamma ((b_offset optimal - 1) / 128 + 1)
               backwardsMode invertMode w in
    let w := writeByte (if backwardsMode
                        then Z.shiftl ((b_offset optimal - 1) mod 128) 1
                        else Z.shiftl (127 - (b_offset optimal - 1) mod 128) 1) w in
    let w := mkWriter (output w) (bitMask w) (bitIndex w) true in
    let w := writeInterlacedEliasGamma (length_ - 1) backwardsMode false w in
    mkEmitter w (inputIndex e + length_) (b_offset optimal).

(** The walk over the reversed chain: [prev] and the blocks after it. *)
Fixpoint emit_chain (input : list Z) (backwardsMode invertMode : bool)
    (prev : block) (rest : list block) (e : emitter) : emitter :=
  match rest with
  | [] => e
  | optimal :: rest =>
      emit_chain input backwardsMode invertMode optimal rest
        (emit_block input backwardsMode invertMode prev optimal e)
  end.

(** [compressOptimal]: the chain is reversed first, then walked. *)
Definition compressOptimal (optimal : block) (input : list Z) (skip : Z)
    (backwardsMode invertMode : bool) : list Z :=
  match rev (chain_list optimal) with
  | [] => []
  | prev :: rest =>
      let e := mkEmitter (mkWriter [] 0 0 true) skip INITIAL_OFFSET in
      let e := emit_chain input backwardsMode invertMode prev rest e in
      let w := writeBit 1 (wr e) in
      let w := writeInterlacedEliasGamma 256 backwardsMode invertMode w in
      to_u8 (output w)
  end.

(** [reverseArray]. *)
Definition reverseArray (arr : list Z) : list Z := rev (to_u8 arr).

Definition compress (data : list Z) (o : options) : result (list Z) :=
  if (length data =? 0)%nat then Ok []
  else
    let backwardsMode := backwards o in
    let invertMode := (negb (classic o) && negb backwardsMode)%bool in
    let offsetLimit := if quick o then MAX_OFFSET_ZX7 else MAX_OFFSET_ZX0 in
    let input := to_u8 data in
    let input := if backwardsMode then reverseArray input else input in
    optimal ← optimize input (skip o) offsetLimit;
    match optimal with
    | None => Throw TypeError
    | Some optimal =>
        let result := compressOptimal optimal input (skip o) backwardsMode invertMode in
        Ok (if backwardsMode then reverseArray result else result)
    end.

(** *** Decoder *)

Record reader : Type := mkReader
  { index : nat; r_bitMask : Z; bitValue : Z; r_backtrack : bool }.

(** A byte behind the input reads as [undefined & 0xff], that is 0. *)
Definition readByte (input : list Z) (r : reader) : Z * reader :=
  (Z.land (default 0 (at_ input (index r))) 0xff,
   mkReader (S (index r)) (r_bitMask r) (bitValue r) (r_backtrack r)).

Definition readBit (input : list Z) (r : reader) : Z * reader :=
  if r_backtrack r then
    (Z.land (match index r with O => 0 | S k => default 0 (at_ input k) end) 0x01,
     mkReader (index r) (r_bitMask r) (bitValue r) false)
  else
    let m := Z.shiftr (r_bitMask r) 1 in
    let r := if m =? 0 then
               let '(b, r) := readByte input r in
               mkReader (index r) 128 b (r_backtrack r)
             else mkReader (index r) m (bitValue r) (r_backtrack r) in
    ((if Z.land (bitValue r) (r_bitMask r) =? 0 then 0 else 1), r).

(** [while (readBit() === (backwards ? 1 : 0)) value = (value << 1) | (...)]. *)
Fixpoint gamma_loop (fuel : nat) (input : list Z) (backwards_ inverted msb : bool)
    (value : Z) (r : reader) : result (Z * reader) :=
  match fuel with
  | O => Throw FuelExhausted
  | S fuel' =>
      let '(c, r) := readBit input r in
      if c =? (if backwards_ then 1 else 0) then
        let '(b, r) := readBit input r in
        let b := Z.lxor b (if (msb && inverted)%bool then 1 else 0) in
        gamma_loop fuel' input backwards_ inverted msb
          (BitBuster.to_i32 (Z.lor (Z.shiftl value 1) b)) r
      else Ok (value, r)
  end.

Definition readInterlacedEliasGamma (input : list Z) (backwards_ inverted msb : bool)
    (r : reader) : result (Z * reader) :=
  gamma_loop (8 * length input + 8) input backwards_ inverted msb 1 r.

Inductive state : Type := COPY_LITERALS | COPY_FROM_LAST_OFFSET | COPY_FROM_NEW_OFFSET.

(** [output.push(output[output.length - lastOffset])], [length] times; the
    array may receive [undefined]. *)
Definition copy (output : list (option Z)) (lastOffset_ : Z) (length_ : nat)
    : list (option Z) :=
  fold_left (fun output _ =>
      output ++ [LZF.out_at output (Z.of_nat (length output) - lastOffset_)])
    (seq 0 length_) output.

(** [while (state !== null)]; the input bounds the rounds of a stream that
    contains its end marker. *)
Fixpoint decode_loop (fuel : nat) (input : list Z) (backwards_ inverted : bool)
    (st : state) (r : reader) (lastOffset_ : Z) (output : list (option Z))
    : result (list (option Z)) :=
  match fuel with
  | O => Throw FuelExhausted
  | S fuel' =>
      match st with
      | COPY_LITERALS =>
          '(length_, r) ← readInterlacedEliasGamma input backwards_ inverted false r;
          let '(r, output) :=
            fold_left (fun '(r, output) _ =>
                let '(b, r) := readByte input r in (r, output ++ [Some b]))
              (seq 0 (Z.to_nat length_)) (r, output) in
          let '(b, r) := readBit input r in
          decode_loop fuel' input backwards_ inverted
            (if b =? 0 then COPY_FROM_LAST_OFFSET else COPY_FROM_NEW_OFFSET)
            r lastOffset_ output
      | COPY_FROM_LAST_OFFSET =>
          '(length_, r) ← readInterlacedEliasGamma input backwards_ inverted false r;
          let output := copy output lastOffset_ (Z.to_nat length_) in
          let '(b, r) := readBit input r in
          decode_loop fuel' input backwards_ inverted
            (if b =? 0 then COPY_LITERALS else COPY_FROM_NEW_OFFSET)
            r lastOffset_ output
      | COPY_FROM_NEW_OFFSET =>
          '(msb, r) ← readInterlacedEliasGamma input backwards_ inverted true r;
          if msb =? 256 then Ok output
          else
            let '(b, r) := readByte input r in
            let lsb := Z.shiftr b 1 in
            let lastOffset_ := if backwards_ then msb * 128 + lsb - 127
                               else msb * 128 - lsb in
            let r := mkReader (index r) (r_bitMask r) (bitValue r) true in
            '(g, r) ← readInterlacedEliasGamma input backwards_ inverted false r;
            let output := copy output lastOffset_ (Z.to_nat (g + 1)) in
            let '(b, r) := readBit input r in
            decode_loop fuel' input backwards_ inverted
              (if b =? 0 then COPY_LITERALS else COPY_FROM_NEW_OFFSET)
              r lastOffset_ output
      end
  end.

Definition decompress (compressedData : list Z) (o : options) : result (list Z) :=
  if (length compressedData =? 0)%nat then Ok []
  else
    let backwards_ := backwards o in
    let inverted := (negb (classic o) && negb backwards_)%bool in
    let input := to_u8 compressedData in
    let input := if backwards_ then reverseArray input else input in
    output ← decode_loop (8 * length input + 8) input backwards_ inverted
               COPY_LITERALS (mkReader 0 0 0 false) INITIAL_OFFSET [];
    let result := to_u8 (map LZF.or0 output) in
    Ok (if backwards_ then reverseArray result else result).

End ZX0.

(** ** DAN3  (DAN3Codec) *)

Module DAN3.

Definition MAX : Z := 256 * 1024.
Definition BIT_GOLOMG_MAX : Z := 7.
Definition MAX_GAMMA : Z := 2 ^ (BIT_GOLOMG_MAX + 1) - 2.
Definition BIT_OFFSET00 : Z := 0.
Definition BIT_OFFSET0 : Z := 1.
Definition BIT_OFFSET1 : Z := 5.
Definition BIT_OFFSET2 : Z := 8.
Definition BIT_OFFSET_MIN : Z := 9.
Definition BIT_OFFSET_MAX : Z := 16.
Definition BIT_OFFSET_NBR : Z := BIT_OFFSET_MAX - BIT_OFFSET_MIN + 1.
Definition MAX_OFFSET00 : Z := 2 ^ BIT_OFFSET00.
Definition MAX_OFFSET0 : Z := 2 ^ BIT_OFFSET0 + MAX_OFFSET00.
Definition MAX_OFFSET1 : Z := 2 ^ BIT_OFFSET1.
Definition MAX_OFFSET2 : Z := 2 ^ BIT_OFFSET2 + MAX_OFFSET1.
Definition MAX_OFFSET : Z := 2 ^ BIT_OFFSET_MAX + MAX_OFFSET2.
Definition RAW_MIN : Z := 1.
Definition RAW_RANGE : Z := 2 ^ 8.
Definition RAW_MAX : Z := RAW_MIN + RAW_RANGE - 1.
Definition BIT_OFFSET_NBR_ALLOWED : Z := BIT_OFFSET_NBR.
Definition bFAST : bool := false.
Definition bRLE : bool := true.

(** The mutable part of the instance that one call hands to the next: the
    third offset tier set by [set_BIT_OFFSET3], and the work buffer
    [data_src] (a [Uint8Array(MAX)], of which the list is the prefix written
    so far, the rest being 0). *)
Record codec : Type := mkCodec
  { BIT_OFFSET3 : Z; MAX_OFFSET3 : Z; data_src : list Z }.

Definition constructor : codec := mkCodec 0 0 [].

Definition load (bytes : list Z) (c : codec) : codec :=
  mkCodec (BIT_OFFSET3 c) (MAX_OFFSET3 c) (bytes ++ drop (length bytes) (data_src c)).

Definition src_at (c : codec) (i : Z) : option Z :=
  if (i <? 0) || (MAX <=? i) then None else Some (default 0 (data_src c !! Z.to_nat i)).
Definition src (c : codec) (i : Z) : Z := default 0 (src_at c i).

Definition set_BIT_OFFSET3 (i : Z) (c : codec) : codec :=
  let b := BIT_OFFSET_MIN + i in
  mkCodec b (2 ^ b + MAX_OFFSET2) (data_src c).

(** *** The bit writer over [data_dest] *)
Record writer : Type := mkWriter { dest : list Z; bit_mask : Z; bit_index : nat }.

Definition write_byte (value : Z) (w : writer) : writer :=
  mkWriter (dest w ++ [Z.land value 0xFF]) (bit_mask w) (bit_index w).

Definition write_bit (value : Z) (w : writer) : writer :=
  let w := if bit_mask w =? 0
           then write_byte 0 (mkWriter (dest w) 128 (length (dest w))) else w in
  let d := if value =? 0 then dest w
           else <[bit_index w := Z.lor (get (dest w) (bit_index w)) (bit_mask w)]> (dest w) in
  mkWriter d (Z.shiftr (bit_mask w) 1) (bit_index w).

Fixpoint write_bits_loop (fuel : nat) (value mask : Z) (w : writer) : writer :=
  match fuel with
  | O => w
  | S fuel' =>
      if 1 <? mask then
        let mask := Z.shiftr mask 1 in
        write_bits_loop fuel' value mask (write_bit (Z.land value mask) w)
      else w
  end.

Definition write_bits (value size : Z) (w : writer) : writer :=
  write_bits_loop (Z.to_nat size) value (Z.shiftl 1 size) w.

Fixpoint golomb_zeros (fuel : nat) (value i : Z) (w : writer) : Z * writer :=
  match fuel with
  | O => (i, w)
  | S fuel' =>
      if i <=? value then golomb_zeros fuel' value (Z.shiftl i 1) (write_bit 0 w)
      else (i, w)
  end.

Fixpoint golomb_value (fuel : nat) (value i : Z) (w : writer) : writer :=
  match fuel with
  | O => w
  | S fuel' =>
      let i := Z.shiftr i 1 in
      if 0 <? i then golomb_value fuel' value i (write_bit (Z.land value i) w) else w
  end.

Definition write_golomb_gamma (value : Z) (w : writer) : writer :=
  let value := value + 1 in
  let '(i, w) := golomb_zeros 32 value 4 w in
  golomb_value 33 value i w.

Definition write_offset (c : codec) (value option_ : Z) (w : writer) : writer :=
  let value := value - 1 in
  if option_ =? 1 then
    if MAX_OFFSET00 <=? value then
      let w := write_bit 1 w in
      write_bits (value - MAX_OFFSET00) BIT_OFFSET0 w
    else
      let w := write_bit 0 w in
      write_bits value BIT_OFFSET00 w
  else if MAX_OFFSET2 <=? value then
    let w := write_bit 1 w in
    let w := write_bit 1 w in
    let value := value - MAX_OFFSET2 in
    let w := write_bits (Z.shiftr value BIT_OFFSET2) (BIT_OFFSET3 c - BIT_OFFSET2) w in
    write_byte (Z.land value 0xFF) w
  else if MAX_OFFSET1 <=? value then
    let w := write_bit 0 w in
    write_byte (Z.land (value - MAX_OFFSET1) 0xFF) w
  else
    let w := write_bit 1 w in
    let w := write_bit 0 w in
    write_bits value BIT_OFFSET1 w.

Definition write_doublet (c : codec) (length_ offset : Z) (w : writer) : writer :=
  let w := write_bit 0 w in
  let w := write_golomb_gamma length_ w in
  write_offset c offset length_ w.

Definition write_end (w : writer) : writer :=
  let w := write_bit 0 w in
  let w := write_bits 0 BIT_GOLOMG_MAX w in
  write_bit 0 w.

Definition write_literals_length (length_ : Z) (w : writer) : writer :=
  let w := write_bit 0 w in
  let w := write_bits 0 BIT_GOLOMG_MAX w in
  let w := write_bit 1 w in
  write_byte (length_ - RAW_MIN) w.

Definition write_literal (b : Z) (w : writer) : writer :=
  write_byte b (write_bit 1 w).

(** *** Cost model *)

Fixpoint golomb_bits_loop (fuel : nat) (value bits : Z) : Z :=
  match fuel with
  | O => bits
  | S fuel' =>
      if 1 <? value then golomb_bits_loop fuel' (Z.shiftr value 1) (bits + 2) else bits
  end.

Definition golomb_gamma_bits (value : Z) : Z := golomb_bits_loop 32 (value + 1) 0.

Definition count_bits (c : codec) (offset len : Z) : Z :=
  let bits := 1 + golomb_gamma_bits len in
  if len =? 1 then
    if BIT_OFFSET00 =? -1 then bits + BIT_OFFSET0
    else bits + 1 + (if MAX_OFFSET00 <? offset then BIT_OFFSET0 else BIT_OFFSET00)
  else
    bits + 1 + (if MAX_OFFSET2 <? offset then 1 + BIT_OFFSET3 c
                else if MAX_OFFSET1 <? offset then BIT_OFFSET2
                else 1 + BIT_OFFSET1).

(** *** Encoder *)

(** One element of [optimals]: a [Uint32Array], a [Uint16Array] and a
    [Uint8Array], one slot per offset subset. *)
Record optimal : Type := mkOpt { bits : list Z; offset : list Z; len : list Z }.

Definition opt0 : optimal := mkOpt (replicate 8 0) (replicate 8 0) (replicate 8 0).

Definition u32 (v : Z) : Z := v mod 2 ^ 32.
Definition u16 (v : Z) : Z := v mod 2 ^ 16.
Definition u8 (v : Z) : Z := v mod 2 ^ 8.

Definition slot (a : list Z) (i : Z) : Z := default 0 (a !! Z.to_nat i).

(** The stores [optimals[index].bits[i] = b] and so on, with the wrap of the
    typed arrays. *)
Definition store (o : optimal) (i : Z) (b off l : Z) : optimal :=
  mkOpt (<[Z.to_nat i := u32 b]> (bits o)) (<[Z.to_nat i := u16 off]> (offset o))
    (<[Z.to_nat i := u8 l]> (len o)).

Definition opt_at (optimals : list optimal) (i : Z) : optimal :=
  if i <? 0 then opt0 else default opt0 (optimals !! Z.to_nat i).

(** [update_optimal]: the loop [while (i >= 0)] over the subsets, from the
    widest down; [o] is [optimals[index]]. Returns [o] and the instance,
    whose third tier the loop resets. *)
Fixpoint update_loop (fuel : nat) (i : Z) (optimals : list optimal) (index len_ offset_ : Z)
    (o : optimal) (c : codec) : optimal * codec :=
  match fuel with
  | O => (o, c)
  | S fuel' =>
      if 0 <=? i then
        if offset_ =? 0 then
          let o :=
            if 0 <? index then
              if len_ =? 1 then
                store o i (slot (bits (opt_at optimals (index - 1))) i + 1 + 8) 0 1
              else
                let cost := slot (bits (opt_at optimals (index - len_))) i
                            + 1 + BIT_GOLOMG_MAX + 1 + 8 + len_ * 8 in
                if cost <? slot (bits o) i then store o i cost 0 len_ else o
            else store o i 8 0 1 in
          update_loop fuel' (i - 1) optimals index len_ offset_ o c
        else
          let c := if MAX_OFFSET1 <? offset_ then set_BIT_OFFSET3 i c else c in
          if ((MAX_OFFSET1 <? offset_) && (MAX_OFFSET3 c <? offset_))%bool then (o, c)
          else
            let cost := slot (bits (opt_at optimals (index - len_))) i
                        + count_bits c offset_ len_ in
            let o := if cost <? slot (bits o) i then store o i cost offset_ len_ else o in
            update_loop fuel' (i - 1) optimals index len_ offset_ o c
      else (o, c)
  end.

(** The encoder state: [optimals], the chains of [matches] (the list of
    the [index] fields of the nodes before the closing one, newest first)
    and the instance. *)
Record dp : Type := mkDp
  { optimals : list optimal; matches : gmap Z (list Z); inst : codec }.

Definition update_optimal (index len_ offset_ : Z) (d : dp) : dp :=
  let '(o, c) :=
    update_loop 8 (BIT_OFFSET_NBR_ALLOWED - 1) (optimals d) index len_ offset_
      (opt_at (optimals d) index) (inst d) in
  mkDp (<[Z.to_nat index := o]> (optimals d)) (matches d) c.

(** [for (let len = 2; len <= this.MAX_GAMMA; len++)] at one node. *)
Fixpoint extend_loop (fuel : nat) (pos offset_ len_ best_len : Z) (d : dp) : Z * dp :=
  match fuel with
  | O => (best_len, d)
  | S fuel' =>
      if len_ <=? MAX_GAMMA then
        let d := update_optimal pos len_ offset_ d in
        let best_len := len_ in
        if ((pos <? offset_ + len_)
            || negb (js_eq (src_at (inst d) (pos - len_))
                           (src_at (inst d) (pos - len_ - offset_))))%bool
        then (best_len, d)
        else extend_loop fuel' pos offset_ (len_ + 1) best_len d
      else (best_len, d)
  end.

(** [for (; match.next !== null; match = match.next)]: the flag reports a
    [flush_match] of the whole chain. *)
Fixpoint chain_loop (chain : list Z) (pos : Z) (d : dp) : bool * dp :=
  match chain with
  | [] => (false, d)
  | index :: rest =>
      let offset_ := pos - index in
      if MAX_OFFSET <? offset_ then (true, d)
      else
        let '(best_len, d) := extend_loop (Z.to_nat MAX_GAMMA) pos offset_ 2 1 d in
        if (bFAST && (255 <? best_len))%bool then (false, d)
        else chain_loop rest pos d
  end.

(** [findMatches]: the new state and the key it returns. *)
Definition findMatches (pos prev_match_index : Z) (d : dp) : dp * Z :=
  let j := if BIT_OFFSET00 =? -1 then 2 ^ BIT_OFFSET0 else MAX_OFFSET0 in
  let maxSingleOffset := Z.min j pos in
  let d :=
    fold_left (fun d k =>
        let k := Z.of_nat k in
        if js_eq (src_at (inst d) pos) (src_at (inst d) (pos - k))
        then update_optimal pos 1 k d else d)
      (seq 1 (Z.to_nat maxSingleOffset)) d in
  let match_index :=
    Z.lor (Z.shiftl (Z.land (src (inst d) (pos - 1)) 0xFF) 8) (Z.land (src (inst d) pos) 0xFF) in
  let chain := default [] (matches d !! match_index) in
  let prev_opt := opt_at (optimals d) (pos - 1) in
  let '(chain, d) :=
    if ((prev_match_index =? match_index) && bFAST
        && (slot (offset prev_opt) 0 =? 1) && (2 <? slot (len prev_opt) 0))%bool
    then
      let len_ := slot (len prev_opt) 0 in
      (chain, if len_ <? MAX_GAMMA then update_optimal pos (len_ + 1) 1 d else d)
    else
      let '(flushed, d) := chain_loop chain pos d in
      (if flushed then [] else chain, d) in
  (mkDp (optimals d) (<[match_index := pos :: chain]> (matches d)) (inst d), match_index).

(** One round of [while (i < this.index_src)]. *)
Definition dp_step (st : dp * Z) (i : nat) : dp * Z :=
  let '(d, prev_match_index) := st in
  let i := Z.of_nat i in
  let d := update_optimal i 1 0 d in
  let d :=
    if (bRLE && (RAW_MIN <=? i))%bool then
      let j := if i <? RAW_MAX then i else RAW_MAX in
      let lo := if RAW_MIN =? 1 then RAW_MIN + 1 else RAW_MIN in
      fold_left (fun d k => update_optimal i (Z.of_nat k) 0 d)
        (rev (seq (Z.to_nat lo) (Z.to_nat (j - lo + 1)))) d
    else d in
  findMatches i prev_match_index d.

(** [cleanup_optimals]: [while (i > 1)]. A [len] of 0 leaves [i] where it is. *)
Fixpoint cleanup_loop (fuel : nat) (subset i : Z) (optimals : list optimal)
    : result (list optimal) :=
  if 1 <? i then
    match fuel with
    | O => Throw FuelExhausted
    | S fuel' =>
        let len_ := slot (len (opt_at optimals i)) subset in
        let optimals :=
          fold_left (fun optimals j =>
              let o := opt_at optimals (Z.of_nat j) in
              <[j := mkOpt (bits o) (<[Z.to_nat subset := 0]> (offset o))
                       (<[Z.to_nat subset := 0]> (len o))]> optimals)
            (rev (seq (Z.to_nat (i - len_ + 1)) (Z.to_nat (len_ - 1)))) optimals in
        cleanup_loop fuel' subset (i - len_) optimals
    end
  else Ok optimals.

Definition write_lz (c : codec) (index_src : nat) (optimals : list optimal) (subset : Z)
    : writer :=
  let w := mkWriter [] 0 0 in
  let w := write_bits 0xFE (subset + 1) w in
  let w := write_byte (src c 0) w in
  let w :=
    fold_left (fun w i =>
        let o := opt_at optimals (Z.of_nat i) in
        let l := slot (len o) subset in
        if 0 <? l then
          let index := Z.of_nat i - l + 1 in
          if slot (offset o) subset =? 0 then
            if l =? 1 then write_literal (src c index) w
            else
              let w := write_literals_length l w in
              fold_left (fun w j => write_byte (src c (index + Z.of_nat j)) w)
                (seq 0 (Z.to_nat l)) w
          else write_doublet c l (slot (offset o) subset) w
        else w)
      (seq 1 (index_src - 1)) w in
  write_end w.

(** The choice of the subset: the first of the cheapest. *)
Definition best_subset (last : optimal) : Z :=
  snd (fold_left (fun '(bits_minimum, bestSubset) i =>
           let t := slot (bits last) (Z.of_nat i) in
           if t <? bits_minimum then (t, Z.of_nat i) else (bits_minimum, bestSubset))
         (seq 0 (Z.to_nat BIT_OFFSET_NBR_ALLOWED)) (slot (bits last) 0, 0)).

(** [compress]: there is no early return for an empty input, and
    [optimals[-1].bits] is then a [TypeError]. *)
Definition compress (c : codec) (inputData : list Z) : codec * result (list Z) :=
  let inputData := to_u8 inputData in
  if MAX <? Z.of_nat (length inputData) then (c, Throw InputTooLarge)
  else
    let index_src := length inputData in
    let c := load inputData c in
    let d := mkDp (replicate (Nat.max index_src 1) (mkOpt (replicate 8 0x7FFFFFFF)
                     (replicate 8 0) (replicate 8 0))) ∅ c in
    let d := update_optimal 0 1 0 d in
    let '(d, _) := fold_left dp_step (seq 1 (index_src - 1)) (d, -1) in
    match index_src with
    | O => (inst d, Throw TypeError)
    | S last =>
        let bestSubset := best_subset (opt_at (optimals d) (Z.of_nat last)) in
        let c := set_BIT_OFFSET3 bestSubset (inst d) in
        (c,
         optimals ← cleanup_loop index_src bestSubset (Z.of_nat last) (optimals d);
         Ok (take (Z.to_nat MAX) (dest (write_lz c index_src optimals bestSubset))))
    end.

(** *** Decoder *)

Record reader : Type := mkReader { index_src : Z; r_mask : Z; r_index : Z }.

Definition read_byte (c : codec) (r : reader) : option Z * reader :=
  (src_at c (index_src r), mkReader (index_src r + 1) (r_mask r) (r_index r)).

Definition read_bit (c : codec) (r : reader) : Z * reader :=
  let r := if r_mask r =? 0 then mkReader (index_src r + 1) 128 (index_src r) else r in
  let bit := Z.land (src c (r_index r)) (r_mask r) in
  ((if bit =? 0 then 0 else 1), mkReader (index_src r) (Z.shiftr (r_mask r) 1) (r_index r)).

(** [while (j < this.BIT_GOLOMG_MAX && this.read_bit() === 0) j++]. *)
Fixpoint golomb_count (fuel : nat) (c : codec) (j : Z) (r : reader) : Z * reader :=
  match fuel with
  | O => (j, r)
  | S fuel' =>
      if j <? BIT_GOLOMG_MAX then
        let '(b, r) := read_bit c r in
        if b =? 0 then golomb_count fuel' c (j + 1) r else (j, r)
      else (j, r)
  end.

Fixpoint read_bits_into (n : nat) (c : codec) (v : Z) (r : reader) : Z * reader :=
  match n with
  | O => (v, r)
  | S n' =>
      let '(b, r) := read_bit c r in
      read_bits_into n' c (Z.lor (Z.shiftl v 1) b) r
  end.

Definition read_golomb_gamma (c : codec) (r : reader) : Z * reader :=
  let '(j, r) := golomb_count 8 c 0 r in
  let '(value, r) :=
    if j <? BIT_GOLOMG_MAX then read_bits_into (Z.to_nat (j + 1)) c 1 r else (0, r) in
  (value - 1, r).

(** The subset prefix: [while (this.read_bit() !== 0) subset++]. The buffer
    is 0 behind the prefix written so far, which bounds the rounds. *)
Fixpoint read_subset (fuel : nat) (c : codec) (subset : Z) (r : reader)
    : result (Z * reader) :=
  match fuel with
  | O => Throw FuelExhausted
  | S fuel' =>
      let '(b, r) := read_bit c r in
      if b =? 0 then Ok (subset, r) else read_subset fuel' c (subset + 1) r
  end.

(** [data_dest[index_dest + i] = data_dest[index_dest - offset - 1 + i]]; a
    read before the start of the buffer stores 0. *)
Definition copy (dest : list Z) (offset_ : Z) (len_ : nat) : list Z :=
  fold_left (fun dest _ =>
      let from := Z.of_nat (length dest) - offset_ - 1 in
      dest ++ [if from <? 0 then 0 else get dest (Z.to_nat from)])
    (seq 0 len_) dest.

Definition read_offset (c : codec) (subset len_ : Z) (r : reader) : Z * reader :=
  if len_ =? 1 then
    let '(b, r) := read_bit c r in
    if b =? 0 then (0, r)
    else
      let '(b, r) := read_bit c r in (b + 1, r)
  else
    let '(b, r) := read_bit c r in
    if b =? 0 then
      let '(v, r) := read_byte c r in (default 0 v + 32, r)
    else
      let '(b, r) := read_bit c r in
      if b =? 0 then read_bits_into 5 c 0 r
      else
        let '(hi, r) := read_bits_into (Z.to_nat (subset + BIT_OFFSET_MIN - 8)) c 0 r in
        let '(v, r) := read_byte c r in
        (Z.lor (Z.shiftl hi 8) (default 0 v) + 256 + 32, r).

(** [while (this.index_src <= old_index_src)]: every round reads a bit. *)
Fixpoint decode_loop (fuel : nat) (c : codec) (old_index_src : Z) (subset : Z)
    (r : reader) (dest : list Z) : result (list Z) :=
  match fuel with
  | O => Throw FuelExhausted
  | S fuel' =>
      if index_src r <=? old_index_src then
        let '(tag, r) := read_bit c r in
        if negb (tag =? 0) then
          let '(b, r) := read_byte c r in
          decode_loop fuel' c old_index_src subset r (dest ++ [default 0 b])
        else
          let '(len_, r) := read_golomb_gamma c r in
          if len_ =? -1 then
            let '(b, r) := read_bit c r in
            if b =? 0 then Ok dest
            else
              let '(v, r) := read_byte c r in
              let rleLen := default 0 v + 1 in
              let '(r, dest) :=
                fold_left (fun '(r, dest) _ =>
                    let '(b, r) := read_byte c r in (r, dest ++ [default 0 b]))
                  (seq 0 (Z.to_nat rleLen)) (r, dest) in
              decode_loop fuel' c old_index_src subset r dest
          else
            let '(offset_, r) := read_offset c subset len_ r in
            decode_loop fuel' c old_index_src subset r (copy dest offset_ (Z.to_nat len_))
      else Ok dest
  end.

(** [decompress]: the new state of the instance and the result. *)
Definition decompress (c : codec) (compressedData : list Z) : codec * result (list Z) :=
  let compressedData := to_u8 compressedData in
  if MAX <? Z.of_nat (length compressedData) then (c, Throw RangeError)
  else
    let c := load compressedData c in
    let old_index_src := Z.of_nat (length compressedData) in
    (c,
     '(subset, r) ← read_subset (8 * length (data_src c) + 8) c 0 (mkReader 0 0 0);
     let '(b, r) := read_byte c r in
     dest ← decode_loop (8 * (length compressedData + 2)) c old_index_src subset r
              [default 0 b];
     Ok (take (Z.to_nat MAX) dest)).

Definition round_trip (c : codec) (x : list Z) : result (list Z) :=
  let '(c, compressed) := compress c x in
  compressed ← compressed;
  snd (decompress c compressed).

End DAN3.

(** * Theorems *)

(** ** MDK-RLE on a constant run *)

Definition run300 : list Z := repeat 0x55 300%nat.

(** C8, as stated, fails: the three RLE packets of the run of 300 bytes take
    2 bytes each, so the stream is 6 bytes plus the end marker, not 9 plus
    the end marker. *)
Lemma C8_size_is_not_nine_plus_eof :
  length (MdkRLE.compress run300) <> (9 + 1)%nat.
Proof. vm_compute. discriminate. Qed.

(** C8, amended: compressing 300 bytes 0x55 with MDK-RLE emits the RLE packets
    [0xFE 0x55], [0xFE 0x55], [0xAD 0x55], that is runs of 127, 127 and 46
    bytes, 6 bytes in all, followed by the end marker 0xFF; and the stream
    decompresses to the 300 bytes. *)
Theorem C8_mdkrle_run_of_300 :
  MdkRLE.compress run300 = [0xFE; 0x55; 0xFE; 0x55; 0xAD; 0x55; 0xFF]
  /\ Z.land 0xFE 0x7F + 1 = 127 /\ Z.land 0xAD 0x7F + 1 = 46
  /\ MdkRLE.decompress (MdkRLE.compress run300) = Ok run300.
Proof. vm_compute. repeat split; reflexivity. Qed.

(** ** The empty input *)

(** C2, as stated, fails for LZF: the encoder appends the end marker to
    every output, the empty one included. *)
Lemma C2_lzf_empty_is_not_empty : LZF.compress [] <> Ok [].
Proof. vm_compute. discriminate. Qed.

(** DAN3 has no stream for the empty input at all: [compress] runs into
    [optimals[-1].bits], and [decompress] of the empty stream still copies the
    first byte of its work buffer. *)
Lemma dan3_empty :
  snd (DAN3.compress DAN3.constructor []) = Throw TypeError
  /\ snd (DAN3.decompress DAN3.constructor []) = Ok [0].
Proof. vm_compute. split; reflexivity. Qed.

(** C2, amended: the empty input compresses to [0xFF] with MDK-RLE and with
    LZF, to the empty byte string with ZX7, ZX0 and DAN1, and to [0,0,0,0]
    with BitBuster; each of these outputs decompresses to the empty byte
    string. (Whatever its options and the state of the instance.) *)
Theorem C2_empty_input :
  (MdkRLE.compress [] = [0xFF] /\ MdkRLE.decompress [0xFF] = Ok [])
  /\ (LZF.compress [] = Ok [0xFF] /\ LZF.decompress [0xFF] = [])
  /\ (ZX7.compress [] = Ok [] /\ ZX7.decompress [] = Ok [])
  /\ (forall o, ZX0.compress [] o = Ok [] /\ ZX0.decompress [] o = Ok [])
  /\ (forall b buf rle,
        let c := DAN1.mkCodec (512 * 1024) b buf in
        snd (DAN1.compress c [] rle) = Ok [] /\ snd (DAN1.decompress c []) = Ok [])
  /\ (forall c, BitBuster.compress c [] = Ok [0; 0; 0; 0])
  /\ BitBuster.decompress [0; 0; 0; 0] = Ok [].
Proof.
  repeat split; try reflexivity.
Qed.

(** ** DAN1: the RAW block and the end marker *)

Definition x28 : list Z := map Z.of_nat (seq 0 28).

(** What the encoder emits for [x28] with [rle]: the first byte, then one RAW
    block (flag 0, sixteen 0 bits, the bit 1, the byte 27 - 27, the 27 bytes),
    then the end marker (flag 0, sixteen 0 bits, the bit 0). *)
Definition raw_stream : list Z :=
  [0; 0x00; 0x00; 0x40; 0] ++ map Z.of_nat (seq 1 27) ++ [0x00; 0x00].

(** C4: on the encoder's own RAW block the Elias-gamma reader of the decoder
    does not stop after the sixteen 0 bits: it reads a 17th bit, which is the
    RAW marker 1, and returns the sentinel 0 all the same. The bit the decoder
    reads next is therefore not the marker but the flag of the following
    token, a 0, and the decoder takes the stream to end there. *)
Theorem C4_dan1_gamma_reader_swallows_raw_marker :
  let c := DAN1.default_codec in
  snd (DAN1.compress c x28 (Some true)) = Ok raw_stream
  /\ (let c' := DAN1.load raw_stream c in
      let r0 := snd (DAN1.readByte c' (DAN1.mkReader 0 0 0)) in
      let '(flag, r1) := DAN1.readBit c' r0 in
      let '(gamma, r2) := DAN1.readEliasGamma c' r1 in
      let '(next, _) := DAN1.readBit c' r2 in
      flag = 0 /\ gamma = 0 /\ DAN1.readBits 17 c' 0 r1 = (1, r2) /\ next = 0)
  /\ snd (DAN1.decompress c raw_stream) = Ok [0].
Proof. vm_compute. repeat split; reflexivity. Qed.

(** C1: with DAN1's [rle] option the round trip loses all but the first of
    the 28 bytes 0, 1, ..., 27. *)
Theorem C1_dan1_rle_round_trip_fails :
  DAN1.round_trip DAN1.default_codec x28 (Some true) = Ok [0]
  /\ DAN1.round_trip DAN1.default_codec x28 (Some true) <> Ok x28.
Proof. vm_compute. split; [reflexivity | discriminate]. Qed.

(** The same reader goes one bit past the end marker. When the marker fills
    its bit byte, that bit comes from the work buffer behind the stream,
    where the instance still holds the input of the [compress] before: without
    any option, the round trip of these 8 bytes on one instance appends 27
    bytes. *)
Lemma dan1_default_round_trip_fails :
  DAN1.round_trip DAN1.default_codec [0; 255; 0; 0; 0; 0; 0; 255] None
  = Ok ([0; 255; 0; 0; 0; 0; 0; 255] ++ repeat 0 27%nat).
Proof. vm_compute. reflexivity. Qed.

(** DAN3 stores the length of a token in a [Uint8Array]: a RAW block of 256
    bytes is recorded with length 0, and the clean-up walk that reaches it
    stays there. *)
Lemma dan3_cleanup_stuck fuel subset i optimals :
  1 < i ->
  DAN3.slot (DAN3.len (DAN3.opt_at optimals i)) subset = 0 ->
  DAN3.cleanup_loop fuel subset i optimals = Throw FuelExhausted.
Proof.
  intros Hi Hlen. induction fuel as [|fuel IH]; simpl.
  - destruct (1 <? i) eqn:E; [reflexivity | apply Z.ltb_ge in E; lia].
  - destruct (1 <? i) eqn:E; [| apply Z.ltb_ge in E; lia].
    rewrite Hlen. replace (Z.to_nat (0 - 1)) with 0%nat by lia. simpl.
    replace (i - 0) with i by lia. exact IH.
Qed.

(** ** BitBuster: the header decides the output length *)

Section BitBusterLength.
Import BitBuster.

(** Unfolding a bind whose result is known. *)
Lemma bind_Ok {A B} (r : result A) (k : A -> result B) (b : B) :
  (r ≫= k) = Ok b -> exists a, r = Ok a /\ k a = Ok b.
Proof. destruct r as [a|e]; simpl; [eauto | discriminate]. Qed.

Lemma copy_length out i ref len : length (copy out i ref len) = length out.
Proof.
  unfold copy. generalize (seq 0 len). intros ks. revert out.
  induction ks as [|k ks IH]; intros out; simpl; [reflexivity|].
  rewrite IH. apply length_insert.
Qed.

Lemma do_match_length out i dist len out' i' :
  do_match out i dist len = Ok (out', i') -> length out' = length out.
Proof.
  unfold do_match. destruct (_ <? 0); [discriminate|].
  intros [= <- _]. apply copy_length.
Qed.

Lemma decode_loop_length fuel bytes outLen :
  forall out i r res,
    decode_loop fuel bytes outLen out i r = Ok res -> length res = length out.
Proof.
  induction fuel as [|fuel IH]; intros out i r res; simpl; [discriminate|].
  destruct (i <? outLen)%nat; [| intros [= <-]; reflexivity].
  intros H. apply bind_Ok in H as ([tag r1] & _ & H).
  destruct (tag =? 0).
  - apply bind_Ok in H as ([b r2] & _ & H).
    apply IH in H. rewrite H. apply length_insert.
  - apply bind_Ok in H as ([b0 r2] & _ & H).
    destruct (b0 =? 0); [| destruct (Z.land b0 128 =? 0)].
    + apply bind_Ok in H as ([[value k] r3] & _ & H).
      destruct (k =? 16); [injection H as <-; reflexivity|].
      apply bind_Ok in H as ([out' i'] & Hm & H).
      apply IH in H. rewrite H. eapply do_match_length, Hm.
    + apply bind_Ok in H as ([[value k] r3] & _ & H).
      apply bind_Ok in H as ([out' i'] & Hm & H).
      apply IH in H. rewrite H. eapply do_match_length, Hm.
    + apply bind_Ok in H as ([hi r3] & _ & H).
      apply bind_Ok in H as ([[value k] r4] & _ & H).
      apply bind_Ok in H as ([out' i'] & Hm & H).
      apply IH in H. rewrite H. eapply do_match_length, Hm.
Qed.

(** *** Bytes behind the point the decoder stops at are not looked at *)

Variable extra : list Z.

Lemma get_app_l (bytes : list Z) i :
  (i < length bytes)%nat -> get (bytes ++ extra) i = get bytes i.
Proof. intros H. unfold get. now rewrite lookup_app_l. Qed.

Lemma readBit_ext bytes r x :
  readBit bytes r = Ok x -> readBit (bytes ++ extra) r = Ok x.
Proof.
  unfold readBit. destruct (bitMask r =? 0); [| trivial].
  destruct (length bytes <=? pos r)%nat eqn:E; [discriminate|].
  apply Nat.leb_gt in E.
  assert ((length (bytes ++ extra) <=? pos r)%nat = false) as ->.
  { apply Nat.leb_gt. rewrite length_app. lia. }
  now rewrite get_app_l.
Qed.

Lemma readByte_ext bytes r x :
  readByte bytes r = Ok x -> readByte (bytes ++ extra) r = Ok x.
Proof.
  unfold readByte. destruct (length bytes <=? pos r)%nat eqn:E; [discriminate|].
  apply Nat.leb_gt in E.
  assert ((length (bytes ++ extra) <=? pos r)%nat = false) as ->.
  { apply Nat.leb_gt. rewrite length_app. lia. }
  now rewrite get_app_l.
Qed.

Lemma gamma_ones_ext fuel bytes : forall k r x,
  gamma_ones fuel bytes k r = Ok x -> gamma_ones fuel (bytes ++ extra) k r = Ok x.
Proof.
  induction fuel as [|fuel IH]; intros k r x; simpl; [trivial|].
  intros H. apply bind_Ok in H as ([b r1] & Hb & H).
  rewrite (readBit_ext _ _ _ Hb). simpl.
  destruct (b =? 1); [| exact H].
  destruct (k + 1 =? 16); [exact H | now apply IH].
Qed.

Lemma gamma_bits_ext k bytes : forall val r x,
  gamma_bits k bytes val r = Ok x -> gamma_bits k (bytes ++ extra) val r = Ok x.
Proof.
  induction k as [|k IH]; intros val r x; simpl; [trivial|].
  intros H. apply bind_Ok in H as ([b r1] & Hb & H).
  rewrite (readBit_ext _ _ _ Hb). simpl. now apply IH.
Qed.

Lemma readGammaEx_ext bytes r x :
  readGammaEx bytes r = Ok x -> readGammaEx (bytes ++ extra) r = Ok x.
Proof.
  unfold readGammaEx. intros H.
  apply bind_Ok in H as ([[k r1] s] & Hk & H).
  rewrite (gamma_ones_ext _ _ _ _ _ Hk). simpl.
  destruct s; [exact H|].
  apply bind_Ok in H as ([val r2] & Hv & H).
  rewrite (gamma_bits_ext _ _ _ _ _ Hv). exact H.
Qed.

Lemma decode_loop_ext fuel bytes outLen : forall out i r res fuel',
  (fuel <= fuel')%nat ->
  decode_loop fuel bytes outLen out i r = Ok res ->
  decode_loop fuel' (bytes ++ extra) outLen out i r = Ok res.
Proof.
  induction fuel as [|fuel IH]; intros out i r res fuel' Hle; simpl; [discriminate|].
  destruct fuel' as [|fuel']; [lia|]. simpl.
  assert (fuel <= fuel')%nat as Hle' by lia.
  destruct (i <? outLen)%nat; [| trivial].
  intros H. apply bind_Ok in H as ([tag r1] & Ht & H).
  rewrite (readBit_ext _ _ _ Ht). simpl.
  destruct (tag =? 0).
  - apply bind_Ok in H as ([b r2] & Hb & H).
    rewrite (readByte_ext _ _ _ Hb). simpl. now apply IH.
  - apply bind_Ok in H as ([b0 r2] & Hb & H).
    rewrite (readByte_ext _ _ _ Hb). simpl.
    destruct (b0 =? 0); [| destruct (Z.land b0 128 =? 0)].
    + apply bind_Ok in H as ([[value k] r3] & Hg & H).
      rewrite (readGammaEx_ext _ _ _ Hg). simpl.
      destruct (k =? 16); [exact H|].
      apply bind_Ok in H as ([out' i'] & Hm & H).
      rewrite Hm. simpl. now apply IH.
    + apply bind_Ok in H as ([[value k] r3] & Hg & H).
      rewrite (readGammaEx_ext _ _ _ Hg). simpl.
      apply bind_Ok in H as ([out' i'] & Hm & H).
      rewrite Hm. simpl. now apply IH.
    + apply bind_Ok in H as ([hi r3] & Hh & H).
      unfold readHi in *. rewrite (gamma_bits_ext _ _ _ _ _ Hh). simpl.
      apply bind_Ok in H as ([[value k] r4] & Hg & H).
      rewrite (readGammaEx_ext _ _ _ Hg). simpl.
      apply bind_Ok in H as ([out' i'] & Hm & H).
      rewrite Hm. simpl. now apply IH.
Qed.

Lemma to_u8_app xs ys : to_u8 (xs ++ ys) = to_u8 xs ++ to_u8 ys.
Proof. apply map_app. Qed.

Lemma getUint32_le_app bytes :
  (4 <= length bytes)%nat -> getUint32_le (bytes ++ extra) = getUint32_le bytes.
Proof.
  intros H. unfold getUint32_le. now rewrite !get_app_l by lia.
Qed.

End BitBusterLength.

(** C10: whenever [decompress] returns, its output has exactly the length
    the 4-byte little-endian header announces; and the bytes of the input
    behind the point where that many bytes had been produced play no part:
    with any bytes appended to the input (an end marker or anything else),
    [decompress] returns the same output. *)
Theorem C10_bitbuster_output_length bytes out :
  BitBuster.decompress bytes = Ok out ->
  length out = Z.to_nat (BitBuster.getUint32_le (to_u8 bytes))
  /\ forall extra, BitBuster.decompress (bytes ++ extra) = Ok out.
Proof.
  unfold BitBuster.decompress. intros H.
  destruct (length (to_u8 bytes) <? 4)%nat eqn:E; [discriminate|].
  apply Nat.ltb_ge in E. split.
  - apply decode_loop_length in H. rewrite H. apply length_replicate.
  - intros extra. rewrite to_u8_app.
    assert ((length (to_u8 bytes ++ to_u8 extra) <? 4)%nat = false) as ->.
    { apply Nat.ltb_ge. rewrite length_app. lia. }
    rewrite getUint32_le_app by exact E.
    eapply decode_loop_ext; [| exact H]. rewrite length_app. lia.
Qed.

(** A stream with no end marker: the header announces one byte, one literal
    follows. *)
Lemma C10_witness :
  length [0x41] = Z.to_nat (BitBuster.getUint32_le (to_u8 [1; 0; 0; 0; 0x00; 0x41]))
  /\ forall extra, BitBuster.decompress ([1; 0; 0; 0; 0x00; 0x41] ++ extra) = Ok [0x41].
Proof.
  apply (C10_bitbuster_output_length [1; 0; 0; 0; 0x00; 0x41] [0x41]).
  vm_compute. reflexivity.
Defined.

(** ** LZF: where the end marker stands *)

(** Checking a property of the integers below a bound case by case. *)
Lemma small_cases (P : Z -> Prop) (m : nat) :
  Forall P (map Z.of_nat (seq 0 m)) -> forall h, 0 <= h < Z.of_nat m -> P h.
Proof.
  intros HP h Hh. apply (proj1 (List.Forall_forall P _) HP).
  apply List.in_map_iff. exists (Z.to_nat h). split; [lia | apply List.in_seq; lia].
Qed.

Lemma high_bits_small so :
  0 <= so < 7936 -> 0 <= Z.land (Z.shiftr so 8) 0x1F <= 30.
Proof.
  intros H. rewrite Z.shiftr_div_pow2 by lia.
  assert (so / 2 ^ 8 < 31) by (apply Z.div_lt_upper_bound; lia).
  assert (0 <= so / 2 ^ 8) by (apply Z.div_pos; lia).
  apply (small_cases (fun h => 0 <= Z.land h 0x1F <= 30) 31); [| lia].
  repeat constructor; vm_compute; intuition discriminate.
Qed.

Lemma lor_small a h :
  In a [32; 64; 96; 128; 160; 192; 224] -> 0 <= h <= 30 -> 0 <= Z.lor a h < 0xFF.
Proof.
  intros Ha Hh.
  apply (small_cases (fun h => 0 <= Z.lor a h < 0xFF) 31); [| lia].
  simpl in Ha. destruct Ha as [<-|[<-|[<-|[<-|[<-|[<-|[<-|[]]]]]]]];
    repeat constructor; vm_compute; intuition discriminate.
Qed.

Section LZFMarker.
Import LZF.

Variable input : list Z.
Let n := length input.

(** What the DP may write into [path[k]]. *)
Definition wf_op (k : nat) (o : op) : Prop :=
  match o with
  | Literal len from => (from + len = k /\ 1 <= len <= 32)%nat
  | Match len off from =>
      (from + len = k /\ 3 <= len <= 256 /\ 1 <= off <= Z.to_nat 7936)%nat
  end.

(** The invariant of the tables: sizes, shape of the entries, and a [path]
    entry wherever a cost is known. *)
Record tables_ok (t : tables) : Prop := mkOk
  { ok_dp : length (dp t) = S n;
    ok_path : length (path t) = S n;
    ok_wf : forall k o, path t !! k = Some (Some o) -> wf_op k o;
    ok_some : forall k, (1 <= k)%nat -> is_Some (mjoin (dp t !! k)) ->
                        is_Some (mjoin (path t !! k)) }.

(** Every position up to [m] has a cost. *)
Definition reached (m : nat) (t : tables) : Prop :=
  forall k, (k <= m)%nat -> (k <= n)%nat -> is_Some (mjoin (dp t !! k)).

Lemma relax_ok cost k o t :
  (1 <= k <= n)%nat -> wf_op k o -> tables_ok t -> tables_ok (relax cost k o t).
Proof.
  intros Hk Hwf [Hd Hp Hw Hs]. unfold relax.
  destruct (lt_inf cost (mjoin (dp t !! k))); [| now split].
  split; simpl.
  - now rewrite length_insert.
  - now rewrite length_insert.
  - intros j o'. destruct (decide (k = j)) as [<-|Hne].
    + rewrite list_lookup_insert_eq by lia. now intros [= <-].
    + rewrite list_lookup_insert_ne by exact Hne. apply Hw.
  - intros j Hj. destruct (decide (k = j)) as [<-|Hne].
    + rewrite !list_lookup_insert_eq by lia. simpl. eauto.
    + rewrite !list_lookup_insert_ne by exact Hne. now apply Hs.
Qed.

Lemma relax_keeps cost k o t j :
  is_Some (mjoin (dp t !! j)) -> is_Some (mjoin (dp (relax cost k o t) !! j)).
Proof.
  intros H. unfold relax. destruct (lt_inf cost (mjoin (dp t !! k))); [| exact H].
  simpl. destruct (decide (k = j)) as [<-|Hne].
  - destruct (dp t !! k) eqn:E; [| destruct H; discriminate].
    rewrite list_lookup_insert_eq by (eapply lookup_lt_Some, E). simpl. eauto.
  - now rewrite list_lookup_insert_ne.
Qed.

Lemma relax_sets cost k o t :
  (k < length (dp t))%nat -> is_Some (mjoin (dp (relax cost k o t) !! k)).
Proof.
  intros Hk. unfold relax.
  destruct (lookup_lt_is_Some_2 _ _ Hk) as [d Hd]. rewrite Hd. simpl.
  destruct d as [v|]; simpl.
  - destruct (cost <? v)%nat; simpl.
    + rewrite list_lookup_insert_eq by exact Hk. simpl. eauto.
    + rewrite Hd. simpl. eauto.
  - rewrite list_lookup_insert_eq by exact Hk. simpl. eauto.
Qed.

Lemma literal_fold_ok i base lens :
  Forall (fun len => 1 <= len <= 32)%nat lens ->
  forall t, tables_ok t ->
    let r := fold_left (fun t len =>
        if (i + len <=? n)%nat then
          relax (base + literalCost len) (i + len) (Literal len i) t
        else t) lens t in
    tables_ok r /\ (forall j, is_Some (mjoin (dp t !! j)) -> is_Some (mjoin (dp r !! j))).
Proof.
  induction lens as [|len lens IH]; intros Hall t Hok; simpl.
  - split; [exact Hok | trivial].
  - inversion Hall as [|? ? Hlen Hrest]; subst.
    destruct (i + len <=? n)%nat eqn:E.
    + apply Nat.leb_le in E.
      destruct (IH Hrest (relax (base + literalCost len) (i + len) (Literal len i) t))
        as [Ha Hb].
      { apply relax_ok; [lia | simpl; lia | exact Hok]. }
      split; [exact Ha|]. intros j Hj. apply Hb, relax_keeps, Hj.
    + now apply IH.
Qed.

Lemma seq_1_32 : seq 1 32 = 1%nat :: seq 2 31.
Proof. reflexivity. Qed.

Lemma literal_options_ok i base t :
  (i < n)%nat -> tables_ok t ->
  tables_ok (literal_options n i base t)
  /\ (forall j, is_Some (mjoin (dp t !! j)) ->
                is_Some (mjoin (dp (literal_options n i base t) !! j)))
  /\ is_Some (mjoin (dp (literal_options n i base t) !! S i)).
Proof.
  intros Hi Hok. unfold literal_options. rewrite seq_1_32.
  rewrite (fold_left_app _ [1%nat] (seq 2 31) t).
  set (t1 := fold_left _ [1%nat] t).
  assert (t1 = relax (base + literalCost 1) (i + 1) (Literal 1 i) t) as Ht1.
  { unfold t1. simpl.
    assert ((i + 1 <=? n)%nat = true) as -> by (apply Nat.leb_le; lia).
    reflexivity. }
  assert (tables_ok t1) as Hok1.
  { rewrite Ht1. apply relax_ok; [lia | simpl; lia | exact Hok]. }
  assert (is_Some (mjoin (dp t1 !! S i))) as H1.
  { rewrite Ht1. replace (S i) with (i + 1)%nat by lia. apply relax_sets.
    rewrite (ok_dp _ Hok). lia. }
  assert (forall j, is_Some (mjoin (dp t !! j)) -> is_Some (mjoin (dp t1 !! j))) as K1.
  { intros j. rewrite Ht1. apply relax_keeps. }
  clearbody t1.
  destruct (literal_fold_ok i base (seq 2 31)) with (t := t1) as [Ha Hb].
  { apply List.Forall_forall. intros len Hin. apply List.in_seq in Hin. lia. }
  { exact Hok1. }
  split; [exact Ha|]. split; [| now apply Hb].
  intros j Hj. now apply Hb, K1.
Qed.

Lemma match_len_le fuel p i : forall len,
  (len <= 256)%nat -> (match_len fuel input n p i len <= 256)%nat.
Proof.
  induction fuel as [|fuel IH]; intros len Hlen; simpl; [exact Hlen|].
  destruct (_ && _ && (len <? MAX_LENGTH)%nat)%bool eqn:E; [| exact Hlen].
  apply andb_prop in E as [_ E]. apply Nat.ltb_lt in E.
  apply IH. unfold MAX_LENGTH in E. lia.
Qed.

Lemma match_len_bound fuel p i : forall len,
  (i + len <= n)%nat -> (i + match_len fuel input n p i len <= n)%nat.
Proof.
  induction fuel as [|fuel IH]; intros len Hlen; simpl; [exact Hlen|].
  destruct ((i + len <? n)%nat && _ && _)%bool eqn:E; [| exact Hlen].
  apply andb_prop in E as [E _]. apply andb_prop in E as [E _].
  apply Nat.ltb_lt in E. apply IH. lia.
Qed.

Lemma match_options_ok i base t :
  (i < n)%nat -> tables_ok t ->
  tables_ok (match_options input n i base t)
  /\ (forall j, is_Some (mjoin (dp t !! j)) ->
                is_Some (mjoin (dp (match_options input n i base t) !! j))).
Proof.
  intros Hi. unfold match_options.
  set (searchStart := (i - MAX_OFFSET)%nat).
  assert (Forall (fun p => searchStart <= p < i)%nat (seq searchStart (i - searchStart)))
    as Hall.
  { apply List.Forall_forall. intros p Hin. apply List.in_seq in Hin. lia. }
  revert t. induction (seq searchStart (i - searchStart)) as [|p ps IH];
    intros t Hok; cbn [fold_left].
  - split; [exact Hok | trivial].
  - inversion Hall as [|? ? Hp Hrest]; subst.
    set (len := match_len MAX_LENGTH input n p i 0).
    destruct (MIN_MATCH <=? len)%nat eqn:E.
    + apply Nat.leb_le in E. unfold MIN_MATCH in E.
      assert (len <= 256)%nat by (apply match_len_le; lia).
      assert (i + len <= n)%nat by (apply match_len_bound; lia).
      destruct (IH Hrest (relax (base + matchCost len) (i + len) (Match len (i - p) i) t))
        as [Ha Hb].
      { apply relax_ok; [lia | | exact Hok]. simpl.
        unfold searchStart, MAX_OFFSET in Hp. lia. }
      split; [exact Ha|]. intros j Hj. apply Hb, relax_keeps, Hj.
    + now apply IH.
Qed.

Lemma dp_step_ok t i :
  (i < n)%nat -> tables_ok t -> reached i t ->
  tables_ok (dp_step input n t i) /\ reached (S i) (dp_step input n t i).
Proof.
  intros Hi Hok Hr. unfold dp_step.
  destruct (Hr i) as [base Hbase]; [lia | lia |]. rewrite Hbase.
  destruct (literal_options_ok i base t Hi Hok) as (Hok1 & Hk1 & Hs1).
  destruct (match_options_ok i base _ Hi Hok1) as (Hok2 & Hk2).
  split; [exact Hok2|].
  intros k Hk Hkn. apply Hk2.
  destruct (decide (k = S i)) as [->|Hne]; [exact Hs1|].
  apply Hk1, Hr; lia.
Qed.

Lemma dp_run_ok : tables_ok (dp_run input) /\ reached n (dp_run input).
Proof.
  unfold dp_run. fold n.
  set (t0 := mkTables _ _).
  assert (tables_ok t0) as Hok0.
  { split; simpl.
    - rewrite length_insert, length_replicate. lia.
    - rewrite length_replicate. lia.
    - intros k o H. apply lookup_replicate in H as [H _]. discriminate.
    - intros k Hk H. rewrite list_lookup_insert_ne in H by lia.
      destruct (replicate (n + 1) None !! k) eqn:E; [| destruct H; discriminate].
      apply lookup_replicate in E as [-> _]. destruct H; discriminate. }
  assert (reached 0 t0) as Hr0.
  { intros k Hk _. replace k with 0%nat by lia. unfold t0. simpl.
    rewrite list_lookup_insert_eq by (rewrite length_replicate; lia). simpl. eauto. }
  clearbody t0.
  assert (forall m t, (m <= n)%nat -> tables_ok t -> reached (n - m) t ->
            tables_ok (fold_left (dp_step input n) (seq (n - m) m) t)
            /\ reached n (fold_left (dp_step input n) (seq (n - m) m) t)) as Hgen.
  { induction m as [|m IH]; intros t Hm Hok Hr; simpl.
    - replace (n - 0)%nat with n in Hr by lia. now split.
    - destruct (dp_step_ok t (n - S m)) as [Hok' Hr']; [lia | exact Hok | exact Hr |].
      replace (S (n - S m)) with (n - m)%nat in * by lia.
      apply IH; [lia | exact Hok' | exact Hr']. }
  specialize (Hgen n t0). replace (n - n)%nat with 0%nat in Hgen by lia.
  apply Hgen; [lia | exact Hok0 | exact Hr0].
Qed.

Lemma reconstruct_ok t : tables_ok t -> reached n t ->
  forall fuel pos ops,
    (pos <= fuel)%nat -> (pos <= n)%nat ->
    Forall (fun o => exists k, wf_op k o) ops ->
    exists ops', reconstruct fuel (path t) pos ops = Ok ops'
                 /\ Forall (fun o => exists k, wf_op k o) ops'.
Proof.
  intros Hok Hr. induction fuel as [|fuel IH]; intros pos ops Hf Hn Hall.
  - replace pos with 0%nat by lia. simpl. eauto.
  - simpl. destruct (0 <? pos)%nat eqn:E; [| eauto].
    apply Nat.ltb_lt in E.
    destruct (ok_some _ Hok pos) as [o Ho]; [lia | apply Hr; lia |].
    rewrite Ho.
    assert (wf_op pos o) as Hwf.
    { apply (ok_wf _ Hok). destruct (path t !! pos) as [[o'|]|]; simpl in Ho; congruence. }
    apply IH.
    + destruct o; simpl in *; lia.
    + destruct o; simpl in *; lia.
    + constructor; [eauto | exact Hall].
Qed.

(** The control byte of a token the DP can choose is below 0xFF: a literal
    run has 0..31, a short match at most 0xDF, a long match at most 0xFE,
    because the stored offset stays below 0x1F00. *)
Lemma control_byte_ok k o :
  wf_op k o -> exists c rest, emit_op input o = c :: rest /\ 0 <= c < 0xFF.
Proof.
  destruct o as [len from | len off from]; simpl.
  - intros [_ Hlen]. eexists _, _. split; [reflexivity | lia].
  - intros (_ & Hlen & Hoff).
    pose proof (high_bits_small (Z.of_nat off - 1)) as Hh.
    destruct (len <=? 8)%nat eqn:E.
    + apply Nat.leb_le in E. eexists _, _. split; [reflexivity|].
      apply lor_small; [| apply Hh; lia].
      assert (len = 3 \/ len = 4 \/ len = 5 \/ len = 6 \/ len = 7 \/ len = 8)%nat
        as Hcases by lia.
      destruct Hcases as [->|[->|[->|[->|[->| ->]]]]]; vm_compute; tauto.
    + eexists _, _. split; [reflexivity|].
      apply lor_small; [vm_compute; tauto | apply Hh; lia].
Qed.

End LZFMarker.

(** C7, as stated, fails: a literal chunk carries the input bytes as they
    are, so an input byte 0xFF appears inside the stream, before the marker. *)
Lemma C7_two_marker_bytes :
  LZF.compress [0xFF] = Ok [0x00; 0xFF; 0xFF]
  /\ count_occ Z.eq_dec [0x00; 0xFF; 0xFF] 0xFF <> 1%nat.
Proof. vm_compute. split; [reflexivity | discriminate]. Qed.

(** C7, amended: for every input the LZF encoder returns a stream that is the
    tokens of the chosen parse followed by the end marker 0xFF at the terminal
    position, and no token begins with 0xFF: every control byte is in
    [0, 0xFE]. (Payload bytes are not restricted.) *)
Theorem C7_lzf_end_marker input :
  exists ops,
    LZF.operations input = Ok ops
    /\ LZF.compress input = Ok (to_u8 (flat_map (LZF.emit_op input) ops) ++ [0xFF])
    /\ Forall (fun o => exists c rest, LZF.emit_op input o = c :: rest /\ 0 <= c < 0xFF) ops.
Proof.
  destruct (dp_run_ok input) as [Hok Hr].
  destruct (reconstruct_ok input _ Hok Hr (length input) (length input) [])
    as (ops & Hops & Hall); [lia | lia | constructor |].
  exists ops. unfold LZF.compress, LZF.operations. rewrite Hops. simpl.
  split; [reflexivity|]. split.
  - unfold to_u8. now rewrite map_app.
  - eapply Forall_impl; [exact Hall|].
    intros o [k Hwf]. eapply control_byte_ok, Hwf.
Qed.

(** ** Pletter: the search for the offset subset *)

Section PletterSearch.
Import Pletter.

Variable c : codec.
Variable data : list Z.
Variable metadata : list meta.
Let n := length data.

(** The total DP cost of subset [q]. *)
Definition dp_cost (q : nat) : nat := fst (getLen c data metadata q).

Lemma try_lengths_le p i base m j k :
  (fst (fst (try_lengths c p i base m j k)) <= fst (fst k))%nat.
Proof.
  unfold try_lengths. revert k.
  induction (rev (seq 2 (j - 1))) as [|x xs IH]; intros [[kc kmode] kl];
    cbn [fold_left]; [simpl; lia|].
  destruct (_ <? kc)%nat eqn:E.
  - apply Nat.ltb_lt in E. etransitivity; [apply IH|]. simpl. lia.
  - apply IH.
Qed.

Lemma getLen_step_cost q p i :
  (i < length p)%nat ->
  (cost (nth_pak (getLen_step c metadata q p i) i) <= 9 + cost (nth_pak p (i + 1)))%nat
  /\ length (getLen_step c metadata q p i) = length p
  /\ (forall j, j <> i -> nth_pak (getLen_step c metadata q p i) j = nth_pak p j).
Proof.
  intros Hi. unfold getLen_step.
  set (k0 := ((9 + cost (nth_pak p (i + 1)))%nat, 0%nat, 0%nat)).
  set (k1 := try_lengths c p i 9 1 (clen_at metadata i 0) k0).
  set (ccc := if (q =? 1)%nat then 9%nat else (9 + q)%nat).
  pose proof (try_lengths_le p i 9 1 (clen_at metadata i 0) k0) as H1.
  pose proof (try_lengths_le p i ccc 2 (clen_at metadata i q) k1) as H2.
  fold k1 in H1.
  destruct (try_lengths c p i ccc 2 (clen_at metadata i q) k1) as [[kc kmode] kl].
  cbn [fst] in H1, H2. unfold k0 in H1. cbn [fst] in H1. repeat split.
  - unfold nth_pak at 1. rewrite list_lookup_insert_eq by exact Hi.
    cbn [default id cost]. lia.
  - apply length_insert.
  - intros j Hj. unfold nth_pak. now rewrite list_lookup_insert_ne.
Qed.

Lemma getLen_fold_cost q : forall k p,
  (k <= n)%nat -> length p = S n ->
  (forall j, (k <= j <= n)%nat -> cost (nth_pak p j) <= 9 * (n - j))%nat ->
  (cost (nth_pak (fold_left (getLen_step c metadata q) (rev (seq 0 k)) p) 0) <= 9 * n)%nat.
Proof.
  induction k as [|k IH]; intros p Hk Hlen Hinv.
  - simpl. specialize (Hinv 0%nat). lia.
  - rewrite seq_S, rev_app_distr. cbn [rev app fold_left Nat.add].
    destruct (getLen_step_cost q p k) as (Hc & Hl & Ho); [lia|].
    apply IH; [lia | lia |].
    intros j Hj. destruct (decide (j = k)) as [->|Hne].
    + specialize (Hinv (k + 1)%nat). lia.
    + rewrite Ho by exact Hne. apply Hinv. lia.
Qed.

(** The literal-only parse bounds every cost: 9 bits per byte. *)
Lemma dp_cost_bound q : (dp_cost q <= 9 * n)%nat.
Proof.
  unfold dp_cost, getLen. cbn [fst]. fold n.
  apply getLen_fold_cost; [lia | rewrite length_replicate; lia |].
  intros j Hj. unfold nth_pak.
  rewrite lookup_replicate_2 by lia. simpl. lia.
Qed.

(** The search keeps the first subset of least cost among those tried. *)
Lemma q_search_fold : forall qs minlen minbl,
  Forall (fun q => q <> 0%nat) qs ->
  let r := fold_left (fun '((minlen, minbl) : nat * nat) (i : nat) =>
      let '(cost, _) := getLen c data metadata i in
      if ((cost <? minlen)%nat && negb (i =? 0)%nat)%bool then (cost, i)
      else (minlen, minbl)) qs (minlen, minbl) in
  (forall q, In q qs -> fst r <= dp_cost q)%nat
  /\ (fst r <= minlen)%nat
  /\ (r = (minlen, minbl) \/ (In (snd r) qs /\ fst r = dp_cost (snd r))).
Proof.
  induction qs as [|q qs IH]; intros minlen minbl Hall; cbn [fold_left].
  - simpl. repeat split; [tauto | lia | now left].
  - inversion Hall as [|? ? Hq Hrest]; subst.
    assert ((q =? 0)%nat = false) as Eq0 by (apply Nat.eqb_neq; exact Hq).
    destruct (getLen c data metadata q) as [cq pq] eqn:Eg.
    assert (dp_cost q = cq) as Hcq by (unfold dp_cost; now rewrite Eg).
    rewrite Eq0, andb_true_r.
    destruct (cq <? minlen)%nat eqn:E.
    + apply Nat.ltb_lt in E.
      destruct (IH cq q Hrest) as (Hmin & Hle & Hsel).
      repeat split.
      * intros q' [<-|Hin]; [lia | now apply Hmin].
      * lia.
      * right. destruct Hsel as [-> | [Hin Heq]]; simpl.
        -- split; [now left | now rewrite Hcq].
        -- split; [now right | exact Heq].
    + apply Nat.ltb_ge in E.
      destruct (IH minlen minbl Hrest) as (Hmin & Hle & Hsel).
      repeat split.
      * intros q' [<-|Hin]; [lia | now apply Hmin].
      * exact Hle.
      * destruct Hsel as [-> | [Hin Heq]]; [now left | right].
        split; [now right | exact Heq].
Qed.

Lemma chosen_q_minimal :
  (0 < n)%nat ->
  let q := chosen_q c data metadata in
  (1 <= q <= 6)%nat /\ forall q', (1 <= q' <= 6)%nat -> (dp_cost q <= dp_cost q')%nat.
Proof.
  intros Hn. unfold chosen_q, q_search. fold n.
  destruct (q_search_fold (seq 1 6) (n * 1000)%nat 0%nat) as (Hmin & Hle & Hsel).
  { apply List.Forall_forall. intros q Hq. apply List.in_seq in Hq. lia. }
  destruct (fold_left _ (seq 1 6) _) as [minlen minbl]. cbn [fst snd] in *.
  assert (forall q', (1 <= q' <= 6)%nat -> In q' (seq 1 6)) as Hin6.
  { intros q' Hq'. apply List.in_seq. lia. }
  destruct Hsel as [[= -> ->] | [Hin Heq]].
  - exfalso. pose proof (Hmin 1%nat (Hin6 1%nat ltac:(lia))).
    pose proof (dp_cost_bound 1). lia.
  - apply List.in_seq in Hin.
    assert ((minbl =? 0)%nat = false) as -> by (apply Nat.eqb_neq; lia).
    cbn [andb]. split; [lia|].
    intros q' Hq'. rewrite <- Heq. now apply Hmin, Hin6.
Qed.

End PletterSearch.

(** ** Pletter: the offset field *)

Module PletterOffset.

Section PletterOffset.
Import Pletter.

(** The number of extra offset bits of subset [q], as the two [switch]
    statements have it. *)
Definition extra_width (q : Z) : nat :=
  if q =? 1 then 0%nat else Z.to_nat q.

(** [n] bits read with [getBit], first bit most significant. *)
Fixpoint getBits (n : nat) (compressedData : list Z) (v : Z) (r : reader) : Z * reader :=
  match n with
  | O => (v, r)
  | S n' =>
      let '(b, r) := getBit compressedData r in
      getBits n' compressedData (2 * v + b) r
  end.

(** The [n] low bits of [v] written with [_addBit], most significant first. *)
Fixpoint addBits (n : nat) (v : Z) (w : writer) : writer :=
  match n with
  | O => w
  | S n' => addBits n' v (addBit (Z.land (Z.shiftr v (Z.of_nat n')) 1) w)
  end.

Lemma land_1_bit x : Z.land x 1 = 0 \/ Z.land x 1 = 1.
Proof.
  change (Z.land x 1) with (Z.land x (Z.ones 1)). rewrite Z.land_ones by lia.
  change (2 ^ 1) with 2. pose proof (Z.mod_pos_bound x 2). lia.
Qed.

Lemma getBit_bit compressedData r :
  fst (getBit compressedData r) = 0 \/ fst (getBit compressedData r) = 1.
Proof. unfold getBit. cbn [fst]. apply land_1_bit. Qed.

(** The long form, read by the decoder: the byte gives the low 7 bits, the
    extra bits the rest, and 129 is added. *)
Lemma read_offset_long compressedData q r B r1 :
  1 <= q <= 7 ->
  getByte compressedData r = Ok (B, r1) ->
  Z.land B 0x80 <> 0 ->
  read_offset compressedData q r
  = (let '(e, r2) := getBits (extra_width q) compressedData 0 r1 in
     Ok (Z.lor (Z.land B 0x7F) (Z.shiftl e 7) + 129, r2)).
Proof.
  intros Hq HB Hhi. unfold read_offset. rewrite HB. cbn [mbind result_bind rbind].
  apply Z.eqb_neq in Hhi. rewrite Hhi.
  assert (q = 1 \/ q = 2 \/ q = 3 \/ q = 4 \/ q = 5 \/ q = 6 \/ q = 7) as Hcases by lia.
  set (o := Z.land B 0x7F). clearbody o.
  destruct Hcases as [->|[->|[->|[->|[->|[->| ->]]]]]];
    cbn [extra_shifts extra_width Z.eqb Pos.eqb fold_left];
    repeat match goal with
      | |- context [Z.to_nat ?k] =>
          let v := eval vm_compute in (Z.to_nat k) in change (Z.to_nat k) with v
      end;
    cbn [getBits];
    repeat match goal with
      | |- context [getBit compressedData ?x] =>
          let b := fresh "b" in let r' := fresh "r" in let E := fresh "E" in
          let H := fresh "H" in
          pose proof (getBit_bit compressedData x) as H;
          destruct (getBit compressedData x) as [b r'] eqn:E;
          cbn [fst] in H; destruct H as [-> | ->]
      end;
    match goal with
    | |- Ok (?X + 128 + 1, _) = Ok (?Y + 129, _) =>
        assert (Y = X) as ->;
        [ rewrite <- ?Z.lor_assoc; first [reflexivity | apply Z.lor_0_r]
        | rewrite <- Z.add_assoc; reflexivity ]
    end.
Qed.

(** The short form. *)
Lemma read_offset_short compressedData q r B r1 :
  getByte compressedData r = Ok (B, r1) ->
  Z.land B 0x80 = 0 ->
  read_offset compressedData q r = Ok (B + 1, r1).
Proof.
  intros HB Hlo. unfold read_offset. rewrite HB. cbn [mbind result_bind rbind].
  now rewrite Hlo.
Qed.

End PletterOffset.

(** *** The bit writer and the bit reader walk the stream in step *)

Section PletterSync.
Import Pletter.

(** The value a bit argument stands for. *)
Definition truth (b : Z) : Z := if b =? 0 then 0 else 1.

Record wf (w : writer) : Prop := mkWf
  { wf_pending : (pendingBits w < 8)%nat;
    wf_pos : pendingBits w <> 0%nat -> (eventPos w < length (dest w))%nat;
    wf_byte : 0 <= eventByte w < 2 ^ Z.of_nat (pendingBits w) }.

(** The finished stream [out] holds what [w] has settled: the bytes written,
    and the bits gathered so far at the top of the pending event byte. *)
Definition committed (out : list Z) (w : writer) : Prop :=
  (forall p, (p < length (dest w))%nat ->
             (pendingBits w = 0%nat \/ p <> eventPos w) -> out !! p = dest w !! p)
  /\ (pendingBits w <> 0%nat ->
      exists v, out !! eventPos w = Some v
                /\ Z.shiftr v (8 - Z.of_nat (pendingBits w)) = eventByte w).

(** The reader stands where the writer stood. *)
Definition sync (w : writer) (r : reader) : Prop :=
  dataPosition r = length (dest w)
  /\ (pendingBits w = 0%nat -> bitForVarPosition r = 7)
  /\ (pendingBits w <> 0%nat ->
      varPosition r = eventPos w /\ bitForVarPosition r = 7 - Z.of_nat (pendingBits w)).

Lemma truth_bit b : truth b = 0 \/ truth b = 1.
Proof. unfold truth. destruct (b =? 0); auto. Qed.

Lemma shiftr_succ v k e b :
  0 <= k -> (b = 0 \/ b = 1) ->
  Z.shiftr v k = 2 * e + b -> Z.shiftr v (k + 1) = e.
Proof.
  intros Hk Hb H. rewrite <- Z.shiftr_shiftr by lia. rewrite H.
  rewrite Z.shiftr_div_pow2 by lia. change (2 ^ 1) with 2.
  symmetry. apply Z.div_unique with b; lia.
Qed.

Lemma land_low e b : (b = 0 \/ b = 1) -> Z.land (2 * e + b) 1 = b.
Proof.
  intros Hb. change (Z.land (2 * e + b) 1) with (Z.land (2 * e + b) (Z.ones 1)).
  rewrite Z.land_ones by lia. change (2 ^ 1) with 2.
  symmetry. apply Z.mod_unique with e; lia.
Qed.

(** The three cases of [_addBit]. *)
Lemma addBit_first b w :
  pendingBits w = 0%nat ->
  addBit b w = mkWriter (dest w ++ [0]) (length (dest w)) 1 (eventByte w * 2 + truth b).
Proof. intros H. unfold addBit, claimEvent, truth. rewrite H. reflexivity. Qed.

Lemma addBit_middle b w :
  (0 < pendingBits w < 7)%nat ->
  addBit b w = mkWriter (dest w) (eventPos w) (S (pendingBits w))
                 (eventByte w * 2 + truth b).
Proof.
  intros H. unfold addBit, truth.
  assert ((pendingBits w =? 0)%nat = false) as -> by (apply Nat.eqb_neq; lia).
  cbn [dest eventPos pendingBits eventByte].
  assert ((S (pendingBits w) =? 8)%nat = false) as -> by (apply Nat.eqb_neq; lia).
  reflexivity.
Qed.

Lemma addBit_last b w :
  pendingBits w = 7%nat ->
  addBit b w = mkWriter (<[eventPos w := (eventByte w * 2 + truth b) mod 256]> (dest w))
                 (eventPos w) 0 0.
Proof.
  intros H. unfold addBit, addEvent, truth. rewrite H.
  cbn [Nat.eqb dest eventPos pendingBits eventByte]. rewrite H. reflexivity.
Qed.

Lemma pending_cases w :
  wf w -> (pendingBits w = 0 \/ 0 < pendingBits w < 7 \/ pendingBits w = 7)%nat.
Proof. intros [H _ _]. lia. Qed.

Lemma addBit_wf b w : wf w -> wf (addBit b w).
Proof.
  intros Hwf. pose proof (truth_bit b) as Hb.
  destruct (pending_cases w Hwf) as [H|[H|H]]; destruct Hwf as [Hp Hpos Hbyte].
  - rewrite addBit_first by exact H. rewrite H in Hbyte. split; simpl.
    + lia.
    + intros _. rewrite length_app. simpl. lia.
    + change (2 ^ 0) with 1 in Hbyte. lia.
  - rewrite addBit_middle by exact H. split; simpl.
    + lia.
    + intros _. apply Hpos. lia.
    + rewrite Nat2Z.inj_succ, Z.pow_succ_r by lia. lia.
  - rewrite addBit_last by exact H. split; simpl; [lia | tauto | lia].
Qed.

Lemma addBit_back out b w : wf w -> committed out (addBit b w) -> committed out w.
Proof.
  intros Hwf. pose proof (truth_bit b) as Hb.
  destruct (pending_cases w Hwf) as [H|[H|H]]; destruct Hwf as [Hp Hpos Hbyte].
  - rewrite addBit_first by exact H. intros [H1 _]. simpl in H1. split; [| tauto].
    intros p Hlt _. rewrite H1.
    + now rewrite lookup_app_l.
    + rewrite length_app. simpl. lia.
    + right. lia.
  - rewrite addBit_middle by exact H. intros [H1 H2]. simpl in H1, H2. split.
    + intros p Hlt [Hz|Hne]; [lia|]. apply H1; [exact Hlt | now right].
    + intros _. destruct H2 as (v & Hv & Hs); [lia|]. exists v. split; [exact Hv|].
      replace (8 - Z.of_nat (pendingBits w)) with (8 - Z.of_nat (S (pendingBits w)) + 1)
        by lia.
      apply shiftr_succ with (b := truth b); [lia | exact Hb | lia].
  - rewrite addBit_last by exact H. intros [H1 _]. simpl in H1.
    rewrite length_insert in H1. split.
    + intros p Hlt [Hz|Hne]; [lia|]. rewrite H1 by auto.
      now rewrite list_lookup_insert_ne by auto.
    + intros _. specialize (Hpos ltac:(lia)).
      exists (eventByte w * 2 + truth b). split.
      * rewrite H1 by auto. rewrite list_lookup_insert_eq by exact Hpos.
        rewrite H in Hbyte. rewrite Z.mod_small; [reflexivity|].
        change (2 ^ Z.of_nat 7) with 128 in Hbyte. lia.
      * rewrite H. change (8 - Z.of_nat 7) with (0 + 1).
        apply shiftr_succ with (b := truth b); [lia | exact Hb |].
        rewrite Z.shiftr_0_r. lia.
Qed.

Lemma addBit_read out b w r :
  wf w -> sync w r -> committed out (addBit b w) ->
  exists r', getBit out r = (truth b, r') /\ sync (addBit b w) r'.
Proof.
  intros Hwf (Hd & Hs0 & Hs1). pose proof (truth_bit b) as Hb.
  destruct r as [dp vp bf]. cbn [dataPosition varPosition bitForVarPosition] in *.
  destruct (pending_cases w Hwf) as [H|[H|H]]; destruct Hwf as [Hp Hpos Hbyte].
  - rewrite addBit_first by exact H. intros [_ H2]. simpl in H2.
    destruct H2 as (v & Hv & Hsh); [lia|].
    rewrite (Hs0 H). subst dp. unfold getBit.
    cbn [Z.eqb Pos.eqb dataPosition varPosition bitForVarPosition].
    unfold at_. rewrite Hv. cbn [from_option id].
    change (8 - Z.of_nat 1) with 7 in Hsh. rewrite Hsh.
    rewrite H in Hbyte. change (2 ^ Z.of_nat 0) with 1 in Hbyte.
    replace (eventByte w) with 0 by lia.
    replace (Z.land (0 * 2 + truth b) 1) with (truth b)
      by (destruct Hb as [-> | ->]; reflexivity).
    eexists. split; [reflexivity|]. repeat split; simpl.
    + rewrite length_app. simpl. lia.
    + intros; lia.
  - rewrite addBit_middle by exact H. intros [_ H2]. simpl in H2.
    destruct H2 as (v & Hv & Hsh); [lia|].
    destruct Hs1 as [Hvar Hbit]; [lia|]. subst dp vp bf.
    unfold getBit. cbn [dataPosition varPosition bitForVarPosition].
    assert ((7 - Z.of_nat (pendingBits w) =? 7) = false) as -> by (apply Z.eqb_neq; lia).
    cbn [dataPosition varPosition bitForVarPosition].
    unfold at_. rewrite Hv. cbn [from_option id].
    replace (8 - Z.of_nat (S (pendingBits w))) with (7 - Z.of_nat (pendingBits w)) in Hsh
      by lia.
    rewrite Hsh. replace (eventByte w * 2 + truth b) with (2 * eventByte w + truth b) by lia.
    rewrite land_low by exact Hb.
    assert ((7 - Z.of_nat (pendingBits w) - 1 =? -1) = false) as ->
      by (apply Z.eqb_neq; lia).
    eexists. split; [reflexivity|]. repeat split; simpl; lia.
  - rewrite addBit_last by exact H. intros [H1 _]. simpl in H1.
    rewrite length_insert in H1.
    destruct Hs1 as [Hvar Hbit]; [lia|]. specialize (Hpos ltac:(lia)).
    rewrite H in Hbit. change (7 - Z.of_nat 7) with 0 in Hbit. subst dp vp bf.
    unfold getBit. cbn [Z.eqb dataPosition varPosition bitForVarPosition].
    unfold at_. rewrite H1 by auto. rewrite list_lookup_insert_eq by exact Hpos.
    cbn [from_option id]. rewrite H in Hbyte. change (2 ^ Z.of_nat 7) with 128 in Hbyte.
    rewrite Z.mod_small by lia. rewrite Z.shiftr_0_r.
    replace (eventByte w * 2 + truth b) with (2 * eventByte w + truth b) by lia.
    rewrite land_low by exact Hb.
    eexists. split; [reflexivity|]. repeat split; simpl; try lia.
    now rewrite length_insert.
Qed.

Lemma addData_wf v w : wf w -> wf (addData v w).
Proof.
  intros [Hp Hpos Hbyte]. split; simpl; [exact Hp | | exact Hbyte].
  intros H. rewrite length_app. simpl. specialize (Hpos H). lia.
Qed.

Lemma addData_back out v w : wf w -> committed out (addData v w) -> committed out w.
Proof.
  intros [Hp Hpos Hbyte] [H1 H2]. simpl in H1, H2. split; [| exact H2].
  intros p Hlt Hor. rewrite H1.
  - now rewrite lookup_app_l.
  - rewrite length_app. simpl. lia.
  - exact Hor.
Qed.

Lemma addData_read out v w r :
  wf w -> sync w r -> committed out (addData v w) ->
  exists r', getByte out r = Ok (Z.land v 0xFF, r') /\ sync (addData v w) r'.
Proof.
  intros [Hp Hpos Hbyte] (Hd & Hs0 & Hs1) [H1 _]. simpl in H1.
  assert (out !! length (dest w) = Some (Z.land v 0xFF)) as Hout.
  { rewrite H1.
    - rewrite lookup_app_r by lia. now rewrite Nat.sub_diag.
    - rewrite length_app. simpl. lia.
    - destruct (decide (pendingBits w = 0%nat)) as [Hz|Hnz]; [now left | right].
      specialize (Hpos Hnz). lia. }
  unfold getByte. rewrite Hd.
  assert ((length out <=? length (dest w))%nat = false) as ->.
  { apply Nat.leb_gt. eapply lookup_lt_Some, Hout. }
  unfold get. rewrite Hout. cbn [from_option id].
  eexists. split; [reflexivity|]. repeat split; simpl.
  - rewrite length_app. simpl. lia.
  - exact Hs0.
  - now apply Hs1.
  - now apply Hs1.
Qed.

Lemma done_committed w : wf w -> committed (dest (done w)) w.
Proof.
  intros [Hp Hpos Hbyte]. unfold done.
  destruct (pendingBits w =? 0)%nat eqn:E.
  - apply Nat.eqb_eq in E. split; [reflexivity | tauto].
  - apply Nat.eqb_neq in E. specialize (Hpos E). unfold addEvent. simpl. split.
    + intros p Hlt [Hz|Hne]; [tauto|]. now rewrite list_lookup_insert_ne by auto.
    + intros _. eexists. split; [apply list_lookup_insert_eq, Hpos|].
      assert (0 < 2 ^ Z.of_nat (8 - pendingBits w)) by (apply Z.pow_pos_nonneg; lia).
      assert (2 ^ Z.of_nat (pendingBits w) * 2 ^ Z.of_nat (8 - pendingBits w) = 256) as Hpow.
      { rewrite <- Z.pow_add_r by lia.
        replace (Z.of_nat (pendingBits w) + Z.of_nat (8 - pendingBits w)) with 8 by lia.
        reflexivity. }
      rewrite Z.mod_small by nia.
      rewrite Z.shiftr_div_pow2 by lia.
      replace (8 - Z.of_nat (pendingBits w)) with (Z.of_nat (8 - pendingBits w)) by lia.
      apply Z.div_mul. lia.
Qed.

(** *** Sequences of writes *)

Inductive wop : Type := WBit (b : Z) | WByte (v : Z).

Definition run_op (w : writer) (o : wop) : writer :=
  match o with WBit b => addBit b w | WByte v => addData v w end.

Definition run_w (ops : list wop) (w : writer) : writer := fold_left run_op ops w.

(** What the stream holds for a write. *)
Definition stored (o : wop) : Z :=
  match o with WBit b => truth b | WByte v => Z.land v 0xFF end.

(** Reading the writes back: a bit where a bit was written, a byte where
    a byte was. *)
Fixpoint replay (ops : list wop) (out : list Z) (r : reader) : result (list Z * reader) :=
  match ops with
  | [] => Ok ([], r)
  | WBit _ :: ops =>
      let '(b, r) := getBit out r in
      '(vs, r) ← replay ops out r; Ok (b :: vs, r)
  | WByte _ :: ops =>
      '(v, r) ← getByte out r;
      '(vs, r) ← replay ops out r; Ok (v :: vs, r)
  end.

Lemma run_op_wf w o : wf w -> wf (run_op w o).
Proof. destruct o; [apply addBit_wf | apply addData_wf]. Qed.

Lemma run_w_wf ops : forall w, wf w -> wf (run_w ops w).
Proof.
  induction ops as [|o ops IH]; intros w Hwf; [exact Hwf|].
  apply IH, run_op_wf, Hwf.
Qed.

Lemma run_w_back out ops : forall w,
  wf w -> committed out (run_w ops w) -> committed out w.
Proof.
  induction ops as [|o ops IH]; intros w Hwf H; [exact H|].
  apply IH in H; [| apply run_op_wf, Hwf].
  destruct o; [eapply addBit_back | eapply addData_back]; eassumption.
Qed.

Lemma replay_run out ops : forall w r,
  wf w -> sync w r -> committed out (run_w ops w) ->
  exists r', replay ops out r = Ok (map stored ops, r') /\ sync (run_w ops w) r'.
Proof.
  induction ops as [|o ops IH]; intros w r Hwf Hs Hc.
  - exists r. split; [reflexivity | exact Hs].
  - assert (committed out (run_op w o)) as Hc1.
    { eapply run_w_back; [apply run_op_wf, Hwf | exact Hc]. }
    destruct o as [b|v]; cbn [replay map stored].
    + destruct (addBit_read out b w r Hwf Hs Hc1) as (r1 & Hr & Hs1).
      rewrite Hr.
      destruct (IH (addBit b w) r1) as (r2 & Hr2 & Hs2);
        [apply addBit_wf, Hwf | exact Hs1 | exact Hc |].
      rewrite Hr2. simpl. eauto.
    + destruct (addData_read out v w r Hwf Hs Hc1) as (r1 & Hr & Hs1).
      rewrite Hr. simpl.
      destruct (IH (addData v w) r1) as (r2 & Hr2 & Hs2);
        [apply addData_wf, Hwf | exact Hs1 | exact Hc |].
      rewrite Hr2. simpl. eauto.
Qed.

Definition w0 : writer := mkWriter [] 0 0 0.
Definition r0 : reader := mkReader 0 0 7.

Lemma w0_wf : wf w0.
Proof. split; simpl; lia. Qed.

Lemma w0_sync : sync w0 r0.
Proof. repeat split; simpl; intros; lia. Qed.

(** Any writes, read back from the finished stream, give what was written. *)
Lemma replay_stream ops :
  exists r, replay ops (dest (done (run_w ops w0))) r0 = Ok (map stored ops, r).
Proof.
  destruct (replay_run (dest (done (run_w ops w0))) ops w0 r0) as (r & Hr & _).
  - exact w0_wf.
  - exact w0_sync.
  - apply done_committed, run_w_wf, w0_wf.
  - eauto.
Qed.

End PletterSync.

(** *** The offset field, written and read back *)

Section PletterAgreement.
Import Pletter.

(** The writes of the two offset forms of [save]. *)
Definition offset1_ops (cpos0 : nat) : list wop := [WByte (Z.of_nat cpos0 - 1)].

Definition offset2_ops (q cposq : nat) : list wop :=
  let j := Z.of_nat cposq - 1 - 128 in
  WByte (Z.lor 128 (Z.land j 127)) :: map WBit (map (Z.land j) (extra_masks q)).

Lemma save_offset1_ops cpos0 w : save_offset1 cpos0 w = run_w (offset1_ops cpos0) w.
Proof. reflexivity. Qed.

Lemma save_offset2_ops q cposq w : save_offset2 q cposq w = run_w (offset2_ops q cposq) w.
Proof.
  unfold save_offset2, offset2_ops, run_w. cbn [fold_left run_op].
  generalize (addData (Z.lor 128 (Z.land (Z.of_nat cposq - 1 - 128) 127)) w).
  induction (extra_masks q) as [|m ms IH]; intros w'; [reflexivity|].
  cbn [fold_left map run_op]. apply IH.
Qed.

Lemma replay_getBits out bs : forall r acc vs r',
  replay (map WBit bs) out r = Ok (vs, r') ->
  getBits (length bs) out acc r = (fold_left (fun a v => 2 * a + v) vs acc, r').
Proof.
  induction bs as [|b bs IH]; intros r acc vs r'; cbn [map replay length getBits].
  - now intros [= <- <-].
  - destruct (getBit out r) as [v r1]. intros H.
    apply bind_Ok in H as ([vs' r2] & Hr & [= <- <-]).
    cbn [fold_left]. now apply IH.
Qed.

(** What the decoder computes from the stored byte and bits of
    [offset2_ops], checked for one offset. *)
Definition offset2_check (q : nat) (cposq : nat) : bool :=
  let ops := offset2_ops q cposq in
  match map stored ops with
  | B :: bits =>
      let e := fold_left (fun a v => 2 * a + v) bits 0 in
      (negb (Z.land B 0x80 =? 0)
       && (Z.lor (Z.land B 0x7F) (Z.shiftl e 7) + 129 =? Z.of_nat cposq)
       && (length bits =? extra_width (Z.of_nat q))%nat)%bool
  | [] => false
  end.

Lemma offset2_checked q :
  (1 <= q <= 6)%nat ->
  forallb (fun k => offset2_check q (129 + k))
    (seq 0 (default 0%nat (maxlen constructor !! q) - 128)) = true.
Proof.
  intros Hq.
  assert (q = 1 \/ q = 2 \/ q = 3 \/ q = 4 \/ q = 5 \/ q = 6)%nat as Hc by lia.
  destruct Hc as [->|[->|[->|[->|[->| ->]]]]]; vm_compute; reflexivity.
Qed.

Lemma offset2_check_ok q cposq :
  (1 <= q <= 6)%nat ->
  (129 <= cposq <= default 0%nat (maxlen constructor !! q))%nat ->
  offset2_check q cposq = true.
Proof.
  intros Hq Hc. pose proof (offset2_checked q Hq) as H.
  rewrite List.forallb_forall in H.
  replace cposq with (129 + (cposq - 129))%nat by lia.
  apply H, List.in_seq. lia.
Qed.

Lemma replay_offset2 out q cposq r r2 :
  (1 <= q <= 6)%nat ->
  (129 <= cposq <= default 0%nat (maxlen constructor !! q))%nat ->
  replay (offset2_ops q cposq) out r = Ok (map stored (offset2_ops q cposq), r2) ->
  read_offset out (Z.of_nat q) r = Ok (Z.of_nat cposq, r2).
Proof.
  intros Hq Hc Hr. pose proof (offset2_check_ok q cposq Hq Hc) as Hchk.
  unfold offset2_check in Hchk. unfold offset2_ops in *.
  cbn [map replay] in Hr, Hchk.
  apply bind_Ok in Hr as ([B r1] & HB & Hr).
  apply bind_Ok in Hr as ([bits r3] & Hbits & [= HeqB Heqbits ->]).
  subst B. rewrite <- Heqbits in Hchk.
  apply andb_prop in Hchk as [Hchk Hlen]. apply andb_prop in Hchk as [Hhi Hval].
  apply negb_true_iff, Z.eqb_neq in Hhi. apply Z.eqb_eq in Hval.
  apply Nat.eqb_eq in Hlen.
  cbn [stored] in Hhi, Hval.
  rewrite (read_offset_long out (Z.of_nat q) r _ r1 ltac:(lia) HB Hhi).
  rewrite <- Hlen.
  replace (length bits) with (length (map (Z.land (Z.of_nat cposq - 1 - 128)) (extra_masks q))).
  2:{ rewrite Heqbits, !length_map. reflexivity. }
  rewrite (replay_getBits out _ r1 0 bits r2 Hbits). now rewrite Hval.
Qed.

Lemma replay_offset1 out q cpos0 r r2 :
  (1 <= cpos0 <= 128)%nat ->
  replay (offset1_ops cpos0) out r = Ok (map stored (offset1_ops cpos0), r2) ->
  read_offset out q r = Ok (Z.of_nat cpos0, r2).
Proof.
  intros Hc Hr. unfold offset1_ops in Hr. cbn [map replay stored] in Hr.
  apply bind_Ok in Hr as ([B r1] & HB & Hr). simpl in Hr.
  injection Hr as HeqB ->. subst B.
  assert (Z.land (Z.of_nat cpos0 - 1) 255 = Z.of_nat cpos0 - 1) as Hsame.
  { change 255 with (Z.ones 8). rewrite Z.land_ones by lia.
    apply Z.mod_small. lia. }
  rewrite Hsame in HB.
  rewrite (read_offset_short out q r _ r2 HB).
  - f_equal. f_equal. lia.
  - apply (small_cases (fun h => Z.land h 128 = 0) 128); [| lia].
    vm_compute. repeat constructor.
Qed.

End PletterAgreement.

(** *** The claim *)

(** The offset formula and the table as the specification words them. *)
Definition spec_long_offset (B extraBits : Z) : Z :=
  Z.lor (Z.land B 0x7F) (Z.shiftl extraBits 7) + 1.
Definition spec_extra_width (q : Z) : Z := q - 1.
Definition spec_max_offset (q : Z) : Z := 2 ^ (7 + spec_extra_width q).

Lemma byte_high_bit B :
  0 <= B < 256 -> (B < 128 -> Z.land B 0x80 = 0) /\ (128 <= B -> Z.land B 0x80 <> 0).
Proof.
  intros HB.
  assert ((if B <? 128 then Z.land B 0x80 =? 0 else negb (Z.land B 0x80 =? 0)) = true) as H.
  { revert B HB.
    apply (small_cases (fun B => (if B <? 128 then Z.land B 0x80 =? 0
                                  else negb (Z.land B 0x80 =? 0)) = true) 256).
    apply List.Forall_forall. apply List.forallb_forall. vm_compute. reflexivity. }
  destruct (B <? 128) eqn:E.
  - apply Z.ltb_lt in E. apply Z.eqb_eq in H. split; [trivial | lia].
  - apply Z.ltb_ge in E. apply negb_true_iff, Z.eqb_neq in H. split; [lia | trivial].
Qed.

(** C5, as stated, fails: with q = 1 the byte 0x80 and no extra bits are
    read as offset 129, where the stated formula gives 1 and the stated
    table allows at most 128. *)
Lemma C5_long_offset_is_not_as_stated :
  Pletter.read_offset [0x80] 1 (Pletter.mkReader 0 0 7) = Ok (129, Pletter.mkReader 1 0 7)
  /\ spec_long_offset 0x80 0 = 1
  /\ spec_max_offset 1 = 128.
Proof. vm_compute. repeat split; reflexivity. Qed.

(** C5, amended: a match offset is carried in one byte [B]. If [B < 128] the
    offset is [B + 1]. If [B >= 128] the offset is
    [((B & 0x7F) | (extraBits << 7)) + 129], where [extraBits] is a field of
    0, 2, 3, 4, 5, 6, 7 bits for q = 1..7, read most significant bit first;
    the largest offsets are therefore 256, 640, 1152, 2176, 4224, 8320 and
    16512, the first six of which are the windows the encoder searches for
    q = 1..6. The encoder and the decoder agree: wherever in a stream [save]
    writes the offset of a short match (1..128) or of a long match (129 up
    to the window of q), the decoder that has read what precedes it reads
    that offset back. *)
Theorem C5_pletter_offset_encoding :
  (forall out q r B r1,
      Pletter.getByte out r = Ok (B, r1) -> 0 <= B < 128 ->
      Pletter.read_offset out q r = Ok (B + 1, r1))
  /\ (forall out q r B r1,
      1 <= q <= 7 -> Pletter.getByte out r = Ok (B, r1) -> 128 <= B < 256 ->
      Pletter.read_offset out q r
      = (let '(e, r2) := getBits (extra_width q) out 0 r1 in
         Ok (Z.lor (Z.land B 0x7F) (Z.shiftl e 7) + 129, r2)))
  /\ map extra_width [1; 2; 3; 4; 5; 6; 7] = [0; 2; 3; 4; 5; 6; 7]%nat
  /\ map (fun q => Z.lor 0x7F (Z.shiftl (2 ^ Z.of_nat (extra_width q) - 1) 7) + 129)
       [1; 2; 3; 4; 5; 6; 7] = [256; 640; 1152; 2176; 4224; 8320; 16512]
  /\ Pletter.maxlen Pletter.constructor = [128; 256; 640; 1152; 2176; 4224; 8320]%nat
  /\ (forall pre post q cpos0,
      (1 <= cpos0 <= 128)%nat ->
      let out := Pletter.dest (Pletter.done
                   (run_w post (Pletter.save_offset1 cpos0 (run_w pre w0)))) in
      exists r1 r2,
        replay pre out r0 = Ok (map stored pre, r1)
        /\ Pletter.read_offset out q r1 = Ok (Z.of_nat cpos0, r2))
  /\ (forall pre post q cposq,
      (1 <= q <= 6)%nat ->
      (129 <= cposq <= default 0%nat (Pletter.maxlen Pletter.constructor !! q))%nat ->
      let out := Pletter.dest (Pletter.done
                   (run_w post (Pletter.save_offset2 q cposq (run_w pre w0)))) in
      exists r1 r2,
        replay pre out r0 = Ok (map stored pre, r1)
        /\ Pletter.read_offset out (Z.of_nat q) r1 = Ok (Z.of_nat cposq, r2)).
Proof.
  split; [| split; [| split; [| split; [| split; [| split]]]]].
  - intros out q r B r1 HB Hlt. apply read_offset_short with (r1 := r1); [exact HB|].
    apply byte_high_bit; lia.
  - intros out q r B r1 Hq HB Hge. apply read_offset_long; [exact Hq | exact HB |].
    apply byte_high_bit; lia.
  - reflexivity.
  - reflexivity.
  - reflexivity.
  - intros pre post q cpos0 Hc out.
    assert (wf (run_w pre w0)) as Hwf1 by apply run_w_wf, w0_wf.
    assert (committed out (run_w post (Pletter.save_offset1 cpos0 (run_w pre w0)))) as Hc3.
    { apply done_committed, run_w_wf. rewrite save_offset1_ops. apply run_w_wf, Hwf1. }
    assert (committed out (run_w (offset1_ops cpos0) (run_w pre w0))) as Hc2.
    { rewrite <- save_offset1_ops. eapply run_w_back; [| exact Hc3].
      rewrite save_offset1_ops. apply run_w_wf, Hwf1. }
    assert (committed out (run_w pre w0)) as Hc1.
    { eapply run_w_back; [exact Hwf1 | exact Hc2]. }
    destruct (replay_run out pre w0 r0 w0_wf w0_sync Hc1) as (r1 & Hr1 & Hs1).
    destruct (replay_run out (offset1_ops cpos0) _ r1 Hwf1 Hs1 Hc2) as (r2 & Hr2 & _).
    exists r1, r2. split; [exact Hr1|]. now apply replay_offset1.
  - intros pre post q cposq Hq Hc out.
    assert (wf (run_w pre w0)) as Hwf1 by apply run_w_wf, w0_wf.
    assert (committed out (run_w post (Pletter.save_offset2 q cposq (run_w pre w0)))) as Hc3.
    { apply done_committed, run_w_wf. rewrite save_offset2_ops. apply run_w_wf, Hwf1. }
    assert (committed out (run_w (offset2_ops q cposq) (run_w pre w0))) as Hc2.
    { rewrite <- save_offset2_ops. eapply run_w_back; [| exact Hc3].
      rewrite save_offset2_ops. apply run_w_wf, Hwf1. }
    assert (committed out (run_w pre w0)) as Hc1.
    { eapply run_w_back; [exact Hwf1 | exact Hc2]. }
    destruct (replay_run out pre w0 r0 w0_wf w0_sync Hc1) as (r1 & Hr1 & Hs1).
    destruct (replay_run out (offset2_ops q cposq) _ r1 Hwf1 Hs1 Hc2) as (r2 & Hr2 & _).
    exists r1, r2. split; [exact Hr1|]. now apply replay_offset2.
Qed.

(** The long offset 200 under q = 1, after a header and a literal, before
    the end marker. *)
Lemma C5_witness :
  let pre := [WBit 0; WBit 0; WBit 0; WByte 0x41; WBit 1; WBit 0] in
  let post := repeat (WBit 1) 34 in
  let out := Pletter.dest (Pletter.done
               (run_w post (Pletter.save_offset2 1 200 (run_w pre w0)))) in
  exists r1 r2,
    replay pre out r0 = Ok (map stored pre, r1)
    /\ Pletter.read_offset out 1 r1 = Ok (200, r2).
Proof.
  intros pre post out.
  destruct C5_pletter_offset_encoding as (_ & _ & _ & _ & _ & _ & H).
  apply (H pre post 1%nat 200%nat); [lia | vm_compute; lia].
Defined.

End PletterOffset.

(** ** ZX0: the backwards mode against the classic mode on the reversed input *)

Module ZX0Symmetry.
Import ZX0.

(** The calls the emitter makes on its writer, each with the part it plays
    in the format: a state bit, a continuation (or stop) bit of the
    interlaced Elias-gamma code, a payload bit of that code, a literal byte,
    and the offset byte, whose 7-bit field [v] is written as [v << 1] and
    whose low bit then receives the next bit of the stream. *)
Inductive wop : Type :=
  | Tag (v : Z)
  | Cont (v : Z)
  | Data (v : Z)
  | Lit (v : Z)
  | OffsetLsb (v : Z).

Definition run_op (w : writer) (o : wop) : writer :=
  match o with
  | Tag v | Cont v | Data v => writeBit v w
  | Lit v => writeByte v w
  | OffsetLsb v =>
      let w := writeByte (Z.shiftl v 1) w in
      mkWriter (output w) (bitMask w) (bitIndex w) true
  end.

Definition run_ops (ops : list wop) (w : writer) : writer := fold_left run_op ops w.

(** The stream a sequence of calls leaves behind. *)
Definition pack (ops : list wop) : list Z :=
  to_u8 (output (run_ops ops (mkWriter [] 0 0 true))).

Lemma run_ops_app a b w : run_ops (a ++ b) w = run_ops b (run_ops a w).
Proof. apply fold_left_app. Qed.

(** *** The calls of [compressOptimal] *)

Fixpoint gamma_pairs_ops (fuel : nat) (value i : Z) (backwardsMode invertMode : bool)
    : list wop :=
  match fuel with
  | O => []
  | S fuel' =>
      let i := Z.shiftr i 1 in
      if 0 <? i then
        Cont (if backwardsMode then 1 else 0)
        :: Data (if eqb invertMode (Z.land value i =? 0) then 1 else 0)
        :: gamma_pairs_ops fuel' value i backwardsMode invertMode
      else []
  end.

Definition gamma_ops (value : Z) (backwardsMode invertMode : bool) : list wop :=
  gamma_pairs_ops 64 value (gamma_top 64 value 2) backwardsMode invertMode
  ++ [Cont (if negb backwardsMode then 1 else 0)].

Lemma gamma_pairs_run fuel value bw inv : forall i w,
  gamma_pairs fuel value i bw inv w = run_ops (gamma_pairs_ops fuel value i bw inv) w.
Proof.
  induction fuel as [|fuel IH]; intros i w; cbn [gamma_pairs gamma_pairs_ops];
    [reflexivity|].
  destruct (0 <? Z.shiftr i 1); [| reflexivity].
  cbn [run_ops fold_left run_op]. apply IH.
Qed.

Lemma gamma_run value bw inv w :
  writeInterlacedEliasGamma value bw inv w = run_ops (gamma_ops value bw inv) w.
Proof.
  unfold writeInterlacedEliasGamma, gamma_ops.
  generalize (gamma_top 64 value 2), 64%nat. intros i fuel.
  rewrite run_ops_app, <- gamma_pairs_run. reflexivity.
Qed.

(** The calls of one round of the walk over the chain. *)
Definition block_ops (input : list Z) (backwardsMode invertMode : bool)
    (prev optimal : block) (inputIndex_ lastOffset_ : Z) : list wop :=
  let length_ := b_index optimal - b_index prev in
  if b_offset optimal =? 0 then
    Tag 0 :: gamma_ops length_ backwardsMode false
    ++ map (fun k => Lit (default 0 (at_ input (Z.to_nat inputIndex_ + k))))
         (seq 0 (Z.to_nat length_))
  else if b_offset optimal =? lastOffset_ then
    Tag 0 :: gamma_ops length_ backwardsMode false
  else
    Tag 1 :: gamma_ops ((b_offset optimal - 1) / 128 + 1) backwardsMode invertMode
    ++ OffsetLsb (if backwardsMode then (b_offset optimal - 1) mod 128
                  else 127 - (b_offset optimal - 1) mod 128)
    :: gamma_ops (length_ - 1) backwardsMode false.

Definition next_offset (optimal : block) (lastOffset_ : Z) : Z :=
  if b_offset optimal =? 0 then lastOffset_
  else if b_offset optimal =? lastOffset_ then lastOffset_
  else b_offset optimal.

Lemma lits_run input idx n w :
  fold_left (fun w k => writeByte (default 0 (at_ input (Z.to_nat idx + k))) w) (seq 0 n) w
  = run_ops (map (fun k => Lit (default 0 (at_ input (Z.to_nat idx + k)))) (seq 0 n)) w.
Proof.
  revert w. induction (seq 0 n) as [|k ks IH]; intros w; [reflexivity|].
  cbn [fold_left map run_ops run_op]. apply IH.
Qed.

Lemma emit_block_run input bw inv prev optimal e :
  emit_block input bw inv prev optimal e
  = mkEmitter
      (run_ops (block_ops input bw inv prev optimal (inputIndex e) (lastOffset e)) (wr e))
      (inputIndex e + (b_index optimal - b_index prev))
      (next_offset optimal (lastOffset e)).
Proof.
  unfold emit_block, block_ops, next_offset.
  destruct (b_offset optimal =? 0); [| destruct (b_offset optimal =? lastOffset e)].
  - f_equal. rewrite lits_run, gamma_run.
    change (Tag 0 :: ?a ++ ?b) with ((Tag 0 :: a) ++ b).
    rewrite run_ops_app. generalize (gamma_ops (b_index optimal - b_index prev) bw false).
    intros g. reflexivity.
  - f_equal. rewrite gamma_run.
    generalize (gamma_ops (b_index optimal - b_index prev) bw false).
    intros g. reflexivity.
  - f_equal. rewrite !gamma_run.
    change (Tag 1 :: ?a ++ ?b) with ((Tag 1 :: a) ++ b).
    rewrite run_ops_app.
    generalize (gamma_ops (b_index optimal - b_index prev - 1) bw false).
    generalize (gamma_ops ((b_offset optimal - 1) / 128 + 1) bw inv).
    intros g1 g2. destruct bw; reflexivity.
Qed.

Fixpoint chain_ops (input : list Z) (backwardsMode invertMode : bool)
    (prev : block) (rest : list block) (inputIndex_ lastOffset_ : Z) : list wop :=
  match rest with
  | [] => []
  | optimal :: rest =>
      block_ops input backwardsMode invertMode prev optimal inputIndex_ lastOffset_
      ++ chain_ops input backwardsMode invertMode optimal rest
           (inputIndex_ + (b_index optimal - b_index prev))
           (next_offset optimal lastOffset_)
  end.

Lemma emit_chain_run input bw inv : forall rest prev e,
  wr (emit_chain input bw inv prev rest e)
  = run_ops (chain_ops input bw inv prev rest (inputIndex e) (lastOffset e)) (wr e).
Proof.
  induction rest as [|optimal rest IH]; intros prev e; [reflexivity|].
  cbn [emit_chain chain_ops]. rewrite IH, emit_block_run. cbn [wr inputIndex lastOffset].
  now rewrite run_ops_app.
Qed.

(** All the calls of [compressOptimal]. *)
Definition stream_ops (optimal : block) (input : list Z) (skip_ : Z)
    (backwardsMode invertMode : bool) : list wop :=
  match rev (chain_list optimal) with
  | [] => []
  | prev :: rest =>
      chain_ops input backwardsMode invertMode prev rest skip_ INITIAL_OFFSET
      ++ Tag 1 :: gamma_ops 256 backwardsMode invertMode
  end.

Lemma chain_list_nonempty b : chain_list b <> [].
Proof. destruct b as [? ? ? [c|]]; discriminate. Qed.

Lemma run_ops_cons o ops w : run_ops (o :: ops) w = run_ops ops (run_op w o).
Proof. reflexivity. Qed.

Lemma finish_run g (e : emitter) ops w0 :
  wr e = run_ops ops w0 ->
  run_ops g (writeBit 1 (wr e)) = run_ops (ops ++ Tag 1 :: g) w0.
Proof. intros ->. rewrite run_ops_app, run_ops_cons. reflexivity. Qed.

Lemma compressOptimal_run optimal input skip_ bw inv :
  compressOptimal optimal input skip_ bw inv = pack (stream_ops optimal input skip_ bw inv).
Proof.
  unfold compressOptimal, stream_ops, pack.
  destruct (rev (chain_list optimal)) as [|prev rest] eqn:E.
  - exfalso. apply (chain_list_nonempty optimal).
    apply (f_equal (@rev block)) in E. now rewrite rev_involutive in E.
  - rewrite gamma_run. do 2 f_equal. apply finish_run.
    apply emit_chain_run.
Qed.

(** *** The two modes side by side *)

(** What the backwards mode changes in a call of the classic mode: the
    sense of the continuation bits, and the offset field, which is stored
    as it is instead of complemented. *)
Definition backwards_rule (o : wop) : wop :=
  match o with
  | Cont v => Cont (1 - v)
  | OffsetLsb v => OffsetLsb (127 - v)
  | _ => o
  end.

(** The rule as the specification words it: the continuation bits only. *)
Definition stated_rule (o : wop) : wop :=
  match o with
  | Cont v => Cont (1 - v)
  | _ => o
  end.

Lemma gamma_pairs_backwards fuel value : forall i,
  gamma_pairs_ops fuel value i true false
  = map backwards_rule (gamma_pairs_ops fuel value i false false).
Proof.
  induction fuel as [|fuel IH]; intros i; cbn [gamma_pairs_ops]; [reflexivity|].
  destruct (0 <? Z.shiftr i 1); [| reflexivity].
  cbn [map backwards_rule]. now rewrite IH.
Qed.

Lemma gamma_backwards value :
  gamma_ops value true false = map backwards_rule (gamma_ops value false false).
Proof.
  unfold gamma_ops. now rewrite map_app, gamma_pairs_backwards.
Qed.

Lemma block_backwards input prev optimal idx lo :
  block_ops input true false prev optimal idx lo
  = map backwards_rule (block_ops input false false prev optimal idx lo).
Proof.
  unfold block_ops.
  destruct (b_offset optimal =? 0); [| destruct (b_offset optimal =? lo)].
  - cbn [map backwards_rule]. rewrite map_app, gamma_backwards. f_equal. f_equal.
    rewrite map_map. reflexivity.
  - cbn [map backwards_rule]. now rewrite gamma_backwards.
  - cbn [map backwards_rule]. rewrite map_app. cbn [map backwards_rule].
    rewrite !gamma_backwards. do 3 f_equal. f_equal. lia.
Qed.

Lemma chain_backwards input : forall rest prev idx lo,
  chain_ops input true false prev rest idx lo
  = map backwards_rule (chain_ops input false false prev rest idx lo).
Proof.
  induction rest as [|optimal rest IH]; intros prev idx lo; [reflexivity|].
  cbn [chain_ops]. now rewrite map_app, block_backwards, IH.
Qed.

Lemma stream_backwards optimal input skip_ :
  stream_ops optimal input skip_ true false
  = map backwards_rule (stream_ops optimal input skip_ false false).
Proof.
  unfold stream_ops. destruct (rev (chain_list optimal)) as [|prev rest]; [reflexivity|].
  rewrite map_app. cbn [map backwards_rule].
  now rewrite chain_backwards, gamma_backwards.
Qed.

(** The calls [compress] makes on the reversed input in classic mode. *)
Definition classic_ops (x : list Z) (skip_ : Z) (quick_ : bool) : result (list wop) :=
  let input := rev (to_u8 x) in
  optimal ← optimize input skip_ (if quick_ then MAX_OFFSET_ZX7 else MAX_OFFSET_ZX0);
  match optimal with
  | None => Throw TypeError
  | Some optimal => Ok (stream_ops optimal input skip_ false false)
  end.

Lemma to_u8_idem xs : to_u8 (to_u8 xs) = to_u8 xs.
Proof.
  unfold to_u8. rewrite map_map. apply map_ext. intros v.
  apply Z.mod_mod. lia.
Qed.

Lemma to_u8_rev xs : to_u8 (rev xs) = rev (to_u8 xs).
Proof. apply map_rev. Qed.

Lemma pack_u8 ops : to_u8 (pack ops) = pack ops.
Proof. apply to_u8_idem. Qed.

(** C9, as stated, fails: on [1,2,1,2,1,2,1,2] the parse has a match at
    offset 2, and the backwards stream differs from the classic stream of
    the reversed input not only in the continuation bits but also in the
    offset byte. *)
Lemma C9_continuation_bits_are_not_all :
  let x := [1; 2; 1; 2; 1; 2; 1; 2] in
  compress x (mkOptions 0 true false false)
  <> (ops ← classic_ops x 0 false; Ok (rev (pack (map stated_rule ops)))).
Proof. vm_compute. discriminate. Qed.

(** Both modes do return a stream on that input, and the two streams are
    not byte-reversals of one another. *)
Lemma zx0_backwards_example :
  compress [1; 2; 1; 2; 1; 2; 1; 2] (mkOptions 0 true false false)
    = Ok [128; 170; 106; 3; 1; 2; 147]
  /\ compress (rev [1; 2; 1; 2; 1; 2; 1; 2]) (mkOptions 0 false true false)
    = Ok [57; 2; 1; 252; 192; 0; 32].
Proof. split; vm_compute; reflexivity. Qed.

(** C9, amended: for every input [x] (and every [skip] and [quick]),
    [compress] of the reversed input in classic mode returns the stream of
    its writer calls, and [compress] of [x] in backwards mode returns the
    byte-reversal of the stream of the same calls with the continuation
    bits of the interlaced Elias-gamma codes flipped and the 7-bit offset
    field stored as it is instead of complemented (no gamma payload bit is
    inverted in either mode). *)
Theorem C9_zx0_backwards_symmetry (x : list Z) (skip_ : Z) (quick_ cl : bool) :
  compress (rev x) (mkOptions skip_ false true quick_)
  = match x with
    | [] => Ok []
    | _ => ops ← classic_ops x skip_ quick_; Ok (pack ops)
    end
  /\ compress x (mkOptions skip_ true cl quick_)
     = match x with
       | [] => Ok []
       | _ => ops ← classic_ops x skip_ quick_; Ok (rev (pack (map backwards_rule ops)))
       end.
Proof.
  destruct x as [|b x]; [split; reflexivity|].
  set (y := b :: x). unfold compress, classic_ops.
  cbn [skip backwards classic quick]. rewrite length_rev.
  assert ((length y =? 0)%nat = false) as -> by reflexivity.
  rewrite andb_false_r. cbn [negb andb]. unfold reverseArray.
  rewrite to_u8_idem, to_u8_rev.
  set (limit := if quick_ then MAX_OFFSET_ZX7 else MAX_OFFSET_ZX0).
  destruct (optimize (rev (to_u8 y)) skip_ limit) as [[o|]|e]; cbn; try (split; reflexivity).
  rewrite !compressOptimal_run, stream_backwards, pack_u8. split; reflexivity.
Qed.

End ZX0Symmetry.

(** ** The input-size limits *)

(** *** DAN1 returns on every input it admits *)

Section DAN1Limit.
Import DAN1.

(** The entries 1..k of [optimals] are set, each with a length of at least 1. *)
Definition lens_set (k : nat) (os : list optimal) : Prop :=
  forall j, (1 <= j <= k)%nat -> exists o, os !! j = Some o /\ 1 <= len o.

Definition dp_ok (n k : nat) (d : dp) : Prop :=
  length (optimals d) = n /\ lens_set k (optimals d).

Lemma set_opt_ok n k i o d :
  dp_ok n k d -> 1 <= len o -> dp_ok n k (set_opt i o d).
Proof.
  intros [Hn Hk] Ho. split; cbn [set_opt optimals].
  - now rewrite length_insert.
  - intros j Hj. destruct (Hk j Hj) as (o' & Ho' & Hl).
    destruct (decide (Z.to_nat i = j)) as [->|Hne].
    + exists o. split; [| exact Ho].
      apply list_lookup_insert_eq. eapply lookup_lt_Some, Ho'.
    + exists o'. split; [| exact Hl]. now rewrite list_lookup_insert_ne.
Qed.

Lemma set_opt_next n k o d :
  dp_ok n k d -> (S k < n)%nat -> 1 <= len o ->
  dp_ok n (S k) (set_opt (Z.of_nat (S k)) o d).
Proof.
  intros [Hn Hk] Hlt Ho. split; cbn [set_opt optimals].
  - now rewrite length_insert.
  - intros j Hj. rewrite Nat2Z.id.
    destruct (decide (S k = j)) as [<-|Hne].
    + exists o. split; [| exact Ho]. apply list_lookup_insert_eq. lia.
    + destruct (Hk j) as (o' & Ho' & Hl); [lia|].
      exists o'. split; [| exact Hl]. now rewrite list_lookup_insert_ne.
Qed.

Lemma rle_candidates_ok n k i d : dp_ok n k d -> dp_ok n k (rle_candidates i d).
Proof.
  unfold rle_candidates.
  set (l := rev (seq (Z.to_nat RLE_MIN) _)).
  assert (Forall (fun m => (1 <= m)%nat) l) as Hall.
  { apply List.Forall_forall. intros m Hm. apply List.in_rev, List.in_seq in Hm.
    change (Z.to_nat RLE_MIN) with 27%nat in Hm. lia. }
  clearbody l. revert Hall d.
  induction l as [|m l IH]; intros Hall d Hd; [exact Hd|].
  cbn [fold_left]. inversion Hall as [|? ? Hm Hl]; subst. apply IH; [exact Hl|].
  match goal with |- dp_ok _ _ (if ?b then _ else _) => destruct b end; [| exact Hd].
  apply set_opt_ok; [exact Hd|]. cbn [len]. lia.
Qed.

Lemma len1_loop_ok n k c i limit1 : forall m j d,
  dp_ok n k d -> dp_ok n k (len1_loop m c i j limit1 d).
Proof.
  induction m as [|m IH]; intros j d Hd; cbn [len1_loop]; [exact Hd|].
  destruct (j <=? limit1); [| exact Hd].
  destruct (_ =? _); [| apply IH, Hd].
  destruct (_ <? _); [| exact Hd]. apply set_opt_ok; [exact Hd|]. cbn [len]. lia.
Qed.

Lemma extend_loop_ok n k c i offset_ : forall fuel len_ best_len d,
  1 <= len_ -> dp_ok n k d ->
  dp_ok n k (snd (extend_loop fuel c i offset_ len_ best_len d)).
Proof.
  induction fuel as [|fuel IH]; intros len_ best_len d Hl Hd; cbn [extend_loop];
    [exact Hd|].
  destruct (len_ <=? MAX_LEN); [| exact Hd].
  assert (dp_ok n k (set_opt i (mkOpt (bits (opt_at (optimals d) (i - len_))
                                        + countBits offset_ len_) offset_ len_) d)) as Hs.
  { apply set_opt_ok; [exact Hd|]. cbn [len]. lia. }
  destruct (best_len <? len_);
    [destruct (negb _); [destruct (_ <? bits _) |] |];
    cbv beta iota; (destruct (_ || _)%bool; [cbn [snd] | apply IH; [lia|]]);
    first [exact Hd | exact Hs].
Qed.

Lemma chain_loop_ok n k c i : forall fuel pos best_len d,
  dp_ok n k d -> dp_ok n k (chain_loop fuel c i pos best_len d).
Proof.
  induction fuel as [|fuel IH]; intros pos best_len d Hd; cbn [chain_loop]; [exact Hd|].
  destruct (_ && _)%bool; [| exact Hd].
  destruct (MAX_OFFSET <? i - pos); [exact Hd|].
  pose proof (extend_loop_ok n k c i (i - pos) (Z.to_nat i + 1) 2 best_len d) as He.
  destruct (extend_loop (Z.to_nat i + 1) c i (i - pos) 2 best_len d) as [[len_ bl] d'].
  cbn [snd] in He. specialize (He ltac:(lia) Hd).
  match goal with |- dp_ok _ _ (match ?w with Some _ => _ | None => _ end) =>
    destruct w as [pos'|] end; [apply IH, He | exact He].
Qed.

Lemma dan1_dp_step_ok n k c d :
  dp_ok n k d -> (S k < n)%nat -> dp_ok n (S k) (DAN1.dp_step c d (S k)).
Proof.
  intros Hd Hlt. unfold DAN1.dp_step.
  set (i := Z.of_nat (S k)).
  set (d1 := set_opt i _ d).
  assert (dp_ok n (S k) d1) as H1.
  { apply set_opt_next; [exact Hd | exact Hlt |]. cbn [len]. lia. }
  clearbody d1.
  set (d2 := if (bRLE c && (RLE_MIN <=? i))%bool then rle_candidates i d1 else d1).
  assert (dp_ok n (S k) d2) as H2.
  { subst d2. destruct (_ && _)%bool; [apply rle_candidates_ok|]; exact H1. }
  clearbody d2.
  set (limit1 := if i <? MAX_OFFSET2 then i else MAX_OFFSET2).
  set (d3 := len1_loop _ c i 1 limit1 d2).
  assert (dp_ok n (S k) d3) as H3 by apply len1_loop_ok, H2.
  clearbody d3.
  set (key := Z.land _ 0xFFFF).
  set (d4 := chain_loop _ c i (head_of d3 key) 1 d3).
  assert (dp_ok n (S k) d4) as H4 by apply chain_loop_ok, H3.
  clearbody d4. exact H4.
Qed.

Lemma dp_fold_ok n c : forall m k d,
  dp_ok n k d -> (k + m < n)%nat ->
  dp_ok n (k + m) (fold_left (DAN1.dp_step c) (seq (S k) m) d).
Proof.
  induction m as [|m IH]; intros k d Hd Hlt; cbn [seq fold_left].
  - now rewrite Nat.add_0_r.
  - replace (k + S m)%nat with (S k + m)%nat by lia.
    apply IH; [| lia]. apply dan1_dp_step_ok; [exact Hd | lia].
Qed.

(** The entries [cleanup_loop] clears lie above the one it visits next. *)
Lemma clear_above (g : list optimal -> nat -> optimal) : forall l os j,
  Forall (fun p => (j < p)%nat) l ->
  fold_left (fun os p => <[p := g os p]> os) l os !! j = os !! j.
Proof.
  induction l as [|p l IH]; intros os j Hall; [reflexivity|].
  cbn [fold_left]. inversion Hall as [|? ? Hp Hl]; subst.
  rewrite IH by exact Hl. apply list_lookup_insert_ne. lia.
Qed.

Lemma cleanup_loop_returns : forall fuel i os,
  i <= Z.of_nat fuel + 1 ->
  (forall j, (1 <= j)%nat -> Z.of_nat j <= i ->
             exists o, os !! j = Some o /\ 1 <= len o) ->
  exists r, DAN1.cleanup_loop fuel i os = Ok r.
Proof.
  induction fuel as [|fuel IH]; intros i os Hi Hos.
  - cbn [DAN1.cleanup_loop]. destruct (1 <? i) eqn:E; [apply Z.ltb_lt in E; lia|].
    now exists os.
  - cbn [DAN1.cleanup_loop]. destruct (1 <? i) eqn:E; [| now exists os].
    apply Z.ltb_lt in E.
    destruct (Hos (Z.to_nat i)) as (o & Ho & Hl); [lia | lia |].
    assert (len (opt_at os i) = len o) as Hlen.
    { unfold opt_at. now rewrite Ho. }
    rewrite Hlen. apply IH; [lia|].
    intros j Hj Hji. rewrite (clear_above (fun os j => mkOpt (bits (opt_at os (Z.of_nat j))) 0 0)).
    + apply Hos; [exact Hj | lia].
    + apply List.Forall_forall. intros p Hp. apply List.in_rev, List.in_seq in Hp. lia.
Qed.

Lemma dan1_within_limit c x rle :
  (0 < length x)%nat -> Z.of_nat (length x) <= MAX c ->
  exists out, snd (DAN1.compress c x rle) = Ok out.
Proof.
  intros Hpos Hmax. unfold DAN1.compress.
  assert (length (to_u8 x) = length x) as Hlen by apply length_map.
  rewrite Hlen.
  destruct (length x =? 0)%nat eqn:E0; [apply Nat.eqb_eq in E0; lia|].
  destruct (MAX c <? Z.of_nat (length x)) eqn:E1; [apply Z.ltb_lt in E1; lia|].
  cbn [snd].
  set (c' := load (to_u8 x) _).
  set (d0 := mkDp _ ∅ _).
  assert (dp_ok (length x) 0 d0) as H0.
  { split.
    - subst d0. cbn [optimals]. now rewrite length_insert, length_replicate.
    - intros j Hj. lia. }
  pose proof (dp_fold_ok (length x) c' (length x - 1) 0 d0 H0 ltac:(lia)) as [Hn Hk].
  cbn [Nat.add] in Hk.
  destruct (cleanup_loop_returns (length x) (Z.of_nat (length x) - 1)
              (optimals (fold_left (DAN1.dp_step c') (seq 1 (length x - 1)) d0)))
    as [r Hr]; [lia | |].
  - intros j Hj Hji. apply Hk. lia.
  - rewrite Hr. eexists. reflexivity.
Qed.

Lemma dan1_beyond_limit c x rle :
  MAX c < Z.of_nat (length x) -> 0 <= MAX c ->
  snd (DAN1.compress c x rle) = Throw InputTooLarge.
Proof.
  intros Hmax H0. unfold DAN1.compress.
  assert (length (to_u8 x) = length x) as Hlen by apply length_map.
  rewrite Hlen.
  destruct (length x =? 0)%nat eqn:E0; [apply Nat.eqb_eq in E0; lia|].
  destruct (MAX c <? Z.of_nat (length x)) eqn:E1; [reflexivity|].
  apply Z.ltb_ge in E1. lia.
Qed.

End DAN1Limit.

(** *** The other codecs *)

Lemma pletter_within_limit x :
  Z.of_nat (length x) <= 65536 -> exists out, Pletter.compress Pletter.constructor x = Ok out.
Proof.
  intros Hmax. unfold Pletter.compress.
  destruct (length x =? 0)%nat; [now eexists|].
  destruct (_ <? length x)%nat eqn:E.
  - apply Nat.ltb_lt in E. cbn [Pletter.MAX_LEN Pletter.constructor] in E. lia.
  - destruct (Pletter.getLen _ _ _ _). eexists. reflexivity.
Qed.

Lemma pletter_beyond_limit x :
  65536 < Z.of_nat (length x) -> Pletter.compress Pletter.constructor x = Throw InputTooLarge.
Proof.
  intros Hmax. unfold Pletter.compress.
  destruct (length x =? 0)%nat eqn:E0; [apply Nat.eqb_eq in E0; lia|].
  destruct (_ <? length x)%nat eqn:E; [reflexivity|].
  apply Nat.ltb_ge in E. cbn [Pletter.MAX_LEN Pletter.constructor] in E. lia.
Qed.

Lemma bitbuster_within_limit x :
  Z.of_nat (length x) <= 524288 ->
  exists out, BitBuster.compress BitBuster.default_codec x = Ok out.
Proof.
  intros Hmax. unfold BitBuster.compress.
  assert (length (to_u8 x) = length x) as -> by apply length_map.
  destruct (length x =? 0)%nat; [now eexists|].
  destruct (_ <? Z.of_nat (length x)) eqn:E.
  - apply Z.ltb_lt in E.
    change (BitBuster.MAX_INPUT BitBuster.default_codec) with 524288 in E. lia.
  - eexists. reflexivity.
Qed.

Lemma bitbuster_beyond_limit x :
  524288 < Z.of_nat (length x) ->
  BitBuster.compress BitBuster.default_codec x = Throw InputTooLarge.
Proof.
  intros Hmax. unfold BitBuster.compress.
  assert (length (to_u8 x) = length x) as -> by apply length_map.
  destruct (length x =? 0)%nat eqn:E0; [apply Nat.eqb_eq in E0; lia|].
  destruct (_ <? Z.of_nat (length x)) eqn:E; [reflexivity|].
  apply Z.ltb_ge in E.
  change (BitBuster.MAX_INPUT BitBuster.default_codec) with 524288 in E. lia.
Qed.

Lemma dan3_beyond_limit c x :
  262144 < Z.of_nat (length x) -> snd (DAN3.compress c x) = Throw InputTooLarge.
Proof.
  intros Hmax. unfold DAN3.compress.
  assert (length (to_u8 x) = length x) as -> by apply length_map.
  destruct (DAN3.MAX <? Z.of_nat (length x)) eqn:E; [reflexivity|].
  apply Z.ltb_ge in E. change DAN3.MAX with 262144 in E. lia.
Qed.

Lemma dan3_cleanup_not_size subset : forall fuel i os,
  DAN3.cleanup_loop fuel subset i os <> Throw InputTooLarge.
Proof.
  induction fuel as [|fuel IH]; intros i os; cbn [DAN3.cleanup_loop];
    destruct (1 <? i); try discriminate. apply IH.
Qed.

Lemma dan3_within_limit c x :
  Z.of_nat (length x) <= 262144 -> snd (DAN3.compress c x) <> Throw InputTooLarge.
Proof.
  intros Hmax. unfold DAN3.compress.
  assert (length (to_u8 x) = length x) as -> by apply length_map.
  destruct (DAN3.MAX <? Z.of_nat (length x)) eqn:E.
  { apply Z.ltb_lt in E. change DAN3.MAX with 262144 in E. lia. }
  destruct (fold_left DAN3.dp_step _ _) as [d p].
  destruct (length x) as [|last]; [discriminate|].
  cbn [snd].
  destruct (DAN3.cleanup_loop _ _ _ _) as [r|e] eqn:Ec; [discriminate|].
  simpl. intros H. injection H as ->. exact (dan3_cleanup_not_size _ _ _ _ Ec).
Qed.

Lemma lzf_compress_returns input : exists out, LZF.compress input = Ok out.
Proof.
  destruct (dp_run_ok input) as [Hok Hr].
  destruct (reconstruct_ok input _ Hok Hr (length input) (length input) [])
    as (ops & Hops & Hall); [lia | lia | constructor |].
  unfold LZF.compress, LZF.operations. rewrite Hops. eexists. reflexivity.
Qed.

(** *** The claim *)

(** C3, as stated, fails for DAN1 and DAN3, whose limits are the other way
    round: DAN3 rejects 524,288 bytes, and DAN1 takes 262,145 bytes. *)
Lemma C3_dan_limits_are_swapped :
  snd (DAN3.compress DAN3.constructor (replicate (Z.to_nat 524288) 0)) = Throw InputTooLarge
  /\ exists out,
       snd (DAN1.compress DAN1.default_codec (replicate (Z.to_nat 262145) 0) None) = Ok out.
Proof.
  split.
  - apply dan3_beyond_limit. rewrite length_replicate. lia.
  - apply dan1_within_limit; rewrite length_replicate;
      [lia | change (DAN1.MAX DAN1.default_codec) with 524288; lia].
Qed.

(** C3, amended: compress returns a result on every input of at most MaxInput
    bytes (so on one of exactly MaxInput bytes) and fails with InputTooLarge
    on every longer input (so on one of MaxInput + 1 bytes), where MaxInput
    is 65,536 for Pletter, 524,288 for DAN1 (by default, whatever the state
    of the instance and the rle option) and 524,288 by default for
    BitBuster; DAN3 fails with InputTooLarge on every input of more than
    262,144 bytes and on no input of at most 262,144 bytes; MDK-RLE and LZF
    return a result on every input. *)
Theorem C3_input_size_limits :
  (forall x, Z.of_nat (length x) <= 65536 ->
     exists out, Pletter.compress Pletter.constructor x = Ok out)
  /\ (forall x, 65536 < Z.of_nat (length x) ->
     Pletter.compress Pletter.constructor x = Throw InputTooLarge)
  /\ (forall b buf rle x, Z.of_nat (length x) <= 524288 ->
     exists out, snd (DAN1.compress (DAN1.mkCodec (512 * 1024) b buf) x rle) = Ok out)
  /\ (forall b buf rle x, 524288 < Z.of_nat (length x) ->
     snd (DAN1.compress (DAN1.mkCodec (512 * 1024) b buf) x rle) = Throw InputTooLarge)
  /\ (forall x, Z.of_nat (length x) <= 524288 ->
     exists out, BitBuster.compress BitBuster.default_codec x = Ok out)
  /\ (forall x, 524288 < Z.of_nat (length x) ->
     BitBuster.compress BitBuster.default_codec x = Throw InputTooLarge)
  /\ (forall c x, Z.of_nat (length x) <= 262144 ->
     snd (DAN3.compress c x) <> Throw InputTooLarge)
  /\ (forall c x, 262144 < Z.of_nat (length x) ->
     snd (DAN3.compress c x) = Throw InputTooLarge)
  /\ (forall x, exists out, LZF.compress x = Ok out)
  /\ (forall x, exists out, MdkRLE.compress x = out).
Proof.
  repeat apply conj.
  - apply pletter_within_limit.
  - apply pletter_beyond_limit.
  - intros b buf rle x Hmax. destruct x as [|v x].
    + exists []. reflexivity.
    + apply dan1_within_limit; [cbn [length]; lia | exact Hmax].
  - intros b buf rle x Hmax. apply dan1_beyond_limit; [exact Hmax | cbn [DAN1.MAX]; lia].
  - apply bitbuster_within_limit.
  - apply bitbuster_beyond_limit.
  - apply dan3_within_limit.
  - apply dan3_beyond_limit.
  - apply lzf_compress_returns.
  - intros x. eexists. reflexivity.
Qed.

(** Inputs of exactly MaxInput and MaxInput + 1 zero bytes, for Pletter and
    for a used DAN1 instance with the rle option set. *)
Lemma C3_witness :
  (exists out, Pletter.compress Pletter.constructor (replicate (Z.to_nat 65536) 0) = Ok out)
  /\ Pletter.compress Pletter.constructor (replicate (Z.to_nat 65537) 0) = Throw InputTooLarge
  /\ (exists out, snd (DAN1.compress (DAN1.mkCodec (512 * 1024) true [1; 2; 3])
                         (replicate (Z.to_nat 524288) 0) (Some true)) = Ok out)
  /\ snd (DAN1.compress (DAN1.mkCodec (512 * 1024) true [1; 2; 3])
            (replicate (Z.to_nat 524289) 0) (Some true)) = Throw InputTooLarge
  /\ (exists out, BitBuster.compress BitBuster.default_codec
                    (replicate (Z.to_nat 524288) 0) = Ok out)
  /\ BitBuster.compress BitBuster.default_codec (replicate (Z.to_nat 524289) 0)
     = Throw InputTooLarge
  /\ snd (DAN3.compress DAN3.constructor (replicate (Z.to_nat 262144) 0))
     <> Throw InputTooLarge
  /\ snd (DAN3.compress DAN3.constructor (replicate (Z.to_nat 262145) 0))
     = Throw InputTooLarge.
Proof.
  destruct C3_input_size_limits as (P1 & P2 & D1 & D2 & B1 & B2 & T1 & T2 & _).
  repeat apply conj;
    [apply P1 | apply P2 | apply D1 | apply D2 | apply B1 | apply B2 | apply T1 | apply T2];
    rewrite length_replicate; lia.
Defined.

(** * Further properties of the codecs *)

(** ** Bits *)

Lemma land_pow2 v m :
  0 <= m -> Z.land v (2 ^ m) = if Z.testbit v m then 2 ^ m else 0.
Proof.
  intros Hm. apply Z.bits_inj'. intros n Hn.
  rewrite Z.land_spec, Z.pow2_bits_eqb by lia.
  destruct (Z.eqb_spec m n) as [->|Hne].
  - rewrite andb_true_r. destruct (Z.testbit v n) eqn:E.
    + now rewrite Z.pow2_bits_true by lia.
    + now rewrite Z.bits_0.
  - rewrite andb_false_r. destruct (Z.testbit v m).
    + symmetry. apply Z.pow2_bits_false. lia.
    + now rewrite Z.bits_0.
Qed.

Lemma land_pow2_eqb v m :
  0 <= m -> (Z.land v (2 ^ m) =? 0) = negb (Z.testbit v m).
Proof.
  intros Hm. rewrite land_pow2 by lia. destruct (Z.testbit v m); cbn [negb].
  - apply Z.eqb_neq. pose proof (Z.pow_pos_nonneg 2 m). lia.
  - reflexivity.
Qed.

Lemma testbit_div v m :
  0 <= m -> (if Z.testbit v m then 1 else 0) = (v / 2 ^ m) mod 2.
Proof.
  intros Hm. rewrite <- Z.testbit_spec' by lia. now destruct (Z.testbit v m).
Qed.

Lemma lor_shift_bit a b : b = 0 \/ b = 1 -> Z.lor (Z.shiftl a 1) b = 2 * a + b.
Proof.
  intros Hb. rewrite Z.shiftl_mul_pow2 by lia. change (2 ^ 1) with 2.
  destruct Hb as [->| ->]; [rewrite Z.lor_0_r; lia|].
  assert (Z.land (a * 2) 1 = 0) as H0.
  { change 1 with (Z.ones 1). rewrite Z.land_ones by lia. change (2 ^ 1) with 2.
    apply Z.mod_mul. lia. }
  rewrite <- (Z.lxor_lor _ _ H0), <- (Z.add_nocarry_lxor _ _ H0). lia.
Qed.

Lemma to_i32_small x : 0 <= x < 2 ^ 31 -> BitBuster.to_i32 x = x.
Proof.
  intros Hx. unfold BitBuster.to_i32.
  change (2 ^ 31) with 2147483648 in *. change (2 ^ 32) with 4294967296.
  rewrite Z.mod_small by lia. lia.
Qed.

Lemma split_low_byte so :
  Z.lor (Z.shiftl (Z.shiftr so 8) 8) (Z.land so 0xFF) = so.
Proof.
  change 0xFF with (Z.ones 8). rewrite <- Z.ldiff_ones_r by lia.
  apply Z.lor_ldiff_and.
Qed.

(** A [Uint8Array]: every element is a byte. *)
Definition all_bytes (xs : list Z) : Prop := Forall (fun b => 0 <= b < 256) xs.

Lemma to_u8_bytes xs : all_bytes xs -> to_u8 xs = xs.
Proof.
  induction 1 as [|b xs Hb _ IH]; [reflexivity|].
  unfold to_u8 in *. cbn [map]. rewrite IH. f_equal. apply Z.mod_small. exact Hb.
Qed.

Lemma all_bytes_app xs ys : all_bytes xs -> all_bytes ys -> all_bytes (xs ++ ys).
Proof. intros Hx Hy. apply Forall_app. split; assumption. Qed.

Lemma all_bytes_get xs i : all_bytes xs -> 0 <= get xs i < 256.
Proof.
  intros H. unfold get. destruct (xs !! i) as [b|] eqn:E; cbn; [| lia].
  exact (proj1 (Forall_lookup _ xs) H i b E).
Qed.

(** ** MDK-RLE: the round trip *)

Section MdkRoundTrip.
Import MdkRLE.

(** A stream of [k] packets and the bytes it stands for: RAW packets of 1 to
    128 bytes and RLE packets of 1 to 127 repetitions, as the encoder appends
    them. *)
Inductive packets : nat -> list Z -> list Z -> Prop :=
  | packets_nil : packets 0 [] []
  | packets_raw k s out payload :
      packets k s out ->
      (1 <= length payload <= 128)%nat -> all_bytes payload ->
      packets (S k) (s ++ [Z.of_nat (length payload) - 1] ++ payload) (out ++ payload)
  | packets_rle k s out n value :
      packets k s out ->
      (1 <= n <= 127)%nat -> 0 <= value < 256 ->
      packets (S k) (s ++ [Z.lor 0x80 (Z.of_nat n - 1); value]) (out ++ repeat value n).

Lemma rle_control m :
  0 <= m < 127 ->
  Z.lor 0x80 m = 128 + m /\ Z.land (128 + m) 0x7F = m.
Proof.
  revert m. apply (small_cases (fun m => Z.lor 0x80 m = 128 + m
                                         /\ Z.land (128 + m) 0x7F = m) 127).
  vm_compute. repeat constructor.
Qed.

Lemma packets_count k s out : packets k s out -> (k <= length s)%nat.
Proof.
  induction 1; [reflexivity | |]; rewrite !length_app; cbn [length]; lia.
Qed.

Lemma packets_bytes k s out : packets k s out -> all_bytes s.
Proof.
  induction 1 as [|k s out payload _ IH Hlen Hp|k s out n value _ IH Hn Hv].
  - constructor.
  - apply all_bytes_app; [exact IH|]. apply all_bytes_app; [| exact Hp].
    repeat constructor; lia.
  - apply all_bytes_app; [exact IH|].
    destruct (rle_control (Z.of_nat n - 1)) as [-> _]; [lia|].
    repeat constructor; lia.
Qed.

(** *** The decoder on a stream of packets *)

Lemma get_middle (pre : list Z) v rest : get (pre ++ v :: rest) (length pre) = v.
Proof. unfold get. now rewrite list_lookup_middle. Qed.

Lemma decode_raw fuel pre payload rest acc :
  (1 <= length payload <= 128)%nat ->
  decode_loop (S fuel) (pre ++ ([Z.of_nat (length payload) - 1] ++ payload) ++ rest)
    (length pre) acc
  = decode_loop fuel (pre ++ ([Z.of_nat (length payload) - 1] ++ payload) ++ rest)
      (length pre + (1 + length payload)) (acc ++ payload).
Proof.
  intros Hlen.
  set (data := pre ++ ([Z.of_nat (length payload) - 1] ++ payload) ++ rest).
  assert (length data = (length pre + (1 + length payload) + length rest)%nat) as Hd.
  { subst data. rewrite !length_app. cbn [length]. lia. }
  cbn [decode_loop].
  assert ((length pre <? length data)%nat = true) as -> by (apply Nat.ltb_lt; lia).
  assert (get data (length pre) = Z.of_nat (length payload) - 1) as ->.
  { subst data. cbn [app]. apply get_middle. }
  assert ((Z.of_nat (length payload) - 1 =? 0xFF) = false) as -> by (apply Z.eqb_neq; lia).
  assert ((Z.of_nat (length payload) - 1 <? 0x80) = true) as -> by (apply Z.ltb_lt; lia).
  replace (Z.to_nat (Z.of_nat (length payload) - 1 + 1)) with (length payload) by lia.
  assert ((length data <? S (length pre) + length payload)%nat = false) as ->
    by (apply Nat.ltb_ge; lia).
  replace (S (length pre) + length payload)%nat
    with (length pre + (1 + length payload))%nat by lia.
  f_equal. f_equal. subst data. cbn [app].
  change (pre ++ (Z.of_nat (length payload) - 1) :: payload ++ rest)
    with (pre ++ [Z.of_nat (length payload) - 1] ++ payload ++ rest).
  rewrite app_assoc.
  rewrite drop_app_length'; [| rewrite length_app; cbn [length]; lia].
  now rewrite take_app_length.
Qed.

Lemma decode_rle fuel pre n value rest acc :
  (1 <= n <= 127)%nat ->
  decode_loop (S fuel) (pre ++ [Z.lor 0x80 (Z.of_nat n - 1); value] ++ rest)
    (length pre) acc
  = decode_loop fuel (pre ++ [Z.lor 0x80 (Z.of_nat n - 1); value] ++ rest)
      (length pre + 2) (acc ++ repeat value n).
Proof.
  intros Hn. destruct (rle_control (Z.of_nat n - 1)) as [Hc Hl]; [lia|].
  rewrite Hc.
  set (data := pre ++ [128 + (Z.of_nat n - 1); value] ++ rest).
  assert (length data = (length pre + 2 + length rest)%nat) as Hd.
  { subst data. rewrite !length_app. cbn [length]. lia. }
  cbn [decode_loop].
  assert ((length pre <? length data)%nat = true) as -> by (apply Nat.ltb_lt; lia).
  assert (get data (length pre) = 128 + (Z.of_nat n - 1)) as ->.
  { subst data. cbn [app]. apply get_middle. }
  assert ((128 + (Z.of_nat n - 1) =? 0xFF) = false) as -> by (apply Z.eqb_neq; lia).
  assert ((128 + (Z.of_nat n - 1) <? 0x80) = false) as -> by (apply Z.ltb_ge; lia).
  rewrite Hl.
  assert ((length data <=? S (length pre))%nat = false) as -> by (apply Nat.leb_gt; lia).
  assert (get data (S (length pre)) = value) as ->.
  { subst data. cbn [app].
    change (pre ++ (128 + (Z.of_nat n - 1)) :: value :: rest)
      with (pre ++ [128 + (Z.of_nat n - 1)] ++ value :: rest).
    rewrite app_assoc.
    replace (S (length pre)) with (length (pre ++ [128 + (Z.of_nat n - 1)]))
      by (rewrite length_app; cbn [length]; lia).
    apply get_middle. }
  replace (Z.to_nat (Z.of_nat n - 1 + 1)) with n by lia.
  replace (S (S (length pre))) with (length pre + 2)%nat by lia. reflexivity.
Qed.

Lemma decode_eof fuel pre rest acc :
  decode_loop (S fuel) (pre ++ 0xFF :: rest) (length pre) acc = Ok acc.
Proof.
  cbn [decode_loop].
  assert ((length pre <? length (pre ++ 0xFF%Z :: rest))%nat = true) as ->.
  { apply Nat.ltb_lt. rewrite length_app. cbn [length]. lia. }
  now rewrite get_middle.
Qed.

(** The decoder walks a stream of [k] packets in [k] rounds, whatever follows
    the stream. *)
Lemma decode_packets k s out :
  packets k s out ->
  forall fuel rest,
    decode_loop (k + fuel) (s ++ rest) 0 []
    = decode_loop fuel (s ++ rest) (length s) out.
Proof.
  induction 1 as [|k s out payload _ IH Hlen Hp|k s out n value _ IH Hn Hv];
    intros fuel rest.
  - reflexivity.
  - rewrite <- app_assoc.
    replace (S k + fuel)%nat with (k + S fuel)%nat by lia.
    rewrite IH, decode_raw by exact Hlen.
    rewrite !length_app. cbn [length]. reflexivity.
  - rewrite <- app_assoc.
    replace (S k + fuel)%nat with (k + S fuel)%nat by lia.
    rewrite IH, decode_rle by exact Hn.
    rewrite !length_app. cbn [length]. reflexivity.
Qed.

(** *** The encoder emits a stream of packets *)

Lemma flushRaw_loop_packets rawBuffer : all_bytes rawBuffer ->
  forall fuel offset k s out,
    packets k s out -> (length rawBuffer - offset <= fuel)%nat ->
    exists k', packets k' (flushRaw_loop fuel rawBuffer offset s)
                 (out ++ drop offset rawBuffer).
Proof.
  intros Hb. induction fuel as [|fuel IH]; intros offset k s out Hs Hf;
    cbn [flushRaw_loop].
  - exists k. rewrite drop_ge by lia. now rewrite app_nil_r.
  - destruct (offset <? length rawBuffer)%nat eqn:E.
    + apply Nat.ltb_lt in E.
      set (chunkSize := Nat.min (length rawBuffer - offset) 128).
      set (payload := take chunkSize (drop offset rawBuffer)).
      assert (length payload = chunkSize) as Hl.
      { subst payload. rewrite length_take, length_drop. lia. }
      destruct (IH (offset + chunkSize)%nat (S k)
                  (s ++ [Z.of_nat (length payload) - 1] ++ payload)
                  (out ++ payload)) as [k' Hk'].
      * apply packets_raw; [exact Hs | lia |].
        subst payload. apply Forall_take, Forall_drop, Hb.
      * lia.
      * exists k'. rewrite Hl in Hk'.
        replace (out ++ drop offset rawBuffer)
          with ((out ++ payload) ++ drop (offset + chunkSize) rawBuffer).
        -- rewrite <- (app_assoc s). exact Hk'.
        -- rewrite <- app_assoc. f_equal. subst payload.
           rewrite <- drop_drop. apply take_drop.
    + apply Nat.ltb_ge in E. exists k. rewrite drop_ge by lia. now rewrite app_nil_r.
Qed.

Lemma flushRaw_packets k s out rawBuffer :
  packets k s out -> all_bytes rawBuffer ->
  exists k', packets k' (fst (flushRaw s rawBuffer)) (out ++ rawBuffer)
             /\ snd (flushRaw s rawBuffer) = [].
Proof.
  intros Hs Hb. unfold flushRaw. destruct rawBuffer as [|b raw] eqn:E.
  - exists k. cbn [fst snd]. now rewrite app_nil_r.
  - rewrite <- E in *. cbn [fst snd].
    destruct (flushRaw_loop_packets rawBuffer Hb (length rawBuffer) 0 k s out Hs)
      as [k' Hk']; [lia|].
    exists k'. split; [exact Hk' | reflexivity].
Qed.

Lemma rle_loop_packets value : 0 <= value < 256 ->
  forall fuel remainingRun k s out,
    packets k s out -> (remainingRun <= fuel)%nat ->
    exists k', packets k' (rle_loop fuel value remainingRun s)
                 (out ++ repeat value remainingRun).
Proof.
  intros Hv. induction fuel as [|fuel IH]; intros remainingRun k s out Hs Hf;
    cbn [rle_loop].
  - exists k. replace remainingRun with 0%nat by lia. now rewrite app_nil_r.
  - destruct (0 <? remainingRun)%nat eqn:E.
    + apply Nat.ltb_lt in E.
      set (chunkSize := Nat.min remainingRun 127).
      destruct (IH (remainingRun - chunkSize)%nat (S k)
                  (s ++ [Z.lor 0x80 (Z.of_nat chunkSize - 1); value])
                  (out ++ repeat value chunkSize)) as [k' Hk'].
      * apply packets_rle; [exact Hs | lia | exact Hv].
      * lia.
      * exists k'.
        replace (out ++ repeat value remainingRun)
          with ((out ++ repeat value chunkSize)
                ++ repeat value (remainingRun - chunkSize)).
        -- rewrite <- (app_assoc s). exact Hk'.
        -- rewrite <- app_assoc, <- repeat_app. do 2 f_equal. lia.
    + apply Nat.ltb_ge in E. exists k. replace remainingRun with 0%nat by lia.
      now rewrite app_nil_r.
Qed.

(** The look-ahead: [runLength] bytes from [i] on are equal. *)
Definition is_run (inputData : list Z) (i r : nat) : Prop :=
  (1 <= r)%nat /\ (i + r <= length inputData)%nat
  /\ forall j, (j < r)%nat -> inputData !! (i + j)%nat = inputData !! i.

Lemma run_loop_run inputData i : forall fuel r,
  is_run inputData i r -> is_run inputData i (run_loop fuel inputData i r).
Proof.
  induction fuel as [|fuel IH]; intros r Hr; cbn [run_loop]; [exact Hr|].
  destruct (_ && _)%bool eqn:E; [| exact Hr].
  apply andb_true_iff in E as [E1 E2]. apply Nat.ltb_lt in E1.
  destruct Hr as (H1 & H2 & H3). apply IH. split; [lia|]. split; [lia|].
  intros j Hj. destruct (decide (j = r)) as [->|Hne]; [| apply H3; lia].
  unfold js_eq, at_ in E2.
  destruct (inputData !! i) as [a|] eqn:Ea;
    destruct (inputData !! (i + r)%nat) as [b|] eqn:Eb; try discriminate.
  - apply Z.eqb_eq in E2. now subst.
  - reflexivity.
Qed.

Lemma take_run inputData i : forall r,
  (i < length inputData)%nat ->
  (forall j, (j < r)%nat -> inputData !! (i + j)%nat = inputData !! i) ->
  take (i + r) inputData = take i inputData ++ repeat (get inputData i) r.
Proof.
  intros r Hi. induction r as [|r IH]; intros Hr.
  - rewrite Nat.add_0_r. cbn [repeat]. now rewrite app_nil_r.
  - destruct (lookup_lt_is_Some_2 inputData i Hi) as [a Ha].
    replace (i + S r)%nat with (S (i + r)) by lia.
    rewrite (take_S_r _ _ a) by (rewrite Hr by lia; exact Ha).
    rewrite IH by (intros j Hj; apply Hr; lia).
    rewrite <- app_assoc. f_equal.
    unfold get. rewrite Ha. cbn [default from_option id].
    change (repeat a r ++ [a]) with (repeat a r ++ repeat a 1).
    rewrite <- repeat_app. f_equal. lia.
Qed.

Lemma main_loop_packets inputData : all_bytes inputData ->
  forall fuel i k s out rawBuffer,
    packets k s out -> all_bytes rawBuffer ->
    out ++ rawBuffer = take i inputData ->
    (i <= length inputData)%nat -> (length inputData - i <= fuel)%nat ->
    exists k' s' out' raw',
      main_loop fuel inputData i s rawBuffer = (s', raw')
      /\ packets k' s' out' /\ all_bytes raw' /\ out' ++ raw' = inputData.
Proof.
  intros Hb. induction fuel as [|fuel IH]; intros i k s out raw Hs Hraw Hout Hi Hf;
    cbn [main_loop].
  - exists k, s, out, raw. repeat split; try assumption.
    rewrite Hout. apply take_ge. lia.
  - destruct (i <? length inputData)%nat eqn:E.
    + apply Nat.ltb_lt in E.
      assert (is_run inputData i 1) as H1.
      { split; [lia|]. split; [lia|]. intros j Hj. do 2 f_equal. lia. }
      apply (run_loop_run inputData i (length inputData)) in H1.
      set (runLength := run_loop (length inputData) inputData i 1) in *.
      destruct H1 as (Hr1 & Hr2 & Hr3).
      destruct (3 <=? runLength)%nat.
      * destruct (flushRaw_packets k s out raw Hs Hraw) as (k1 & Hk1 & Hnil).
        destruct (flushRaw s raw) as [s1 raw1]. cbn [fst snd] in Hk1, Hnil. subst raw1.
        destruct (rle_loop_packets (get inputData i) (all_bytes_get _ _ Hb)
                    runLength runLength k1 s1 (out ++ raw) Hk1) as [k2 Hk2]; [lia|].
        apply (IH (i + runLength)%nat k2 _ _ [] Hk2); [constructor | | lia | lia].
        rewrite app_nil_r, Hout. symmetry. apply take_run; [exact E | exact Hr3].
      * apply (IH (S i) k s out (raw ++ [get inputData i]) Hs); [| | lia | lia].
        -- apply all_bytes_app; [exact Hraw|]. repeat constructor; apply all_bytes_get, Hb.
        -- destruct (lookup_lt_is_Some_2 inputData i E) as [a Ha].
           rewrite (take_S_r _ _ a Ha), app_assoc, Hout. unfold get. now rewrite Ha.
    + apply Nat.ltb_ge in E. exists k, s, out, raw. repeat split; try assumption.
      rewrite Hout. apply take_ge. lia.
Qed.

Lemma compress_cons b x :
  compress (b :: x)
  = (let '(compressed, rawBuffer) := main_loop (length (b :: x)) (b :: x) 0 [] [] in
     let '(compressed, _) := flushRaw compressed rawBuffer in
     to_u8 (compressed ++ [0xFF])).
Proof. reflexivity. Qed.

(** The stream [compress] returns: packets that stand for the input, then the
    end marker. *)
Lemma compress_packets inputData : all_bytes inputData ->
  exists k s, packets k s inputData /\ compress inputData = s ++ [0xFF].
Proof.
  intros Hb. destruct inputData as [|b x].
  - exists 0%nat, []. split; [constructor | reflexivity].
  - rewrite compress_cons. generalize dependent (b :: x). intros inputData Hb.
    destruct (main_loop_packets inputData Hb (length inputData) 0 0 [] [] [])
      as (k1 & s1 & out1 & raw1 & -> & Hs1 & Hr1 & Ho1);
      [constructor | constructor | reflexivity | lia | lia |].
    destruct (flushRaw_packets k1 s1 out1 raw1 Hs1 Hr1) as (k2 & Hk2 & _).
    destruct (flushRaw s1 raw1) as [s2 raw2]. cbn [fst] in Hk2.
    rewrite Ho1 in Hk2. exists k2, s2. split; [exact Hk2|].
    apply to_u8_bytes, all_bytes_app; [eapply packets_bytes, Hk2|].
    repeat constructor; lia.
Qed.

Lemma packets_decoded_bytes k s out : packets k s out -> all_bytes out.
Proof.
  induction 1 as [|k s out payload _ IH Hlen Hp|k s out n value _ IH Hn Hv].
  - constructor.
  - apply all_bytes_app; assumption.
  - apply all_bytes_app; [exact IH|]. apply List.Forall_forall.
    intros y Hy. apply repeat_spec in Hy. now subst.
Qed.

(** The decoder on packets followed by the end marker and anything. *)
Lemma decompress_packets k s out rest :
  packets k s out -> decompress (s ++ 0xFF :: rest) = Ok out.
Proof.
  intros Hs. unfold decompress.
  destruct (s ++ 0xFF :: rest) as [|b l] eqn:E.
  { destruct s; discriminate. }
  rewrite <- E. set (data := s ++ 0xFF :: rest).
  assert (length data = (k + S (length data - S k))%nat) as ->.
  { pose proof (packets_count k s out Hs). subst data. rewrite length_app.
    cbn [length]. lia. }
  subst data. rewrite (decode_packets k s out Hs), decode_eof. cbn.
  f_equal. eapply to_u8_bytes, packets_decoded_bytes, Hs.
Qed.

Lemma decode_loop_end fuel data i acc :
  (length data <= i)%nat -> decode_loop fuel data i acc = Ok acc.
Proof.
  intros Hi. destruct fuel; cbn [decode_loop]; [reflexivity|].
  assert ((i <? length data)%nat = false) as -> by (apply Nat.ltb_ge; lia).
  reflexivity.
Qed.

Lemma packets_empty k out : packets k [] out -> out = [].
Proof.
  intros H. inversion H as [|? s ? ? ? ? ? E|? s ? ? ? ? ? E]; [reflexivity | |];
    destruct s; discriminate.
Qed.

(** *** Sizes *)

Lemma flushRaw_loop_length rawBuffer : forall fuel offset s,
  (length rawBuffer - offset <= fuel)%nat ->
  length (flushRaw_loop fuel rawBuffer offset s)
  = (length s + (length rawBuffer - offset)
     + (length rawBuffer - offset + 127) / 128)%nat.
Proof.
  induction fuel as [|fuel IH]; intros offset s Hf; cbn [flushRaw_loop].
  - replace (length rawBuffer - offset)%nat with 0%nat by lia.
    change ((0 + 127) / 128)%nat with 0%nat. lia.
  - destruct (offset <? length rawBuffer)%nat eqn:E.
    + apply Nat.ltb_lt in E. rewrite IH by lia.
      rewrite !length_app, length_take, length_drop. cbn [length].
      set (d := (length rawBuffer - offset)%nat) in *.
      destruct (Nat.le_gt_cases d 128) as [Hle|Hgt].
      * replace (Nat.min (Nat.min d 128) d) with d by lia.
        replace (Nat.min d 128) with d by lia.
        replace (length rawBuffer - (offset + d))%nat with 0%nat by lia.
        assert ((d + 127) / 128 = 1)%nat as ->.
        { symmetry. apply (Nat.div_unique _ 128 1 (d - 1)); lia. }
        change ((0 + 127) / 128)%nat with 0%nat. lia.
      * replace (Nat.min (Nat.min d 128) d) with 128%nat by lia.
        replace (Nat.min d 128) with 128%nat by lia.
        replace (length rawBuffer - (offset + 128))%nat with (d - 128)%nat by lia.
        replace (d + 127)%nat with (d - 128 + 127 + 1 * 128)%nat by lia.
        rewrite Nat.div_add by lia. lia.
    + apply Nat.ltb_ge in E.
      replace (length rawBuffer - offset)%nat with 0%nat by lia.
      change ((0 + 127) / 128)%nat with 0%nat. lia.
Qed.

Lemma flushRaw_length s rawBuffer :
  length (fst (flushRaw s rawBuffer))
  = (length s + length rawBuffer + (length rawBuffer + 127) / 128)%nat
  /\ snd (flushRaw s rawBuffer) = [].
Proof.
  unfold flushRaw. destruct rawBuffer as [|b raw] eqn:E.
  - cbn. split; [lia | reflexivity].
  - rewrite <- E. cbn [fst snd]. split; [| reflexivity].
    rewrite flushRaw_loop_length by lia. now rewrite Nat.sub_0_r.
Qed.

Lemma rle_loop_length value : forall fuel remainingRun s,
  (remainingRun <= fuel)%nat ->
  length (rle_loop fuel value remainingRun s)
  = (length s + 2 * ((remainingRun + 126) / 127))%nat.
Proof.
  induction fuel as [|fuel IH]; intros r s Hf; cbn [rle_loop].
  - replace r with 0%nat by lia. change ((0 + 126) / 127)%nat with 0%nat. lia.
  - destruct (0 <? r)%nat eqn:E.
    + apply Nat.ltb_lt in E. rewrite IH by lia.
      rewrite !length_app. cbn [length].
      destruct (Nat.le_gt_cases r 127) as [Hle|Hgt].
      * replace (Nat.min r 127) with r by lia. replace (r - r)%nat with 0%nat by lia.
        assert ((r + 126) / 127 = 1)%nat as ->.
        { symmetry. apply (Nat.div_unique _ 127 1 (r - 1)); lia. }
        change ((0 + 126) / 127)%nat with 0%nat. lia.
      * replace (Nat.min r 127) with 127%nat by lia.
        replace (r + 126)%nat with (r - 127 + 126 + 1 * 127)%nat by lia.
        rewrite Nat.div_add by lia. lia.
    + apply Nat.ltb_ge in E. replace r with 0%nat by lia.
      change ((0 + 126) / 127)%nat with 0%nat. lia.
Qed.

Lemma main_loop_length inputData : forall fuel i s rawBuffer,
  (length rawBuffer <= i)%nat -> (i <= length inputData)%nat ->
  (128 * length s <= 129 * (i - length rawBuffer))%nat ->
  (length inputData - i <= fuel)%nat ->
  let '(s', raw') := main_loop fuel inputData i s rawBuffer in
  (length raw' <= length inputData)%nat
  /\ (128 * length s' <= 129 * (length inputData - length raw'))%nat.
Proof.
  induction fuel as [|fuel IH]; intros i s raw Hraw Hi Hs Hf; cbn [main_loop].
  - replace (length inputData) with i by lia. split; [lia | exact Hs].
  - destruct (i <? length inputData)%nat eqn:E.
    + apply Nat.ltb_lt in E.
      assert (is_run inputData i 1) as H1.
      { split; [lia|]. split; [lia|]. intros j Hj. do 2 f_equal. lia. }
      apply (run_loop_run inputData i (length inputData)) in H1.
      set (runLength := run_loop (length inputData) inputData i 1) in *.
      destruct H1 as (Hr1 & Hr2 & _).
      destruct (3 <=? runLength)%nat eqn:E3.
      * apply Nat.leb_le in E3.
        destruct (flushRaw_length s raw) as [Hl Hnil].
        destruct (flushRaw s raw) as [s1 raw1]. cbn [fst snd] in Hl, Hnil. subst raw1.
        apply IH; cbn [length]; [lia | lia | | lia].
        rewrite rle_loop_length, Hl by lia.
        pose proof (Nat.div_mod_eq (length raw + 127) 128) as D1.
        pose proof (Nat.mod_upper_bound (length raw + 127) 128 ltac:(lia)) as D2.
        pose proof (Nat.div_mod_eq (runLength + 126) 127) as D3.
        pose proof (Nat.mod_upper_bound (runLength + 126) 127 ltac:(lia)) as D4.
        destruct (Nat.le_gt_cases runLength 127) as [Hle|Hgt].
        -- assert ((runLength + 126) / 127 = 1)%nat as Hq.
           { symmetry. apply (Nat.div_unique _ 127 1 (runLength - 1)); lia. }
           rewrite Hq in *. lia.
        -- lia.
      * apply IH; rewrite ?length_app; cbn [length]; [lia | lia | | lia].
        replace (S i - (length raw + 1))%nat with (i - length raw)%nat by lia.
        exact Hs.
    + apply Nat.ltb_ge in E. replace (length inputData) with i by lia.
      split; [lia | exact Hs].
Qed.

(** *** The theorems *)

(** X1: MDK-RLE round trip. For every array of bytes [x], decompressing what
    [compress] returns for [x] gives [x] back; bytes that follow the end
    marker are not read. *)
Theorem mdkrle_round_trip x rest :
  all_bytes x -> decompress (compress x ++ rest) = Ok x.
Proof.
  intros Hb. destruct (compress_packets x Hb) as (k & s & Hs & ->).
  rewrite <- app_assoc. apply (decompress_packets k s x rest Hs).
Qed.

Lemma mdkrle_round_trip_witness :
  decompress (compress [7; 7; 7; 7; 1; 2; 2; 3] ++ [9; 9]) = Ok [7; 7; 7; 7; 1; 2; 2; 3].
Proof.
  apply mdkrle_round_trip. unfold all_bytes. repeat constructor; lia.
Defined.

(** X2: the end marker is optional for the MDK-RLE decoder. A stream that is
    a sequence of whole packets (RAW packets of 1 to 128 bytes, RLE packets of
    1 to 127 repetitions) and stops without the 0xFF marker decodes to the
    bytes of its packets. *)
Theorem mdkrle_marker_optional k s out :
  packets k s out -> decompress s = Ok out.
Proof.
  intros Hs. unfold decompress. destruct s as [|b l] eqn:E.
  - f_equal. symmetry. eapply packets_empty, Hs.
  - rewrite <- E in *. clear E b l.
    pose proof (packets_count k s out Hs) as Hk.
    replace (length s) with (k + (length s - k))%nat by lia.
    rewrite <- (app_nil_r s) at 1 2.
    rewrite (decode_packets k s out Hs), app_nil_r.
    rewrite decode_loop_end by lia. cbn.
    f_equal. eapply to_u8_bytes, packets_decoded_bytes, Hs.
Qed.

Lemma mdkrle_marker_optional_witness :
  decompress [0x01; 5; 6; 0x82; 4] = Ok [5; 6; 4; 4; 4].
Proof.
  apply (mdkrle_marker_optional 2 [0x01; 5; 6; 0x82; 4] [5; 6; 4; 4; 4]).
  apply (packets_rle 1 [0x01; 5; 6] [5; 6] 3 4); [| lia | lia].
  apply (packets_raw 0 [] [] [5; 6]); [constructor | cbn [length]; lia |].
  unfold all_bytes. repeat constructor; lia.
Defined.

(** X3: the MDK-RLE decoder rejects a stream that is cut inside a packet.
    After any sequence of whole packets, a RAW control byte [c] followed by
    fewer than [c + 1] bytes, and an RLE control byte followed by nothing,
    both make [decompress] throw. *)
Theorem mdkrle_truncated_packet k s out :
  packets k s out ->
  (forall c tail, 0 <= c < 0x80 -> Z.of_nat (length tail) < c + 1 ->
     decompress (s ++ c :: tail) = Throw TruncatedStream)
  /\ (forall c, 0x80 <= c < 0xFF -> decompress (s ++ [c]) = Throw TruncatedStream).
Proof.
  intros Hs. pose proof (packets_count k s out Hs) as Hk. split.
  - intros c tail Hc Ht. unfold decompress.
    destruct (s ++ c :: tail) as [|b l] eqn:E; [destruct s; discriminate|].
    rewrite <- E. clear E b l. set (data := s ++ c :: tail).
    assert (length data = (length s + 1 + length tail)%nat) as Hd.
    { subst data. rewrite length_app. cbn [length]. lia. }
    replace (length data) with (k + S (length data - S k))%nat at 1 by lia.
    subst data. rewrite (decode_packets k s out Hs).
    set (data := s ++ c :: tail) in *. cbn [decode_loop].
    assert ((length s <? length data)%nat = true) as -> by (apply Nat.ltb_lt; lia).
    assert (get data (length s) = c) as -> by apply get_middle.
    assert ((c =? 0xFF) = false) as -> by (apply Z.eqb_neq; lia).
    assert ((c <? 0x80) = true) as -> by (apply Z.ltb_lt; lia).
    assert ((length data <? S (length s) + Z.to_nat (c + 1))%nat = true) as ->
      by (apply Nat.ltb_lt; lia).
    reflexivity.
  - intros c Hc. unfold decompress.
    destruct (s ++ [c]) as [|b l] eqn:E; [destruct s; discriminate|].
    rewrite <- E. clear E b l. set (data := s ++ [c]).
    assert (length data = (length s + 1)%nat) as Hd.
    { subst data. rewrite length_app. cbn [length]. lia. }
    replace (length data) with (k + S (length data - S k))%nat at 1 by lia.
    subst data. rewrite (decode_packets k s out Hs).
    set (data := s ++ [c]) in *. cbn [decode_loop].
    assert ((length s <? length data)%nat = true) as -> by (apply Nat.ltb_lt; lia).
    assert (get data (length s) = c) as -> by apply get_middle.
    assert ((c =? 0xFF) = false) as -> by (apply Z.eqb_neq; lia).
    assert ((c <? 0x80) = false) as -> by (apply Z.ltb_ge; lia).
    assert ((length data <=? S (length s))%nat = true) as -> by (apply Nat.leb_le; lia).
    reflexivity.
Qed.

Lemma mdkrle_truncated_packet_witness :
  decompress [0x01; 5; 6; 0x03; 1; 2] = Throw TruncatedStream
  /\ decompress [0x01; 5; 6; 0x85] = Throw TruncatedStream.
Proof.
  destruct (mdkrle_truncated_packet 1 [0x01; 5; 6] [5; 6]) as [H1 H2].
  - apply (packets_raw 0 [] [] [5; 6]); [constructor | cbn [length]; lia |].
    unfold all_bytes. repeat constructor; lia.
  - split; [apply (H1 0x03 [1; 2]); cbn [length]; lia | apply (H2 0x85); lia].
Defined.

(** X4: worst-case size of MDK-RLE. The stream [compress] returns for an
    input of [n] bytes never holds more than [n + ceil(n / 128) + 1] bytes:
    the input, one control byte for every 128 bytes, and the end marker. *)
Theorem mdkrle_worst_case_size x :
  (length (compress x) <= length x + (length x + 127) / 128 + 1)%nat.
Proof.
  destruct x as [|b x]; [cbn; lia|].
  rewrite compress_cons. generalize (b :: x). intros inputData.
  pose proof (main_loop_length inputData (length inputData) 0 [] []) as H.
  cbn [length] in H. specialize (H ltac:(lia) ltac:(lia) ltac:(lia) ltac:(lia)).
  destruct (main_loop (length inputData) inputData 0 [] []) as [s1 raw1].
  destruct H as [Hr Hs].
  destruct (flushRaw_length s1 raw1) as [Hl _].
  destruct (flushRaw s1 raw1) as [s2 raw2]. cbn [fst] in Hl.
  unfold to_u8. rewrite length_map, length_app, Hl. cbn [length].
  pose proof (Nat.div_mod_eq (length raw1 + 127) 128) as D1.
  pose proof (Nat.mod_upper_bound (length raw1 + 127) 128 ltac:(lia)) as D2.
  pose proof (Nat.div_mod_eq (length inputData + 127) 128) as D3.
  pose proof (Nat.mod_upper_bound (length inputData + 127) 128 ltac:(lia)) as D4.
  lia.
Qed.

End MdkRoundTrip.

(** ** LZF: the round trip *)

(** The header bytes of a match: what the decoder takes out of them. *)
Definition header_ok (l hi : Z) : bool :=
  let b := Z.lor (Z.shiftl l 5) hi in
  (0 <=? b) && (b <? 255) && (Z.shiftr b 5 =? l) && (Z.land b 0x1F =? hi).

Lemma lzf_header_bits l hi :
  1 <= l <= 7 -> 0 <= hi <= 30 ->
  let b := Z.lor (Z.shiftl l 5) hi in
  0 <= b < 255 /\ Z.shiftr b 5 = l /\ Z.land b 0x1F = hi.
Proof.
  intros Hl Hhi.
  assert (forallb (fun l => forallb (header_ok l) (map Z.of_nat (seq 0 31)))
            [1; 2; 3; 4; 5; 6; 7] = true) as H by (vm_compute; reflexivity).
  assert (In l [1; 2; 3; 4; 5; 6; 7]) as Hin by (cbn; lia).
  apply (proj1 (List.forallb_forall _ _) H) in Hin.
  assert (In hi (map Z.of_nat (seq 0 31))) as Hin2.
  { apply List.in_map_iff. exists (Z.to_nat hi). split; [lia | apply List.in_seq; lia]. }
  apply (proj1 (List.forallb_forall _ _) Hin) in Hin2. unfold header_ok in Hin2.
  repeat (apply andb_true_iff in Hin2 as [Hin2 ?]). cbn zeta. lia.
Qed.

Lemma lzf_high_bits so :
  0 <= so < 7936 ->
  Z.land (Z.shiftr so 8) 0x1F = Z.shiftr so 8 /\ 0 <= Z.shiftr so 8 <= 30
  /\ 0 <= Z.land so 0xFF < 256.
Proof.
  intros Hso. rewrite Z.shiftr_div_pow2 by lia. change (2 ^ 8) with 256.
  assert (so / 256 < 31) by (apply Z.div_lt_upper_bound; lia).
  assert (0 <= so / 256) by (apply Z.div_pos; lia).
  change 0x1F with (Z.ones 5). change 0xFF with (Z.ones 8).
  rewrite !Z.land_ones by lia. change (2 ^ 5) with 32. change (2 ^ 8) with 256.
  rewrite (Z.mod_small (so / 256)) by lia.
  pose proof (Z.mod_pos_bound so 256 ltac:(lia)). lia.
Qed.

Lemma lzf_short_header so l :
  0 <= so < 7936 -> 1 <= l <= 6 ->
  let b := Z.lor (Z.shiftl l 5) (Z.land (Z.shiftr so 8) 0x1F) in
  0 <= b < 255 /\ Z.shiftr b 5 = l
  /\ Z.lor (Z.shiftl (Z.land b 0x1F) 8) (Z.land so 0xFF) = so.
Proof.
  intros Hso Hl. destruct (lzf_high_bits so Hso) as (-> & Hhi & _).
  destruct (lzf_header_bits l (Z.shiftr so 8)) as (Hb & Hc & Hs); [lia | lia |].
  cbn zeta in *. rewrite Hs. repeat split; try lia. apply split_low_byte.
Qed.

Lemma lzf_long_header so :
  0 <= so < 7936 ->
  let b := Z.lor 0xE0 (Z.land (Z.shiftr so 8) 0x1F) in
  0 <= b < 255 /\ Z.shiftr b 5 = 7
  /\ Z.lor (Z.shiftl (Z.land b 0x1F) 8) (Z.land so 0xFF) = so
  /\ 0 <= Z.land so 0xFF < 256.
Proof.
  intros Hso. destruct (lzf_high_bits so Hso) as (-> & Hhi & Hlo).
  destruct (lzf_header_bits 7 (Z.shiftr so 8)) as (Hb & Hc & Hs); [lia | lia |].
  cbn zeta in *. change (Z.shiftl 7 5) with 0xE0 in *. rewrite Hs.
  repeat split; try lia. apply split_low_byte.
Qed.

Lemma lzf_literal_header c :
  0 <= c < 32 -> Z.shiftr c 5 = 0 /\ Z.land c 0x1F = c.
Proof.
  revert c. apply (small_cases (fun c => Z.shiftr c 5 = 0 /\ Z.land c 0x1F = c) 32).
  vm_compute. repeat constructor.
Qed.

Section LZFRoundTrip.
Import LZF.

Variable input : list Z.
Hypothesis input_bytes : all_bytes input.

(** A match the DP records copies bytes that are equal to the ones it
    stands for. *)
Definition valid_op (o : op) : Prop :=
  match o with
  | Literal _ _ => True
  | Match len off from =>
      (off <= from)%nat
      /\ forall j, (j < len)%nat -> input !! (from - off + j)%nat = input !! (from + j)%nat
  end.

Definition path_valid (t : tables) : Prop :=
  forall k o, path t !! k = Some (Some o) -> valid_op o.

Lemma relax_valid cost k o t :
  valid_op o -> path_valid t -> path_valid (relax cost k o t).
Proof.
  intros Ho Ht. unfold relax. destruct (lt_inf _ _); [| exact Ht].
  intros j o' Hj. cbn [path] in Hj.
  apply list_lookup_insert_Some in Hj as [(_ & Heq & _)|[_ Hj]].
  - injection Heq as <-. exact Ho.
  - exact (Ht j o' Hj).
Qed.

Lemma literal_options_valid i base t :
  path_valid t -> path_valid (literal_options (length input) i base t).
Proof.
  unfold literal_options. generalize (seq 1 32). intros lens. revert t.
  induction lens as [|len lens IH]; intros t Ht; [exact Ht|].
  cbn [fold_left]. apply IH. destruct (_ <=? _)%nat; [| exact Ht].
  apply relax_valid; [exact I | exact Ht].
Qed.

Lemma js_eq_true x y : js_eq x y = true -> x = y.
Proof.
  destruct x as [a|], y as [b|]; cbn; try discriminate; [| reflexivity].
  intros H. apply Z.eqb_eq in H. now subst.
Qed.

Lemma match_len_valid p i : forall fuel len,
  (forall j, (j < len)%nat -> input !! (p + j)%nat = input !! (i + j)%nat) ->
  forall j, (j < match_len fuel input (length input) p i len)%nat ->
            input !! (p + j)%nat = input !! (i + j)%nat.
Proof.
  induction fuel as [|fuel IH]; intros len Hlen; cbn [match_len]; [exact Hlen|].
  destruct (_ && _)%bool eqn:E; [| exact Hlen].
  apply andb_true_iff in E as [E _]. apply andb_true_iff in E as [_ E].
  apply js_eq_true in E. apply IH. intros j Hj.
  destruct (decide (j = len)) as [->|Hne]; [exact E | apply Hlen; lia].
Qed.

Lemma match_options_valid i base t :
  path_valid t -> path_valid (match_options input (length input) i base t).
Proof.
  unfold match_options.
  set (searchStart := (i - MAX_OFFSET)%nat).
  assert (Forall (fun p => (p < i)%nat) (seq searchStart (i - searchStart))) as Hall.
  { apply List.Forall_forall. intros p Hp. apply List.in_seq in Hp. lia. }
  revert Hall t. generalize (seq searchStart (i - searchStart)). intros ps.
  induction ps as [|p ps IH]; intros Hall t Ht; [exact Ht|].
  cbn [fold_left]. inversion Hall as [|? ? Hp Hps]; subst. apply IH; [exact Hps|].
  destruct (_ <=? _)%nat; [| exact Ht].
  apply relax_valid; [| exact Ht]. split; [lia|].
  intros j Hj. replace (i - (i - p) + j)%nat with (p + j)%nat by lia.
  revert j Hj. apply match_len_valid. intros j Hj. lia.
Qed.

Lemma dp_step_valid t i :
  path_valid t -> path_valid (LZF.dp_step input (length input) t i).
Proof.
  intros Ht. unfold LZF.dp_step. destruct (mjoin _); [| exact Ht].
  apply match_options_valid, literal_options_valid, Ht.
Qed.

Lemma dp_run_valid : path_valid (dp_run input).
Proof.
  unfold dp_run.
  assert (path_valid (mkTables (<[0%nat := Some 0%nat]> (replicate (length input + 1) None))
                        (replicate (length input + 1) None))) as H0.
  { intros k o Hk. cbn [path] in Hk. apply lookup_replicate in Hk as [Hk _].
    discriminate. }
  revert H0. generalize (seq 0 (length input)).
  generalize (mkTables (<[0%nat := Some 0%nat]> (replicate (length input + 1) None))
                (replicate (length input + 1) None)).
  intros t is_. revert t. induction is_ as [|i is_ IH]; intros t Ht; [exact Ht|].
  cbn [fold_left]. apply IH, dp_step_valid, Ht.
Qed.

(** *** The operations cover the input *)

Definition op_end (o : op) : nat :=
  match o with Literal len from => from + len | Match len _ from => from + len end.

(** [chain a ops]: the operations stand for the bytes from [a] to the end of
    the input, one after the other. *)
Inductive chain : nat -> list op -> Prop :=
  | chain_nil : chain (length input) []
  | chain_cons o ops :
      wf_op (op_end o) o -> valid_op o -> (op_end o <= length input)%nat ->
      chain (op_end o) ops -> chain (op_from o) (o :: ops).

Lemma wf_op_end k o : wf_op k o -> op_end o = k.
Proof. destruct o; cbn; lia. Qed.

Lemma reconstruct_chain t :
  tables_ok input t -> reached input (length input) t -> path_valid t ->
  forall fuel pos ops,
    (pos <= fuel)%nat -> (pos <= length input)%nat -> chain pos ops ->
    exists ops', reconstruct fuel (path t) pos ops = Ok ops' /\ chain 0 ops'.
Proof.
  intros Hok Hreach Hval. induction fuel as [|fuel IH]; intros pos ops Hf Hn Hc.
  - replace pos with 0%nat in * by lia. exists ops. split; [reflexivity | exact Hc].
  - cbn [reconstruct]. destruct (0 <? pos)%nat eqn:E.
    + apply Nat.ltb_lt in E.
      destruct (ok_some input t Hok pos E (Hreach pos Hn Hn)) as [o Ho].
      rewrite Ho.
      assert (path t !! pos = Some (Some o)) as Hp.
      { destruct (path t !! pos) as [[o'|]|]; cbn in Ho; congruence. }
      pose proof (ok_wf input t Hok pos o Hp) as Hwf.
      pose proof (wf_op_end pos o Hwf) as He.
      apply IH.
      * destruct o; cbn in *; lia.
      * destruct o; cbn in *; lia.
      * apply chain_cons; rewrite ?He; try assumption. exact (Hval pos o Hp).
    + apply Nat.ltb_ge in E. replace pos with 0%nat in * by lia.
      exists ops. split; [reflexivity | exact Hc].
Qed.

Lemma operations_chain : exists ops, operations input = Ok ops /\ chain 0 ops.
Proof.
  destruct (dp_run_ok input) as [Hok Hr].
  apply (reconstruct_chain _ Hok Hr dp_run_valid); [lia | lia | constructor].
Qed.

(** *** The decoder on the emitted operations *)

Lemma take_segment from : forall len,
  (from + len <= length input)%nat ->
  take (from + len) input
  = take from input ++ map (fun i => get input (from + i)) (seq 0 len).
Proof.
  induction len as [|len IH]; intros Hn.
  - rewrite Nat.add_0_r. cbn. now rewrite app_nil_r.
  - destruct (lookup_lt_is_Some_2 input (from + len)) as [a Ha]; [lia|].
    replace (from + S len)%nat with (S (from + len)) by lia.
    rewrite (take_S_r _ _ a Ha), IH by lia.
    rewrite seq_S, map_app, app_assoc. cbn [map Nat.add]. do 2 f_equal.
    unfold get. now rewrite Ha.
Qed.

Lemma copy_match_valid from off : forall len,
  (1 <= off <= from)%nat -> (from + len <= length input)%nat ->
  (forall j, (j < len)%nat -> input !! (from - off + j)%nat = input !! (from + j)%nat) ->
  copy_match (map Some (take from input)) (Z.of_nat from - Z.of_nat off) len
  = map Some (take (from + len) input).
Proof.
  unfold copy_match. induction len as [|len IH]; intros Hoff Hn Hv.
  - cbn. now rewrite Nat.add_0_r.
  - rewrite seq_S, fold_left_app, IH; [| exact Hoff | lia | intros j Hj; apply Hv; lia].
    cbn [fold_left Nat.add].
    destruct (lookup_lt_is_Some_2 input (from + len)) as [a Ha]; [lia|].
    replace (from + S len)%nat with (S (from + len)) by lia.
    rewrite (take_S_r _ _ a Ha), map_app. cbn [map]. do 2 f_equal.
    unfold out_at.
    assert ((Z.of_nat from - Z.of_nat off + Z.of_nat len <? 0) = false) as ->
      by (apply Z.ltb_ge; lia).
    replace (Z.to_nat (Z.of_nat from - Z.of_nat off + Z.of_nat len))
      with (from - off + len)%nat by lia.
    rewrite list_lookup_fmap, lookup_take_lt by lia.
    rewrite (Hv len) by lia. now rewrite Ha.
Qed.

Lemma at_app_r (pre l : list Z) i : at_ (pre ++ l) (length pre + i) = at_ l i.
Proof.
  unfold at_. rewrite lookup_app_r by lia. f_equal. lia.
Qed.

Lemma get_app_r (pre l : list Z) i : get (pre ++ l) (length pre + i) = get l i.
Proof. unfold get. fold (at_ (pre ++ l) (length pre + i)). now rewrite at_app_r. Qed.

(** One round of the decoder on one emitted operation. *)
Lemma decode_op fuel pre o rest :
  wf_op (op_end o) o -> valid_op o -> (op_end o <= length input)%nat ->
  decode_loop (S fuel) (pre ++ emit_op input o ++ rest) (length pre)
    (map Some (take (op_from o) input))
  = decode_loop fuel (pre ++ emit_op input o ++ rest)
      (length pre + length (emit_op input o)) (map Some (take (op_end o) input)).
Proof.
  intros Hwf Hv Hn.
  set (data := pre ++ emit_op input o ++ rest).
  assert (forall i, at_ data (length pre + i) = at_ (emit_op input o ++ rest) i) as Hat
    by (intros i; apply at_app_r).
  assert (forall i, get data (length pre + i) = get (emit_op input o ++ rest) i) as Hget
    by (intros i; apply get_app_r).
  assert (length data = (length pre + length (emit_op input o) + length rest)%nat) as Hd.
  { subst data. rewrite !length_app. lia. }
  clearbody data. cbn [decode_loop].
  pose proof (Hat 0%nat) as Hat0. pose proof (Hget 0%nat) as Hget0.
  rewrite Nat.add_0_r in Hat0, Hget0. rewrite Hat0, Hget0.
  destruct o as [len from | len off from]; cbn [op_end op_from wf_op valid_op] in *.
  - (* literal *)
    destruct Hwf as [_ Hlen].
    destruct (lzf_literal_header (Z.of_nat len - 1)) as [Hc1 Hc2]; [lia|].
    cbn [emit_op app at_ get lookup list_lookup default from_option id js_eq] in *.
    cbn [length] in Hd. rewrite length_map, length_seq in Hd.
    assert ((length pre <? length data)%nat = true) as -> by (apply Nat.ltb_lt; lia).
    assert ((Z.of_nat len - 1 =? END_MARKER) = false) as ->
      by (apply Z.eqb_neq; unfold END_MARKER; lia).
    cbn [negb andb]. rewrite Hc1, Hc2. cbn [Z.eqb].
    replace (Z.to_nat (Z.of_nat len - 1 + 1)) with len by lia.
    cbn [length]. rewrite length_map, length_seq.
    replace (S (length pre) + len)%nat with (length pre + S len)%nat by lia.
    f_equal. rewrite take_segment by lia. rewrite map_app, map_map. f_equal.
    apply map_ext_in. intros i Hi. apply List.in_seq in Hi.
    replace (S (length pre) + i)%nat with (length pre + S i)%nat by lia.
    rewrite Hat. unfold at_. rewrite lookup_cons_ne_0 by lia. cbn [Nat.pred].
    rewrite lookup_app_l by (rewrite length_map, length_seq; lia).
    rewrite list_lookup_fmap, lookup_seq_lt by lia. reflexivity.
  - (* match *)
    destruct Hwf as (_ & Hlen & Hoff). destruct Hv as [Hle Hv].
    assert (0 <= Z.of_nat off - 1 < 7936) as Hso by lia.
    pose proof (Hat 1%nat) as Hat1. pose proof (Hat 2%nat) as Hat2.
    replace (length pre + 1)%nat with (S (length pre)) in Hat1 by lia.
    replace (length pre + 2)%nat with (S (S (length pre))) in Hat2 by lia.
    rewrite Hat1, ?Hat2. clear Hat Hget Hat0 Hget0 Hat1 Hat2.
    cbn [emit_op] in *. destruct (len <=? 8)%nat eqn:E8.
    + apply Nat.leb_le in E8.
      destruct (lzf_short_header (Z.of_nat off - 1) (Z.of_nat len - 2) Hso)
        as (Hb & Hc & Hs); [lia|].
      cbn zeta in Hb, Hc, Hs.
      set (b := Z.lor (Z.shiftl (Z.of_nat len - 2) 5)
                  (Z.land (Z.shiftr (Z.of_nat off - 1) 8) 31)) in *.
      cbn [app at_ get lookup list_lookup default from_option id js_eq or0 length] in *.
      assert ((length pre <? length data)%nat = true) as -> by (apply Nat.ltb_lt; lia).
      assert ((b =? END_MARKER) = false) as ->
        by (apply Z.eqb_neq; unfold END_MARKER; lia).
      cbn [negb andb]. rewrite Hc.
      assert ((Z.of_nat len - 2 =? 0) = false) as -> by (apply Z.eqb_neq; lia).
      assert ((Z.of_nat len - 2 =? 7) = false) as -> by (apply Z.eqb_neq; lia).
      rewrite Hs. replace (Z.to_nat (Z.of_nat len - 2 + 2)) with len by lia.
      rewrite length_map, length_take, Nat.min_l by lia.
      replace (Z.of_nat from - (Z.of_nat off - 1 + 1)) with (Z.of_nat from - Z.of_nat off)
        by lia.
      rewrite copy_match_valid by (try lia; exact Hv).
      replace (length pre + 2)%nat with (S (S (length pre))) by lia. reflexivity.
    + apply Nat.leb_gt in E8.
      destruct (lzf_long_header (Z.of_nat off - 1) Hso) as (Hb & Hc & Hs & _).
      cbn zeta in Hb, Hc, Hs.
      set (b := Z.lor 224 (Z.land (Z.shiftr (Z.of_nat off - 1) 8) 31)) in *.
      cbn [app at_ get lookup list_lookup default from_option id js_eq or0 length
             count_of] in *.
      assert ((length pre <? length data)%nat = true) as -> by (apply Nat.ltb_lt; lia).
      assert ((b =? END_MARKER) = false) as ->
        by (apply Z.eqb_neq; unfold END_MARKER; lia).
      cbn [negb andb]. rewrite Hc. cbn [Z.eqb Pos.eqb].
      rewrite Hs. replace (Z.to_nat (Z.of_nat len - 9 + 9)) with len by lia.
      rewrite length_map, length_take, Nat.min_l by lia.
      replace (Z.of_nat from - (Z.of_nat off - 1 + 1)) with (Z.of_nat from - Z.of_nat off)
        by lia.
      rewrite copy_match_valid by (try lia; exact Hv).
      replace (length pre + 3)%nat with (S (S (S (length pre)))) by lia. reflexivity.
Qed.

Lemma decode_chain a ops :
  chain a ops ->
  forall pre rest fuel,
    (length ops < fuel)%nat ->
    decode_loop fuel (pre ++ flat_map (emit_op input) ops ++ END_MARKER :: rest)
      (length pre) (map Some (take a input))
    = map Some input.
Proof.
  induction 1 as [|o ops Hwf Hv Hn _ IH]; intros pre rest fuel Hf.
  - destruct fuel as [|fuel]; [cbn in Hf; lia|]. cbn [flat_map app decode_loop].
    assert ((length pre <? length (pre ++ END_MARKER :: rest))%nat = true) as ->.
    { apply Nat.ltb_lt. rewrite length_app. cbn [length]. lia. }
    unfold at_. rewrite list_lookup_middle by reflexivity.
    cbn. now rewrite take_ge by lia.
  - destruct fuel as [|fuel]; [cbn in Hf; lia|]. cbn [flat_map length] in *.
    rewrite <- app_assoc, (decode_op fuel pre o _ Hwf Hv Hn).
    rewrite <- length_app, app_assoc. apply IH. lia.
Qed.

Lemma emit_op_bytes k o : wf_op k o -> all_bytes (emit_op input o).
Proof.
  destruct o as [len from | len off from]; cbn [wf_op emit_op].
  - intros [_ Hlen]. constructor; [lia|].
    apply List.Forall_forall. intros b Hb. apply List.in_map_iff in Hb as (i & <- & _).
    apply all_bytes_get, input_bytes.
  - intros (_ & Hlen & Hoff).
    assert (0 <= Z.of_nat off - 1 < 7936) as Hso by lia.
    destruct (lzf_long_header (Z.of_nat off - 1) Hso) as (Hb & _ & _ & Hlo).
    cbn zeta in Hb. destruct (len <=? 8)%nat eqn:E8.
    + apply Nat.leb_le in E8.
      destruct (lzf_short_header (Z.of_nat off - 1) (Z.of_nat len - 2) Hso)
        as (Hb' & _); [lia|].
      cbn zeta in Hb'. repeat constructor; lia.
    + apply Nat.leb_gt in E8. repeat constructor; lia.
Qed.

Lemma emit_op_nonempty o : (1 <= length (emit_op input o))%nat.
Proof.
  destruct o as [len from | len off from]; cbn [emit_op]; [cbn [length]; lia|].
  destruct (len <=? 8)%nat; cbn [length]; lia.
Qed.

Lemma chain_emitted a ops :
  chain a ops ->
  all_bytes (flat_map (emit_op input) ops)
  /\ (length ops <= length (flat_map (emit_op input) ops))%nat.
Proof.
  induction 1 as [|o ops Hwf Hv Hn _ [IH1 IH2]]; cbn [flat_map length].
  - split; [constructor | lia].
  - split; [apply all_bytes_app; [eapply emit_op_bytes, Hwf | exact IH1]|].
    rewrite length_app. pose proof (emit_op_nonempty o). lia.
Qed.

Lemma lzf_compress_decompress rest :
  exists s, compress input = Ok s /\ decompress (s ++ rest) = input.
Proof.
  destruct operations_chain as (ops & Hops & Hc).
  destruct (chain_emitted 0 ops Hc) as [Hb Hl].
  unfold compress. rewrite Hops. cbn [mbind result_bind rbind].
  rewrite to_u8_bytes
    by (apply all_bytes_app; [exact Hb | repeat constructor; unfold END_MARKER; lia]).
  eexists. split; [reflexivity|]. unfold decompress.
  rewrite <- app_assoc. cbn [app].
  pose proof (decode_chain 0 ops Hc [] rest) as Hd. cbn [app length take map] in Hd.
  rewrite Hd.
  - rewrite map_map. cbn [or0 default from_option id]. rewrite map_id.
    apply to_u8_bytes, input_bytes.
  - rewrite length_app. cbn [length]. lia.
Qed.

End LZFRoundTrip.

(** X5: LZF round trip. For every array of bytes [x], [compress] returns a
    stream, and decompressing it gives [x] back; bytes that follow the end
    marker are not read. *)
Theorem lzf_round_trip x rest :
  all_bytes x ->
  exists s, LZF.compress x = Ok s /\ LZF.decompress (s ++ rest) = x.
Proof. intros Hb. apply lzf_compress_decompress, Hb. Qed.

Lemma lzf_round_trip_witness :
  exists s, LZF.compress [1; 2; 3; 1; 2; 3; 1; 2; 3; 255] = Ok s
            /\ LZF.decompress (s ++ [7]) = [1; 2; 3; 1; 2; 3; 1; 2; 3; 255].
Proof.
  apply lzf_round_trip. unfold all_bytes. repeat constructor; lia.
Defined.

(** ** BitBuster: the header *)

Section BitBusterHeader.
Import BitBuster.

(** The first four bytes of the writer's output stay what [_beginWriter] made
    them: every later store goes to the reserved bit byte or to the end. *)
Definition header_kept (h : list Z) (w : writer) : Prop :=
  take 4 (out w) = h /\ (4 <= bitPos w)%nat /\ (4 <= length (out w))%nat.

Lemma writeByte_header h b w : header_kept h w -> header_kept h (writeByte b w).
Proof.
  intros (Ht & Hp & Hl). unfold header_kept, writeByte. cbn [out bitPos].
  rewrite length_app, take_app_le by lia. repeat split; [exact Ht | exact Hp | lia].
Qed.

Lemma rotateBitByte_header h w : header_kept h w -> header_kept h (rotateBitByte w).
Proof.
  intros (Ht & Hp & Hl). unfold header_kept, rotateBitByte. cbn [out bitPos].
  rewrite length_app, length_insert, take_app_le by (rewrite length_insert; lia).
  rewrite take_insert_ge by lia. repeat split; [exact Ht | lia | lia].
Qed.

Lemma writeBit_header h v w : header_kept h w -> header_kept h (writeBit v w).
Proof.
  intros H. unfold writeBit.
  assert (header_kept h (if bitCount w =? 8 then rotateBitByte w else w)) as H'.
  { destruct (bitCount w =? 8); [apply rotateBitByte_header|]; exact H. }
  exact H'.
Qed.

Lemma fold_header {A} h (f : writer -> A -> writer) (l : list A) :
  (forall w a, header_kept h w -> header_kept h (f w a)) ->
  forall w, header_kept h w -> header_kept h (fold_left f l w).
Proof.
  intros Hf. induction l as [|a l IH]; intros w Hw; [exact Hw|].
  cbn [fold_left]. apply IH, Hf, Hw.
Qed.

Lemma writeGamma_header h value w : header_kept h w -> header_kept h (writeGamma value w).
Proof.
  intros H. unfold writeGamma.
  apply fold_header; [intros; now apply writeBit_header|].
  apply writeBit_header.
  apply fold_header; [intros; now apply writeBit_header | exact H].
Qed.

Lemma writeOffset_header h dist w : header_kept h w -> header_kept h (writeOffset dist w).
Proof.
  intros H. unfold writeOffset. destruct (_ <=? 127).
  - now apply writeByte_header.
  - now repeat apply writeBit_header; apply writeByte_header.
Qed.

Lemma emit_loop_header h input n p : forall fuel i w,
  header_kept h w -> header_kept h (emit_loop fuel input n p i w).
Proof.
  induction fuel as [|fuel IH]; intros i w H; cbn [emit_loop]; [exact H|].
  destruct (i <? n)%nat; [| exact H].
  destruct (1 <? _).
  - apply IH, writeGamma_header, writeOffset_header, writeBit_header, H.
  - apply IH, writeByte_header, writeBit_header, H.
Qed.

Lemma backfill_header h w :
  header_kept h w ->
  header_kept h
    (if 0 <? bitCount w then
       mkWriter (<[bitPos w := Z.land (Z.shiftl (bitData w) (8 - bitCount w)) 0xff]> (out w))
         (bitPos w) (bitData w) (bitCount w)
     else w).
Proof.
  intros (Ht & Hp & Hl). destruct (0 <? bitCount w); [| now repeat split].
  unfold header_kept. cbn [out bitPos]. rewrite length_insert, take_insert_ge by lia.
  now repeat split.
Qed.

Lemma endStream_header h w : header_kept h w -> header_kept h (endStream w).
Proof.
  intros H. apply backfill_header, writeBit_header.
  apply fold_header; [intros; now apply writeBit_header|].
  apply writeByte_header, writeBit_header, H.
Qed.

Lemma setUint32_le_read v rest :
  0 <= v < 2 ^ 32 -> getUint32_le (setUint32_le v ++ rest) = v.
Proof.
  intros Hv. unfold getUint32_le, setUint32_le, get. cbn [app lookup list_lookup].
  cbn [default from_option id].
  change (2 ^ 8) with 256. change (2 ^ 16) with 65536. change (2 ^ 24) with 16777216.
  change (2 ^ 32) with 4294967296 in Hv.
  pose proof (Z.div_mod v 256 ltac:(lia)).
  pose proof (Z.div_mod (v / 256) 256 ltac:(lia)).
  pose proof (Z.div_mod (v / 256 / 256) 256 ltac:(lia)).
  pose proof (Z.mod_pos_bound v 256 ltac:(lia)).
  pose proof (Z.mod_pos_bound (v / 256) 256 ltac:(lia)).
  pose proof (Z.mod_pos_bound (v / 256 / 256) 256 ltac:(lia)).
  replace (v / 65536) with (v / 256 / 256) by (rewrite Z.div_div by lia; reflexivity).
  replace (v / 16777216) with (v / 256 / 256 / 256)
    by (rewrite !Z.div_div by lia; reflexivity).
  assert (0 <= v / 256 / 256 / 256 < 256).
  { split; [repeat apply Z.div_pos; lia|].
    repeat (apply Z.div_lt_upper_bound; [lia|]). lia. }
  rewrite (Z.mod_small (v / 256 / 256 / 256)) by lia. lia.
Qed.

Lemma setUint32_le_bytes v : to_u8 (setUint32_le v) = setUint32_le v.
Proof.
  unfold to_u8, setUint32_le. cbn [map]. now rewrite !Z.mod_mod by lia.
Qed.

(** What [compress] returns begins with the header. *)
Lemma compress_header c x :
  Z.of_nat (length x) <= MAX_INPUT c -> Z.of_nat (length x) < 2 ^ 32 ->
  exists body, compress c x = Ok (setUint32_le (Z.of_nat (length x)) ++ body).
Proof.
  intros Hmax H32. unfold compress.
  assert (length (to_u8 x) = length x) as -> by apply length_map.
  destruct (length x =? 0)%nat eqn:E0.
  { apply Nat.eqb_eq in E0. rewrite E0. exists []. reflexivity. }
  destruct (_ <? _) eqn:E1; [apply Z.ltb_lt in E1; lia|].
  set (h := setUint32_le (Z.of_nat (length x))).
  set (w := endStream _).
  assert (header_kept h w) as (Ht & _ & Hl).
  { subst w. apply endStream_header, emit_loop_header.
    unfold header_kept, beginWriter. cbn [out bitPos].
    unfold to_u32. rewrite Z.mod_small by lia. fold h.
    repeat split; cbn; lia. }
  exists (to_u8 (drop 4 (out w))). f_equal.
  rewrite <- (take_drop 4 (out w)) at 1. rewrite to_u8_app, Ht.
  subst h. now rewrite setUint32_le_bytes.
Qed.

End BitBusterHeader.

(** X6: the BitBuster header. For every input [x] the codec admits (and
    whose length fits 32 bits), the stream [compress] returns begins with the
    length of [x] as a 32-bit little-endian number; so whenever [decompress]
    returns on that stream, with or without bytes appended to it, its output
    has the length of [x]. *)
Theorem bitbuster_header_is_input_length c x :
  Z.of_nat (length x) <= BitBuster.MAX_INPUT c -> Z.of_nat (length x) < 2 ^ 32 ->
  exists s,
    BitBuster.compress c x = Ok s
    /\ take 4 s = BitBuster.setUint32_le (Z.of_nat (length x))
    /\ BitBuster.getUint32_le s = Z.of_nat (length x)
    /\ forall extra out,
         BitBuster.decompress (s ++ extra) = Ok out -> length out = length x.
Proof.
  intros Hmax H32. destruct (compress_header c x Hmax H32) as [body Hs].
  exists (BitBuster.setUint32_le (Z.of_nat (length x)) ++ body).
  split; [exact Hs|]. split; [reflexivity|].
  split; [apply setUint32_le_read; lia|].
  intros extra out Hd. unfold BitBuster.decompress in Hd.
  destruct (_ <? 4)%nat; [discriminate|].
  apply decode_loop_length in Hd. rewrite Hd, length_replicate.
  rewrite <- app_assoc, to_u8_app, setUint32_le_bytes, setUint32_le_read by lia. lia.
Qed.

Lemma bitbuster_header_is_input_length_witness :
  exists s,
    BitBuster.compress BitBuster.default_codec [1; 2; 3; 1; 2; 3; 1; 2; 3] = Ok s
    /\ take 4 s = BitBuster.setUint32_le 9
    /\ BitBuster.getUint32_le s = 9
    /\ forall extra out,
         BitBuster.decompress (s ++ extra) = Ok out -> length out = 9%nat.
Proof.
  apply (bitbuster_header_is_input_length BitBuster.default_codec
           [1; 2; 3; 1; 2; 3; 1; 2; 3]); cbn; lia.
Defined.

(** ** Pletter: the length code *)

Module PletterGamma.
Import Pletter PletterOffset.

(** The bits [_addVar] writes. *)
Fixpoint addVar_bits (fuel : nat) (i j : Z) : list Z :=
  match fuel with
  | O => []
  | S fuel' =>
      if j =? 1 then [0]
      else
        let j := j / 2 in
        1 :: (if Z.land i j =? 0 then 0 else 1) :: addVar_bits fuel' i j
  end.

Lemma addVar_loop_bits i : forall fuel j w,
  addVar_loop fuel i j w = run_w (map WBit (addVar_bits fuel i j)) w.
Proof.
  induction fuel as [|fuel IH]; intros j w; cbn [addVar_loop addVar_bits];
    [reflexivity|].
  destruct (j =? 1); [reflexivity|].
  cbn [map run_w fold_left run_op]. rewrite IH.
  destruct (Z.land i (j / 2) =? 0); reflexivity.
Qed.

Definition gamma_bits_of (i : Z) : list Z := addVar_bits 17 i (top_bit 16 i 32768).

Lemma addVar_bits_run i w : addVar i w = run_w (map WBit (gamma_bits_of i)) w.
Proof. apply addVar_loop_bits. Qed.

(** The reader's loop on a list of bits: the value, when the list is one
    whole code. *)
Fixpoint gamma_value (vs : list Z) (acc : Z) : option Z :=
  match vs with
  | [] => None
  | c :: rest =>
      if c =? 0 then (match rest with [] => Some acc | _ => None end)
      else
        match rest with
        | [] => None
        | b :: rest' => gamma_value rest' (BitBuster.to_i32 (Z.lor (Z.shiftl acc 1) b))
        end
  end.

Lemma replay_bits_cons out b bs r vs r' :
  replay (map WBit (b :: bs)) out r = Ok (vs, r') ->
  exists v vs', vs = v :: vs'
    /\ replay (map WBit bs) out (snd (getBit out r)) = Ok (vs', r')
    /\ v = fst (getBit out r).
Proof.
  cbn [map replay]. destruct (getBit out r) as [v r1]. intros H.
  apply bind_Ok in H as ([vs' r2] & H1 & H2). cbn in H2. injection H2 as <- <-.
  exists v, vs'. cbn [fst snd]. auto.
Qed.

Lemma gamma_loop_value out : forall fuel bs r vs r' acc v,
  replay (map WBit bs) out r = Ok (vs, r') ->
  gamma_value vs acc = Some v ->
  (length bs <= 2 * fuel)%nat ->
  gamma_loop fuel out acc r = (v, r').
Proof.
  induction fuel as [|fuel IH]; intros bs r vs r' acc v Hr Hv Hf.
  - destruct bs; [| cbn in Hf; lia]. cbn in Hr. injection Hr as <- <-.
    discriminate.
  - destruct bs as [|b bs]; [cbn in Hr; injection Hr as <- <-; discriminate|].
    apply replay_bits_cons in Hr as (c & vs1 & -> & Hr & Hc).
    cbn [gamma_loop]. destruct (getBit out r) as [c' r1]. cbn [fst snd] in *. subst c'.
    cbn [gamma_value] in Hv. destruct (c =? 0).
    + destruct vs1; [| discriminate]. injection Hv as <-.
      destruct bs; cbn in Hr; [injection Hr as <-; reflexivity|].
      destruct (getBit out r1). apply bind_Ok in Hr as ([? ?] & _ & Hr). discriminate.
    + destruct vs1 as [|b1 vs2]; [discriminate|].
      destruct bs as [|b' bs]; [cbn in Hr; discriminate|].
      apply replay_bits_cons in Hr as (b2 & vs3 & Heq & Hr & Hb).
      injection Heq as -> ->.
      destruct (getBit out r1) as [b1 r2]. cbn [fst snd] in *. subst b2.
      apply (IH bs r2 vs3 r' _ v Hr Hv). cbn [length] in Hf. lia.
Qed.

(** The loop that finds the top bit of [i], from [2 ^ m] on. *)
Lemma top_bit_spec v : forall (m : nat) fuel,
  (m < fuel)%nat -> 1 <= v < 2 ^ (Z.of_nat m + 1) ->
  exists k : nat, (k <= m)%nat
    /\ top_bit fuel v (2 ^ Z.of_nat m) = 2 ^ Z.of_nat k
    /\ 2 ^ Z.of_nat k <= v < 2 ^ (Z.of_nat k + 1).
Proof.
  induction m as [|m IH]; intros fuel Hf Hv;
    (destruct fuel as [|fuel]; [lia|]); cbn [top_bit];
    rewrite land_pow2_eqb by lia.
  - change (2 ^ (Z.of_nat 0 + 1)) with 2 in Hv. assert (v = 1) as -> by lia.
    exists 0%nat. cbn. repeat split; lia.
  - pose proof (testbit_div v (Z.of_nat (S m)) ltac:(lia)) as Hb.
    assert (2 ^ (Z.of_nat (S m) + 1) = 2 * 2 ^ Z.of_nat (S m)) as Hp
      by (rewrite Z.pow_add_r by lia; change (2 ^ 1) with 2; lia).
    assert (2 ^ Z.of_nat (S m) = 2 * 2 ^ Z.of_nat m) as Hp'
      by (rewrite Nat2Z.inj_succ, Z.pow_succ_r by lia; lia).
    pose proof (Z.pow_pos_nonneg 2 (Z.of_nat m) ltac:(lia) ltac:(lia)) as Hpos.
    assert (0 <= v / 2 ^ Z.of_nat (S m) < 2) as Hq.
    { split; [apply Z.div_pos; lia | apply Z.div_lt_upper_bound; lia]. }
    destruct (Z.testbit v (Z.of_nat (S m))); cbn [negb].
    + exists (S m). split; [lia|]. split; [reflexivity|].
      assert (v / 2 ^ Z.of_nat (S m) = 1) as Hone by (rewrite Z.mod_small in Hb; lia).
      pose proof (Z.div_mod v (2 ^ Z.of_nat (S m)) ltac:(lia)) as Hd.
      pose proof (Z.mod_pos_bound v (2 ^ Z.of_nat (S m)) ltac:(lia)) as Hm.
      rewrite Hone in Hd. lia.
    + assert (v / 2 ^ Z.of_nat (S m) = 0) as Hzero by (rewrite Z.mod_small in Hb; lia).
      apply Z.div_small_iff in Hzero; [| lia].
      assert (2 ^ Z.of_nat (S m) / 2 = 2 ^ Z.of_nat m) as ->.
      { rewrite Hp'. rewrite Z.mul_comm. apply Z.div_mul. lia. }
      destruct (IH fuel) as (k & Hk & Ht & Hr); [lia | |].
      * replace (2 ^ (Z.of_nat m + 1)) with (2 ^ Z.of_nat (S m))
          by (f_equal; lia). lia.
      * exists k. split; [lia|]. split; assumption.
Qed.

(** The bits written from [2 ^ m] on are the code of the low [m] bits: read
    from [acc], they give [acc * 2 ^ m + v mod 2 ^ m]. *)
Lemma addVar_bits_value v : forall (m : nat) fuel acc,
  (m < fuel)%nat -> 0 <= acc -> (acc + 1) * 2 ^ Z.of_nat m <= 2 ^ 31 ->
  gamma_value (map truth (addVar_bits fuel v (2 ^ Z.of_nat m))) acc
  = Some (acc * 2 ^ Z.of_nat m + v mod 2 ^ Z.of_nat m)
  /\ length (addVar_bits fuel v (2 ^ Z.of_nat m)) = (2 * m + 1)%nat.
Proof.
  induction m as [|m IH]; intros fuel acc Hf Ha Hr;
    (destruct fuel as [|fuel]; [lia|]); cbn [addVar_bits].
  - change (2 ^ Z.of_nat 0) with 1. cbn. rewrite Z.mod_1_r. split; [f_equal; lia | lia].
  - assert (2 ^ Z.of_nat (S m) = 2 * 2 ^ Z.of_nat m) as Hp
      by (rewrite Nat2Z.inj_succ, Z.pow_succ_r by lia; lia).
    pose proof (Z.pow_pos_nonneg 2 (Z.of_nat m) ltac:(lia) ltac:(lia)) as Hpos.
    assert ((2 ^ Z.of_nat (S m) =? 1) = false) as -> by (apply Z.eqb_neq; lia).
    assert (2 ^ Z.of_nat (S m) / 2 = 2 ^ Z.of_nat m) as ->.
    { rewrite Hp. rewrite Z.mul_comm. apply Z.div_mul. lia. }
    rewrite land_pow2_eqb by lia.
    pose proof (testbit_div v (Z.of_nat m) ltac:(lia)) as Hb.
    set (b := if negb (Z.testbit v (Z.of_nat m)) then 0 else 1).
    assert (b = (v / 2 ^ Z.of_nat m) mod 2) as Hbv.
    { subst b. rewrite <- Hb. now destruct (Z.testbit v (Z.of_nat m)). }
    assert (b = 0 \/ b = 1) as Hb01.
    { subst b. destruct (Z.testbit v (Z.of_nat m)); cbn; lia. }
    assert (truth b = b) as Ht by (destruct Hb01 as [->| ->]; reflexivity).
    cbn [map gamma_value length]. change (truth 1) with 1. cbn [Z.eqb]. rewrite Ht.
    rewrite lor_shift_bit by exact Hb01.
    rewrite to_i32_small by nia.
    destruct (IH fuel (2 * acc + b)) as [Hv Hl]; [lia | lia | nia |].
    rewrite Hv, Hl. split; [| lia]. f_equal.
    assert (v mod 2 ^ Z.of_nat (S m) = v mod 2 ^ Z.of_nat m + 2 ^ Z.of_nat m * b) as ->.
    { rewrite Hp, (Z.mul_comm 2 (2 ^ Z.of_nat m)), Z.rem_mul_r by lia.
      now rewrite <- Hbv. }
    rewrite Hp. ring.
Qed.

Lemma gamma_bits_spec v :
  1 <= v < 65536 ->
  gamma_value (map truth (gamma_bits_of v)) 1 = Some v
  /\ exists k : nat, (k <= 15)%nat /\ length (gamma_bits_of v) = (2 * k + 1)%nat
       /\ 2 ^ Z.of_nat k <= v < 2 ^ (Z.of_nat k + 1).
Proof.
  intros Hv. unfold gamma_bits_of.
  change (top_bit 16 v 32768) with (top_bit 16 v (2 ^ Z.of_nat 15)).
  destruct (top_bit_spec v 15 16) as (k & Hk & -> & Hr);
    [lia | change (2 ^ (Z.of_nat 15 + 1)) with 65536; lia |].
  assert (2 ^ Z.of_nat k <= 2 ^ 15) as Hle
    by (apply Z.pow_le_mono_r; lia).
  change (2 ^ 15) with 32768 in Hle.
  destruct (addVar_bits_value v k 17 1) as [Hval Hlen];
    [lia | lia | change (2 ^ 31) with 2147483648; lia |].
  rewrite Hval, Hlen. split; [| exists k; repeat split; try lia].
  f_equal. rewrite Z.pow_add_r in Hr by lia. change (2 ^ 1) with 2 in Hr.
  rewrite <- (Z.mod_unique v (2 ^ Z.of_nat k) 1 (v - 2 ^ Z.of_nat k)); lia.
Qed.

Lemma gamma_check_ok v :
  1 <= v < 65536 ->
  gamma_value (map truth (gamma_bits_of v)) 1 = Some v
  /\ (length (gamma_bits_of v) <= 31)%nat.
Proof.
  intros Hv. destruct (gamma_bits_spec v Hv) as (H & k & Hk & Hl & _).
  split; [exact H | lia].
Qed.

(** The stream only grows. *)
Lemma addBit_length b w :
  wf w -> (length (dest w) <= length (dest (addBit b w)))%nat
          /\ (1 <= length (dest (addBit b w)))%nat.
Proof.
  intros Hw. destruct (pending_cases w Hw) as [H|[H|H]].
  - rewrite addBit_first by exact H. cbn [dest]. rewrite length_app. cbn [length]. lia.
  - rewrite addBit_middle by exact H. cbn [dest].
    pose proof (wf_pos w Hw ltac:(lia)). lia.
  - rewrite addBit_last by exact H. cbn [dest]. rewrite length_insert.
    pose proof (wf_pos w Hw ltac:(lia)). lia.
Qed.

Lemma run_op_length w o : wf w -> (length (dest w) <= length (dest (run_op w o)))%nat.
Proof.
  intros Hw. destruct o as [b|v]; cbn [run_op].
  - apply addBit_length, Hw.
  - unfold addData, writeByte. cbn [dest]. rewrite length_app. lia.
Qed.

Lemma run_w_length ops : forall w,
  wf w -> (length (dest w) <= length (dest (run_w ops w)))%nat.
Proof.
  induction ops as [|o ops IH]; intros w Hw; [cbn; lia|].
  cbn [run_w fold_left]. fold (run_w ops (run_op w o)).
  pose proof (run_op_length w o Hw).
  pose proof (IH (run_op w o) (run_op_wf w o Hw)). lia.
Qed.

Lemma done_length w : length (dest (done w)) = length (dest w).
Proof.
  unfold done. destruct (pendingBits w =? 0)%nat; [reflexivity|].
  unfold addEvent. cbn [dest eventPos]. apply length_insert.
Qed.

Lemma run_w_app a b w : run_w (a ++ b) w = run_w b (run_w a w).
Proof. apply fold_left_app. Qed.

Lemma run_w_bits_nonempty bits w :
  bits <> [] -> wf w -> (1 <= length (dest (run_w (map WBit bits) w)))%nat.
Proof.
  intros Hne Hw. destruct bits as [|b bits]; [congruence|].
  change (run_w (map WBit (b :: bits)) w) with (run_w (map WBit bits) (addBit b w)).
  pose proof (addBit_length b w Hw) as [_ H1].
  pose proof (run_w_length (map WBit bits) _ (addBit_wf b w Hw)). lia.
Qed.

(** A code written anywhere in a stream is read back by the reader that has
    read what precedes it. *)
Lemma gamma_read_back pre post v :
  1 <= v < 65536 ->
  let out := dest (done (run_w post (addVar v (run_w pre w0)))) in
  exists r1 r2,
    replay pre out r0 = Ok (map stored pre, r1)
    /\ getInterlacedEliasGamma out r1 = (v, r2).
Proof.
  intros Hv out. destruct (gamma_check_ok v Hv) as [Hval Hlen].
  set (bits := gamma_bits_of v) in *.
  assert (wf (run_w pre w0)) as Hw1 by apply run_w_wf, w0_wf.
  assert (wf (run_w (map WBit bits) (run_w pre w0))) as Hw2 by apply run_w_wf, Hw1.
  assert (committed out (run_w (map WBit bits) (run_w pre w0))) as Hc2.
  { apply (run_w_back out post); [exact Hw2|]. subst out. rewrite addVar_bits_run.
    apply done_committed, run_w_wf, Hw2. }
  assert (committed out (run_w pre w0)) as Hc1
    by (apply (run_w_back out (map WBit bits)); [exact Hw1 | exact Hc2]).
  destruct (replay_run out pre w0 r0 w0_wf w0_sync Hc1) as (r1 & Hr1 & Hs1).
  destruct (replay_run out (map WBit bits) (run_w pre w0) r1 Hw1 Hs1 Hc2)
    as (r2 & Hr2 & _).
  exists r1, r2. split; [exact Hr1|].
  unfold getInterlacedEliasGamma.
  apply (gamma_loop_value out _ bits r1 (map stored (map WBit bits)) r2 1 v Hr2).
  - rewrite map_map. exact Hval.
  - assert (1 <= length out)%nat; [| lia].
    subst out. rewrite done_length, addVar_bits_run.
    pose proof (run_w_length post _ Hw2).
    assert (bits <> []) as Hne by (destruct bits; [discriminate | congruence]).
    pose proof (run_w_bits_nonempty bits (run_w pre w0) Hne Hw1). fold bits. lia.
Qed.

(** X7: Pletter's length code round trip. Wherever in a stream the encoder
    writes a value from 1 to 65535 with [_addVar] (the interlaced Elias-gamma
    code of a match length), the decoder that has read what precedes it
    reads that value back with [getInterlacedEliasGamma], whatever is written
    after it. *)
Theorem pletter_length_code_round_trip pre post v :
  1 <= v < 65536 ->
  let out := Pletter.dest (Pletter.done (run_w post (Pletter.addVar v (run_w pre w0)))) in
  exists r1 r2,
    replay pre out r0 = Ok (map stored pre, r1)
    /\ Pletter.getInterlacedEliasGamma out r1 = (v, r2).
Proof. apply gamma_read_back. Qed.

Lemma pletter_length_code_round_trip_witness :
  let pre := [WBit 0; WBit 0; WBit 1; WByte 0x41; WBit 1] in
  let post := [WByte 0x07; WBit 1] in
  let out := Pletter.dest (Pletter.done (run_w post (Pletter.addVar 300 (run_w pre w0)))) in
  exists r1 r2,
    replay pre out r0 = Ok (map stored pre, r1)
    /\ Pletter.getInterlacedEliasGamma out r1 = (300, r2).
Proof.
  intros pre post out. apply (pletter_length_code_round_trip pre post 300). lia.
Defined.

(** The rounds of [initVarCost]: after [n] rounds the table holds the
    entries 0 to [2 ^ n - 1], and entry [v] is [2 k + 1] where [2 ^ k] is the
    top bit of [v]. *)
Definition cost_step : list (option nat) * nat * nat -> nat -> list (option nat) * nat * nat :=
  fun '(table, b, r) _ => (table ++ replicate r (Some b), b + 2, r * 2)%nat.

Definition cost_rounds (n : nat) (st : list (option nat) * nat * nat) : Prop :=
  let '(table, b, r) := st in
  r = (2 ^ n)%nat /\ b = (2 * n + 1)%nat /\ length table = (2 ^ n)%nat
  /\ forall k v, (k < n)%nat -> (2 ^ k <= v < 2 ^ S k)%nat ->
       table !! v = Some (Some (2 * k + 1)%nat).

Lemma cost_step_rounds n st : cost_rounds n st -> cost_rounds (S n) (cost_step st 0).
Proof.
  destruct st as [[table b] r]. intros (-> & -> & Hl & Ht). cbn [cost_step cost_rounds].
  rewrite length_app, length_replicate, Hl. cbn [Nat.pow].
  repeat split; [lia | lia | lia |].
  intros k v Hk Hv. destruct (decide (k = n)) as [->|Hne].
  - cbn [Nat.pow] in Hv. rewrite lookup_app_r by lia.
    rewrite lookup_replicate_2 by lia. reflexivity.
  - assert (2 ^ S k <= 2 ^ n)%nat as Hle by (apply Nat.pow_le_mono_r; lia).
    cbn [Nat.pow] in Hle, Hv.
    rewrite lookup_app_l by lia. apply Ht; [lia | cbn [Nat.pow]; exact Hv].
Qed.

Lemma cost_fold_rounds : forall l n st,
  cost_rounds n st -> cost_rounds (n + length l) (fold_left cost_step l st).
Proof.
  induction l as [|x l IH]; intros n st H; cbn [fold_left length].
  - now rewrite Nat.add_0_r.
  - replace (n + S (length l))%nat with (S n + length l)%nat by lia.
    apply IH. destruct st as [[table b] r]. exact (cost_step_rounds n _ H).
Qed.

Lemma initVarCost_entries k v :
  (k < 16)%nat -> (2 ^ k <= v < 2 ^ S k)%nat ->
  initVarCost !! v = Some (Some (2 * k + 1)%nat).
Proof.
  intros Hk Hv. unfold initVarCost.
  fold cost_step.
  pose proof (cost_fold_rounds (seq 0 16) 0 ([None], 1%nat, 1%nat)) as H.
  rewrite length_seq in H.
  destruct (fold_left cost_step (seq 0 16) ([None], 1%nat, 1%nat)) as [[table b] r].
  destruct H as (_ & _ & _ & H).
  - cbn. repeat split; try reflexivity. intros ? ? Hlt. lia.
  - apply H; [exact Hk | exact Hv].
Qed.

Lemma varcost_is_code_length j :
  (2 <= j <= Z.to_nat 65536)%nat ->
  varcost_val constructor j = length (gamma_bits_of (Z.of_nat j - 1)).
Proof.
  intros Hj. unfold varcost_val. change (varcost constructor) with initVarCost.
  destruct (gamma_bits_spec (Z.of_nat j - 1)) as (_ & k & Hk & -> & Hr); [lia|].
  rewrite (initVarCost_entries k (j - 1)); [reflexivity | lia |].
  assert (Z.of_nat (2 ^ k) = 2 ^ Z.of_nat k) as E1 by apply Nat2Z.inj_pow.
  assert (Z.of_nat (2 ^ S k) = 2 ^ (Z.of_nat k + 1)) as E2.
  { rewrite Nat2Z.inj_pow. f_equal. lia. }
  lia.
Qed.

(** X8: Pletter's cost table is the size of its length code. For a match of
    length [j] (2 to 65536) the DP charges [varcost[j - 1]] bits, and
    [_addVar(j - 1)] writes exactly that many bits with [_addBit]. *)
Theorem pletter_varcost_is_emitted_bits j w :
  (2 <= j <= Z.to_nat 65536)%nat ->
  exists bits,
    Pletter.addVar (Z.of_nat j - 1) w = fold_left (fun w b => Pletter.addBit b w) bits w
    /\ length bits = Pletter.varcost_val Pletter.constructor j.
Proof.
  intros Hj. exists (gamma_bits_of (Z.of_nat j - 1)). split.
  - rewrite addVar_bits_run. unfold run_w. generalize (gamma_bits_of (Z.of_nat j - 1)).
    intros bits. revert w. induction bits as [|b bits IH]; intros w; [reflexivity|].
    cbn [map fold_left run_op]. apply IH.
  - symmetry. apply varcost_is_code_length, Hj.
Qed.

Lemma pletter_varcost_is_emitted_bits_witness :
  exists bits,
    Pletter.addVar (Z.of_nat 10 - 1) w0 = fold_left (fun w b => Pletter.addBit b w) bits w0
    /\ length bits = Pletter.varcost_val Pletter.constructor 10.
Proof.
  apply (pletter_varcost_is_emitted_bits 10 w0). lia.
Defined.

End PletterGamma.
(** ** Shared facts on bits, bytes and folds *)

Definition truth (v : Z) : Z := if v =? 0 then 0 else 1.

Lemma truth_01 v : truth v = 0 \/ truth v = 1.
Proof. unfold truth. destruct (v =? 0); auto. Qed.

Lemma all_bytes_insert xs i v : all_bytes xs -> 0 <= v < 256 -> all_bytes (<[i := v]> xs).
Proof. intros Hx Hv. apply Forall_insert; assumption. Qed.

Lemma bit_of_byte v m e b :
  0 <= m -> (b = 0 \/ b = 1) -> Z.shiftr v m = 2 * e + b ->
  (if Z.land v (2 ^ m) =? 0 then 0 else 1) = b.
Proof.
  intros Hm Hb Hs. rewrite land_pow2_eqb by lia.
  pose proof (testbit_div v m Hm) as Ht.
  rewrite <- Z.shiftr_div_pow2, Hs in Ht by lia.
  replace (2 * e + b) with (b + e * 2) in Ht by lia. rewrite Z.mod_add in Ht by lia.
  revert Ht. change (0 mod 2) with 0.
  destruct (Z.testbit v m); cbn [negb]; destruct Hb as [->| ->];
    try change (0 mod 2) with 0; try change (1 mod 2) with 1; lia.
Qed.

Lemma mask_pow c : 0 <= c <= 7 -> Z.shiftr 128 c = 2 ^ (7 - c).
Proof.
  intros Hc.
  assert (c = 0 \/ c = 1 \/ c = 2 \/ c = 3 \/ c = 4 \/ c = 5 \/ c = 6 \/ c = 7) as H by lia.
  repeat destruct H as [->|H]; try subst c; reflexivity.
Qed.

Lemma land_1_div n i : 0 <= i -> Z.land (Z.shiftr n i) 1 = (n / 2 ^ i) mod 2.
Proof.
  intros Hi. change 1 with (Z.ones 1). rewrite Z.land_ones by lia.
  now rewrite Z.shiftr_div_pow2 by lia.
Qed.

Lemma split_low_7 x : 0 <= x -> Z.lor (Z.land x 0x7f) (Z.shiftl (Z.shiftr x 7) 7) = x.
Proof.
  intros _. change 0x7f with (Z.ones 7). rewrite <- Z.ldiff_ones_r by lia.
  rewrite Z.lor_comm. apply Z.lor_ldiff_and.
Qed.

Lemma fold_left_keeps {A B} (P : A -> Prop) (f : A -> B -> A) (l : list B) :
  (forall a x, In x l -> P a -> P (f a x)) -> forall a, P a -> P (fold_left f l a).
Proof.
  induction l as [|x l IH]; intros Hf a Ha; [exact Ha|]. cbn [fold_left].
  apply IH.
  - intros a' x' Hin. apply Hf. now right.
  - apply Hf; [now left | exact Ha].
Qed.

Lemma js_eq_lookup (xs : list Z) i j :
  (i < length xs)%nat -> js_eq (at_ xs i) (at_ xs j) = true -> xs !! i = xs !! j.
Proof.
  unfold at_, js_eq. intros Hi.
  destruct (lookup_lt_is_Some_2 xs i Hi) as [a ->].
  destruct (xs !! j) as [b|]; [| discriminate].
  intros H. apply Z.eqb_eq in H. now subst.
Qed.

Lemma get_insert_eq (xs : list Z) i v : (i < length xs)%nat -> get (<[i := v]> xs) i = v.
Proof. intros Hi. unfold get. now rewrite list_lookup_insert_eq. Qed.

Lemma get_insert_ne (xs : list Z) i j v : i <> j -> get (<[i := v]> xs) j = get xs j.
Proof. intros Hne. unfold get. now rewrite list_lookup_insert_ne. Qed.

Lemma to_u8_all_bytes xs : all_bytes (to_u8 xs).
Proof.
  unfold all_bytes, to_u8. apply Forall_map, Forall_forall. intros v _.
  apply Z.mod_pos_bound. lia.
Qed.


(** ** BitBuster: the round trip *)

Module BitBusterRound.
Import BitBuster.

(** *** The writer and the reader, bit by bit *)

(** The writer's state between two calls: the reserved bit byte lies inside
    [out], [bitData] holds the [bitCount] bits written to it so far. *)
Record wf (w : writer) : Prop := mkWf
  { wf_count : 0 <= bitCount w <= 8;
    wf_pos : (bitPos w < length (out w))%nat;
    wf_data : 0 <= bitData w < 2 ^ bitCount w;
    wf_bytes : all_bytes (out w) }.

(** [final] is what the stream will be: it agrees with [out] everywhere but
    at the reserved bit byte, whose top [bitCount] bits are [bitData]. *)
Definition committed (final : list Z) (w : writer) : Prop :=
  (forall p, (p < length (out w))%nat -> p <> bitPos w -> final !! p = out w !! p)
  /\ exists v, final !! bitPos w = Some v /\ 0 <= v < 256
               /\ Z.shiftr v (8 - bitCount w) = bitData w.

(** The reader after the same calls (at least one bit among them): it has
    loaded the reserved bit byte and used [bitCount] bits of it. *)
Definition sync (final : list Z) (w : writer) (r : reader) : Prop :=
  1 <= bitCount w
  /\ pos r = length (out w)
  /\ final !! bitPos w = Some (bitByte r)
  /\ bitMask r = Z.shiftr 128 (bitCount w).

(** The state [_beginWriter] leaves, before any bit: the reader has not
    loaded the first bit byte yet. *)
Definition fresh (w : writer) (r : reader) : Prop :=
  bitCount w = 0 /\ bitMask r = 0 /\ pos r = bitPos w
  /\ S (bitPos w) = length (out w).

Lemma writeBit_keep v w :
  wf w -> bitCount w < 8 ->
  writeBit v w = mkWriter (out w) (bitPos w) (2 * bitData w + truth v) (bitCount w + 1).
Proof.
  intros [Hc Hp Hd Hb] Hlt. unfold writeBit.
  assert ((bitCount w =? 8) = false) as -> by (apply Z.eqb_neq; lia).
  f_equal. fold (truth v). rewrite lor_shift_bit by apply truth_01.
  change 0xff with (Z.ones 8). rewrite Z.land_ones by lia.
  apply Z.mod_small. pose proof (truth_01 v).
  assert (2 ^ bitCount w <= 2 ^ 7) by (apply Z.pow_le_mono_r; lia).
  change (2 ^ 7) with 128 in *. change (2 ^ 8) with 256. lia.
Qed.

Lemma writeBit_rotate v w :
  wf w -> bitCount w = 8 ->
  writeBit v w
  = mkWriter (<[bitPos w := bitData w]> (out w) ++ [0]) (length (out w)) (truth v) 1.
Proof.
  intros [Hc Hp Hd Hb] H8. unfold writeBit. rewrite H8. cbn [Z.eqb Pos.eqb].
  unfold rotateBitByte. cbn [out bitPos bitData bitCount].
  rewrite length_insert. rewrite H8 in Hd. change (2 ^ 8) with 256 in Hd.
  assert (Z.land (bitData w) 0xff = bitData w) as ->.
  { change 0xff with (Z.ones 8). rewrite Z.land_ones by lia. apply Z.mod_small.
    change (2 ^ 8) with 256. lia. }
  f_equal. fold (truth v). pose proof (truth_01 v) as [->| ->]; reflexivity.
Qed.

Lemma writeBit_wf v w : wf w -> wf (writeBit v w).
Proof.
  intros Hw. pose proof Hw as [Hc Hp Hd Hb]. pose proof (truth_01 v) as Ht.
  destruct (Z.eq_dec (bitCount w) 8) as [H8|H8].
  - rewrite writeBit_rotate by assumption. split; cbn [out bitPos bitData bitCount].
    + lia.
    + rewrite length_app, length_insert. cbn [length]. lia.
    + change (2 ^ 1) with 2. lia.
    + apply all_bytes_app; [| repeat constructor; lia].
      apply all_bytes_insert; [exact Hb|]. rewrite H8 in Hd.
      change (2 ^ 8) with 256 in Hd. lia.
  - rewrite writeBit_keep by (try assumption; lia).
    split; cbn [out bitPos bitData bitCount]; try assumption; [lia|].
    rewrite Z.pow_add_r by lia. change (2 ^ 1) with 2. lia.
Qed.

Lemma writeByte_wf b w : wf w -> wf (writeByte b w).
Proof.
  intros [Hc Hp Hd Hb]. unfold writeByte. split; cbn [out bitPos bitData bitCount];
    try assumption.
  - rewrite length_app. lia.
  - apply all_bytes_app; [exact Hb|]. repeat constructor.
    + apply Z.land_nonneg. lia.
    + change 0xff with (Z.ones 8). rewrite Z.land_ones by lia.
      apply Z.mod_pos_bound. lia.
Qed.

Lemma writeBit_back final v w :
  wf w -> committed final (writeBit v w) -> committed final w.
Proof.
  intros Hw. pose proof Hw as [Hc Hp Hd Hb]. pose proof (truth_01 v) as Ht.
  destruct (Z.eq_dec (bitCount w) 8) as [H8|H8].
  - rewrite writeBit_rotate by assumption. intros [H1 _].
    cbn [out bitPos bitData bitCount] in H1. split.
    + intros p Hlt Hne. rewrite H1.
      * rewrite lookup_app_l by (rewrite length_insert; lia).
        now rewrite list_lookup_insert_ne by congruence.
      * rewrite length_app, length_insert. cbn [length]. lia.
      * lia.
    + exists (bitData w). rewrite H8 in *. change (2 ^ 8) with 256 in Hd.
      split; [| split; [lia | reflexivity]].
      rewrite H1.
      * rewrite lookup_app_l by (rewrite length_insert; lia).
        now rewrite list_lookup_insert_eq.
      * rewrite length_app, length_insert. cbn [length]. lia.
      * lia.
  - rewrite writeBit_keep by (try assumption; lia). intros [H1 (x & Hx & Hxb & Hs)].
    cbn [out bitPos bitData bitCount] in *. split; [exact H1|].
    exists x. split; [exact Hx|]. split; [exact Hxb|].
    replace (8 - bitCount w) with (8 - (bitCount w + 1) + 1) by lia.
    apply (PletterOffset.shiftr_succ _ _ _ (truth v)); [lia | exact Ht | exact Hs].
Qed.

Lemma writeByte_back final b w :
  wf w -> committed final (writeByte b w) -> committed final w.
Proof.
  intros [Hc Hp Hd Hb]. unfold writeByte. intros [H1 H2].
  cbn [out bitPos bitData bitCount] in *. split; [| exact H2].
  intros p Hlt Hne. rewrite H1 by (rewrite ?length_app; cbn [length]; lia).
  now rewrite lookup_app_l.
Qed.

Lemma readBit_loaded final r :
  bitMask r <> 0 ->
  readBit final r
  = Ok (if Z.land (bitByte r) (bitMask r) =? 0 then 0 else 1,
        mkReader (pos r) (Z.shiftr (bitMask r) 1) (bitByte r)).
Proof.
  intros Hm. unfold readBit.
  assert ((bitMask r =? 0) = false) as -> by (apply Z.eqb_neq; exact Hm).
  reflexivity.
Qed.

Lemma readBit_load final r x :
  bitMask r = 0 -> final !! pos r = Some x ->
  readBit final r
  = Ok (if Z.land x 128 =? 0 then 0 else 1, mkReader (S (pos r)) 64 x).
Proof.
  intros Hm Hx. unfold readBit. rewrite Hm. cbn [Z.eqb].
  assert ((length final <=? pos r)%nat = false) as ->.
  { apply Nat.leb_gt. eapply lookup_lt_Some, Hx. }
  unfold get. rewrite Hx. reflexivity.
Qed.

Lemma writeBit_read final v w r :
  wf w -> sync final w r -> committed final (writeBit v w) ->
  exists r', readBit final r = Ok (truth v, r') /\ sync final (writeBit v w) r'.
Proof.
  intros Hw (Hc1 & Hpos & Hbyte & Hmask) Hcom.
  pose proof Hw as [Hc Hp Hd Hb]. pose proof (truth_01 v) as Ht.
  destruct (Z.eq_dec (bitCount w) 8) as [H8|H8].
  - rewrite writeBit_rotate in * by assumption.
    destruct Hcom as [_ (x & Hx & Hxb & Hs)]. cbn [out bitPos bitData bitCount] in *.
    rewrite H8 in Hmask. change (Z.shiftr 128 8) with 0 in Hmask.
    rewrite <- Hpos in Hx. rewrite (readBit_load final r x Hmask Hx).
    change (8 - 1) with 7 in Hs.
    change (Z.land x 128) with (Z.land x (2 ^ 7)).
    rewrite (bit_of_byte x 7 0 (truth v)) by (try lia; rewrite Hs; lia).
    eexists. split; [reflexivity|]. unfold sync. cbn [pos bitMask bitByte out bitPos
      bitCount]. rewrite length_app, length_insert. cbn [length].
    split; [lia|]. split; [lia|]. split; [now rewrite <- Hpos | reflexivity].
  - rewrite writeBit_keep in * by (try assumption; lia).
    destruct Hcom as [_ (x & Hx & Hxb & Hs)]. cbn [out bitPos bitData bitCount] in *.
    assert (x = bitByte r) as -> by congruence.
    rewrite mask_pow in Hmask by lia.
    pose proof (Z.pow_pos_nonneg 2 (7 - bitCount w) ltac:(lia) ltac:(lia)) as Hpw.
    rewrite readBit_loaded by lia. rewrite Hmask.
    replace (8 - (bitCount w + 1)) with (7 - bitCount w) in Hs by lia.
    rewrite (bit_of_byte (bitByte r) (7 - bitCount w) (bitData w) (truth v)
               ltac:(lia) Ht Hs).
    eexists. split; [reflexivity|]. unfold sync. cbn [pos bitMask bitByte out bitPos
      bitCount].
    split; [lia|]. split; [exact Hpos|]. split; [exact Hbyte|].
    rewrite <- mask_pow by lia. rewrite Z.shiftr_shiftr by lia. reflexivity.
Qed.

Lemma writeBit_first final v w r :
  wf w -> fresh w r -> committed final (writeBit v w) ->
  exists r', readBit final r = Ok (truth v, r') /\ sync final (writeBit v w) r'.
Proof.
  intros Hw (Hc0 & Hmask & Hpos & Hlen) Hcom.
  pose proof (truth_01 v) as Ht.
  rewrite writeBit_keep in * by (try assumption; lia).
  destruct Hcom as [_ (x & Hx & Hxb & Hs)]. cbn [out bitPos bitData bitCount] in *.
  rewrite <- Hpos in Hx. rewrite (readBit_load final r x Hmask Hx).
  rewrite Hc0 in Hs. change (8 - (0 + 1)) with 7 in Hs.
  pose proof (wf_data w Hw) as Hd. rewrite Hc0 in Hd. change (2 ^ 0) with 1 in Hd.
  change (Z.land x 128) with (Z.land x (2 ^ 7)).
  rewrite (bit_of_byte x 7 (bitData w) (truth v)) by (try lia; exact Hs).
  eexists. split; [reflexivity|]. unfold sync. cbn [pos bitMask bitByte out bitPos
    bitCount]. rewrite Hc0.
  split; [lia|]. split; [lia|]. split; [now rewrite <- Hpos | reflexivity].
Qed.

Lemma writeByte_read final b w r :
  wf w -> sync final w r -> committed final (writeByte b w) ->
  exists r', readByte final r = Ok (Z.land b 0xff, r') /\ sync final (writeByte b w) r'.
Proof.
  intros Hw (Hc1 & Hpos & Hbyte & Hmask) [H1 _].
  pose proof Hw as [Hc Hp Hd Hb]. unfold writeByte in *.
  cbn [out bitPos bitData bitCount] in *.
  assert (final !! pos r = Some (Z.land b 0xff)) as Hx.
  { rewrite Hpos, H1.
    - now rewrite list_lookup_middle.
    - rewrite length_app. cbn [length]. lia.
    - lia. }
  unfold readByte.
  assert ((length final <=? pos r)%nat = false) as ->.
  { apply Nat.leb_gt. eapply lookup_lt_Some, Hx. }
  unfold get. rewrite Hx. eexists. split; [reflexivity|].
  unfold sync. cbn [pos bitMask bitByte out bitPos bitCount].
  rewrite length_app. cbn [length].
  split; [lia|]. split; [lia|]. split; [exact Hbyte | exact Hmask].
Qed.

(** *** Sequences of writer calls *)

Inductive wop : Type := WBit (v : Z) | WByte (b : Z).

Definition run_op (w : writer) (o : wop) : writer :=
  match o with WBit v => writeBit v w | WByte b => writeByte b w end.

Definition run_w (ops : list wop) (w : writer) : writer := fold_left run_op ops w.

(** What the reader gets for one call. *)
Definition stored (o : wop) : Z :=
  match o with WBit v => truth v | WByte b => Z.land b 0xff end.

(** The reader's calls that mirror [ops]. *)
Fixpoint replay (ops : list wop) (final : list Z) (r : reader)
    : result (list Z * reader) :=
  match ops with
  | [] => Ok ([], r)
  | WBit _ :: ops =>
      '(b, r) ← readBit final r;
      '(vs, r) ← replay ops final r;
      Ok (b :: vs, r)
  | WByte _ :: ops =>
      '(b, r) ← readByte final r;
      '(vs, r) ← replay ops final r;
      Ok (b :: vs, r)
  end.

Lemma bb_run_w_app a b w : run_w (a ++ b) w = run_w b (run_w a w).
Proof. apply fold_left_app. Qed.

Lemma bb_run_op_wf w o : wf w -> wf (run_op w o).
Proof. destruct o; [apply writeBit_wf | apply writeByte_wf]. Qed.

Lemma bb_run_w_wf ops : forall w, wf w -> wf (run_w ops w).
Proof.
  induction ops as [|o ops IH]; intros w Hw; [exact Hw|].
  apply IH, bb_run_op_wf, Hw.
Qed.

Lemma bb_run_w_back final ops : forall w,
  wf w -> committed final (run_w ops w) -> committed final w.
Proof.
  induction ops as [|o ops IH]; intros w Hw Hc; [exact Hc|].
  apply IH in Hc; [| apply bb_run_op_wf, Hw].
  destruct o; [eapply writeBit_back | eapply writeByte_back]; eassumption.
Qed.

Lemma bb_replay_run final ops : forall w r,
  wf w -> sync final w r -> committed final (run_w ops w) ->
  exists r', replay ops final r = Ok (map stored ops, r') /\ sync final (run_w ops w) r'.
Proof.
  induction ops as [|o ops IH]; intros w r Hw Hs Hc.
  - exists r. split; [reflexivity | exact Hs].
  - assert (committed final (run_op w o)) as Hc1
      by (apply (bb_run_w_back final ops); [apply bb_run_op_wf, Hw | exact Hc]).
    destruct o as [v|b]; cbn [replay map stored run_op] in *.
    + destruct (writeBit_read final v w r Hw Hs Hc1) as (r1 & -> & Hs1).
      destruct (IH _ r1 (writeBit_wf v w Hw) Hs1 Hc) as (r2 & Hr2 & Hs2).
      cbn. rewrite Hr2. cbn. exists r2. split; [reflexivity | exact Hs2].
    + destruct (writeByte_read final b w r Hw Hs Hc1) as (r1 & -> & Hs1).
      destruct (IH _ r1 (writeByte_wf b w Hw) Hs1 Hc) as (r2 & Hr2 & Hs2).
      cbn. rewrite Hr2. cbn. exists r2. split; [reflexivity | exact Hs2].
Qed.

(** From the state [_beginWriter] leaves: the first call writes a bit. *)
Lemma replay_begin final v ops w r :
  wf w -> fresh w r -> committed final (run_w (WBit v :: ops) w) ->
  exists r', replay (WBit v :: ops) final r = Ok (map stored (WBit v :: ops), r').
Proof.
  intros Hw Hf Hc.
  assert (committed final (writeBit v w)) as Hc1
    by (apply (bb_run_w_back final ops); [apply writeBit_wf, Hw | exact Hc]).
  destruct (writeBit_first final v w r Hw Hf Hc1) as (r1 & Hr1 & Hs1).
  destruct (bb_replay_run final ops _ r1 (writeBit_wf v w Hw) Hs1 Hc) as (r2 & Hr2 & _).
  exists r2. cbn [replay map stored]. rewrite Hr1. cbn. rewrite Hr2. reflexivity.
Qed.

Lemma replay_app final a : forall b r vs r',
  replay (a ++ b) final r = Ok (vs, r') ->
  length vs = length (a ++ b) ->
  exists r1, replay a final r = Ok (take (length a) vs, r1)
             /\ replay b final r1 = Ok (drop (length a) vs, r').
Proof.
  induction a as [|o a IH]; intros b r vs r' H Hl.
  - exists r. cbn. rewrite drop_0. split; [reflexivity | exact H].
  - destruct o as [v|x]; cbn [app replay] in H.
    + apply bind_Ok in H as ([b0 r0] & H0 & H). apply bind_Ok in H as ([vs0 r1] & H1 & H).
      cbn in H. injection H as <- <-. cbn [length app] in Hl.
      destruct (IH b r0 vs0 r1 H1) as (r2 & Ha & Hb); [lia|].
      exists r2. cbn [replay length take drop]. rewrite H0. cbn. rewrite Ha. cbn.
      split; [reflexivity | exact Hb].
    + apply bind_Ok in H as ([b0 r0] & H0 & H). apply bind_Ok in H as ([vs0 r1] & H1 & H).
      cbn in H. injection H as <- <-. cbn [length app] in Hl.
      destruct (IH b r0 vs0 r1 H1) as (r2 & Ha & Hb); [lia|].
      exists r2. cbn [replay length take drop]. rewrite H0. cbn. rewrite Ha. cbn.
      split; [reflexivity | exact Hb].
Qed.

Lemma replay_stored_app final a b r r' :
  replay (a ++ b) final r = Ok (map stored (a ++ b), r') ->
  exists r1, replay a final r = Ok (map stored a, r1)
             /\ replay b final r1 = Ok (map stored b, r').
Proof.
  intros H. destruct (replay_app final a b r _ r' H) as (r1 & Ha & Hb).
  - now rewrite length_map.
  - exists r1. rewrite map_app in Ha, Hb.
    rewrite take_app_length' in Ha by now rewrite length_map.
    rewrite drop_app_length' in Hb by now rewrite length_map.
    split; assumption.
Qed.

Lemma replay_stored_app' final a b r vs r' :
  replay (a ++ b) final r = Ok (map stored a ++ vs, r') ->
  exists r1, replay a final r = Ok (map stored a, r1) /\ replay b final r1 = Ok (vs, r').
Proof.
  revert r vs r'. induction a as [|o a IH]; intros r vs r' H.
  - exists r. split; [reflexivity | exact H].
  - destruct o as [v|x]; cbn [app replay map] in *.
    + apply bind_Ok in H as ([b0 r0] & H0 & H). apply bind_Ok in H as ([vs0 r1] & H1 & H).
      cbn in H. injection H as -> -> <-.
      destruct (IH r0 vs r1 H1) as (r2 & Ha & Hb).
      exists r2. rewrite H0. cbn. rewrite Ha. cbn. split; [reflexivity | exact Hb].
    + apply bind_Ok in H as ([b0 r0] & H0 & H). apply bind_Ok in H as ([vs0 r1] & H1 & H).
      cbn in H. injection H as -> -> <-.
      destruct (IH r0 vs r1 H1) as (r2 & Ha & Hb).
      exists r2. rewrite H0. cbn. rewrite Ha. cbn. split; [reflexivity | exact Hb].
Qed.

(** *** The calls of the encoder *)

Lemma fold_bits {A} (f : A -> Z) (l : list A) : forall w,
  fold_left (fun w a => writeBit (f a) w) l w = run_w (map (fun a => WBit (f a)) l) w.
Proof.
  induction l as [|a l IH]; intros w; [reflexivity|]. cbn [fold_left map run_w run_op].
  apply IH.
Qed.

Definition gamma_ops (value : Z) : list wop :=
  let n := to_u32 value + 1 in
  let k := gamma_k 33 n 0 in
  map (fun _ => WBit 1) (seq 0 (Z.to_nat k)) ++ [WBit 0]
  ++ map (fun i => WBit (Z.land (Z.shiftr n (Z.of_nat i)) 1)) (rev (seq 0 (Z.to_nat k))).

Lemma writeGamma_ops value w : writeGamma value w = run_w (gamma_ops value) w.
Proof.
  unfold writeGamma, gamma_ops. cbv zeta.
  rewrite !bb_run_w_app, <- !fold_bits. reflexivity.
Qed.

Definition offset_ops (dist : Z) : list wop :=
  let x := to_u32 (dist - 1) in
  if x <=? 127 then [WByte x]
  else
    let hi := Z.land (Z.shiftr x 7) 0x0f in
    [WByte (Z.lor 0x80 (Z.land x 0x7f)); WBit (Z.land hi 0x8); WBit (Z.land hi 0x4);
     WBit (Z.land hi 0x2); WBit (Z.land hi 0x1)].

Lemma writeOffset_ops dist w : writeOffset dist w = run_w (offset_ops dist) w.
Proof.
  unfold writeOffset, offset_ops. cbv zeta. destruct (_ <=? 127); reflexivity.
Qed.

Fixpoint emit_ops (fuel : nat) (input : list Z) (n : nat) (p : plan) (i : nat)
    : list wop :=
  match fuel with
  | O => []
  | S fuel' =>
      if (i <? n)%nat then
        let l := to_i32 (get (bestLen p) i) in
        if 1 <? l then
          WBit 1 :: offset_ops (to_i32 (get (bestOff p) i))
          ++ gamma_ops (to_i32 (l - 2))
          ++ emit_ops fuel' input n p (i + Z.to_nat l)
        else WBit 0 :: WByte (get input i) :: emit_ops fuel' input n p (S i)
      else []
  end.

Lemma emit_loop_ops input n p : forall fuel i w,
  emit_loop fuel input n p i w = run_w (emit_ops fuel input n p i) w.
Proof.
  induction fuel as [|fuel IH]; intros i w; cbn [emit_loop emit_ops]; [reflexivity|].
  destruct (i <? n)%nat; [| reflexivity]. cbv zeta. destruct (1 <? _).
  - rewrite IH, writeGamma_ops, writeOffset_ops.
    change (run_w (WBit 1 :: ?l) w) with (run_w l (writeBit 1 w)).
    now rewrite !bb_run_w_app.
  - rewrite IH. reflexivity.
Qed.

Definition end_ops : list wop :=
  [WBit 1; WByte 0] ++ map (fun _ => WBit 1) (seq 0 16) ++ [WBit 0].

Definition backfill (w : writer) : writer :=
  if 0 <? bitCount w then
    mkWriter (<[bitPos w := Z.land (Z.shiftl (bitData w) (8 - bitCount w)) 0xff]> (out w))
      (bitPos w) (bitData w) (bitCount w)
  else w.

Lemma endStream_ops w : endStream w = backfill (run_w end_ops w).
Proof.
  unfold endStream, end_ops, backfill. cbv zeta.
  rewrite !bb_run_w_app, <- (fold_bits (fun _ : nat => 1)). reflexivity.
Qed.

(** *** What the reader makes of a length *)

Lemma gamma_k_spec : forall fuel t k,
  1 <= t < 2 ^ Z.of_nat fuel -> gamma_k fuel t k = k + Z.log2 t.
Proof.
  induction fuel as [|fuel IH]; intros t k Ht.
  - change (2 ^ Z.of_nat 0) with 1 in Ht. lia.
  - cbn [gamma_k]. destruct (1 <? t) eqn:E.
    + apply Z.ltb_lt in E.
      assert (2 ^ Z.of_nat (S fuel) = 2 * 2 ^ Z.of_nat fuel) as Hp
        by (rewrite Nat2Z.inj_succ, Z.pow_succ_r by lia; lia).
      rewrite IH.
      * rewrite Z.log2_shiftr by lia.
        assert (1 <= Z.log2 t) by (apply Z.log2_le_pow2; [lia | change (2 ^ 1) with 2; lia]).
        lia.
      * rewrite Z.shiftr_div_pow2 by lia. change (2 ^ 1) with 2. split.
        -- apply Z.div_le_lower_bound; lia.
        -- apply Z.div_lt_upper_bound; lia.
    + apply Z.ltb_ge in E. assert (t = 1) as -> by lia. cbn. lia.
Qed.

Lemma replay_bit final v ops r b vs r' :
  replay (WBit v :: ops) final r = Ok (b :: vs, r') ->
  exists r1, readBit final r = Ok (b, r1) /\ replay ops final r1 = Ok (vs, r').
Proof.
  cbn [replay]. intros H. apply bind_Ok in H as ([b0 r1] & Hb & H).
  apply bind_Ok in H as ([vs1 r2] & Hv & H). cbn in H. injection H as <- <- <-.
  exists r1. split; assumption.
Qed.

Lemma replay_byte final b ops r x vs r' :
  replay (WByte b :: ops) final r = Ok (x :: vs, r') ->
  exists r1, readByte final r = Ok (x, r1) /\ replay ops final r1 = Ok (vs, r').
Proof.
  cbn [replay]. intros H. apply bind_Ok in H as ([b1 r1] & Hb & H).
  apply bind_Ok in H as ([vs1 r2] & Hv & H). cbn in H. injection H as <- <- <-.
  exists r1. split; assumption.
Qed.

Lemma gamma_ones_read final rest : forall K s fuel k r vs r',
  replay (map (fun _ : nat => WBit 1) (seq s K) ++ WBit 0 :: rest) final r
  = Ok (map stored (map (fun _ : nat => WBit 1) (seq s K)) ++ truth 0 :: vs, r') ->
  k + Z.of_nat K < 16 -> (K < fuel)%nat ->
  exists r1, gamma_ones fuel final k r = Ok (k + Z.of_nat K, r1, false)
             /\ replay rest final r1 = Ok (vs, r').
Proof.
  induction K as [|K IH]; intros s fuel k r vs r' H Hk Hf;
    (destruct fuel as [|fuel]; [lia|]); cbn [seq map app gamma_ones] in *.
  - apply replay_bit in H as (r1 & -> & H). cbn.
    exists r1. split; [do 2 f_equal; f_equal; lia | exact H].
  - change (stored (WBit 1)) with (truth 1) in H.
    apply replay_bit in H as (r1 & -> & H). cbn.
    assert ((k + 1 =? 16) = false) as -> by (apply Z.eqb_neq; lia).
    destruct (IH (S s) fuel (k + 1) r1 vs r' H) as (r2 & -> & H2); [lia | lia |].
    exists r2. split; [do 2 f_equal; f_equal; lia | exact H2].
Qed.

Lemma gamma_bits_read final n : forall K acc r r',
  replay (map (fun i => WBit (Z.land (Z.shiftr n (Z.of_nat i)) 1)) (rev (seq 0 K)))
    final r
  = Ok (map stored (map (fun i => WBit (Z.land (Z.shiftr n (Z.of_nat i)) 1))
                      (rev (seq 0 K))), r') ->
  gamma_bits K final acc r = Ok (acc * 2 ^ Z.of_nat K + n mod 2 ^ Z.of_nat K, r').
Proof.
  induction K as [|K IH]; intros acc r r' H.
  - cbn in H. injection H as <-. cbn. rewrite Z.mod_1_r. do 2 f_equal. lia.
  - rewrite seq_S, rev_app_distr in H. cbn [rev app map Nat.add] in H.
    pose proof (land_1_div n (Z.of_nat K) ltac:(lia)) as Hb.
    pose proof (Z.mod_pos_bound (n / 2 ^ Z.of_nat K) 2 ltac:(lia)) as Hb2.
    set (b := Z.land (Z.shiftr n (Z.of_nat K)) 1) in *.
    assert (b = 0 \/ b = 1) as Hb01 by lia.
    assert (truth b = b) as Ht by (destruct Hb01 as [->| ->]; reflexivity).
    cbn [stored] in H. rewrite Ht in H. rewrite <- Ht in H at 1.
    change (truth b :: ?l) with (truth b :: l) in H.
    cbn [replay] in H. apply bind_Ok in H as ([b1 r1] & Hr & H).
    apply bind_Ok in H as ([vs1 r2] & Hv & H). cbn in H. injection H as Hb1 Hvs <-.
    cbn [gamma_bits]. rewrite Hr. cbn. subst vs1.
    rewrite (IH _ r1 r2 Hv). do 2 f_equal.
    rewrite Hb1, lor_shift_bit by exact Hb01.
    assert (2 ^ Z.of_nat (S K) = 2 ^ Z.of_nat K * 2) as Hp
      by (rewrite Nat2Z.inj_succ, Z.pow_succ_r by lia; lia).
    rewrite Hp, Z.rem_mul_r by lia. rewrite <- Hb. ring.
Qed.

(** The code of a length is read back, with fewer than 16 leading ones. *)
Lemma read_gamma final value rest r vs r' :
  0 <= value < 65535 ->
  replay (gamma_ops value ++ rest) final r
  = Ok (map stored (gamma_ops value) ++ vs, r') ->
  exists k r1, readGammaEx final r = Ok (value, k, r1) /\ k < 16
               /\ replay rest final r1 = Ok (vs, r').
Proof.
  intros Hv H. unfold gamma_ops in *. cbv zeta in H.
  unfold to_u32 in *. rewrite Z.mod_small in * by (change (2 ^ 32) with 4294967296; lia).
  rewrite (gamma_k_spec 33 (value + 1) 0) in H
    by (change (2 ^ Z.of_nat 33) with 8589934592; lia).
  rewrite Z.add_0_l in H.
  assert (0 <= Z.log2 (value + 1) < 16) as HK.
  { split; [apply Z.log2_nonneg|]. apply Z.log2_lt_pow2; [lia|].
    change (2 ^ 16) with 65536. lia. }
  pose proof (Z.log2_spec (value + 1) ltac:(lia)) as Hspec.
  set (K := Z.to_nat (Z.log2 (value + 1))) in *.
  replace (Z.log2 (value + 1)) with (Z.of_nat K) in * by lia.
  set (ones := map (fun _ : nat => WBit 1) (seq 0 K)) in *.
  set (bits := map (fun i => WBit (Z.land (Z.shiftr (value + 1) (Z.of_nat i)) 1))
                 (rev (seq 0 K))) in *.
  assert ((ones ++ [WBit 0] ++ bits) ++ rest = ones ++ WBit 0 :: (bits ++ rest)) as E1
    by (rewrite <- app_assoc; reflexivity).
  assert (map stored (ones ++ [WBit 0] ++ bits) ++ vs
          = map stored ones ++ truth 0 :: (map stored bits ++ vs)) as E2
    by (rewrite !map_app, <- !app_assoc; reflexivity).
  rewrite E1, E2 in H.
  destruct (gamma_ones_read final _ K 0 16 0 r _ r' H) as (r1 & Hones & H1);
    [lia | lia |].
  apply replay_stored_app' in H1 as (r2 & Hbits & Hrest).
  unfold readGammaEx. rewrite Hones. cbn.
  replace (Z.to_nat (0 + Z.of_nat K)) with K by lia.
  rewrite (gamma_bits_read final (value + 1) K 1 r1 r2 Hbits). cbn.
  exists (0 + Z.of_nat K), r2. split; [| split; [lia | exact Hrest]].
  do 3 f_equal. rewrite Z.pow_succ_r in Hspec by lia.
  rewrite <- (Z.mod_unique (value + 1) (2 ^ Z.of_nat K) 1 (value + 1 - 2 ^ Z.of_nat K));
    lia.
Qed.

(** *** What the reader makes of a distance *)

Lemma offset_short_byte x :
  0 <= x < 128 -> Z.land x 0xff = x /\ Z.land x 0x80 = 0 /\ Z.land x 0x7f = x.
Proof.
  revert x. apply (small_cases (fun x => Z.land x 0xff = x /\ Z.land x 0x80 = 0
                                         /\ Z.land x 0x7f = x) 128).
  vm_compute. repeat constructor.
Qed.

Lemma offset_long_byte lo :
  0 <= lo < 128 ->
  Z.land (Z.lor 0x80 lo) 0xff <> 0
  /\ Z.land (Z.land (Z.lor 0x80 lo) 0xff) 0x80 <> 0
  /\ Z.land (Z.land (Z.lor 0x80 lo) 0xff) 0x7f = lo.
Proof.
  revert lo. apply (small_cases (fun lo => Z.land (Z.lor 0x80 lo) 0xff <> 0
    /\ Z.land (Z.land (Z.lor 0x80 lo) 0xff) 0x80 <> 0
    /\ Z.land (Z.land (Z.lor 0x80 lo) 0xff) 0x7f = lo) 128).
  repeat constructor; vm_compute; discriminate.
Qed.

Lemma offset_hi_bits hi :
  0 <= hi < 16 ->
  8 * truth (Z.land hi 0x8) + 4 * truth (Z.land hi 0x4) + 2 * truth (Z.land hi 0x2)
  + truth (Z.land hi 0x1) = hi.
Proof.
  revert hi. apply (small_cases (fun hi => 8 * truth (Z.land hi 0x8)
    + 4 * truth (Z.land hi 0x4) + 2 * truth (Z.land hi 0x2) + truth (Z.land hi 0x1) = hi) 16).
  vm_compute. repeat constructor.
Qed.

(** The distance is read back: either from the first byte alone, whose top
    bit is clear, or from the first byte and four more bits. *)
Lemma read_offset final dist rest r vs r' :
  1 <= dist <= 2048 ->
  replay (offset_ops dist ++ rest) final r
  = Ok (map stored (offset_ops dist) ++ vs, r') ->
  exists b0 r0, readByte final r = Ok (b0, r0)
    /\ ((Z.land b0 0x80 = 0 /\ Z.land b0 0x7f + 1 = dist
         /\ replay rest final r0 = Ok (vs, r'))
        \/ (b0 <> 0 /\ Z.land b0 0x80 <> 0
            /\ exists hi r1, readHi final r0 = Ok (hi, r1)
                 /\ Z.lor (Z.land b0 0x7f) (Z.shiftl hi 7) + 1 = dist
                 /\ replay rest final r1 = Ok (vs, r'))).
Proof.
  intros Hd H. unfold offset_ops in H. cbv zeta in H.
  unfold to_u32 in H. rewrite Z.mod_small in H by (change (2 ^ 32) with 4294967296; lia).
  set (x := dist - 1) in *.
  destruct (x <=? 127) eqn:E.
  - apply Z.leb_le in E. cbn [app map stored] in H.
    apply replay_byte in H as (r0 & Hb & H).
    destruct (offset_short_byte x) as (E1 & E2 & E3); [lia|].
    exists (Z.land x 0xff), r0. split; [exact Hb|]. left. rewrite E1.
    split; [exact E2|]. split; [lia | exact H].
  - apply Z.leb_gt in E. cbn [app map stored] in H.
    assert (Z.land x 0x7f = x mod 128) as Elo
      by (change 0x7f with (Z.ones 7); now rewrite Z.land_ones by lia).
    pose proof (Z.mod_pos_bound x 128 ltac:(lia)) as Hlo.
    assert (Z.shiftr x 7 = x / 128) as Ehi by (now rewrite Z.shiftr_div_pow2 by lia).
    assert (0 <= x / 128 < 16) as Hhi.
    { split; [apply Z.div_pos; lia | apply Z.div_lt_upper_bound; lia]. }
    assert (Z.land (Z.shiftr x 7) 0x0f = x / 128) as Ehi2.
    { rewrite Ehi. change 0x0f with (Z.ones 4). rewrite Z.land_ones by lia.
      apply Z.mod_small. exact Hhi. }
    rewrite Ehi2 in H.
    apply replay_byte in H as (r0 & Hb & H).
    apply replay_bit in H as (r1 & H1 & H). apply replay_bit in H as (r2 & H2 & H).
    apply replay_bit in H as (r3 & H3 & H). apply replay_bit in H as (r4 & H4 & H).
    destruct (offset_long_byte (Z.land x 0x7f)) as (F1 & F2 & F3); [lia|].
    eexists _, r0. split; [exact Hb|]. right.
    split; [exact F1|]. split; [exact F2|].
    exists (x / 128), r4. split; [| split; [| exact H]].
    + unfold readHi. cbn [gamma_bits]. rewrite H1. cbn. rewrite H2. cbn.
      rewrite H3. cbn. rewrite H4. cbn. do 2 f_equal.
      rewrite !lor_shift_bit by apply truth_01.
      pose proof (offset_hi_bits (x / 128) Hhi). lia.
    + rewrite F3, <- Ehi, split_low_7 by lia. lia.
Qed.

(** *** The plan holds real matches only *)

Section Plan.

Variable c : codec.
Hypothesis max_offset : MAX_OFFSET c = 2047.
Variable input : list Z.

(** What [bestLen[i]] and [bestOff[i]] may hold: no match, or a match of 2
    to 65535 bytes that lies inside the input, at a distance of 1 to 2047
    that does not reach before the start, all of whose bytes are equal to
    the ones they stand for. *)
Definition entry_ok (i : nat) (L O : Z) : Prop :=
  L = 0
  \/ (2 <= L <= 65535 /\ 1 <= O <= 2047 /\ O <= Z.of_nat i
      /\ (i + Z.to_nat L <= length input)%nat
      /\ forall k, (k < Z.to_nat L)%nat ->
           input !! (i + k)%nat = input !! (i - Z.to_nat O + k)%nat).

Definition plan_ok (p : plan) : Prop :=
  length (bestLen p) = length input /\ length (bestOff p) = length input
  /\ forall j, (j < length input)%nat -> entry_ok j (get (bestLen p) j) (get (bestOff p) j).

Lemma plan_match_spec i off : forall fuel l,
  (i + l <= length input)%nat -> Z.of_nat l < 65535 ->
  (forall k, (k < l)%nat -> input !! (i + k)%nat = input !! (i - off + k)%nat) ->
  (i + plan_match fuel input (length input) i off l <= length input)%nat
  /\ Z.of_nat (plan_match fuel input (length input) i off l) <= 65535
  /\ forall k, (k < plan_match fuel input (length input) i off l)%nat ->
       input !! (i + k)%nat = input !! (i - off + k)%nat.
Proof.
  induction fuel as [|fuel IH]; intros l Hin Hl Heq; cbn [plan_match].
  - split; [exact Hin|]. split; [lia | exact Heq].
  - destruct (_ && _)%bool eqn:E.
    + apply andb_true_iff in E as [E1 E2]. apply Nat.ltb_lt in E1.
      apply js_eq_lookup in E2; [| exact E1].
      assert (forall k, (k < S l)%nat ->
                input !! (i + k)%nat = input !! (i - off + k)%nat) as Heq'.
      { intros k Hk. destruct (Nat.eq_dec k l) as [->|Hne]; [exact E2|].
        apply Heq. lia. }
      destruct (_ <=? S l)%nat eqn:E3.
      * split; [lia|]. split; [lia | exact Heq'].
      * apply Nat.leb_gt in E3. apply IH; [lia | lia | exact Heq'].
    + split; [exact Hin|]. split; [lia | exact Heq].
Qed.

Lemma plan_step_ok p i :
  (i < length input)%nat -> plan_ok p -> plan_ok (plan_step c input (length input) p i).
Proof.
  intros Hi (Hl1 & Hl2 & Hp). unfold plan_step. cbv zeta.
  match goal with |- context [fold_left ?f ?l ?a] =>
    assert (entry_ok i (snd (fst (fold_left f l a))) (snd (fold_left f l a))) as Hfold
  end.
  { apply (fold_left_keeps (fun s : Z * Z * Z => entry_ok i (snd (fst s)) (snd s)));
      [| now left].
    intros [[best bl] bo] off Hin Hs. cbn [fst snd] in Hs.
    apply in_seq in Hin. rewrite max_offset in Hin.
    destruct (plan_match_spec i off (length input) 0) as (H1 & H2 & H3);
      [lia | lia | intros k Hk; lia |].
    destruct (1 <? _)%nat eqn:E1; [| exact Hs]. apply Nat.ltb_lt in E1.
    destruct (_ <? best); [| exact Hs]. cbn [fst snd]. right.
    rewrite !Nat2Z.id. split; [lia|]. split; [lia|]. split; [lia|].
    split; [exact H1 | exact H3]. }
  destruct (fold_left _ _ _) as [[best bl] bo]. cbn [fst snd] in Hfold.
  split; [| split]; cbn [bestLen bestOff].
  - now rewrite length_insert.
  - now rewrite length_insert.
  - intros j Hj. destruct (Nat.eq_dec i j) as [<-|Hne].
    + rewrite !get_insert_eq by lia.
      destruct Hfold as [->|(Hbl & Hbo & Hrest)]; [now left|].
      unfold to_u32. change (2 ^ 32) with 4294967296.
      rewrite !Z.mod_small by lia. right. split; [exact Hbl|]. split; [exact Hbo|].
      exact Hrest.
    + rewrite !get_insert_ne by exact Hne. apply Hp, Hj.
Qed.

Lemma optimalPlan_ok : plan_ok (optimalPlan c input).
Proof.
  unfold optimalPlan. cbv zeta.
  apply (fold_left_keeps plan_ok).
  - intros p i Hin. apply plan_step_ok. apply in_rev, in_seq in Hin. lia.
  - split; [| split]; cbn [bestLen bestOff]; try apply length_replicate.
    intros j Hj. left. unfold get. now rewrite lookup_replicate_2.
Qed.

End Plan.
(** *** The decoder on the calls of the encoder *)

(** Every call makes the stream longer by at least one bit. *)
Definition budget (w : writer) : Z := 8 * Z.of_nat (length (out w)) + bitCount w.

Lemma run_op_budget w o : wf w -> budget w + 1 <= budget (run_op w o).
Proof.
  intros Hw. pose proof Hw as [Hc Hp Hd Hb]. destruct o as [v|b]; cbn [run_op].
  - destruct (Z.eq_dec (bitCount w) 8) as [H8|H8].
    + rewrite writeBit_rotate by assumption. unfold budget. cbn [out bitCount].
      rewrite length_app, length_insert. cbn [length]. lia.
    + rewrite writeBit_keep by (try assumption; lia). unfold budget. cbn [out bitCount].
      lia.
  - unfold writeByte, budget. cbn [out bitCount]. rewrite length_app. cbn [length]. lia.
Qed.

Lemma run_w_budget ops : forall w,
  wf w -> budget w + Z.of_nat (length ops) <= budget (run_w ops w).
Proof.
  induction ops as [|o ops IH]; intros w Hw; cbn [length run_w fold_left]; [lia|].
  pose proof (run_op_budget w o Hw). pose proof (IH _ (bb_run_op_wf w o Hw)) as H2.
  unfold run_w in H2. lia.
Qed.

Lemma backfill_out_length w : length (out (backfill w)) = length (out w).
Proof. unfold backfill. destruct (0 <? _); [apply length_insert | reflexivity]. Qed.

Lemma backfill_bytes w : wf w -> all_bytes (out (backfill w)).
Proof.
  intros [Hc Hp Hd Hb]. unfold backfill. destruct (0 <? _); [| exact Hb].
  cbn [out]. apply all_bytes_insert; [exact Hb|].
  change 0xff with (Z.ones 8). rewrite Z.land_ones by lia.
  apply Z.mod_pos_bound. lia.
Qed.

(** The final backfill makes the stream the one the reader has been promised. *)
Lemma backfill_committed w : wf w -> 1 <= bitCount w -> committed (out (backfill w)) w.
Proof.
  intros [Hc Hp Hd Hb] H1. unfold backfill.
  assert ((0 <? bitCount w) = true) as -> by (apply Z.ltb_lt; lia). cbn [out].
  split.
  - intros q Hq Hne. now rewrite list_lookup_insert_ne by congruence.
  - assert (0 <= bitData w * 2 ^ (8 - bitCount w) < 256) as Hs.
    { split; [apply Z.mul_nonneg_nonneg; [lia | apply Z.pow_nonneg; lia]|].
      replace 256 with (2 ^ bitCount w * 2 ^ (8 - bitCount w))
        by (rewrite <- Z.pow_add_r by lia; replace (bitCount w + (8 - bitCount w)) with 8
              by lia; reflexivity).
      apply Z.mul_lt_mono_pos_r; [apply Z.pow_pos_nonneg; lia | lia]. }
    assert (Z.land (Z.shiftl (bitData w) (8 - bitCount w)) 0xff
            = bitData w * 2 ^ (8 - bitCount w)) as E.
    { rewrite Z.shiftl_mul_pow2 by lia. change 0xff with (Z.ones 8).
      rewrite Z.land_ones by lia. apply Z.mod_small. exact Hs. }
    exists (bitData w * 2 ^ (8 - bitCount w)). rewrite E.
    split; [now rewrite list_lookup_insert_eq|]. split; [exact Hs|].
    rewrite Z.shiftr_div_pow2 by lia. apply Z.div_mul.
    pose proof (Z.pow_pos_nonneg 2 (8 - bitCount w)). lia.
Qed.

Lemma writeBit_count v w : wf w -> 1 <= bitCount (writeBit v w).
Proof.
  intros Hw. pose proof Hw as [Hc Hp Hd Hb].
  destruct (Z.eq_dec (bitCount w) 8) as [H8|H8].
  - rewrite writeBit_rotate by assumption. cbn [bitCount]. lia.
  - rewrite writeBit_keep by (try assumption; lia). cbn [bitCount]. lia.
Qed.

Lemma beginWriter_wf n : wf (beginWriter n).
Proof.
  unfold beginWriter. cbv zeta. split; cbn [out bitPos bitData bitCount].
  - lia.
  - rewrite length_app. cbn [length]. lia.
  - change (2 ^ 0) with 1. lia.
  - apply all_bytes_app; [| repeat constructor; lia].
    unfold setUint32_le. repeat constructor; apply Z.mod_pos_bound; lia.
Qed.

Lemma beginWriter_fresh n : fresh (beginWriter n) (mkReader 4 0 0).
Proof. unfold fresh, beginWriter. cbn. repeat split. Qed.

Section Decode.

Variable input : list Z.
Hypothesis input_bytes : all_bytes input.
Variable p : plan.
Hypothesis p_ok : plan_ok input p.

(** The output array while the decoder is at position [i]. *)
Definition partial (i : nat) : list Z := take i input ++ replicate (length input - i) 0.

Lemma partial_length i : (i <= length input)%nat -> length (partial i) = length input.
Proof.
  intros Hi. unfold partial. rewrite length_app, length_take, length_replicate. lia.
Qed.

Lemma partial_lookup i j :
  (j < i)%nat -> (i <= length input)%nat -> partial i !! j = input !! j.
Proof.
  intros Hj Hi. unfold partial. rewrite lookup_app_l by (rewrite length_take; lia).
  now rewrite lookup_take_lt.
Qed.

Lemma partial_insert i v :
  input !! i = Some v -> <[i := v]> (partial i) = partial (S i).
Proof.
  intros Hv. pose proof (lookup_lt_Some _ _ _ Hv) as Hi. unfold partial.
  rewrite insert_app_r_alt by (rewrite length_take; lia).
  rewrite length_take. replace (i - i `min` length input)%nat with 0%nat by lia.
  destruct (length input - i)%nat as [|d] eqn:E; [lia|].
  cbn [replicate]. rewrite (take_S_r _ _ v) by exact Hv. rewrite <- app_assoc.
  cbn [insert list_insert app]. replace (length input - S i)%nat with d by lia.
  reflexivity.
Qed.

Lemma partial_all : partial (length input) = input.
Proof.
  unfold partial. rewrite Nat.sub_diag, firstn_all. cbn [replicate]. apply app_nil_r.
Qed.

(** The copy loop of a match, on a match the plan holds. *)
Lemma copy_partial i ref : forall len,
  (ref < i)%nat -> (i + len <= length input)%nat ->
  (forall k, (k < len)%nat -> input !! (i + k)%nat = input !! (ref + k)%nat) ->
  copy (partial i) i ref len = partial (i + len).
Proof.
  induction len as [|len IH]; intros Href Hin Heq.
  - cbn. now rewrite Nat.add_0_r.
  - unfold copy in *. rewrite seq_S, fold_left_app. cbn [fold_left Nat.add].
    rewrite IH; [| exact Href | lia | intros k Hk; apply Heq; lia].
    destruct (lookup_lt_is_Some_2 input (i + len)) as [v Hv]; [lia|].
    unfold get. rewrite partial_lookup by lia.
    rewrite <- (Heq len) by lia. rewrite Hv. cbn [default].
    rewrite partial_insert by exact Hv. f_equal. lia.
Qed.

Ltac step := cbn [mbind result_bind rbind Z.eqb Pos.eqb].

Lemma do_match_partial i L O :
  2 <= L <= 65535 -> 1 <= O -> O <= Z.of_nat i ->
  (i + Z.to_nat L <= length input)%nat ->
  (forall k, (k < Z.to_nat L)%nat ->
     input !! (i + k)%nat = input !! (i - Z.to_nat O + k)%nat) ->
  do_match (partial i) i O (to_i32 (L - 2 + 2))
  = Ok (partial (i + Z.to_nat L), (i + Z.to_nat L)%nat).
Proof.
  intros HL HO HOi Hin Heq. unfold do_match. cbv zeta.
  replace (L - 2 + 2) with L by lia.
  rewrite to_i32_small by (change (2 ^ 31) with 2147483648; lia).
  assert ((Z.of_nat i - O <? 0) = false) as -> by (apply Z.ltb_ge; lia).
  replace (Z.to_nat (Z.of_nat i - O)) with (i - Z.to_nat O)%nat by lia.
  rewrite copy_partial; [reflexivity | lia | exact Hin | exact Heq].
Qed.

Lemma decode_emit final rest : forall fuelE i fuelD r vs r',
  (i <= length input)%nat -> (length input - i <= fuelE)%nat ->
  (length (emit_ops fuelE input (length input) p i) < fuelD)%nat ->
  replay (emit_ops fuelE input (length input) p i ++ rest) final r
  = Ok (map stored (emit_ops fuelE input (length input) p i) ++ vs, r') ->
  decode_loop fuelD final (length input) (partial i) i r = Ok input.
Proof.
  induction fuelE as [|fuelE IH]; intros i fuelD r vs r' Hi Hf Hd H.
  - destruct fuelD as [|fuelD]; [cbn in Hd; lia|]. cbn [decode_loop].
    assert ((i <? length input)%nat = false) as -> by (apply Nat.ltb_ge; lia).
    replace i with (length input) by lia. now rewrite partial_all.
  - destruct fuelD as [|fuelD]; [lia|]. cbn [decode_loop emit_ops] in *.
    destruct (i <? length input)%nat eqn:Ei.
    2:{ apply Nat.ltb_ge in Ei. replace i with (length input) by lia.
        now rewrite partial_all. }
    apply Nat.ltb_lt in Ei. cbv zeta in *.
    destruct p_ok as (Hl1 & Hl2 & Hentry). specialize (Hentry i Ei).
    set (L := get (bestLen p) i) in *. set (O := get (bestOff p) i) in *.
    assert (to_i32 L = L) as EL.
    { apply to_i32_small. change (2 ^ 31) with 2147483648.
      destruct Hentry as [->|(HL & _)]; lia. }
    rewrite EL in *.
    destruct (1 <? L) eqn:E1.
    + apply Z.ltb_lt in E1.
      destruct Hentry as [->|(HL & HO & HOi & Hin & Heq)]; [lia|].
      assert (to_i32 O = O) as EO
        by (apply to_i32_small; change (2 ^ 31) with 2147483648; lia).
      assert (to_i32 (L - 2) = L - 2) as EV
        by (apply to_i32_small; change (2 ^ 31) with 2147483648; lia).
      rewrite EO, EV in *.
      cbn [app map] in H. rewrite !map_app, <- !app_assoc in H.
      cbn [length] in Hd. rewrite !length_app in Hd.
      apply replay_bit in H as (r1 & Hb & H).
      apply read_offset in H as (b0 & r2 & Hb0 & Hcase); [| lia].
      change (stored (WBit 1)) with 1 in Hb. rewrite Hb. step. rewrite Hb0. step.
      destruct Hcase as [(Hhigh & Hdist & H)|(Hnz & Hhigh & hi & r3 & Hhi & Hdist & H)].
      * apply read_gamma in H as (k & r3 & Hg & Hk & H); [| lia].
        destruct (b0 =? 0) eqn:Eb.
        -- apply Z.eqb_eq in Eb. subst b0. change (Z.land 0 127) with 0 in Hdist.
           rewrite Hg. step.
           assert ((k =? 16) = false) as -> by (apply Z.eqb_neq; lia).
           replace 1 with O at 1 by lia.
           rewrite do_match_partial by (try assumption; lia). step.
           eapply IH; [lia | lia | lia | exact H].
        -- assert ((Z.land b0 128 =? 0) = true) as -> by (apply Z.eqb_eq; exact Hhigh).
           rewrite Hg. step. rewrite Hdist.
           rewrite do_match_partial by (try assumption; lia). step.
           eapply IH; [lia | lia | lia | exact H].
      * apply read_gamma in H as (k & r4 & Hg & Hk & H); [| lia].
        assert ((b0 =? 0) = false) as -> by (apply Z.eqb_neq; exact Hnz).
        assert ((Z.land b0 128 =? 0) = false) as -> by (apply Z.eqb_neq; exact Hhigh).
        rewrite Hhi. step. rewrite Hg. step. rewrite Hdist.
        rewrite do_match_partial by (try assumption; lia). step.
        eapply IH; [lia | lia | lia | exact H].
    + clear Hentry. cbn [app map length] in H, Hd.
      apply replay_bit in H as (r1 & Hb & H). apply replay_byte in H as (r2 & Hy & H).
      change (stored (WBit 0)) with 0 in Hb. rewrite Hb. step. rewrite Hy. step.
      destruct (lookup_lt_is_Some_2 input i Ei) as [v Hv].
      assert (stored (WByte (get input i)) = v) as ->.
      { unfold get. rewrite Hv. cbn [default stored].
        pose proof (proj1 (Forall_lookup _ input) input_bytes i v Hv) as Hvb.
        change 0xff with (Z.ones 8). rewrite Z.land_ones by lia.
        apply Z.mod_small. exact Hvb. }
      rewrite partial_insert by exact Hv.
      eapply IH; [lia | lia | lia | exact H].
Qed.

End Decode.
Lemma emit_ops_head input p :
  (0 < length input)%nat ->
  exists v ops, emit_ops (length input) input (length input) p 0 = WBit v :: ops.
Proof.
  intros Hn. destruct (length input) as [|n] eqn:E; [lia|]. cbn [emit_ops].
  assert ((0 <? S n)%nat = true) as -> by (apply Nat.ltb_lt; lia). cbv zeta.
  destruct (1 <? _); eexists _, _; reflexivity.
Qed.

Lemma end_ops_last : exists front, end_ops = front ++ [WBit 0].
Proof.
  exists ([WBit 1; WByte 0] ++ map (fun _ : nat => WBit 1) (seq 0 16)).
  unfold end_ops. now rewrite <- app_assoc.
Qed.

(** The stream [compress] builds, and what the decoder makes of it. *)
Lemma compress_decompress m x :
  all_bytes x -> (0 < length x)%nat ->
  Z.of_nat (length x) <= m -> Z.of_nat (length x) < 2 ^ 32 ->
  exists s, compress (constructor m) x = Ok s /\ decompress s = Ok x.
Proof.
  intros Hx Hn Hm H32.
  destruct (compress_header (constructor m) x Hm H32) as [body Hhead].
  unfold compress in *. rewrite (to_u8_bytes x Hx) in *.
  assert ((length x =? 0)%nat = false) as E0 by (apply Nat.eqb_neq; lia).
  assert ((MAX_INPUT (constructor m) <? Z.of_nat (length x)) = false) as E1
    by (apply Z.ltb_ge; exact Hm).
  rewrite E0, E1 in *. cbv zeta in *.
  set (p := optimalPlan (constructor m) x) in *.
  assert (plan_ok x p) as Hp by (apply (optimalPlan_ok (constructor m)); reflexivity).
  rewrite emit_loop_ops, endStream_ops, <- bb_run_w_app in *.
  set (emit := emit_ops (length x) x (length x) p 0) in *.
  set (w0 := beginWriter (Z.of_nat (length x))) in *.
  pose proof (beginWriter_wf (Z.of_nat (length x))) as Hw0. fold w0 in Hw0.
  pose proof (bb_run_w_wf (emit ++ end_ops) w0 Hw0) as Hwl.
  pose proof (run_w_budget (emit ++ end_ops) w0 Hw0) as Hbud.
  assert (1 <= bitCount (run_w (emit ++ end_ops) w0)) as Hcount.
  { destruct end_ops_last as [front ->]. rewrite app_assoc, bb_run_w_app.
    cbn [run_w fold_left run_op]. apply writeBit_count, bb_run_w_wf, Hw0. }
  pose proof (backfill_committed _ Hwl Hcount) as Hcom.
  pose proof (backfill_bytes _ Hwl) as Hbytes.
  pose proof (backfill_out_length (run_w (emit ++ end_ops) w0)) as Hlen.
  set (final := out (backfill (run_w (emit ++ end_ops) w0))) in *.
  rewrite (to_u8_bytes final Hbytes) in *. injection Hhead as Hfinal.
  exists final. split; [reflexivity|].
  unfold budget in Hbud. rewrite <- Hlen in Hbud. rewrite length_app in Hbud.
  pose proof (wf_count _ Hwl) as Hc8.
  assert (budget w0 = 40) as Hb0 by reflexivity. unfold budget in Hb0.
  assert (0 < length end_ops)%nat as Hend by (cbn; lia).
  unfold decompress. rewrite (to_u8_bytes final Hbytes).
  assert ((length final <? 4)%nat = false) as -> by (apply Nat.ltb_ge; lia).
  assert (getUint32_le final = Z.of_nat (length x)) as ->
    by (rewrite Hfinal; apply setUint32_le_read; lia).
  rewrite Nat2Z.id.
  destruct (emit_ops_head x p Hn) as (v & tl & Hemit). fold emit in Hemit.
  destruct (replay_begin final v (tl ++ end_ops) w0 (mkReader 4 0 0) Hw0
              (beginWriter_fresh _)) as (r' & Hreplay).
  { change (WBit v :: tl ++ end_ops) with ((WBit v :: tl) ++ end_ops).
    rewrite <- Hemit. exact Hcom. }
  change (WBit v :: tl ++ end_ops) with ((WBit v :: tl) ++ end_ops) in Hreplay.
  rewrite <- Hemit, map_app in Hreplay.
  replace (replicate (length x) 0) with (partial x 0)
    by (unfold partial; now rewrite Nat.sub_0_r).
  apply (decode_emit x Hx p Hp final end_ops (length x) 0 _ (mkReader 4 0 0)
           (map stored end_ops) r'); [lia | lia | | exact Hreplay].
  fold emit. lia.
Qed.

End BitBusterRound.

(** X9: the BitBuster round trip. For every input [x] the codec admits (and
    whose length fits the 32 bits of the header), [compress] returns a stream
    and [decompress] turns that stream back into the bytes of [x] (the
    elements of [x] modulo 256, as [new Uint8Array(x)] holds them). *)
Theorem bitbuster_round_trip (m : Z) (x : list Z) :
  Z.of_nat (length x) <= m -> Z.of_nat (length x) < 2 ^ 32 ->
  exists s,
    BitBuster.compress (BitBuster.constructor m) x = Ok s
    /\ BitBuster.decompress s = Ok (to_u8 x).
Proof.
  intros Hm H32.
  assert (BitBuster.compress (BitBuster.constructor m) x
          = BitBuster.compress (BitBuster.constructor m) (to_u8 x)) as ->
    by (unfold BitBuster.compress;
        now rewrite (to_u8_bytes _ (to_u8_all_bytes x))).
  destruct x as [|b x].
  - exists [0; 0; 0; 0]. split; reflexivity.
  - apply BitBusterRound.compress_decompress.
    + apply to_u8_all_bytes.
    + cbn [to_u8 map length]. lia.
    + unfold to_u8. now rewrite length_map.
    + unfold to_u8. now rewrite length_map.
Qed.

Lemma bitbuster_round_trip_witness :
  exists s,
    BitBuster.compress BitBuster.default_codec [65; 66; 65; 66; 65; 66; 65; 300] = Ok s
    /\ BitBuster.decompress s = Ok (to_u8 [65; 66; 65; 66; 65; 66; 65; 300]).
Proof.
  apply (bitbuster_round_trip (512 * 1024) [65; 66; 65; 66; 65; 66; 65; 300]); cbn; lia.
Defined.
(** ** ZX7: the round trip *)

Lemma lor_low_bit a m : 0 <= m -> Z.lor (a * 2 ^ (m + 1)) (2 ^ m) = (2 * a + 1) * 2 ^ m.
Proof.
  intros Hm. rewrite <- (lor_shift_bit a 1) by now right.
  rewrite <- (Z.shiftl_mul_pow2 _ m), Z.shiftl_lor, Z.shiftl_shiftl by lia.
  rewrite !Z.shiftl_mul_pow2 by lia. rewrite Z.mul_1_l.
  now replace (1 + m) with (m + 1) by lia.
Qed.

Module ZX7Round.
Import ZX7.

(** *** The writer and the reader, bit by bit *)

(** The number of bits written into the current bit byte, read off the
    mask: 8 when the byte is full (or none has been reserved yet). *)
Definition used (w : writer) : Z :=
  if bitMask w =? 0 then 8 else 7 - Z.log2 (bitMask w).

(** Those bits, as a number. *)
Definition acc (w : writer) : Z := Z.shiftr (get (dest w) (bitIndex w)) (8 - used w).

(** The writer's state between two calls: the bits of the current bit byte
    that have not been written yet are zero. *)
Record wf (w : writer) : Prop := mkWf
  { wf_used : 1 <= used w <= 8;
    wf_mask : bitMask w = Z.shiftr 128 (used w);
    wf_index : (bitIndex w < length (dest w))%nat;
    wf_low : get (dest w) (bitIndex w) = acc w * 2 ^ (8 - used w);
    wf_bytes : all_bytes (dest w) }.

(** [final] is what the stream will be: it agrees with [dest] everywhere
    but at the current bit byte, whose top [used] bits it shares. *)
Definition committed (final : list Z) (w : writer) : Prop :=
  (forall p, (p < length (dest w))%nat -> p <> bitIndex w -> final !! p = dest w !! p)
  /\ exists v, final !! bitIndex w = Some v /\ 0 <= v < 256
               /\ Z.shiftr v (8 - used w) = acc w.

(** The reader after the same calls: [regA] holds the bits of the bit byte
    that are left, followed by a one. *)
Definition sync (final : list Z) (w : writer) (r : reader) : Prop :=
  inputIndex r = length (dest w)
  /\ exists v, final !! bitIndex w = Some v
               /\ regA r = (v * 2 ^ used w + 2 ^ (used w - 1)) mod 256.

Lemma used_shiftr d k i : 1 <= k <= 8 -> used (mkWriter d (Z.shiftr 128 k) i) = k.
Proof.
  intros Hk.
  assert (k = 1 \/ k = 2 \/ k = 3 \/ k = 4 \/ k = 5 \/ k = 6 \/ k = 7 \/ k = 8) as H by lia.
  repeat destruct H as [->|H]; try subst k; reflexivity.
Qed.

Lemma get_lookup (xs : list Z) i : (i < length xs)%nat -> xs !! i = Some (get xs i).
Proof.
  intros Hi. unfold get. destruct (lookup_lt_is_Some_2 xs i Hi) as [v ->]. reflexivity.
Qed.

Lemma zx7_writeBit_keep v w :
  wf w -> used w < 8 ->
  writeBit v w
  = mkWriter (<[bitIndex w := (2 * acc w + truth v) * 2 ^ (7 - used w)]> (dest w))
      (Z.shiftr 128 (used w + 1)) (bitIndex w).
Proof.
  intros [Hu Hm Hi Hl Hb] Hlt. unfold writeBit.
  pose proof (mask_pow (used w) ltac:(lia)) as Hp.
  pose proof (Z.pow_pos_nonneg 2 (7 - used w) ltac:(lia) ltac:(lia)) as Hpos.
  assert ((bitMask w =? 0) = false) as -> by (apply Z.eqb_neq; lia).
  rewrite Hm at 2. rewrite Z.shiftr_shiftr by lia. f_equal.
  replace (8 - used w) with (7 - used w + 1) in Hl by lia.
  unfold truth. destruct (v =? 0).
  - symmetry. apply list_insert_id. rewrite get_lookup by exact Hi. f_equal.
    rewrite Hl, Z.pow_add_r by lia. change (2 ^ 1) with 2. ring.
  - f_equal. rewrite Hl, Hm, Hp. apply lor_low_bit. lia.
Qed.

Lemma zx7_writeBit_rotate v w :
  wf w -> used w = 8 ->
  writeBit v w = mkWriter (dest w ++ [truth v * 128]) 64 (length (dest w)).
Proof.
  intros [Hu Hm Hi Hl Hb] H8. unfold writeBit. rewrite H8 in Hm.
  change (Z.shiftr 128 8) with 0 in Hm. rewrite Hm. cbn [Z.eqb].
  unfold writeByte. cbn [dest bitMask bitIndex]. change (Z.land 0 255) with 0.
  change (Z.shiftr 128 1) with 64. f_equal.
  unfold truth. destruct (v =? 0); [reflexivity|].
  unfold get. rewrite list_lookup_middle by reflexivity. cbn [default].
  rewrite insert_app_r_alt by lia. now rewrite Nat.sub_diag.
Qed.

Lemma zx7_keep_used v w : wf w -> used w < 8 -> used (writeBit v w) = used w + 1.
Proof.
  intros Hw Hlt. rewrite zx7_writeBit_keep by assumption. apply used_shiftr.
  pose proof (wf_used w Hw). lia.
Qed.

Lemma zx7_keep_acc v w : wf w -> used w < 8 -> acc (writeBit v w) = 2 * acc w + truth v.
Proof.
  intros Hw Hlt. unfold acc at 1. rewrite zx7_keep_used by assumption.
  rewrite zx7_writeBit_keep by assumption. cbn [dest bitIndex].
  rewrite get_insert_eq by apply (wf_index w Hw).
  replace (8 - (used w + 1)) with (7 - used w) by lia.
  pose proof (wf_used w Hw).
  rewrite Z.shiftr_div_pow2 by lia. apply Z.div_mul.
  pose proof (Z.pow_pos_nonneg 2 (7 - used w)). lia.
Qed.

Lemma acc_bound w : wf w -> 0 <= acc w < 2 ^ used w.
Proof.
  intros [Hu Hm Hi Hl Hb]. pose proof (all_bytes_get (dest w) (bitIndex w) Hb) as Hg.
  unfold acc. rewrite Z.shiftr_div_pow2 by lia. split.
  - apply Z.div_pos; [lia | apply Z.pow_pos_nonneg; lia].
  - apply Z.div_lt_upper_bound; [apply Z.pow_pos_nonneg; lia|].
    rewrite <- Z.pow_add_r by lia. replace (8 - used w + used w) with 8 by lia.
    change (2 ^ 8) with 256. lia.
Qed.

Lemma zx7_writeBit_wf v w : wf w -> wf (writeBit v w).
Proof.
  intros Hw. pose proof Hw as [Hu Hm Hi Hl Hb]. pose proof (truth_01 v) as Ht.
  destruct (Z.eq_dec (used w) 8) as [H8|H8].
  - rewrite zx7_writeBit_rotate by assumption.
    set (w' := mkWriter (dest w ++ [truth v * 128]) 64 (length (dest w))).
    assert (used w' = 1) as Eu by reflexivity.
    assert (get (dest w') (bitIndex w') = truth v * 128) as Eg
      by (unfold get; cbn [dest bitIndex w']; now rewrite list_lookup_middle).
    assert (acc w' = truth v) as Ea.
    { unfold acc. rewrite Eu, Eg. change (8 - 1) with 7.
      rewrite Z.shiftr_div_pow2 by lia. change (2 ^ 7) with 128.
      apply Z.div_mul. lia. }
    split; rewrite ?Eu, ?Ea, ?Eg.
    + lia.
    + reflexivity.
    + cbn [dest bitIndex w']. rewrite length_app. cbn [length]. lia.
    + reflexivity.
    + apply all_bytes_app; [exact Hb|]. repeat constructor; lia.
  - assert (used w < 8) as Hlt by lia.
    pose proof (zx7_keep_used v w Hw Hlt) as Eu.
    pose proof (zx7_keep_acc v w Hw Hlt) as Ea.
    pose proof (acc_bound w Hw) as Hacc.
    split; rewrite ?Eu, ?Ea; rewrite ?zx7_writeBit_keep by assumption;
      cbn [dest bitMask bitIndex].
    + lia.
    + reflexivity.
    + now rewrite length_insert.
    + rewrite get_insert_eq by exact Hi. f_equal. f_equal. lia.
    + apply all_bytes_insert; [exact Hb|].
      assert (2 * acc w + truth v < 2 ^ (used w + 1))
        by (rewrite Z.pow_add_r by lia; change (2 ^ 1) with 2; lia).
      pose proof (Z.pow_pos_nonneg 2 (7 - used w) ltac:(lia) ltac:(lia)).
      split; [apply Z.mul_nonneg_nonneg; lia|].
      replace 256 with (2 ^ (used w + 1) * 2 ^ (7 - used w))
        by (rewrite <- Z.pow_add_r by lia;
            replace (used w + 1 + (7 - used w)) with 8 by lia; reflexivity).
      apply Z.mul_lt_mono_pos_r; lia.
Qed.

Lemma zx7_writeByte_wf b w : wf w -> wf (writeByte b w).
Proof.
  intros [Hu Hm Hi Hl Hb]. unfold writeByte.
  assert (get (dest w ++ [Z.land b 255]) (bitIndex w) = get (dest w) (bitIndex w)) as Eg
    by (unfold get; now rewrite lookup_app_l).
  split; unfold acc, used in *; cbn [dest bitMask bitIndex] in *; rewrite ?Eg;
    try assumption.
  - rewrite length_app. lia.
  - apply all_bytes_app; [exact Hb|]. repeat constructor.
    + apply Z.land_nonneg. lia.
    + change 255 with (Z.ones 8). rewrite Z.land_ones by lia.
      apply Z.mod_pos_bound. lia.
Qed.

Lemma zx7_writeBit_back final v w :
  wf w -> committed final (writeBit v w) -> committed final w.
Proof.
  intros Hw. pose proof Hw as [Hu Hm Hi Hl Hb]. pose proof (truth_01 v) as Ht.
  destruct (Z.eq_dec (used w) 8) as [H8|H8].
  - rewrite zx7_writeBit_rotate by assumption. intros [H1 _].
    cbn [dest bitIndex] in H1.
    assert (forall p, (p < length (dest w))%nat -> final !! p = dest w !! p) as H2.
    { intros p Hp. rewrite H1 by (rewrite ?length_app; cbn [length]; lia).
      now rewrite lookup_app_l. }
    split; [intros p Hp _; apply H2, Hp|].
    exists (get (dest w) (bitIndex w)). split; [| split].
    + rewrite H2 by exact Hi. apply get_lookup, Hi.
    + apply all_bytes_get, Hb.
    + reflexivity.
  - assert (used w < 8) as Hlt by lia.
    intros [H1 (x & Hx & Hxb & Hs)].
    rewrite zx7_keep_used, zx7_keep_acc in Hs by assumption.
    rewrite zx7_writeBit_keep in * by assumption. cbn [dest bitIndex] in *.
    split.
    + intros p Hp Hne. rewrite H1 by (rewrite ?length_insert; assumption).
      now rewrite list_lookup_insert_ne by congruence.
    + exists x. split; [exact Hx|]. split; [exact Hxb|].
      replace (8 - used w) with (8 - (used w + 1) + 1) by lia.
      apply (PletterOffset.shiftr_succ _ _ _ (truth v)); [lia | exact Ht | exact Hs].
Qed.

Lemma zx7_writeByte_used b w : used (writeByte b w) = used w.
Proof. reflexivity. Qed.

Lemma zx7_writeByte_acc b w : wf w -> acc (writeByte b w) = acc w.
Proof.
  intros Hw. unfold acc. rewrite zx7_writeByte_used. unfold writeByte, get.
  cbn [dest bitIndex]. now rewrite lookup_app_l by apply (wf_index w Hw).
Qed.

Lemma zx7_writeByte_back final b w :
  wf w -> committed final (writeByte b w) -> committed final w.
Proof.
  intros Hw [H1 H2]. pose proof Hw as [Hu Hm Hi Hl Hb].
  rewrite zx7_writeByte_used, zx7_writeByte_acc in H2 by exact Hw.
  unfold writeByte in *. cbn [dest bitIndex] in *. split; [| exact H2].
  intros p Hp Hne. rewrite H1 by (rewrite ?length_app; cbn [length]; lia).
  now rewrite lookup_app_l.
Qed.

(** [sla] on a byte: the low eight bits of its double, and its top bit. *)
Definition sla_value_ok (A : Z) : bool :=
  (Z.land (Z.shiftl A 1) 0xFF =? (2 * A) mod 256)
  && ((if Z.land (Z.shiftl A 1) 0x100 =? 0 then 0 else 1) =? A / 128)
  && (Z.lor (Z.land (Z.shiftl A 1) 0xFF) 1 =? (2 * A + 1) mod 256).

Lemma sla_value_checked : forallb sla_value_ok (map Z.of_nat (seq 0 256)) = true.
Proof. vm_compute. reflexivity. Qed.

Lemma sla_value A :
  0 <= A < 256 ->
  Z.land (Z.shiftl A 1) 0xFF = (2 * A) mod 256
  /\ (if Z.land (Z.shiftl A 1) 0x100 =? 0 then 0 else 1) = A / 128
  /\ Z.lor (Z.land (Z.shiftl A 1) 0xFF) 1 = (2 * A + 1) mod 256.
Proof.
  intros HA.
  assert (In A (map Z.of_nat (seq 0 256))) as Hin.
  { apply List.in_map_iff. exists (Z.to_nat A). split; [lia | apply List.in_seq; lia]. }
  apply (proj1 (List.forallb_forall _ _) sla_value_checked) in Hin.
  unfold sla_value_ok in Hin.
  apply andb_true_iff in Hin as [Hin H3]. apply andb_true_iff in Hin as [H1 H2].
  apply Z.eqb_eq in H1, H2, H3. split; [exact H1|]. split; [exact H2 | exact H3].
Qed.

Lemma zx7_readBit_loaded final r :
  0 <= regA r < 256 -> (2 * regA r) mod 256 <> 0 ->
  readBit final r
  = Ok (mkReader (inputIndex r) ((2 * regA r) mod 256) (regA r / 128)).
Proof.
  intros Ha Hnz. destruct (sla_value (regA r) Ha) as (E1 & E2 & _).
  unfold readBit, sla, updateFlags. cbn [regA inputIndex flagCarry].
  rewrite E1, E2.
  assert (((2 * regA r) mod 256 =? 0) = false) as -> by (apply Z.eqb_neq; exact Hnz).
  reflexivity.
Qed.

Lemma zx7_readBit_load final r x :
  regA r = 128 -> final !! inputIndex r = Some x -> 0 <= x < 256 ->
  readBit final r
  = Ok (mkReader (S (inputIndex r)) ((2 * x + 1) mod 256) (x / 128)).
Proof.
  intros Ha Hx Hxb. destruct (sla_value x Hxb) as (E1 & E2 & E3).
  destruct r as [idx a c]. cbn [regA inputIndex] in *. subst a.
  unfold readBit, sla, updateFlags. cbn [regA inputIndex flagCarry].
  change (Z.land (Z.shiftl 128 1) 255 =? 0) with true. cbv iota.
  unfold readByte. cbn [inputIndex regA flagCarry].
  assert ((length final <=? idx)%nat = false) as ->.
  { apply Nat.leb_gt. eapply lookup_lt_Some, Hx. }
  unfold get. rewrite Hx. cbn [default mbind result_bind rbind inputIndex regA flagCarry].
  change (id x) with x. rewrite E2, E3. reflexivity.
Qed.

(** The reader's register after [k] bits of the bit byte [v]. *)
Definition sla_ok (k v : Z) : bool :=
  let A := (v * 2 ^ k + 2 ^ (k - 1)) mod 256 in
  negb ((2 * A) mod 256 =? 0) && (A / 128 =? (v / 2 ^ (7 - k)) mod 2).

Lemma sla_checked :
  forallb (fun k => forallb (sla_ok k) (map Z.of_nat (seq 0 256))) [1; 2; 3; 4; 5; 6; 7]
  = true.
Proof. vm_compute. reflexivity. Qed.

Lemma sla_next k v :
  1 <= k <= 7 -> 0 <= v < 256 ->
  let A := (v * 2 ^ k + 2 ^ (k - 1)) mod 256 in
  (2 * A) mod 256 <> 0 /\ A / 128 = (v / 2 ^ (7 - k)) mod 2
  /\ (2 * A) mod 256 = (v * 2 ^ (k + 1) + 2 ^ k) mod 256.
Proof.
  intros Hk Hv A.
  assert (In k [1; 2; 3; 4; 5; 6; 7]) as Hin by (cbn; lia).
  apply (proj1 (List.forallb_forall _ _) sla_checked) in Hin.
  assert (In v (map Z.of_nat (seq 0 256))) as Hin2.
  { apply List.in_map_iff. exists (Z.to_nat v). split; [lia | apply List.in_seq; lia]. }
  apply (proj1 (List.forallb_forall _ _) Hin) in Hin2. unfold sla_ok in Hin2.
  fold A in Hin2. apply andb_true_iff in Hin2 as [H1 H2].
  apply negb_true_iff, Z.eqb_neq in H1. apply Z.eqb_eq in H2.
  split; [exact H1|]. split; [exact H2|].
  subst A. rewrite Z.mul_mod_idemp_r by lia. f_equal.
  assert (2 ^ k = 2 * 2 ^ (k - 1)) as E1
    by (rewrite <- Z.pow_succ_r by lia; f_equal; lia).
  assert (2 ^ (k + 1) = 2 * 2 ^ k) as E2
    by (rewrite <- Z.pow_succ_r by lia; f_equal; lia).
  rewrite E2. lia.
Qed.

Lemma zx7_writeBit_read final v w r :
  wf w -> sync final w r -> committed final (writeBit v w) ->
  exists r', readBit final r = Ok r' /\ flagCarry r' = truth v
             /\ sync final (writeBit v w) r'.
Proof.
  intros Hw (Hpos & x & Hx & Hreg) Hcom.
  pose proof Hw as [Hu Hm Hi Hl Hb]. pose proof (truth_01 v) as Ht.
  destruct (Z.eq_dec (used w) 8) as [H8|H8].
  - destruct Hcom as [_ (y & Hy & Hyb & Hs)].
    assert (used (writeBit v w) = 1) as Eu
      by (rewrite zx7_writeBit_rotate by assumption; reflexivity).
    assert (acc (writeBit v w) = truth v) as Ea.
    { unfold acc. rewrite Eu. rewrite zx7_writeBit_rotate by assumption.
      cbn [dest bitIndex]. unfold get. rewrite list_lookup_middle by reflexivity.
      cbn [default]. change (8 - 1) with 7. rewrite Z.shiftr_div_pow2 by lia.
      change (2 ^ 7) with 128. apply Z.div_mul. lia. }
    rewrite Eu, Ea in Hs. change (8 - 1) with 7 in Hs.
    rewrite Z.shiftr_div_pow2 in Hs by lia. change (2 ^ 7) with 128 in Hs.
    assert (regA r = 128) as Hreg8.
    { rewrite Hreg, H8. change (2 ^ 8) with 256. change (2 ^ (8 - 1)) with 128.
      rewrite Z.add_comm, Z.mod_add by lia. reflexivity. }
    unfold sync. rewrite Eu. rewrite zx7_writeBit_rotate in * by assumption.
    cbn [dest bitIndex] in *. rewrite <- Hpos in Hy.
    rewrite (zx7_readBit_load final r y Hreg8 Hy Hyb).
    eexists. split; [reflexivity|]. cbn [flagCarry inputIndex regA].
    split; [exact Hs|]. split.
    + rewrite length_app. cbn [length]. lia.
    + exists y. split; [now rewrite <- Hpos|]. f_equal.
      change (2 ^ 1) with 2. change (2 ^ (1 - 1)) with 1. lia.
  - assert (used w < 8) as Hlt by lia.
    destruct Hcom as [_ (y & Hy & Hyb & Hs)].
    rewrite zx7_keep_used, zx7_keep_acc in Hs by assumption.
    unfold sync. rewrite zx7_keep_used by assumption.
    rewrite zx7_writeBit_keep in * by assumption. cbn [dest bitIndex] in *.
    assert (y = x) as -> by congruence.
    destruct (sla_next (used w) x ltac:(lia) Hyb) as (N1 & N2 & N3). cbv zeta in *.
    rewrite <- Hreg in N1, N2, N3.
    rewrite zx7_readBit_loaded
      by (try exact N1; rewrite Hreg; apply Z.mod_pos_bound; lia).
    eexists. split; [reflexivity|]. cbn [flagCarry inputIndex regA].
    split; [| split].
    + rewrite N2. replace (8 - (used w + 1)) with (7 - used w) in Hs by lia.
      rewrite Z.shiftr_div_pow2 in Hs by lia. rewrite Hs.
      replace (2 * acc w + truth v) with (truth v + acc w * 2) by lia.
      rewrite Z.mod_add by lia. destruct Ht as [->| ->]; reflexivity.
    + now rewrite length_insert.
    + exists x. split; [exact Hx|]. rewrite N3. f_equal. f_equal.
      now replace (used w + 1 - 1) with (used w) by lia.
Qed.

Lemma zx7_writeByte_read final b w r :
  wf w -> sync final w r -> committed final (writeByte b w) ->
  exists r', readByte final r = Ok (Z.land b 0xFF, r') /\ sync final (writeByte b w) r'.
Proof.
  intros Hw (Hpos & x & Hx & Hreg) [H1 _].
  pose proof Hw as [Hu Hm Hi Hl Hb]. unfold sync. rewrite zx7_writeByte_used.
  unfold writeByte in *. cbn [dest bitIndex] in *.
  assert (final !! inputIndex r = Some (Z.land b 0xFF)) as Hy.
  { rewrite Hpos, H1.
    - now rewrite list_lookup_middle.
    - rewrite length_app. cbn [length]. lia.
    - lia. }
  unfold readByte.
  assert ((length final <=? inputIndex r)%nat = false) as ->.
  { apply Nat.leb_gt. eapply lookup_lt_Some, Hy. }
  unfold get. rewrite Hy. eexists. split; [reflexivity|].
  cbn [inputIndex regA default]. rewrite length_app. cbn [length].
  split; [lia|]. exists x. split; [exact Hx | exact Hreg].
Qed.

(** *** Sequences of writer calls *)

Inductive wop : Type := WBit (v : Z) | WByte (b : Z).

Definition run_op (w : writer) (o : wop) : writer :=
  match o with WBit v => writeBit v w | WByte b => writeByte b w end.

Definition run_w (ops : list wop) (w : writer) : writer := fold_left run_op ops w.

(** What the reader gets for one call. *)
Definition stored (o : wop) : Z :=
  match o with WBit v => truth v | WByte b => Z.land b 0xFF end.

(** The reader's calls that mirror [ops]; a bit is handed over in
    [flagCarry]. *)
Fixpoint replay (ops : list wop) (final : list Z) (r : reader)
    : result (list Z * reader) :=
  match ops with
  | [] => Ok ([], r)
  | WBit _ :: ops =>
      r ← readBit final r;
      '(vs, r') ← replay ops final r;
      Ok (flagCarry r :: vs, r')
  | WByte _ :: ops =>
      '(b, r) ← readByte final r;
      '(vs, r') ← replay ops final r;
      Ok (b :: vs, r')
  end.

Lemma zx7_run_w_app a b w : run_w (a ++ b) w = run_w b (run_w a w).
Proof. apply fold_left_app. Qed.

Lemma zx7_run_op_wf w o : wf w -> wf (run_op w o).
Proof. destruct o; [apply zx7_writeBit_wf | apply zx7_writeByte_wf]. Qed.

Lemma zx7_run_w_wf ops : forall w, wf w -> wf (run_w ops w).
Proof.
  induction ops as [|o ops IH]; intros w Hw; [exact Hw|].
  apply IH, zx7_run_op_wf, Hw.
Qed.

Lemma zx7_run_w_back final ops : forall w,
  wf w -> committed final (run_w ops w) -> committed final w.
Proof.
  induction ops as [|o ops IH]; intros w Hw Hc; [exact Hc|].
  apply IH in Hc; [| apply zx7_run_op_wf, Hw].
  destruct o; [eapply zx7_writeBit_back | eapply zx7_writeByte_back]; eassumption.
Qed.

Lemma zx7_replay_run final ops : forall w r,
  wf w -> sync final w r -> committed final (run_w ops w) ->
  exists r', replay ops final r = Ok (map stored ops, r')
             /\ sync final (run_w ops w) r'.
Proof.
  induction ops as [|o ops IH]; intros w r Hw Hs Hc.
  - exists r. split; [reflexivity | exact Hs].
  - assert (committed final (run_op w o)) as Hc1
      by (apply (zx7_run_w_back final ops); [apply zx7_run_op_wf, Hw | exact Hc]).
    destruct o as [v|b]; cbn [replay map stored run_op] in *.
    + destruct (zx7_writeBit_read final v w r Hw Hs Hc1) as (r1 & -> & Hcarry & Hs1).
      destruct (IH _ r1 (zx7_writeBit_wf v w Hw) Hs1 Hc) as (r2 & Hr2 & Hs2).
      cbn [mbind result_bind rbind]. rewrite Hr2. cbn [mbind result_bind rbind].
      rewrite Hcarry. exists r2. split; [reflexivity | exact Hs2].
    + destruct (zx7_writeByte_read final b w r Hw Hs Hc1) as (r1 & -> & Hs1).
      destruct (IH _ r1 (zx7_writeByte_wf b w Hw) Hs1 Hc) as (r2 & Hr2 & Hs2).
      cbn [mbind result_bind rbind]. rewrite Hr2. cbn [mbind result_bind rbind].
      exists r2. split; [reflexivity | exact Hs2].
Qed.

Lemma zx7_replay_bit final v ops r b vs r' :
  replay (WBit v :: ops) final r = Ok (b :: vs, r') ->
  exists r1, readBit final r = Ok r1 /\ flagCarry r1 = b
             /\ replay ops final r1 = Ok (vs, r').
Proof.
  cbn [replay]. intros H. apply bind_Ok in H as (r1 & Hb & H).
  apply bind_Ok in H as ([vs1 r2] & Hv & H). cbn in H. injection H as <- <- <-.
  exists r1. split; [exact Hb|]. split; [reflexivity | exact Hv].
Qed.

Lemma zx7_replay_byte final b ops r x vs r' :
  replay (WByte b :: ops) final r = Ok (x :: vs, r') ->
  exists r1, readByte final r = Ok (x, r1) /\ replay ops final r1 = Ok (vs, r').
Proof.
  cbn [replay]. intros H. apply bind_Ok in H as ([b1 r1] & Hb & H).
  apply bind_Ok in H as ([vs1 r2] & Hv & H). cbn in H. injection H as <- <- <-.
  exists r1. split; assumption.
Qed.

Lemma zx7_replay_split final a b r vs r' :
  replay (a ++ b) final r = Ok (map stored a ++ vs, r') ->
  exists r1, replay a final r = Ok (map stored a, r1) /\ replay b final r1 = Ok (vs, r').
Proof.
  revert r vs r'. induction a as [|o a IH]; intros r vs r' H.
  - exists r. split; [reflexivity | exact H].
  - destruct o as [v|x]; cbn [app map] in H.
    + apply zx7_replay_bit in H as (r0 & H0 & Hc & H1).
      destruct (IH r0 vs r' H1) as (r2 & Ha & Hb).
      exists r2. cbn [replay map]. rewrite H0. cbn [mbind result_bind rbind].
      rewrite Ha. cbn [mbind result_bind rbind]. rewrite Hc.
      split; [reflexivity | exact Hb].
    + apply zx7_replay_byte in H as (r0 & H0 & H1).
      destruct (IH r0 vs r' H1) as (r2 & Ha & Hb).
      exists r2. cbn [replay map]. rewrite H0. cbn [mbind result_bind rbind].
      rewrite Ha. cbn [mbind result_bind rbind]. split; [reflexivity | exact Hb].
Qed.

(** *** The calls of the encoder *)

(** The [n] low bits of [value], from the top one down. *)
Definition bits_ops (value : Z) (n : nat) : list wop :=
  map (fun i => WBit (Z.land value (2 ^ Z.of_nat i))) (rev (seq 0 n)).

Lemma bits_ops_S value n :
  bits_ops value (S n) = WBit (Z.land value (2 ^ Z.of_nat n)) :: bits_ops value n.
Proof. unfold bits_ops. now rewrite seq_S, rev_app_distr. Qed.

Lemma pow2_shiftr_1 n : Z.shiftr (2 ^ Z.of_nat (S n)) 1 = 2 ^ Z.of_nat n.
Proof.
  rewrite Z.shiftr_div_pow2 by lia. change (2 ^ 1) with 2.
  rewrite Nat2Z.inj_succ, Z.pow_succ_r by lia. rewrite Z.mul_comm. apply Z.div_mul. lia.
Qed.

Lemma pow2_gt_1 n : 1 < 2 ^ Z.of_nat (S n).
Proof.
  rewrite Nat2Z.inj_succ, Z.pow_succ_r by lia.
  pose proof (Z.pow_pos_nonneg 2 (Z.of_nat n)). lia.
Qed.

Lemma writeBits_loop_ops value : forall n w,
  writeBits_loop n value (2 ^ Z.of_nat n) w = run_w (bits_ops value n) w.
Proof.
  induction n as [|n IH]; intros w; [reflexivity|].
  cbn [writeBits_loop]. pose proof (pow2_gt_1 n).
  assert ((1 <? 2 ^ Z.of_nat (S n)) = true) as -> by (apply Z.ltb_lt; lia).
  cbv zeta. rewrite pow2_shiftr_1, IH, bits_ops_S. reflexivity.
Qed.

Lemma writeBits_ops value n w :
  writeBits value (Z.of_nat n) w = run_w (bits_ops value n) w.
Proof.
  unfold writeBits. rewrite Nat2Z.id, Z.shiftl_mul_pow2, Z.mul_1_l by lia.
  apply writeBits_loop_ops.
Qed.

Lemma gamma_zeros_ops value z : forall d j fuel w,
  (j + d = z)%nat -> (d < fuel)%nat -> 2 ^ Z.of_nat z <= value < 2 ^ Z.of_nat (S z) ->
  gamma_zeros fuel value (2 ^ Z.of_nat (S j)) w
  = (2 ^ Z.of_nat (S z), run_w (repeat (WBit 0) d) w).
Proof.
  induction d as [|d IH]; intros j fuel w Hj Hf Hv;
    (destruct fuel as [|fuel]; [lia|]); cbn [gamma_zeros].
  - replace j with z by lia.
    assert ((2 ^ Z.of_nat (S z) <=? value) = false) as -> by (apply Z.leb_gt; lia).
    reflexivity.
  - assert (2 ^ Z.of_nat (S j) <= 2 ^ Z.of_nat z) by (apply Z.pow_le_mono_r; lia).
    assert ((2 ^ Z.of_nat (S j) <=? value) = true) as -> by (apply Z.leb_le; lia).
    replace (Z.shiftl (2 ^ Z.of_nat (S j)) 1) with (2 ^ Z.of_nat (S (S j))).
    + rewrite (IH (S j)) by (try assumption; lia). reflexivity.
    + rewrite Z.shiftl_mul_pow2 by lia. change (2 ^ 1) with 2.
      rewrite (Nat2Z.inj_succ (S j)), Z.pow_succ_r by lia. lia.
Qed.

Lemma gamma_value_ops value : forall n fuel w,
  (n < fuel)%nat ->
  gamma_value fuel value (2 ^ Z.of_nat n) w = run_w (bits_ops value n) w.
Proof.
  induction n as [|n IH]; intros fuel w Hf; (destruct fuel as [|fuel]; [lia|]);
    cbn [gamma_value].
  - reflexivity.
  - cbv zeta. rewrite pow2_shiftr_1.
    pose proof (Z.pow_pos_nonneg 2 (Z.of_nat n) ltac:(lia) ltac:(lia)).
    assert ((0 <? 2 ^ Z.of_nat n) = true) as -> by (apply Z.ltb_lt; lia).
    rewrite IH by lia. now rewrite bits_ops_S.
Qed.

(** The calls of [_writeEliasGamma(value)], for [value] of [z + 1] bits. *)
Definition gamma_ops (value : Z) : list wop :=
  let z := Z.to_nat (Z.log2 value) in
  repeat (WBit 0) z ++ bits_ops value (S z).

Lemma writeEliasGamma_ops value w :
  1 <= value < 65536 -> writeEliasGamma value w = run_w (gamma_ops value) w.
Proof.
  intros Hv. unfold writeEliasGamma, gamma_ops. cbv zeta.
  set (z := Z.to_nat (Z.log2 value)).
  pose proof (Z.log2_spec value ltac:(lia)) as Hs.
  pose proof (Z.log2_nonneg value) as Hn.
  assert (Z.log2 value < 16)
    by (apply Z.log2_lt_pow2; [lia | change (2 ^ 16) with 65536; lia]).
  assert (2 ^ Z.of_nat z <= value < 2 ^ Z.of_nat (S z)) as Hz.
  { subst z. rewrite Nat2Z.inj_succ, Z2Nat.id by lia. exact Hs. }
  change 2 with (2 ^ Z.of_nat 1) at 1.
  rewrite (gamma_zeros_ops value z z 0 32 w) by (try assumption; lia).
  rewrite gamma_value_ops by lia. now rewrite zx7_run_w_app.
Qed.

(** The calls of [_writeOffset(offset)]. *)
Definition offset_ops (offset : Z) : list wop :=
  if MAX_OFFSET1 <=? offset - 1 then
    WByte (Z.lor ((offset - 1 - MAX_OFFSET1) mod MAX_OFFSET1) 0x80)
    :: bits_ops ((offset - 1 - MAX_OFFSET1) / MAX_OFFSET1) 4
  else [WByte (offset - 1)].

Lemma zx7_writeOffset_ops offset w : writeOffset offset w = run_w (offset_ops offset) w.
Proof.
  unfold writeOffset, offset_ops. cbv zeta. destruct (_ <=? _); [| reflexivity].
  change 4 with (Z.of_nat 4) at 1. now rewrite writeBits_ops.
Qed.

Definition doublet_ops (length_ offset : Z) : list wop :=
  WBit 1 :: gamma_ops (length_ - 1) ++ offset_ops offset.

Lemma writeDoublet_ops length_ offset w :
  2 <= length_ <= 65536 ->
  writeDoublet length_ offset w = run_w (doublet_ops length_ offset) w.
Proof.
  intros Hl. unfold writeDoublet, doublet_ops. cbv zeta.
  rewrite writeEliasGamma_ops, zx7_writeOffset_ops by lia.
  change (run_w (WBit 1 :: ?l) w) with (run_w l (writeBit 1 w)).
  now rewrite zx7_run_w_app.
Qed.

Definition end_ops : list wop := WBit 1 :: bits_ops 0 16 ++ [WBit 1].

Lemma writeEnd_ops w : writeEnd w = run_w end_ops w.
Proof.
  unfold writeEnd, end_ops. cbv zeta.
  change 16 with (Z.of_nat 16) at 1. rewrite writeBits_ops.
  change (run_w (WBit 1 :: ?l) w) with (run_w l (writeBit 1 w)).
  now rewrite zx7_run_w_app.
Qed.

(** *** What the reader makes of the encoder's calls *)

Lemma bit_value value i : 0 <= i -> truth (Z.land value (2 ^ i)) = (value / 2 ^ i) mod 2.
Proof.
  intros Hi. rewrite land_pow2, <- testbit_div by lia. unfold truth.
  pose proof (Z.pow_pos_nonneg 2 i ltac:(lia) Hi).
  destruct (Z.testbit value i); [| reflexivity].
  assert ((2 ^ i =? 0) = false) as -> by (apply Z.eqb_neq; lia). reflexivity.
Qed.

Lemma zx7_readBit_carry final i a c c' :
  readBit final (mkReader i a c) = readBit final (mkReader i a c').
Proof.
  unfold readBit, sla, updateFlags. cbn [regA inputIndex flagCarry].
  destruct (_ =? 0); [| reflexivity].
  unfold readByte. cbn [regA inputIndex flagCarry]. destruct (_ <=? _)%nat; reflexivity.
Qed.

Lemma zx7_replay_reset final v ops r :
  replay (WBit v :: ops) final (mkReader (inputIndex r) (regA r) 0)
  = replay (WBit v :: ops) final r.
Proof.
  cbn [replay]. destruct r as [i a c]. cbn [inputIndex regA].
  now rewrite (zx7_readBit_carry final i a 0 c).
Qed.

Lemma read_into_bits final value : forall n v r r',
  replay (bits_ops value n) final r = Ok (map stored (bits_ops value n), r') ->
  read_into n final v r = Ok (v * 2 ^ Z.of_nat n + value mod 2 ^ Z.of_nat n, r').
Proof.
  induction n as [|n IH]; intros v r r' H.
  - cbn in H. injection H as <-. cbn [read_into]. change (2 ^ Z.of_nat 0) with 1.
    rewrite Z.mod_1_r. do 2 f_equal. lia.
  - rewrite bits_ops_S in H. cbn [map stored] in H.
    apply zx7_replay_bit in H as (r1 & Hr & Hc & H).
    cbn [read_into]. rewrite Hr. cbn [mbind result_bind rbind]. cbv zeta.
    rewrite Hc, bit_value by lia.
    pose proof (Z.mod_pos_bound (value / 2 ^ Z.of_nat n) 2 ltac:(lia)) as Hb.
    set (b := (value / 2 ^ Z.of_nat n) mod 2) in *.
    assert ((if b =? 0 then Z.shiftl v 1 else Z.lor (Z.shiftl v 1) 1) = 2 * v + b) as ->.
    { destruct (Z.eqb_spec b 0) as [->|Hne].
      - rewrite Z.shiftl_mul_pow2 by lia. change (2 ^ 1) with 2. lia.
      - assert (b = 1) as -> by lia. apply lor_shift_bit. now right. }
    rewrite (IH _ r1 r' H). do 2 f_equal.
    assert (2 ^ Z.of_nat (S n) = 2 ^ Z.of_nat n * 2) as Hp
      by (rewrite Nat2Z.inj_succ, Z.pow_succ_r by lia; lia).
    rewrite Hp, Z.rem_mul_r by lia. fold b. ring.
Qed.

Lemma gamma_count_skip final rest : forall n fuel counter r vs r',
  replay (repeat (WBit 0) n ++ rest) final r = Ok (repeat 0 n ++ vs, r') ->
  flagCarry r = 0 -> counter + Z.of_nat n < 17 ->
  exists r1, flagCarry r1 = 0 /\ replay rest final r1 = Ok (vs, r')
             /\ gamma_count (n + fuel) final counter r
                = gamma_count fuel final (counter + Z.of_nat n) r1.
Proof.
  induction n as [|n IH]; intros fuel counter r vs r' H Hc Hk.
  - exists r. split; [exact Hc|]. split; [exact H|]. cbn [Nat.add].
    now replace (counter + Z.of_nat 0) with counter by lia.
  - cbn [repeat app] in H. apply zx7_replay_bit in H as (r1 & Hr & Hc1 & H).
    destruct (IH fuel (counter + 1) r1 vs r' H Hc1) as (r2 & Hc2 & Hrest & Hg); [lia|].
    exists r2. split; [exact Hc2|]. split; [exact Hrest|].
    cbn [Nat.add gamma_count]. rewrite Hc. cbn [Z.eqb]. rewrite Hr.
    cbn [mbind result_bind rbind]. cbv zeta.
    assert ((counter + 1 =? 17) = false) as -> by (apply Z.eqb_neq; lia).
    rewrite Hg. now replace (counter + 1 + Z.of_nat n) with (counter + Z.of_nat (S n)) by lia.
Qed.

Lemma gamma_top_bit value :
  1 <= value -> truth (Z.land value (2 ^ Z.log2 value)) = 1.
Proof.
  intros Hv. rewrite bit_value by apply Z.log2_nonneg.
  pose proof (Z.log2_spec value ltac:(lia)) as Hs.
  pose proof (Z.log2_nonneg value) as Hn.
  rewrite Z.pow_succ_r in Hs by lia.
  pose proof (Z.pow_pos_nonneg 2 (Z.log2 value) ltac:(lia) Hn) as Hp.
  assert (value / 2 ^ Z.log2 value = 1) as ->; [| reflexivity].
  symmetry. apply (Z.div_unique_pos value _ 1 (value - 2 ^ Z.log2 value)); lia.
Qed.

(** A length is read back. *)
Lemma zx7_read_gamma final value rest r vs r' :
  1 <= value < 65536 ->
  replay (gamma_ops value ++ rest) final r
  = Ok (map stored (gamma_ops value) ++ vs, r') ->
  exists r1, readEliasGamma final r = Ok (value, r1)
             /\ replay rest final r1 = Ok (vs, r').
Proof.
  intros Hv H. unfold gamma_ops in H. cbv zeta in H.
  pose proof (Z.log2_spec value ltac:(lia)) as Hs.
  pose proof (Z.log2_nonneg value) as Hn.
  assert (Z.log2 value < 16) as H16
    by (apply Z.log2_lt_pow2; [lia | change (2 ^ 16) with 65536; lia]).
  set (z := Z.to_nat (Z.log2 value)) in *.
  assert (Z.of_nat z = Z.log2 value) as Ez by (subst z; lia).
  rewrite bits_ops_S, Ez in H.
  rewrite map_app in H. cbn [map stored] in H. rewrite gamma_top_bit in H by lia.
  rewrite <- !app_assoc in H. cbn [app] in H.
  assert (map stored (repeat (WBit 0) z) = repeat 0 z) as Ezeros
    by (clear; induction z as [|z IH]; [reflexivity | cbn; now rewrite IH]).
  rewrite Ezeros in H.
  assert (replay (repeat (WBit 0) z
                  ++ WBit (Z.land value (2 ^ Z.log2 value)) :: bits_ops value z ++ rest)
            final (mkReader (inputIndex r) (regA r) 0)
          = Ok (repeat 0 z ++ 1 :: map stored (bits_ops value z) ++ vs, r')) as H0.
  { rewrite <- H. destruct z; cbn [repeat app]; apply zx7_replay_reset. }
  clear H.
  destruct (gamma_count_skip final _ z (17 - z) 0 _ _ r' H0) as (r1 & Hc1 & H1 & Hg);
    [reflexivity | lia |].
  apply zx7_replay_bit in H1 as (r2 & Hr2 & Hc2 & H2).
  apply zx7_replay_split in H2 as (r3 & Hbits & Hrest).
  exists r3. split; [| exact Hrest].
  unfold readEliasGamma. cbv zeta.
  replace 17%nat with (z + (17 - z))%nat by lia. rewrite Hg.
  destruct (17 - z)%nat as [|[|fuel]] eqn:Ef; [lia | lia |].
  cbn [gamma_count]. rewrite Hc1. cbn [Z.eqb]. rewrite Hr2.
  cbn [mbind result_bind rbind]. cbv zeta.
  assert ((0 + Z.of_nat z + 1 =? 17) = false) as -> by (apply Z.eqb_neq; lia).
  rewrite Hc2. cbn [Z.eqb Pos.eqb mbind result_bind rbind].
  assert ((0 + Z.of_nat z + 1 <? 17) = true) as -> by (apply Z.ltb_lt; lia).
  replace (Z.to_nat (0 + Z.of_nat z + 1 - 1)) with z by lia.
  rewrite (read_into_bits final value z 1 r2 r3 Hbits). do 2 f_equal.
  rewrite Ez. rewrite Z.pow_succ_r in Hs by lia.
  rewrite <- (Z.mod_unique value (2 ^ Z.log2 value) 1 (value - 2 ^ Z.log2 value)); lia.
Qed.

(** The end marker reads as the length 0. *)
Lemma zx7_read_end_gamma final r r' :
  replay (bits_ops 0 16 ++ [WBit 1]) final r
  = Ok (map stored (bits_ops 0 16 ++ [WBit 1]), r') ->
  exists r1, readEliasGamma final r = Ok (0, r1).
Proof.
  intros H.
  change (bits_ops 0 16) with (WBit 0 :: repeat (WBit 0) 15) in H.
  change (map stored ((WBit 0 :: repeat (WBit 0) 15) ++ [WBit 1]))
    with (0 :: repeat 0 15 ++ [1]) in H.
  cbn [app] in H. rewrite <- zx7_replay_reset in H.
  change (WBit 0 :: repeat (WBit 0) 15 ++ [WBit 1])
    with (repeat (WBit 0) 16 ++ [WBit 1]) in H.
  change (0 :: repeat 0 15 ++ [1]) with (repeat 0 16 ++ [1]) in H.
  destruct (gamma_count_skip final _ 16 1 0 _ _ r' H) as (r1 & Hc1 & H1 & Hg);
    [reflexivity | lia |].
  apply zx7_replay_bit in H1 as (r2 & Hr2 & Hc2 & H2).
  exists r2. unfold readEliasGamma. cbv zeta.
  change 17%nat with (16 + 1)%nat. rewrite Hg.
  cbn [gamma_count]. rewrite Hc1. cbn [Z.eqb]. rewrite Hr2.
  cbn [mbind result_bind rbind]. reflexivity.
Qed.

Definition offset_byte_ok (lo : Z) : bool :=
  (Z.land (Z.lor lo 0x80) 0xFF =? lo + 128) && (Z.land (lo + 128) 0x7F =? lo)
  && (Z.land lo 0xFF =? lo).

Lemma offset_byte_checked : forallb offset_byte_ok (map Z.of_nat (seq 0 128)) = true.
Proof. vm_compute. reflexivity. Qed.

Lemma offset_byte lo :
  0 <= lo < 128 ->
  Z.land (Z.lor lo 0x80) 0xFF = lo + 128 /\ Z.land (lo + 128) 0x7F = lo
  /\ Z.land lo 0xFF = lo.
Proof.
  intros Hlo.
  assert (In lo (map Z.of_nat (seq 0 128))) as Hin.
  { apply List.in_map_iff. exists (Z.to_nat lo). split; [lia | apply List.in_seq; lia]. }
  apply (proj1 (List.forallb_forall _ _) offset_byte_checked) in Hin.
  unfold offset_byte_ok in Hin.
  apply andb_true_iff in Hin as [Hin H3]. apply andb_true_iff in Hin as [H1 H2].
  apply Z.eqb_eq in H1, H2, H3. split; [exact H1|]. split; [exact H2 | exact H3].
Qed.

(** An offset is read back. *)
Lemma zx7_read_offset final offset rest r vs r' :
  1 <= offset <= MAX_OFFSET2 ->
  replay (offset_ops offset ++ rest) final r
  = Ok (map stored (offset_ops offset) ++ vs, r') ->
  exists r1, readOffset final r = Ok (offset, r1)
             /\ replay rest final r1 = Ok (vs, r').
Proof.
  unfold MAX_OFFSET2, offset_ops, MAX_OFFSET1. intros Ho H.
  destruct (128 <=? offset - 1) eqn:E.
  - apply Z.leb_le in E. set (o := offset - 1 - 128) in *.
    pose proof (Z.mod_pos_bound o 128 ltac:(lia)) as Hlo.
    assert (0 <= o / 128 < 16) as Hhi.
    { split; [apply Z.div_pos; lia | apply Z.div_lt_upper_bound; lia]. }
    destruct (offset_byte (o mod 128) Hlo) as (E1 & E2 & _).
    cbn [app map stored] in H. rewrite E1 in H.
    apply zx7_replay_byte in H as (r1 & Hb & H).
    apply zx7_replay_split in H as (r2 & Hbits & Hrest).
    exists r2. split; [| exact Hrest].
    unfold readOffset. rewrite Hb. cbn [mbind result_bind rbind].
    assert ((127 <? o mod 128 + 128) = true) as -> by (apply Z.ltb_lt; lia).
    rewrite (read_into_bits final (o / 128) 4 0 r1 r2 Hbits).
    cbn [mbind result_bind rbind]. do 2 f_equal.
    rewrite E2, Z.shiftl_mul_pow2 by lia. change (2 ^ Z.of_nat 4) with 16.
    rewrite (Z.mod_small (o / 128)) by lia. change (2 ^ 7) with 128.
    unfold MAX_OFFSET1. pose proof (Z.div_mod o 128 ltac:(lia)). lia.
  - apply Z.leb_gt in E. destruct (offset_byte (offset - 1)) as (_ & _ & E3); [lia|].
    cbn [app map stored] in H. rewrite E3 in H.
    apply zx7_replay_byte in H as (r1 & Hb & H).
    exists r1. split; [| exact H].
    unfold readOffset. rewrite Hb. cbn [mbind result_bind rbind].
    assert ((127 <? offset - 1) = false) as -> by (apply Z.ltb_ge; lia).
    do 2 f_equal. lia.
Qed.

(** *** The optimiser records real matches only *)

Lemma lor_shiftl_byte a b :
  0 <= b < 256 -> Z.lor (Z.shiftl a 8) b = a * 256 + b.
Proof.
  intros Hb. pose proof (Z.add_lor_land (Z.shiftl a 8) b) as Hsum.
  assert (Z.land (Z.shiftl a 8) b = 0) as Hland.
  { apply Z.bits_inj'. intros m Hm. rewrite Z.land_spec, Z.bits_0.
    destruct (Z.lt_ge_cases m 8) as [Hlt|Hge].
    - now rewrite Z.shiftl_spec_low.
    - rewrite (Z.bits_above_log2 b m); [apply andb_false_r | lia |].
      destruct (Z.eq_dec b 0) as [->|Hne]; [cbn; lia|].
      apply Z.lt_le_trans with 8; [| exact Hge].
      apply Z.log2_lt_pow2; [lia | change (2 ^ 8) with 256; lia]. }
  rewrite Hland in Hsum. rewrite Z.shiftl_mul_pow2 in * by lia.
  change (2 ^ 8) with 256 in *. lia.
Qed.

Section Optimiser.

Variable data : list Z.
Hypothesis data_bytes : all_bytes data.

(** The key of the two bytes that end at position [i]. *)
Definition key_at (i : Z) : Z :=
  Z.lor (Z.shiftl (get data (Z.to_nat (i - 1))) 8) (get data (Z.to_nat i)).

Lemma key_at_inj i j :
  key_at i = key_at j ->
  get data (Z.to_nat (i - 1)) = get data (Z.to_nat (j - 1))
  /\ get data (Z.to_nat i) = get data (Z.to_nat j).
Proof.
  unfold key_at. intros H.
  pose proof (all_bytes_get data (Z.to_nat i) data_bytes).
  pose proof (all_bytes_get data (Z.to_nat j) data_bytes).
  pose proof (all_bytes_get data (Z.to_nat (i - 1)) data_bytes).
  pose proof (all_bytes_get data (Z.to_nat (j - 1)) data_bytes).
  rewrite !lor_shiftl_byte in H by assumption. lia.
Qed.

(** What [optimals[i]] may hold after the search: a literal, or a match
    that ends at [i], lies inside the data read so far together with its
    source, and copies bytes equal to the ones it stands for. *)
Definition entry_ok (i : Z) (o : optimal) : Prop :=
  (offset o = 0 /\ len o = 1)
  \/ (1 <= offset o <= MAX_OFFSET2 /\ 2 <= len o <= MAX_LEN
      /\ offset o + len o <= i + 1
      /\ forall t, 0 <= t < len o ->
           data !! Z.to_nat (i - t) = data !! Z.to_nat (i - t - offset o)).

Definition opts_ok (i : Z) (opts : list optimal) : Prop :=
  length opts = length data
  /\ forall j, 1 <= j <= i -> entry_ok j (opt_at opts j).

Definition chains_ok (i : Z) (m : gmap Z (list Z)) : Prop :=
  forall key idx, In idx (default [] (m !! key)) -> 1 <= idx <= i /\ key = key_at idx.

Lemma opt_at_set_eq i o d :
  0 <= i < Z.of_nat (length (optimals d)) -> opt_at (optimals (set_opt i o d)) i = o.
Proof.
  intros Hi. unfold opt_at, set_opt. cbn [optimals].
  now rewrite list_lookup_insert_eq by lia.
Qed.

Lemma opt_at_set_ne i j o d :
  0 <= i -> 0 <= j -> i <> j ->
  opt_at (optimals (set_opt i o d)) j = opt_at (optimals d) j.
Proof.
  intros Hi Hj Hne. unfold opt_at, set_opt. cbn [optimals].
  now rewrite list_lookup_insert_ne by lia.
Qed.

Lemma zx7_set_opt_ok i o d :
  0 <= i < Z.of_nat (length data) -> entry_ok i o ->
  opts_ok i (optimals d) -> opts_ok i (optimals (set_opt i o d)).
Proof.
  intros Hi Ho [Hl Hall]. split.
  - unfold set_opt. cbn [optimals]. now rewrite length_insert.
  - intros j Hj. destruct (Z.eq_dec i j) as [<-|Hne].
    + rewrite opt_at_set_eq by lia. exact Ho.
    + rewrite opt_at_set_ne by lia. apply Hall, Hj.
Qed.

Lemma countBits_len1 k : countBits k 1 = 10 \/ countBits k 1 = 14.
Proof.
  unfold countBits. change (eliasGammaBits (1 - 1)) with 1.
  unfold BIT_OFFSET1, BIT_OFFSET2. destruct (_ <? _); [right | left]; reflexivity.
Qed.

(** A match of one byte never beats the literal. *)
Lemma len1_loop_id i j d : forall n k,
  bits (opt_at (optimals d) i) = bits (opt_at (optimals d) (i - 1)) + 1 + 8 ->
  len1_loop n data i k j d = d.
Proof.
  intros n k Hb. revert k. induction n as [|n IH]; intros k; cbn [len1_loop];
    [reflexivity|].
  destruct (k <=? j); [| reflexivity]. destruct (js_eq _ _); [| apply IH].
  cbv zeta. destruct (countBits_len1 k) as [-> | ->].
  - assert ((bits (opt_at (optimals d) (i - 1)) + 10 <? bits (opt_at (optimals d) i))
            = false) as -> by (apply Z.ltb_ge; lia).
    apply IH.
  - assert ((bits (opt_at (optimals d) (i - 1)) + 14 <? bits (opt_at (optimals d) i))
            = false) as -> by (apply Z.ltb_ge; lia).
    apply IH.
Qed.

Lemma zx7_extend_loop_ok i offset_ : forall fuel len_ bestLen d,
  0 <= i < Z.of_nat (length data) -> 1 <= offset_ <= MAX_OFFSET2 -> 2 <= len_ ->
  offset_ + len_ <= i + 1 ->
  (forall t, 0 <= t < len_ ->
     data !! Z.to_nat (i - t) = data !! Z.to_nat (i - t - offset_)) ->
  opts_ok i (optimals d) ->
  opts_ok i (optimals (snd (extend_loop fuel data i offset_ len_ bestLen d)))
  /\ matches (snd (extend_loop fuel data i offset_ len_ bestLen d)) = matches d.
Proof.
  induction fuel as [|fuel IH]; intros len_ bestLen d Hi Ho Hl Hin Heq Hd;
    cbn [extend_loop]; [split; [exact Hd | reflexivity]|].
  destruct (len_ <=? MAX_LEN) eqn:E; [| split; [exact Hd | reflexivity]].
  apply Z.leb_le in E.
  set (st := if bestLen <? len_ then _ else _).
  assert (opts_ok i (optimals (snd st)) /\ matches (snd st) = matches d) as [Hst Hm].
  { subst st. destruct (bestLen <? len_); cbn [snd]; [| split; [exact Hd | reflexivity]].
    destruct (_ <? _); [| split; [exact Hd | reflexivity]].
    split; [| reflexivity]. apply zx7_set_opt_ok; [exact Hi | | exact Hd].
    right. cbn [offset len]. split; [exact Ho|]. split; [lia|]. split; [exact Hin|].
    exact Heq. }
  destruct st as [bestLen' d']. cbn [snd] in Hst, Hm.
  destruct (_ || _)%bool eqn:Eb; [split; [exact Hst | exact Hm]|].
  apply orb_false_iff in Eb as [E1 E2]. apply Z.ltb_ge in E1.
  apply negb_false_iff in E2.
  apply js_eq_lookup in E2; [| lia].
  destruct (IH (len_ + 1) bestLen' d' Hi Ho) as [H1 H2]; try lia; try assumption.
  - intros t Ht. destruct (Z.eq_dec t len_) as [->|Hne]; [exact E2|]. apply Heq. lia.
  - split; [exact H1 | congruence].
Qed.

Lemma zx7_chain_loop_ok i : forall chain bestLen kept d,
  2 <= i < Z.of_nat (length data) ->
  (forall idx, In idx chain -> 1 <= idx <= i - 1 /\ key_at i = key_at idx) ->
  opts_ok i (optimals d) ->
  opts_ok i (optimals (snd (chain_loop chain data i bestLen kept d)))
  /\ matches (snd (chain_loop chain data i bestLen kept d)) = matches d.
Proof.
  intros chain. induction chain as [|index rest IH]; intros bestLen kept d Hi Hch Hd;
    cbn [chain_loop];
    [split; [exact Hd | reflexivity]|].
  destruct (bestLen <? MAX_LEN); [| split; [exact Hd | reflexivity]]. cbv zeta.
  destruct (MAX_OFFSET2 <? i - index) eqn:E; [split; [exact Hd | reflexivity]|].
  apply Z.ltb_ge in E.
  destruct (Hch index ltac:(now left)) as [Hidx Hkey].
  apply key_at_inj in Hkey as [K1 K2].
  destruct (zx7_extend_loop_ok i (i - index) (Z.to_nat i + 1) 2 bestLen d) as [H1 H2];
    try lia; try assumption.
  - intros t Ht. rewrite !get_lookup by lia.
    assert (t = 0 \/ t = 1) as [->| ->] by lia.
    + rewrite !Z.sub_0_r. f_equal. replace (i - (i - index)) with index by lia.
      exact K2.
    + f_equal. replace (i - 1 - (i - index)) with (index - 1) by lia. exact K1.
  - destruct (extend_loop _ _ _ _ _ _ _) as [bestLen' d']. cbn [snd] in H1, H2.
    destruct (IH bestLen' (S kept) d' Hi) as [H3 H4]; [| exact H1 |].
    + intros idx Hin. apply Hch. now right.
    + split; [exact H3 | congruence].
Qed.

Lemma zx7_dp_step_ok d i :
  (1 <= i < length data)%nat ->
  opts_ok (Z.of_nat i - 1) (optimals d) -> chains_ok (Z.of_nat i - 1) (matches d) ->
  opts_ok (Z.of_nat i) (optimals (dp_step data d i))
  /\ chains_ok (Z.of_nat i) (matches (dp_step data d i)).
Proof.
  intros Hi [Hl Hall] Hch. unfold dp_step. cbv zeta.
  set (d1 := set_opt (Z.of_nat i) _ d).
  assert (opts_ok (Z.of_nat i) (optimals d1)) as H1.
  { split; [unfold d1, set_opt; cbn [optimals]; now rewrite length_insert|].
    intros j Hj. destruct (Z.eq_dec (Z.of_nat i) j) as [<-|Hne].
    - unfold d1. rewrite opt_at_set_eq by lia. now left.
    - unfold d1. rewrite opt_at_set_ne by lia. apply Hall. lia. }
  rewrite len1_loop_id.
  2:{ unfold d1. rewrite opt_at_set_eq, opt_at_set_ne by lia. reflexivity. }
  fold (key_at (Z.of_nat i)).
  set (chain := chain_of d1 (key_at (Z.of_nat i))).
  assert (forall idx, In idx chain ->
            1 <= idx <= Z.of_nat i - 1 /\ key_at (Z.of_nat i) = key_at idx) as Hchain.
  { intros idx Hin. apply Hch, Hin. }
  destruct (Nat.eq_dec i 1%nat) as [->|Hne].
  - assert (chain = []) as ->.
    { destruct chain as [|idx rest]; [reflexivity|].
      destruct (Hchain idx ltac:(now left)) as [Hr _]. lia. }
    cbn [chain_loop optimals matches]. split; [exact H1|].
    intros key idx. destruct (Z.eq_dec (key_at (Z.of_nat 1)) key) as [<-|Hk].
    + rewrite lookup_insert_eq. cbn [default]. intros [<-|[]]. split; [lia | reflexivity].
    + rewrite lookup_insert_ne by exact Hk. intros Hin.
      destruct (Hch key idx Hin) as [Hr _]. lia.
  - destruct (zx7_chain_loop_ok (Z.of_nat i) chain 1 0%nat d1) as [H2 H3];
      try lia; try assumption.
    destruct (chain_loop _ _ _ _ _ _) as [flushed d3]. cbn [snd] in H2, H3.
    cbn [optimals matches]. split; [exact H2|].
    intros key idx. destruct (Z.eq_dec (key_at (Z.of_nat i)) key) as [<-|Hk].
    + rewrite lookup_insert_eq. cbn [default]. intros [<-|Hin]; [split; [lia | reflexivity]|].
      assert (In idx chain) as Hin'.
      { destruct flushed as [kept|]; [| exact Hin].
        rewrite <- (take_drop kept chain). apply in_or_app. now left. }
      destruct (Hchain idx Hin') as [Hr Hkey]. split; [lia | exact Hkey].
    + rewrite lookup_insert_ne by exact Hk. rewrite H3. intros Hin.
      destruct (Hch key idx Hin) as [Hr Hkey]. split; [lia | exact Hkey].
Qed.

Lemma zx7_dp_fold_ok : forall k d,
  (k < length data)%nat ->
  opts_ok 0 (optimals d) -> chains_ok 0 (matches d) ->
  opts_ok (Z.of_nat k) (optimals (fold_left (dp_step data) (seq 1 k) d))
  /\ chains_ok (Z.of_nat k) (matches (fold_left (dp_step data) (seq 1 k) d)).
Proof.
  induction k as [|k IH]; intros d Hk Ho Hc; [split; assumption|].
  rewrite seq_S, fold_left_app. cbn [fold_left Nat.add].
  destruct (IH d ltac:(lia) Ho Hc) as [H1 H2].
  apply zx7_dp_step_ok; [lia | |]; now replace (Z.of_nat (S k) - 1) with (Z.of_nat k) by lia.
Qed.

(** *** The clean-up leaves a chain of tokens *)

(** Positions 1 to [m] are covered by tokens: the entry at [m] is one the
    search left (it satisfies [Q]), the entries of the positions it covers
    besides [m] are cleared, and the positions before them are covered in
    the same way. *)
Inductive tiled (Q : Z -> optimal -> Prop) (opts : list optimal) : Z -> Prop :=
  | tiled_0 : tiled Q opts 0
  | tiled_step m :
      1 <= len (opt_at opts m) <= m ->
      Q m (opt_at opts m) ->
      (forall j, m - len (opt_at opts m) < j < m -> len (opt_at opts j) = 0) ->
      tiled Q opts (m - len (opt_at opts m)) ->
      tiled Q opts m.

Lemma tiled_weaken (Q Q' : Z -> optimal -> Prop) opts :
  (forall j o, Q j o -> Q' j o) -> forall m, tiled Q opts m -> tiled Q' opts m.
Proof.
  intros HQ m. induction 1 as [|m Hl He Hz Ht IH]; [constructor|].
  apply tiled_step; auto.
Qed.

Lemma entry_ok_len i o : 1 <= i -> entry_ok i o -> 1 <= len o <= i.
Proof. intros Hi [[_ ->]|(Ho & Hl & Hin & _)]; lia. Qed.

(** The inner [for] of the clean-up. *)
Lemma clear_fold : forall (js : list nat) (opts : list optimal),
  let res := fold_left (fun opts j =>
               <[j := mkOpt (bits (opt_at opts (Z.of_nat j))) 0 0]> opts) js opts in
  length res = length opts
  /\ (forall j, In j js -> (j < length opts)%nat -> len (opt_at res (Z.of_nat j)) = 0)
  /\ (forall j, ~ In j js -> res !! j = opts !! j).
Proof.
  induction js as [|a js IH]; intros opts; cbn [fold_left].
  - split; [reflexivity|]. split; [intros j []|]. reflexivity.
  - cbv zeta in IH.
    destruct (IH (<[a := mkOpt (bits (opt_at opts (Z.of_nat a))) 0 0]> opts))
      as (H1 & H2 & H3).
    rewrite length_insert in H1, H2. split; [exact H1|]. split.
    + intros j Hin Hj. destruct (in_dec Nat.eq_dec j js) as [Hjs|Hjs].
      * apply H2; assumption.
      * destruct Hin as [->|Hin]; [| contradiction].
        unfold opt_at at 1. rewrite Nat2Z.id, H3 by exact Hjs.
        now rewrite list_lookup_insert_eq by exact Hj.
    + intros j Hnin. rewrite H3 by (intros Hin; apply Hnin; now right).
      apply list_lookup_insert_ne. intros ->. apply Hnin. now left.
Qed.

Lemma cleanup_loop_tiled (Q : Z -> optimal -> Prop) :
  (forall j o, 1 <= j -> Q j o -> 1 <= len o <= j) ->
  forall fuel i opts,
    0 <= i < Z.of_nat fuel -> i < Z.of_nat (length data) ->
    length opts = length data ->
    (forall j, 1 <= j <= i -> Q j (opt_at opts j)) ->
    exists opts',
      cleanup_loop fuel i opts = Ok opts'
      /\ length opts' = length data
      /\ (forall j, i < j -> opt_at opts' j = opt_at opts j)
      /\ tiled Q opts' i.
Proof.
  intros HQ. induction fuel as [|fuel IH]; intros i opts Hi Hn Hl Hall; [lia|].
  destruct (1 <? i) eqn:E.
  - cbn [cleanup_loop]. rewrite E. apply Z.ltb_lt in E. cbv zeta.
    pose proof (HQ i _ ltac:(lia) (Hall i ltac:(lia))) as HL.
    set (L := len (opt_at opts i)) in *.
    set (js := rev (seq (Z.to_nat (i - L + 1)) (Z.to_nat (L - 1)))).
    destruct (clear_fold js opts) as (C1 & C2 & C3). cbv zeta in C1, C2, C3.
    set (opts1 := fold_left _ js opts) in *.
    assert (forall j : nat, In j js <-> i - L < Z.of_nat j < i) as Hjs.
    { intros j. unfold js. rewrite <- in_rev, in_seq. lia. }
    assert (forall j, 0 <= j -> ~ (i - L < j < i) -> opt_at opts1 j = opt_at opts j)
      as Hsame.
    { intros j Hj Hout. unfold opt_at. rewrite C3; [reflexivity|].
      rewrite Hjs. lia. }
    destruct (IH (i - L) opts1) as (opts' & Hc & Hl' & Habove & Ht); [lia | lia | lia | |].
    { intros j Hj. rewrite Hsame by lia. apply Hall. lia. }
    assert (opt_at opts' i = opt_at opts i) as Ei
      by (rewrite Habove by lia; apply Hsame; lia).
    exists opts'. split; [exact Hc|]. split; [exact Hl'|]. split.
    + intros j Hj. rewrite Habove by lia. apply Hsame; lia.
    + apply tiled_step; rewrite Ei; fold L.
      * exact HL.
      * apply Hall. lia.
      * intros j Hj. rewrite Habove by lia.
        replace j with (Z.of_nat (Z.to_nat j)) by lia. apply C2.
        -- apply Hjs. lia.
        -- lia.
      * exact Ht.
  - exists opts. split.
    + destruct fuel; cbn [cleanup_loop]; now rewrite E.
    + apply Z.ltb_ge in E. split; [exact Hl|]. split; [reflexivity|].
      destruct (Z.eq_dec i 0) as [->|Hne]; [constructor|].
      assert (i = 1) as -> by lia.
      pose proof (HQ 1 _ ltac:(lia) (Hall 1 ltac:(lia))) as HL.
      assert (len (opt_at opts 1) = 1) as EL by lia.
      apply tiled_step; rewrite ?EL.
      * lia.
      * apply Hall. lia.
      * intros j Hj. lia.
      * constructor.
Qed.

(** *** The stream [compress] writes *)

Definition token_ops (opts : list optimal) (i : nat) : list wop :=
  let opt := opt_at opts (Z.of_nat i) in
  if 0 <? len opt then
    if offset opt =? 0
    then [WBit 0; WByte (get data (Z.to_nat (Z.of_nat i - len opt + 1)))]
    else doublet_ops (len opt) (offset opt)
  else [].

Definition stream_ops (opts : list optimal) (k : nat) : list wop :=
  flat_map (token_ops opts) (seq 1 k).

Definition w0 : writer := writeByte (get data 0) (mkWriter [] 0 0).

Lemma tiled_cases opts : forall m,
  tiled entry_ok opts m ->
  forall j, 1 <= j <= m -> len (opt_at opts j) = 0 \/ entry_ok j (opt_at opts j).
Proof.
  induction 1 as [|m Hl He Hz Ht IH]; intros j Hj; [lia|].
  destruct (Z.eq_dec j m) as [->|Hne]; [now right|].
  destruct (Z_lt_le_dec (m - len (opt_at opts m)) j) as [Hlt|Hle].
  - left. apply Hz. lia.
  - apply IH. lia.
Qed.

Lemma write_fold_ops opts : forall k w,
  (forall j, 1 <= j <= Z.of_nat k ->
     len (opt_at opts j) = 0 \/ entry_ok j (opt_at opts j)) ->
  fold_left (fun w i =>
      let opt := opt_at opts (Z.of_nat i) in
      if 0 <? len opt then
        let index := Z.of_nat i - len opt + 1 in
        if offset opt =? 0 then writeLiteral (get data (Z.to_nat index)) w
        else writeDoublet (len opt) (offset opt) w
      else w) (seq 1 k) w
  = run_w (stream_ops opts k) w.
Proof.
  induction k as [|k IH]; intros w Hall; [reflexivity|].
  unfold stream_ops. rewrite seq_S, fold_left_app, flat_map_app, zx7_run_w_app.
  fold (stream_ops opts k). rewrite IH by (intros j Hj; apply Hall; lia).
  cbn [fold_left flat_map Nat.add]. rewrite app_nil_r. unfold token_ops. cbv zeta.
  destruct (Hall (Z.of_nat (S k)) ltac:(lia)) as [E|[[E1 E2]|(Ho & Hl & _)]].
  - rewrite E. reflexivity.
  - rewrite E1, E2. reflexivity.
  - assert ((0 <? len (opt_at opts (Z.of_nat (S k)))) = true) as ->
      by (apply Z.ltb_lt; lia).
    assert ((offset (opt_at opts (Z.of_nat (S k))) =? 0) = false) as ->
      by (apply Z.eqb_neq; lia).
    apply writeDoublet_ops. exact Hl.
Qed.

Lemma write_stream_ops opts :
  tiled entry_ok opts (Z.of_nat (length data - 1)) ->
  write_stream data opts = run_w (stream_ops opts (length data - 1) ++ end_ops) w0.
Proof.
  intros Ht. unfold write_stream. cbv zeta.
  rewrite writeEnd_ops, zx7_run_w_app. f_equal.
  apply write_fold_ops. apply tiled_cases, Ht.
Qed.

Lemma flat_map_nil {A B} (f : A -> list B) (l : list A) :
  (forall x, In x l -> f x = []) -> flat_map f l = [].
Proof.
  induction l as [|a l IH]; intros H; [reflexivity|]. cbn [flat_map].
  rewrite H by now left. apply IH. intros x Hx. apply H. now right.
Qed.

Lemma stream_ops_tile opts m :
  1 <= len (opt_at opts m) <= m ->
  (forall j, m - len (opt_at opts m) < j < m -> len (opt_at opts j) = 0) ->
  stream_ops opts (Z.to_nat m)
  = stream_ops opts (Z.to_nat (m - len (opt_at opts m))) ++ token_ops opts (Z.to_nat m).
Proof.
  intros Hl Hz. set (L := len (opt_at opts m)) in *. unfold stream_ops.
  replace (Z.to_nat m) with (Z.to_nat (m - L) + (Z.to_nat (L - 1) + 1))%nat at 1 by lia.
  rewrite seq_app, flat_map_app. f_equal.
  rewrite seq_app, flat_map_app. rewrite flat_map_nil.
  - cbn [seq flat_map app]. rewrite app_nil_r. f_equal. lia.
  - intros j Hj. apply in_seq in Hj. unfold token_ops. cbv zeta.
    rewrite Hz by lia. reflexivity.
Qed.

(** *** The decoder on the stream *)

Definition budget (w : writer) : Z := 8 * Z.of_nat (length (dest w)) + used w.

Lemma zx7_run_op_budget w o : wf w -> budget w + 1 <= budget (run_op w o).
Proof.
  intros Hw. pose proof (wf_used w Hw). destruct o as [v|b]; cbn [run_op].
  - destruct (Z.eq_dec (used w) 8) as [H8|H8].
    + unfold budget. rewrite H8. rewrite zx7_writeBit_rotate by assumption.
      cbn [dest]. rewrite length_app. cbn [length].
      change (used (mkWriter _ 64 _)) with 1. lia.
    + unfold budget. rewrite zx7_keep_used by (try assumption; lia).
      rewrite zx7_writeBit_keep by (try assumption; lia). cbn [dest].
      rewrite length_insert. lia.
  - unfold budget. rewrite zx7_writeByte_used. unfold writeByte. cbn [dest].
    rewrite length_app. cbn [length]. lia.
Qed.

Lemma zx7_run_w_budget ops : forall w,
  wf w -> budget w + Z.of_nat (length ops) <= budget (run_w ops w).
Proof.
  induction ops as [|o ops IH]; intros w Hw; cbn [length run_w fold_left]; [lia|].
  pose proof (zx7_run_op_budget w o Hw).
  pose proof (IH _ (zx7_run_op_wf w o Hw)) as H2. unfold run_w in H2. lia.
Qed.

Lemma committed_self w : wf w -> committed (dest w) w.
Proof.
  intros [Hu Hm Hi Hl Hb]. split; [reflexivity|].
  exists (get (dest w) (bitIndex w)). split; [apply get_lookup, Hi|].
  split; [apply all_bytes_get, Hb | reflexivity].
Qed.

Lemma zx7_w0_wf : wf w0.
Proof.
  unfold w0, writeByte. cbn [dest bitMask bitIndex app].
  assert (0 <= Z.land (get data 0) 255 < 256) as Hb.
  { split; [apply Z.land_nonneg; lia|]. change 255 with (Z.ones 8).
    rewrite Z.land_ones by lia. apply Z.mod_pos_bound. lia. }
  split; unfold acc, used; cbn [dest bitMask bitIndex Z.eqb].
  - lia.
  - reflexivity.
  - cbn [length]. lia.
  - change (8 - 8) with 0. rewrite Z.shiftr_0_r. change (2 ^ 0) with 1. lia.
  - repeat constructor; lia.
Qed.

Lemma literal_step final w r c :
  wf w -> sync final w r -> committed final (run_w [WBit 0; WByte c] w) ->
  (inputIndex r < length final)%nat ->
  exists r', sync final (run_w [WBit 0; WByte c] w) r'
    /\ forall fuel out,
         decode_loop (S fuel) final r out
         = decode_loop fuel final r' (out ++ [Z.land c 0xFF]).
Proof.
  intros Hw Hs Hc Hlt.
  destruct (zx7_replay_run final _ w r Hw Hs Hc) as (r' & Hr & Hs').
  exists r'. split; [exact Hs'|]. intros fuel out.
  cbn [map stored] in Hr.
  apply zx7_replay_bit in Hr as (r1 & Hb & Hc1 & Hr).
  apply zx7_replay_byte in Hr as (r2 & Hy & Hr). cbn [replay] in Hr.
  injection Hr as <-.
  cbn [decode_loop].
  assert ((inputIndex r <? length final)%nat = true) as -> by (apply Nat.ltb_lt; lia).
  rewrite Hb. cbn [mbind result_bind rbind]. rewrite Hc1.
  change (truth 0 =? 0) with true. cbv iota. rewrite Hy. reflexivity.
Qed.

Lemma doublet_step final w r L O :
  wf w -> sync final w r -> committed final (run_w (doublet_ops L O) w) ->
  (inputIndex r < length final)%nat ->
  2 <= L <= MAX_LEN -> 1 <= O <= MAX_OFFSET2 ->
  exists r', sync final (run_w (doublet_ops L O) w) r'
    /\ forall fuel out,
         O <= Z.of_nat (length out) ->
         decode_loop (S fuel) final r out
         = decode_loop fuel final r' (copy out O (Z.to_nat L)).
Proof.
  intros Hw Hs Hc Hlt HL HO. unfold MAX_LEN in HL.
  destruct (zx7_replay_run final _ w r Hw Hs Hc) as (r' & Hr & Hs').
  exists r'. split; [exact Hs'|]. intros fuel out Hout.
  unfold doublet_ops in Hr. cbn [map stored] in Hr. rewrite map_app in Hr.
  apply zx7_replay_bit in Hr as (r1 & Hb & Hc1 & Hr).
  apply zx7_read_gamma in Hr as (r2 & Hg & Hr); [| lia].
  rewrite <- (app_nil_r (offset_ops O)) in Hr at 1.
  rewrite <- (app_nil_r (map stored (offset_ops O))) in Hr.
  apply zx7_read_offset in Hr as (r3 & Ho & Hr); [| exact HO].
  cbn [replay] in Hr. injection Hr as <-.
  cbn [decode_loop].
  assert ((inputIndex r <? length final)%nat = true) as -> by (apply Nat.ltb_lt; lia).
  rewrite Hb. cbn [mbind result_bind rbind]. rewrite Hc1.
  change (truth 1 =? 0) with false. cbv iota. rewrite Hg.
  cbn [mbind result_bind rbind].
  assert ((L - 1 =? 0) = false) as -> by (apply Z.eqb_neq; lia).
  cbv zeta. rewrite Ho. cbn [mbind result_bind rbind].
  assert ((Z.of_nat (length out) <? O) = false) as -> by (apply Z.ltb_ge; lia).
  now replace (L - 1 + 1) with L by lia.
Qed.

Lemma end_step final w r :
  wf w -> sync final w r -> committed final (run_w end_ops w) ->
  forall fuel out, decode_loop (S fuel) final r out = Ok out.
Proof.
  intros Hw Hs Hc fuel out.
  destruct (zx7_replay_run final _ w r Hw Hs Hc) as (r' & Hr & _).
  unfold end_ops in Hr. cbn [map stored] in Hr.
  apply zx7_replay_bit in Hr as (r1 & Hb & Hc1 & Hr).
  apply zx7_read_end_gamma in Hr as (r2 & Hg).
  cbn [decode_loop]. destruct (_ <? _)%nat; [| reflexivity].
  rewrite Hb. cbn [mbind result_bind rbind]. rewrite Hc1.
  change (truth 1 =? 0) with false. cbv iota. rewrite Hg. reflexivity.
Qed.

(** The copy loop of a match, on a match the optimiser recorded. *)
Lemma copy_take s O : forall c,
  1 <= O <= Z.of_nat s -> (s + c <= length data)%nat ->
  (forall t, (t < c)%nat -> data !! (s + t)%nat = data !! Z.to_nat (Z.of_nat (s + t) - O)) ->
  copy (take s data) O c = take (s + c) data.
Proof.
  induction c as [|c IH]; intros HO Hin Heq.
  - cbn. now rewrite Nat.add_0_r.
  - unfold copy in *. rewrite seq_S, fold_left_app. cbn [fold_left].
    rewrite IH; [| exact HO | lia | intros t Ht; apply Heq; lia].
    rewrite length_take. replace (Nat.min (s + c) (length data)) with (s + c)%nat by lia.
    destruct (lookup_lt_is_Some_2 data (s + c)) as [v Hv]; [lia|].
    unfold get. rewrite lookup_take_lt by lia.
    rewrite <- Heq by lia. rewrite Hv. cbn [default].
    replace (s + S c)%nat with (S (s + c)) by lia.
    now rewrite (take_S_r _ _ v) by exact Hv.
Qed.

Lemma zx7_dest_grows ops : forall w, (length (dest w) <= length (dest (run_w ops w)))%nat.
Proof.
  induction ops as [|o ops IH]; intros w; [reflexivity|]. cbn [run_w fold_left].
  etransitivity; [| apply IH]. destruct o as [v|b]; cbn [run_op].
  - unfold writeBit. destruct (_ =? 0); cbv zeta; destruct (_ =? 0);
      unfold writeByte; cbn [dest bitMask bitIndex];
      rewrite ?length_insert, ?length_app; cbn [length]; lia.
  - unfold writeByte. cbn [dest]. rewrite length_app. lia.
Qed.

Lemma decode_tiled opts final : forall m,
  tiled entry_ok opts m ->
  forall after,
    m < Z.of_nat (length data) -> (18 <= length after)%nat ->
    final = dest (run_w after (run_w (stream_ops opts (Z.to_nat m)) w0)) ->
    exists r k,
      sync final (run_w (stream_ops opts (Z.to_nat m)) w0) r
      /\ (k <= length (stream_ops opts (Z.to_nat m)))%nat
      /\ forall fuel,
           decode_loop (k + fuel) final (mkReader 1 128 0) [get data 0]
           = decode_loop fuel final r (take (S (Z.to_nat m)) data).
Proof.
  induction 1 as [|m Hl He Hz Ht IH]; intros after Hm Hafter Hfinal.
  - change (stream_ops opts (Z.to_nat 0)) with (@nil wop) in *. cbn [run_w fold_left] in *.
    pose proof (zx7_run_w_wf after w0 zx7_w0_wf) as Hwf.
    pose proof (committed_self _ Hwf) as Hcom. rewrite <- Hfinal in Hcom.
    apply zx7_run_w_back in Hcom; [| exact zx7_w0_wf].
    destruct Hcom as [_ (v & Hv & _)].
    exists (mkReader 1 128 0), 0%nat. split; [| split; [reflexivity|]].
    + split; [reflexivity|]. exists v. split; [exact Hv|].
      change (used w0) with 8. cbn [regA]. change (2 ^ 8) with 256.
      change (2 ^ (8 - 1)) with 128. rewrite Z.add_comm, Z.mod_add by lia. reflexivity.
    + intros fuel. cbn [Nat.add]. f_equal.
      destruct data as [|b rest]; [cbn in Hm; lia | reflexivity].
  - set (L := len (opt_at opts m)) in *.
    pose proof (stream_ops_tile opts m Hl Hz) as Esplit. fold L in Esplit.
    rewrite Esplit in *. rewrite zx7_run_w_app in *.
    set (w1 := run_w (stream_ops opts (Z.to_nat (m - L))) w0) in *.
    set (tok := token_ops opts (Z.to_nat m)) in *.
    assert (wf w1) as Hw1 by apply zx7_run_w_wf, zx7_w0_wf.
    destruct (IH (tok ++ after)) as (r1 & k1 & Hs1 & Hk1 & Hdec1).
    { lia. }
    { rewrite length_app. lia. }
    { now rewrite zx7_run_w_app. }
    pose proof (zx7_run_w_wf after _ (zx7_run_w_wf tok _ Hw1)) as Hwf.
    pose proof (committed_self _ Hwf) as Hcom. rewrite <- Hfinal in Hcom.
    apply zx7_run_w_back in Hcom; [| apply zx7_run_w_wf, Hw1].
    assert (inputIndex r1 < length final)%nat as Hlt.
    { destruct Hs1 as [-> _]. rewrite Hfinal, <- zx7_run_w_app.
      pose proof (zx7_run_w_budget (tok ++ after) w1 Hw1) as Hb.
      pose proof (wf_used _ (zx7_run_w_wf (tok ++ after) w1 Hw1)) as Hu2.
      pose proof (wf_used _ Hw1) as Hu1.
      unfold budget in Hb. rewrite length_app in Hb. lia. }
    assert (Z.to_nat (m - L) + Z.to_nat L = Z.to_nat m)%nat as Epos by lia.
    unfold tok, token_ops in *. cbv zeta in *.
    replace (Z.of_nat (Z.to_nat m)) with m in * by lia. fold L in Hcom |- *.
    assert ((0 <? L) = true) as E0 by (apply Z.ltb_lt; lia).
    rewrite E0 in *.
    destruct He as [[Eo EL]|(HO & HL & Hin & Heq)].
    + rewrite Eo in *. cbn [Z.eqb] in *.
      destruct (literal_step final w1 r1 _ Hw1 Hs1 Hcom Hlt) as (r2 & Hs2 & Hstep).
      exists r2, (S k1). split; [exact Hs2|]. split; [rewrite length_app; cbn; lia|].
      intros fuel. replace (S k1 + fuel)%nat with (k1 + S fuel)%nat by lia.
      rewrite Hdec1, Hstep. f_equal.
      replace (m - L + 1) with m by lia.
      destruct (lookup_lt_is_Some_2 data (Z.to_nat m)) as [v Hv]; [lia|].
      unfold get. rewrite Hv. cbn [default]. change (id v) with v.
      assert (Z.land v 255 = v) as ->.
      { pose proof (proj1 (Forall_lookup _ data) data_bytes _ v Hv) as Hvb.
        change 255 with (Z.ones 8). rewrite Z.land_ones by lia.
        apply Z.mod_small. exact Hvb. }
      replace (S (Z.to_nat (m - L))) with (Z.to_nat m) by lia.
      now rewrite (take_S_r _ _ v) by exact Hv.
    + assert ((offset (opt_at opts m) =? 0) = false) as E1 by (apply Z.eqb_neq; lia).
      rewrite E1 in *.
      destruct (doublet_step final w1 r1 L _ Hw1 Hs1 Hcom Hlt HL HO)
        as (r2 & Hs2 & Hstep).
      exists r2, (S k1). split; [exact Hs2|].
      split; [rewrite length_app; unfold doublet_ops; cbn [length]; lia|].
      intros fuel. replace (S k1 + fuel)%nat with (k1 + S fuel)%nat by lia.
      rewrite Hdec1.
      assert (length (take (S (Z.to_nat (m - L))) data) = S (Z.to_nat (m - L))) as Elen
        by (rewrite length_take; lia).
      rewrite Hstep by (rewrite Elen; lia). f_equal.
      rewrite copy_take.
      * f_equal. lia.
      * lia.
      * lia.
      * intros t Ht'. specialize (Heq (L - 1 - Z.of_nat t) ltac:(lia)).
        replace (S (Z.to_nat (m - L)) + t)%nat with (Z.to_nat (m - (L - 1 - Z.of_nat t)))
          by lia.
        rewrite Heq. f_equal. lia.
Qed.

End Optimiser.

Lemma w0_used data : used (w0 data) = 8.
Proof. reflexivity. Qed.
Lemma w0_length data : length (dest (w0 data)) = 1%nat.
Proof. reflexivity. Qed.
Lemma end_ops_length : length end_ops = 18%nat.
Proof. reflexivity. Qed.

Lemma budget_length ops w :
  wf w ->
  8 * Z.of_nat (length (dest w)) + used w + Z.of_nat (length ops)
  <= 8 * Z.of_nat (length (dest (run_w ops w))) + 8.
Proof.
  intros Hw. pose proof (zx7_run_w_budget ops w Hw) as H.
  pose proof (wf_used _ (zx7_run_w_wf ops w Hw)). unfold budget in H. lia.
Qed.

(** What the decoder makes of the stream of a chain of tokens. *)
Lemma zx7_decode_stream data opts stream w1 final :
  all_bytes data -> (0 < length data)%nat ->
  tiled (entry_ok data) opts (Z.of_nat (length data - 1)) ->
  stream = stream_ops data opts (length data - 1) ->
  w1 = run_w stream (w0 data) ->
  final = dest (run_w end_ops w1) ->
  decompress final = Ok data.
Proof.
  intros Hb Hn Htiled Estream Ew1 Efinal.
  pose proof (zx7_w0_wf data) as Hw0.
  assert (wf w1) as Hw1 by (rewrite Ew1; apply zx7_run_w_wf, Hw0).
  assert (committed final (run_w end_ops w1)) as Hcom
    by (rewrite Efinal; apply committed_self, zx7_run_w_wf, Hw1).
  assert (committed final (w0 data)) as Hc0.
  { apply (zx7_run_w_back final stream _ Hw0). rewrite <- Ew1.
    apply (zx7_run_w_back final end_ops _ Hw1), Hcom. }
  assert (Z.of_nat (length stream) + 1 <= 8 * Z.of_nat (length final) + 8
          /\ (0 < length final)%nat) as [Hbud Hpos].
  { pose proof (budget_length stream (w0 data) Hw0) as H1.
    pose proof (budget_length end_ops w1 Hw1) as H2.
    pose proof (wf_used _ Hw1) as Hu.
    rewrite <- Ew1 in H1. rewrite <- Efinal in H2.
    rewrite w0_used, w0_length in H1. rewrite end_ops_length in H2. lia. }
  assert (final !! 0%nat = Some (get data 0)) as Hfirst.
  { destruct Hc0 as [_ (v & Hv & _ & Hs)].
    change (bitIndex (w0 data)) with 0%nat in Hv. rewrite Hv. f_equal.
    unfold acc in Hs. rewrite w0_used in Hs.
    change (8 - 8) with 0 in Hs. rewrite !Z.shiftr_0_r in Hs. rewrite Hs.
    unfold w0, writeByte, get. cbn [dest bitIndex app lookup list_lookup default].
    pose proof (all_bytes_get data 0 Hb) as Hg. unfold get in Hg.
    change 255 with (Z.ones 8). rewrite Z.land_ones by lia. apply Z.mod_small. exact Hg. }
  destruct (decode_tiled data Hb opts final _ Htiled end_ops) as (r & k & Hs & Hk & Hdec).
  { lia. }
  { change (length end_ops) with 18%nat. lia. }
  { rewrite Nat2Z.id, <- Estream, <- Ew1. exact Efinal. }
  rewrite Nat2Z.id in Hs, Hk, Hdec. rewrite <- Estream in Hs, Hk. rewrite <- Ew1 in Hs.
  unfold decompress.
  assert ((length final =? 0)%nat = false) as -> by (apply Nat.eqb_neq; lia).
  unfold readByte. cbn [inputIndex regA flagCarry].
  assert ((length final <=? 0)%nat = false) as -> by (apply Nat.leb_gt; lia).
  unfold get at 1. rewrite Hfirst. cbn [default mbind result_bind rbind].
  replace (8 * length final + 8)%nat
    with (k + S (8 * length final + 8 - k - 1))%nat by lia.
  change (id (get data 0)) with (get data 0). rewrite Hdec.
  rewrite (end_step final w1 r Hw1 Hs Hcom).
  cbn [mbind result_bind rbind]. f_equal.
  replace (S (length data - 1)) with (length data) by lia.
  rewrite firstn_all. apply to_u8_bytes, Hb.
Qed.

(** The table the search of [compress] leaves. *)
Definition dp_result (data : list Z) : dp :=
  fold_left (dp_step data) (seq 1 (length data - 1))
    (mkDp (<[0%nat := mkOpt 8 0 1]> (replicate (length data) (mkOpt 0 0 0))) ∅).

Lemma dp_result_ok data :
  all_bytes data -> (0 < length data)%nat ->
  opts_ok data (Z.of_nat (length data) - 1) (optimals (dp_result data)).
Proof.
  intros Hb Hn. unfold dp_result. set (d0 := mkDp _ ∅).
  destruct (zx7_dp_fold_ok data Hb (length data - 1) d0) as [Hopts _].
  { lia. }
  { split; [| intros j Hj; lia]. unfold d0. cbn [optimals].
    now rewrite length_insert, length_replicate. }
  { intros key idx. unfold d0. cbn [matches]. rewrite lookup_empty. intros []. }
  now replace (Z.of_nat (length data - 1)) with (Z.of_nat (length data) - 1) in Hopts by lia.
Qed.

(** [compress] returns the stream of a chain of tokens, cut at 512 KiB; the
    tokens are entries the search left. *)
Lemma zx7_compress_stream data (Q : Z -> optimal -> Prop) :
  all_bytes data -> (0 < length data)%nat ->
  (forall j o, Q j o -> entry_ok data j o) ->
  (forall j, 1 <= j <= Z.of_nat (length data) - 1 ->
     Q j (opt_at (optimals (dp_result data)) j)) ->
  exists opts,
    tiled Q opts (Z.of_nat (length data - 1))
    /\ compress data
       = Ok (take (Z.to_nat (512 * 1024))
               (dest (run_w end_ops
                        (run_w (stream_ops data opts (length data - 1)) (w0 data))))).
Proof.
  intros Hb Hn HQ Hall. unfold compress.
  assert ((length data =? 0)%nat = false) as -> by (apply Nat.eqb_neq; lia).
  cbv zeta. rewrite (to_u8_bytes data Hb). fold (dp_result data).
  pose proof (dp_result_ok data Hb Hn) as [Hlen _].
  destruct (cleanup_loop_tiled data Q
              (fun j o Hj Hq => entry_ok_len data j o Hj (HQ j o Hq))
              (length data) (Z.of_nat (length data) - 1)
              (optimals (dp_result data))) as (opts & Hclean & _ & _ & Htiled);
    [lia | lia | exact Hlen | exact Hall |].
  rewrite Hclean. cbn [mbind result_bind rbind].
  replace (Z.of_nat (length data) - 1) with (Z.of_nat (length data - 1)) in Htiled by lia.
  exists opts. split; [exact Htiled|].
  now rewrite (write_stream_ops data opts (tiled_weaken Q _ opts HQ _ Htiled)),
    zx7_run_w_app.
Qed.

Lemma zx7_compress_decompress data :
  all_bytes data -> (0 < length data)%nat ->
  exists s,
    compress data = Ok s
    /\ (Z.of_nat (length s) < 512 * 1024 -> decompress s = Ok data).
Proof.
  intros Hb Hn.
  destruct (zx7_compress_stream data (entry_ok data) Hb Hn (fun j o H => H))
    as (opts & Htiled & ->); [apply (dp_result_ok data Hb Hn)|].
  eexists. split; [reflexivity|]. intros Hshort.
  rewrite length_take in Hshort. rewrite take_ge by lia.
  now apply (zx7_decode_stream data opts _ _ _ Hb Hn Htiled eq_refl eq_refl).
Qed.

(** *** What the stream costs *)

(** The bits a call adds to the stream. *)
Definition weight (o : wop) : Z := match o with WBit _ => 1 | WByte _ => 8 end.

Fixpoint cost (ops : list wop) : Z :=
  match ops with
  | [] => 0
  | o :: ops => weight o + cost ops
  end.

Lemma cost_app a b : cost (a ++ b) = cost a + cost b.
Proof. induction a as [|o a IH]; cbn [app cost]; lia. Qed.

Lemma zx7_run_op_budget_eq w o : wf w -> budget (run_op w o) = budget w + weight o.
Proof.
  intros Hw. pose proof (wf_used w Hw). destruct o as [v|b]; cbn [run_op weight].
  - destruct (Z.eq_dec (used w) 8) as [H8|H8].
    + unfold budget. rewrite H8. rewrite zx7_writeBit_rotate by assumption.
      cbn [dest]. rewrite length_app. cbn [length].
      change (used (mkWriter _ 64 _)) with 1. lia.
    + unfold budget. rewrite zx7_keep_used by (try assumption; lia).
      rewrite zx7_writeBit_keep by (try assumption; lia). cbn [dest].
      rewrite length_insert. lia.
  - unfold budget. rewrite zx7_writeByte_used. unfold writeByte. cbn [dest].
    rewrite length_app. cbn [length]. lia.
Qed.

Lemma zx7_run_w_budget_eq ops : forall w,
  wf w -> budget (run_w ops w) = budget w + cost ops.
Proof.
  induction ops as [|o ops IH]; intros w Hw; cbn [run_w fold_left cost]; [lia|].
  pose proof (IH _ (zx7_run_op_wf w o Hw)) as H2. unfold run_w in H2.
  rewrite H2, zx7_run_op_budget_eq by exact Hw. lia.
Qed.

(** The length of the stream, from the cost of the calls. *)
Lemma stream_length ops w :
  wf w ->
  exists u, 1 <= u <= 8
            /\ 8 * Z.of_nat (length (dest (run_w ops w))) + u = budget w + cost ops.
Proof.
  intros Hw. exists (used (run_w ops w)). split; [apply wf_used, zx7_run_w_wf, Hw|].
  apply (zx7_run_w_budget_eq ops w Hw).
Qed.

Lemma cost_bits_ops v n : cost (bits_ops v n) = Z.of_nat n.
Proof.
  induction n as [|n IH]; [reflexivity|]. rewrite bits_ops_S.
  cbn [cost weight]. lia.
Qed.

Lemma cost_zeros z : cost (repeat (WBit 0) z) = Z.of_nat z.
Proof.
  induction z as [|z IH]; [reflexivity|]. cbn [repeat cost weight]. lia.
Qed.

Lemma cost_gamma_ops v : 1 <= v -> cost (gamma_ops v) = 2 * Z.log2 v + 1.
Proof.
  intros Hv. unfold gamma_ops. cbv zeta. rewrite cost_app, cost_zeros, cost_bits_ops.
  pose proof (Z.log2_nonneg v). lia.
Qed.

Lemma eliasGammaBits_loop_spec : forall fuel value bits,
  1 <= value < 2 ^ Z.of_nat fuel ->
  DAN1.eliasGammaBits_loop fuel value bits = bits + 2 * Z.log2 value.
Proof.
  induction fuel as [|fuel IH]; intros value bits Hv.
  - change (2 ^ Z.of_nat 0) with 1 in Hv. lia.
  - cbn [DAN1.eliasGammaBits_loop]. destruct (1 <? value) eqn:E.
    + apply Z.ltb_lt in E.
      assert (2 ^ Z.of_nat (S fuel) = 2 * 2 ^ Z.of_nat fuel) as Hp
        by (rewrite Nat2Z.inj_succ, Z.pow_succ_r by lia; lia).
      rewrite IH.
      * rewrite Z.log2_shiftr by lia.
        assert (1 <= Z.log2 value)
          by (apply Z.log2_le_pow2; [lia | change (2 ^ 1) with 2; lia]).
        lia.
      * rewrite Z.shiftr_div_pow2 by lia. change (2 ^ 1) with 2. split.
        -- apply Z.div_le_lower_bound; lia.
        -- apply Z.div_lt_upper_bound; lia.
    + apply Z.ltb_ge in E. assert (value = 1) as -> by lia. cbn. lia.
Qed.

Lemma cost_offset_ops O :
  cost (offset_ops O) = 1 + (if MAX_OFFSET1 <? O then BIT_OFFSET2 else BIT_OFFSET1).
Proof.
  unfold offset_ops, MAX_OFFSET1, BIT_OFFSET1, BIT_OFFSET2.
  destruct (128 <=? O - 1) eqn:E.
  - apply Z.leb_le in E. assert ((128 <? O) = true) as -> by (apply Z.ltb_lt; lia).
    cbn [cost weight]. rewrite cost_bits_ops. reflexivity.
  - apply Z.leb_gt in E. assert ((128 <? O) = false) as -> by (apply Z.ltb_ge; lia).
    reflexivity.
Qed.

Lemma cost_doublet_ops L O :
  2 <= L <= MAX_LEN -> cost (doublet_ops L O) = countBits O L.
Proof.
  unfold MAX_LEN. intros HL. unfold doublet_ops, countBits. cbv zeta.
  cbn [cost weight]. rewrite cost_app, cost_gamma_ops, cost_offset_ops by lia.
  unfold eliasGammaBits. rewrite eliasGammaBits_loop_spec
    by (change (2 ^ Z.of_nat 32) with 4294967296; lia).
  lia.
Qed.

(** What the cost model charges for an entry. *)
Definition tcost (o : optimal) : Z :=
  if offset o =? 0 then 1 + 8 else countBits (offset o) (len o).

Section Pricing.

Variable data : list Z.
Hypothesis data_bytes : all_bytes data.

(** The [bits] of an entry are the bits of the entry its token starts
    after, plus the price of the token; they are at most nine more than
    the bits of the entry before. *)
Definition priced (i : Z) (opts : list optimal) : Prop :=
  bits (opt_at opts 0) = 8
  /\ forall j, 1 <= j <= i ->
       bits (opt_at opts j)
       = bits (opt_at opts (j - len (opt_at opts j))) + tcost (opt_at opts j)
       /\ bits (opt_at opts j) <= bits (opt_at opts (j - 1)) + 9.

Lemma priced_prev i opts : priced i opts -> priced (i - 1) opts.
Proof. intros [H0 H]. split; [exact H0|]. intros j Hj. apply H. lia. Qed.

Lemma set_opt_priced i o d :
  1 <= i < Z.of_nat (length (optimals d)) ->
  opts_ok data (i - 1) (optimals d) -> priced (i - 1) (optimals d) ->
  1 <= len o <= i ->
  bits o = bits (opt_at (optimals d) (i - len o)) + tcost o ->
  bits o <= bits (opt_at (optimals d) (i - 1)) + 9 ->
  priced i (optimals (set_opt i o d)).
Proof.
  intros Hi [_ Hok] [H0 Hall] Hl Hb Hle. split.
  - rewrite opt_at_set_ne by lia. exact H0.
  - intros j Hj. destruct (Z.eq_dec i j) as [<-|Hne].
    + rewrite opt_at_set_eq by lia. rewrite !opt_at_set_ne by lia. split; assumption.
    + pose proof (entry_ok_len data j _ ltac:(lia) (Hok j ltac:(lia))) as Hlj.
      rewrite (opt_at_set_ne i j) by lia. rewrite !opt_at_set_ne by lia.
      apply Hall. lia.
Qed.

Lemma zx7_extend_loop_priced i offset_ : forall fuel len_ bestLen d,
  1 <= i < Z.of_nat (length data) -> 1 <= offset_ <= MAX_OFFSET2 -> 2 <= len_ ->
  offset_ + len_ <= i + 1 ->
  (forall t, 0 <= t < len_ ->
     data !! Z.to_nat (i - t) = data !! Z.to_nat (i - t - offset_)) ->
  opts_ok data i (optimals d) -> priced i (optimals d) ->
  priced i (optimals (snd (extend_loop fuel data i offset_ len_ bestLen d))).
Proof.
  induction fuel as [|fuel IH]; intros len_ bestLen d Hi Ho Hl Hin Heq Hd Hp;
    cbn [extend_loop]; [exact Hp|].
  destruct (len_ <=? MAX_LEN) eqn:E; [| exact Hp]. apply Z.leb_le in E.
  set (st := if bestLen <? len_ then _ else _).
  assert (opts_ok data i (optimals (snd st)) /\ priced i (optimals (snd st))) as [Hst Hpst].
  { subst st. destruct (bestLen <? len_); cbn [snd]; [| split; assumption].
    destruct (_ <? _) eqn:Eb; [| split; assumption]. apply Z.ltb_lt in Eb.
    split.
    - apply zx7_set_opt_ok; [lia | | exact Hd].
      right. cbn [offset len]. split; [exact Ho|]. split; [lia|]. split; [exact Hin|].
      exact Heq.
    - destruct Hd as [Hlen Hall]. destruct (proj2 Hp i ltac:(lia)) as [_ Hle].
      apply set_opt_priced; cbn [bits offset len].
      + lia.
      + split; [exact Hlen|]. intros j Hj. apply Hall. lia.
      + apply priced_prev, Hp.
      + lia.
      + unfold tcost. cbn [offset len].
        assert ((offset_ =? 0) = false) as -> by (apply Z.eqb_neq; lia). reflexivity.
      + lia. }
  destruct st as [bestLen' d']. cbn [snd] in Hst, Hpst.
  destruct (_ || _)%bool eqn:Eb; [exact Hpst|].
  apply orb_false_iff in Eb as [E1 E2]. apply Z.ltb_ge in E1.
  apply negb_false_iff in E2. apply js_eq_lookup in E2; [| lia].
  apply IH; try assumption; try lia.
  intros t Ht. destruct (Z.eq_dec t len_) as [->|Hne]; [exact E2|]. apply Heq. lia.
Qed.

Lemma zx7_chain_loop_priced i : forall chain bestLen kept d,
  2 <= i < Z.of_nat (length data) ->
  (forall idx, In idx chain -> 1 <= idx <= i - 1 /\ key_at data i = key_at data idx) ->
  opts_ok data i (optimals d) -> priced i (optimals d) ->
  priced i (optimals (snd (chain_loop chain data i bestLen kept d))).
Proof.
  intros chain. induction chain as [|index rest IH]; intros bestLen kept d Hi Hch Hd Hp;
    cbn [chain_loop]; [exact Hp|].
  destruct (bestLen <? MAX_LEN); [| exact Hp]. cbv zeta.
  destruct (MAX_OFFSET2 <? i - index) eqn:E; [exact Hp|].
  apply Z.ltb_ge in E.
  destruct (Hch index ltac:(now left)) as [Hidx Hkey].
  apply (key_at_inj data data_bytes) in Hkey as [K1 K2].
  assert (forall t, 0 <= t < 2 ->
            data !! Z.to_nat (i - t) = data !! Z.to_nat (i - t - (i - index))) as Heq.
  { intros t Ht. rewrite !get_lookup by lia.
    assert (t = 0 \/ t = 1) as [->| ->] by lia.
    - rewrite !Z.sub_0_r. f_equal. replace (i - (i - index)) with index by lia.
      exact K2.
    - f_equal. replace (i - 1 - (i - index)) with (index - 1) by lia. exact K1. }
  pose proof (zx7_extend_loop_ok data i (i - index) (Z.to_nat i + 1) 2 bestLen d
                ltac:(lia) ltac:(lia) ltac:(lia) ltac:(lia) Heq Hd) as [H1 _].
  pose proof (zx7_extend_loop_priced i (i - index) (Z.to_nat i + 1) 2 bestLen d
                ltac:(lia) ltac:(lia) ltac:(lia) ltac:(lia) Heq Hd Hp) as H2.
  destruct (extend_loop _ _ _ _ _ _ _) as [bestLen' d']. cbn [snd] in H1, H2.
  apply IH; try assumption. intros idx Hin. apply Hch. now right.
Qed.

Lemma zx7_dp_step_priced d i :
  (1 <= i < length data)%nat ->
  opts_ok data (Z.of_nat i - 1) (optimals d) ->
  chains_ok data (Z.of_nat i - 1) (matches d) ->
  priced (Z.of_nat i - 1) (optimals d) ->
  priced (Z.of_nat i) (optimals (dp_step data d i)).
Proof.
  intros Hi Hok Hch Hp. pose proof Hok as [Hl Hall]. unfold dp_step. cbv zeta.
  set (d1 := set_opt (Z.of_nat i) _ d).
  assert (opts_ok data (Z.of_nat i) (optimals d1)) as H1.
  { split; [unfold d1, set_opt; cbn [optimals]; now rewrite length_insert|].
    intros j Hj. destruct (Z.eq_dec (Z.of_nat i) j) as [<-|Hne].
    - unfold d1. rewrite opt_at_set_eq by lia. now left.
    - unfold d1. rewrite opt_at_set_ne by lia. apply Hall. lia. }
  assert (priced (Z.of_nat i) (optimals d1)) as P1.
  { unfold d1. apply set_opt_priced; cbn [bits offset len]; try assumption; try lia.
    unfold tcost. cbn [offset]. cbn [Z.eqb]. replace (Z.of_nat i - 1) with (Z.of_nat i - 1) by lia.
    lia. }
  rewrite len1_loop_id.
  2:{ unfold d1. rewrite opt_at_set_eq, opt_at_set_ne by lia. reflexivity. }
  fold (key_at data (Z.of_nat i)).
  set (chain := chain_of d1 (key_at data (Z.of_nat i))).
  assert (forall idx, In idx chain ->
            1 <= idx <= Z.of_nat i - 1
            /\ key_at data (Z.of_nat i) = key_at data idx) as Hchain.
  { intros idx Hin. apply Hch, Hin. }
  destruct (Nat.eq_dec i 1%nat) as [->|Hne].
  - assert (chain = []) as ->.
    { destruct chain as [|idx rest]; [reflexivity|].
      destruct (Hchain idx ltac:(now left)) as [Hr _]. lia. }
    cbn [chain_loop optimals]. exact P1.
  - pose proof (zx7_chain_loop_priced (Z.of_nat i) chain 1 0%nat d1 ltac:(lia) Hchain H1 P1)
      as H2.
    destruct (chain_loop _ _ _ _ _ _) as [flushed d3]. cbn [snd] in H2.
    cbn [optimals]. exact H2.
Qed.

Lemma zx7_dp_fold_priced : forall k d,
  (k < length data)%nat ->
  opts_ok data 0 (optimals d) -> chains_ok data 0 (matches d) -> priced 0 (optimals d) ->
  priced (Z.of_nat k) (optimals (fold_left (dp_step data) (seq 1 k) d)).
Proof.
  induction k as [|k IH]; intros d Hk Ho Hc Hp; [exact Hp|].
  rewrite seq_S, fold_left_app. cbn [fold_left Nat.add].
  destruct (zx7_dp_fold_ok data data_bytes k d ltac:(lia) Ho Hc) as [H1 H2].
  apply zx7_dp_step_priced; [lia | | |];
    replace (Z.of_nat (S k) - 1) with (Z.of_nat k) by lia; try assumption.
  apply IH; try assumption. lia.
Qed.

Lemma dp_result_priced :
  (0 < length data)%nat ->
  priced (Z.of_nat (length data) - 1) (optimals (dp_result data)).
Proof.
  intros Hn. unfold dp_result. set (d0 := mkDp _ ∅).
  replace (Z.of_nat (length data) - 1) with (Z.of_nat (length data - 1)) by lia.
  apply zx7_dp_fold_priced.
  - lia.
  - split; [| intros j Hj; lia]. unfold d0. cbn [optimals].
    now rewrite length_insert, length_replicate.
  - intros key idx. unfold d0. cbn [matches]. rewrite lookup_empty. intros [].
  - split; [| intros j Hj; lia]. unfold d0, opt_at. cbn [optimals].
    rewrite list_lookup_insert_eq by (rewrite length_replicate; lia). reflexivity.
Qed.

(** The bits of the table's entries. *)
Definition B (j : Z) : Z := bits (opt_at (optimals (dp_result data)) j).

(** An entry of the table, with its price. *)
Definition priced_entry (j : Z) (o : optimal) : Prop :=
  entry_ok data j o /\ B j = B (j - len o) + tcost o.

Lemma B_bound : forall k,
  (k < length data)%nat -> B (Z.of_nat k) <= 8 + 9 * Z.of_nat k.
Proof.
  intros k Hk. assert (0 < length data)%nat as Hn by lia.
  destruct (dp_result_priced Hn) as [H0 Hall].
  induction k as [|k IH]; [unfold B; change (Z.of_nat 0) with 0; rewrite H0; lia|].
  specialize (IH ltac:(lia)).
  destruct (Hall (Z.of_nat (S k)) ltac:(lia)) as [_ Hle]. unfold B in *.
  replace (Z.of_nat (S k) - 1) with (Z.of_nat k) in Hle by lia. lia.
Qed.

Lemma cost_token opts m :
  1 <= len (opt_at opts m) -> entry_ok data m (opt_at opts m) -> 0 <= m ->
  cost (token_ops data opts (Z.to_nat m)) = tcost (opt_at opts m).
Proof.
  intros Hl He Hm. unfold token_ops, tcost. cbv zeta.
  replace (Z.of_nat (Z.to_nat m)) with m by lia.
  assert ((0 <? len (opt_at opts m)) = true) as -> by (apply Z.ltb_lt; lia).
  destruct He as [[-> _]|(Ho & HL & _)]; [reflexivity|].
  assert ((offset (opt_at opts m) =? 0) = false) as -> by (apply Z.eqb_neq; lia).
  apply cost_doublet_ops, HL.
Qed.

Lemma cost_tiled opts : forall m,
  (0 < length data)%nat ->
  tiled priced_entry opts m ->
  cost (stream_ops data opts (Z.to_nat m)) = B m - 8.
Proof.
  intros m Hn. induction 1 as [|m Hl [He Hb] Hz Ht IH].
  - destruct (dp_result_priced Hn) as [H0 _]. unfold B. rewrite H0. reflexivity.
  - rewrite (stream_ops_tile data opts m Hl Hz), cost_app, IH.
    rewrite cost_token by (try assumption; lia). lia.
Qed.

End Pricing.

(** [compress] returns a stream of at most nine bits per input byte and
    three more bytes; when it is shorter than the output buffer, the
    decoder gives the input back. *)
Lemma zx7_compress_bounded data :
  all_bytes data -> (0 < length data)%nat ->
  exists s,
    compress data = Ok s
    /\ 8 * Z.of_nat (length s) <= 9 * Z.of_nat (length data) + 24
    /\ (Z.of_nat (length s) < 512 * 1024 -> decompress s = Ok data).
Proof.
  intros Hb Hn.
  destruct (zx7_compress_stream data (priced_entry data) Hb Hn) as (opts & Htiled & ->).
  { intros j o [H _]. exact H. }
  { intros j Hj. split; [apply (dp_result_ok data Hb Hn), Hj|].
    destruct (dp_result_priced data Hb Hn) as [_ Hall]. apply Hall, Hj. }
  pose proof (cost_tiled data Hb opts _ Hn Htiled) as Hcost. rewrite Nat2Z.id in Hcost.
  pose proof (B_bound data Hb (length data - 1) ltac:(lia)) as HB.
  set (stream := stream_ops data opts (length data - 1)) in *.
  destruct (stream_length (stream ++ end_ops) (w0 data) (zx7_w0_wf data))
    as (u & Hu & Hlen).
  rewrite zx7_run_w_app in Hlen. unfold budget in Hlen.
  rewrite w0_used, w0_length, cost_app, Hcost in Hlen.
  change (cost end_ops) with 18 in Hlen.
  eexists. split; [reflexivity|]. split.
  - rewrite length_take. lia.
  - intros Hshort. rewrite length_take in Hshort. rewrite take_ge by lia.
    apply (zx7_decode_stream data opts _ _ _ Hb Hn
             (tiled_weaken _ _ opts (fun j o H => proj1 H) _ Htiled) eq_refl eq_refl).
    reflexivity.
Qed.

Lemma zx7_compress_to_u8 x : compress x = compress (to_u8 x).
Proof.
  unfold compress. rewrite (to_u8_bytes _ (to_u8_all_bytes x)).
  assert (length (to_u8 x) = length x) as -> by apply length_map. reflexivity.
Qed.

End ZX7Round.

(** X10: the ZX7 round trip. For every input [x], [compress] returns a
    stream; when that stream is shorter than the 512 KiB of the codec's
    output buffer, [decompress] turns it back into the bytes of [x] (the
    elements of [x] modulo 256, as [new Uint8Array(x)] holds them). *)
Theorem zx7_round_trip (x : list Z) :
  exists s,
    ZX7.compress x = Ok s
    /\ (Z.of_nat (length s) < 512 * 1024 -> ZX7.decompress s = Ok (to_u8 x)).
Proof.
  rewrite ZX7Round.zx7_compress_to_u8.
  destruct x as [|b x].
  - exists []. split; [reflexivity|]. intros _. reflexivity.
  - apply ZX7Round.zx7_compress_decompress; [apply to_u8_all_bytes|].
    cbn [to_u8 map length]. lia.
Qed.

Lemma zx7_round_trip_witness :
  exists s,
    ZX7.compress [65; 66; 65; 66; 65; 66; 65; 300] = Ok s
    /\ ZX7.decompress s = Ok (to_u8 [65; 66; 65; 66; 65; 66; 65; 300]).
Proof.
  destruct (zx7_round_trip [65; 66; 65; 66; 65; 66; 65; 300]) as (s & Hc & Hd).
  exists s. split; [exact Hc|]. apply Hd.
  vm_compute in Hc. injection Hc as <-. vm_compute. reflexivity.
Defined.

(** X11: the worst-case size of a ZX7 stream. For every input [x], the
    stream [compress] returns holds at most nine bits for each byte of [x]
    and 24 bits more. *)
Theorem zx7_worst_case_size (x : list Z) :
  exists s,
    ZX7.compress x = Ok s
    /\ 8 * Z.of_nat (length s) <= 9 * Z.of_nat (length x) + 24.
Proof.
  rewrite ZX7Round.zx7_compress_to_u8.
  destruct x as [|b x].
  - exists []. split; [reflexivity | cbn; lia].
  - destruct (ZX7Round.zx7_compress_bounded (to_u8 (b :: x)))
      as (s & Hc & Hsize & _); [apply to_u8_all_bytes | cbn [to_u8 map length]; lia |].
    exists s. split; [exact Hc|].
    unfold to_u8 in Hsize. now rewrite length_map in Hsize.
Qed.

(** X12: the ZX7 round trip on inputs that fit the output buffer. For
    every input [x] of at most 466031 bytes, [compress] returns a stream and
    [decompress] turns that stream back into the bytes of [x]. *)
Theorem zx7_round_trip_bounded (x : list Z) :
  Z.of_nat (length x) <= 466031 ->
  exists s, ZX7.compress x = Ok s /\ ZX7.decompress s = Ok (to_u8 x).
Proof.
  intros Hlen. rewrite ZX7Round.zx7_compress_to_u8.
  destruct x as [|b x].
  - exists []. split; reflexivity.
  - destruct (ZX7Round.zx7_compress_bounded (to_u8 (b :: x)))
      as (s & Hc & Hsize & Hd); [apply to_u8_all_bytes | cbn [to_u8 map length]; lia |].
    exists s. split; [exact Hc|]. apply Hd.
    unfold to_u8 in Hsize. rewrite length_map in Hsize. lia.
Qed.

Lemma zx7_round_trip_bounded_witness :
  exists s,
    ZX7.compress [1; 2; 3; 1; 2; 3; 1; 2; 3; 4] = Ok s
    /\ ZX7.decompress s = Ok (to_u8 [1; 2; 3; 1; 2; 3; 1; 2; 3; 4]).
Proof.
  apply (zx7_round_trip_bounded [1; 2; 3; 1; 2; 3; 1; 2; 3; 4]). cbn. lia.
Defined.

(** ** Pletter: the whole stream, written and read back *)

Module PletterRound.
Import Pletter PletterOffset PletterGamma.

(** *** The size of what a writer has written *)

(** The bits still free in the pending event byte. *)
Definition free_bits (w : writer) : Z :=
  if (pendingBits w =? 0)%nat then 0 else 8 - Z.of_nat (pendingBits w).

(** The bits a writer has taken: eight for every byte of [dest], less the
    free bits of the pending event byte. *)
Definition taken (w : writer) : Z := 8 * Z.of_nat (length (dest w)) - free_bits w.

(** The bits a write takes. *)
Definition op_bits (o : wop) : Z := match o with WBit _ => 1 | WByte _ => 8 end.

Fixpoint ops_bits (ops : list wop) : Z :=
  match ops with
  | [] => 0
  | o :: ops => op_bits o + ops_bits ops
  end.

Lemma ops_bits_app a b : ops_bits (a ++ b) = ops_bits a + ops_bits b.
Proof. induction a as [|o a IH]; cbn [app ops_bits]; lia. Qed.

Lemma ops_bits_nonneg ops : 0 <= ops_bits ops.
Proof. induction ops as [|[b|v] ops IH]; cbn [ops_bits op_bits]; lia. Qed.

Lemma ops_bits_bits bs : ops_bits (map WBit bs) = Z.of_nat (length bs).
Proof. induction bs as [|b bs IH]; cbn [map ops_bits op_bits length]; lia. Qed.

Lemma free_bits_bound w : wf w -> 0 <= free_bits w <= 7.
Proof.
  intros [Hp _ _]. unfold free_bits.
  destruct (Nat.eqb_spec (pendingBits w) 0); lia.
Qed.

Lemma pl_addBit_taken b w : wf w -> taken (addBit b w) = taken w + 1.
Proof.
  intros Hwf. unfold taken, free_bits.
  destruct (pending_cases w Hwf) as [H|[H|H]].
  - rewrite addBit_first by exact H. cbn [dest pendingBits]. rewrite H.
    rewrite length_app. cbn [length Nat.eqb]. lia.
  - rewrite addBit_middle by exact H. cbn [dest pendingBits].
    destruct (Nat.eqb_spec (pendingBits w) 0); [lia|]. cbn [Nat.eqb]. lia.
  - rewrite addBit_last by exact H. cbn [dest pendingBits]. rewrite H.
    rewrite length_insert. cbn [Nat.eqb]. lia.
Qed.

Lemma pl_addData_taken v w : taken (addData v w) = taken w + 8.
Proof.
  unfold taken, free_bits, addData, writeByte. cbn [dest pendingBits].
  rewrite length_app. cbn [length]. lia.
Qed.

Lemma pl_run_w_taken ops : forall w,
  wf w -> taken (run_w ops w) = taken w + ops_bits ops.
Proof.
  induction ops as [|o ops IH]; intros w Hwf; [cbn; lia|].
  change (run_w (o :: ops) w) with (run_w ops (run_op w o)).
  rewrite IH by apply run_op_wf, Hwf. cbn [ops_bits].
  destruct o as [b|v]; cbn [run_op op_bits].
  - rewrite pl_addBit_taken by exact Hwf. lia.
  - rewrite pl_addData_taken. lia.
Qed.

(** The finished stream has the bytes of the writer, so the bits taken,
    rounded up to whole bytes. *)
Lemma pl_taken_length w :
  wf w ->
  8 * Z.of_nat (length (dest (done w))) - 7 <= taken w
  <= 8 * Z.of_nat (length (dest (done w))).
Proof.
  intros Hwf. rewrite done_length. pose proof (free_bits_bound w Hwf).
  unfold taken. lia.
Qed.

(** Where [ops] remain to be written and hold at least a byte and a bit, the
    stream goes on behind the writer. *)
Lemma pl_more_to_read ops w :
  wf w -> 9 <= ops_bits ops ->
  (length (dest w) < length (dest (done (run_w ops w))))%nat.
Proof.
  intros Hwf Hb.
  pose proof (pl_taken_length (run_w ops w) (run_w_wf ops w Hwf)) as [_ Hup].
  rewrite pl_run_w_taken in Hup by exact Hwf.
  pose proof (free_bits_bound w Hwf). unfold taken in Hup. lia.
Qed.

(** *** Reading behind the last bit written *)

(** The reader stands in the padding of the last event byte, or behind the
    stream. *)
Definition pad_state (out : list Z) (r : reader) : Prop :=
  (length out <= dataPosition r)%nat
  /\ (bitForVarPosition r = 7
      \/ (0 <= bitForVarPosition r < 7
          /\ (default 0 (at_ out (varPosition r))) mod 2 ^ (bitForVarPosition r + 1) = 0)).

Lemma mod_pow2_succ v k :
  0 <= k -> v mod 2 ^ (k + 1) = 0 -> v mod 2 ^ k = 0 /\ (v / 2 ^ k) mod 2 = 0.
Proof.
  intros Hk H. rewrite Z.pow_add_r in H by lia. change (2 ^ 1) with 2 in H.
  pose proof (Z.pow_pos_nonneg 2 k ltac:(lia) Hk) as Hpos.
  rewrite Z.rem_mul_r in H by lia.
  pose proof (Z.mod_pos_bound v (2 ^ k) Hpos).
  pose proof (Z.mod_pos_bound (v / 2 ^ k) 2 ltac:(lia)). nia.
Qed.

Lemma pl_getBit_pad out r :
  pad_state out r -> exists r', getBit out r = (0, r') /\ pad_state out r'.
Proof.
  destruct r as [dp vp bf]. unfold pad_state.
  cbn [dataPosition varPosition bitForVarPosition].
  intros [Hlen [-> | [Hbf Hlow]]]; unfold getBit;
    cbn [dataPosition varPosition bitForVarPosition].
  - cbn [Z.eqb Pos.eqb dataPosition varPosition bitForVarPosition].
    assert (at_ out dp = None) as -> by (apply lookup_ge_None_2; lia).
    cbn [default]. eexists. split; [reflexivity|].
    cbn [dataPosition varPosition bitForVarPosition].
    change (if 7 - 1 =? -1 then 7 else 7 - 1) with 6.
    split; [lia|]. right. split; [lia|].
    assert (at_ out dp = None) as -> by (apply lookup_ge_None_2; lia).
    reflexivity.
  - assert ((bf =? 7) = false) as -> by (apply Z.eqb_neq; lia).
    cbn [dataPosition varPosition bitForVarPosition].
    set (v := default 0 (at_ out vp)) in *.
    destruct (mod_pow2_succ v bf ltac:(lia) Hlow) as [Hm Hd].
    rewrite land_1_div by lia. rewrite Hd.
    eexists. split; [reflexivity|].
    cbn [dataPosition varPosition bitForVarPosition]. split; [lia|].
    destruct (Z.eqb_spec (bf - 1) (-1)) as [E|E]; [now left | right].
    split; [lia|]. fold v. replace (bf - 1 + 1) with bf by lia. exact Hm.
Qed.

Lemma pl_sync_pad w r : wf w -> sync w r -> pad_state (dest (done w)) r.
Proof.
  intros [Hp Hpos Hbyte] (Hd & Hs0 & Hs1). split.
  - rewrite done_length. lia.
  - destruct (decide (pendingBits w = 0%nat)) as [Hz|Hnz]; [left; now apply Hs0 | right].
    destruct (Hs1 Hnz) as [-> ->]. specialize (Hpos Hnz). split; [lia|].
    unfold done. assert ((pendingBits w =? 0)%nat = false) as ->
      by (apply Nat.eqb_neq; exact Hnz).
    unfold addEvent. cbn [dest eventPos eventByte]. unfold at_.
    rewrite list_lookup_insert_eq by exact Hpos. cbn [default].
    change (id ?x) with x.
    pose proof (Z.pow_pos_nonneg 2 (Z.of_nat (8 - pendingBits w)) ltac:(lia) ltac:(lia)).
    assert (2 ^ Z.of_nat (pendingBits w) * 2 ^ Z.of_nat (8 - pendingBits w) = 256) as Hpow.
    { rewrite <- Z.pow_add_r by lia.
      replace (Z.of_nat (pendingBits w) + Z.of_nat (8 - pendingBits w)) with 8 by lia.
      reflexivity. }
    rewrite (Z.mod_small _ 256) by nia.
    replace (7 - Z.of_nat (pendingBits w) + 1) with (Z.of_nat (8 - pendingBits w)) by lia.
    apply Z.mod_mul. lia.
Qed.

(** *** The tokens of a stream *)

(** A literal, a match with a short offset (one byte), a match with a long
    offset (one byte and the extra bits of the subset). *)
Inductive token : Type :=
  | TLit (b : Z)
  | TShort (len off : nat)
  | TLong (len off : nat).

(** The masks of the extra bits of a long offset: those of the [switch] of
    [save] for q up to 6, and for q = 7 the one case more that the [switch]
    of the decoder has. *)
Definition long_masks (q : Z) : list Z :=
  if q =? 7 then [8192; 4096; 2048; 1024; 512; 256; 128]
  else extra_masks (Z.to_nat q).

(** The writes of a long offset: the byte and the extra bits, as [save]
    lays them out. *)
Definition long_ops (q : Z) (off : nat) : list wop :=
  let j := Z.of_nat off - 1 - 128 in
  WByte (Z.lor 128 (Z.land j 127)) :: map WBit (map (Z.land j) (long_masks q)).

(** The flag and the length code of a match. *)
Definition match_ops (len : nat) : list wop :=
  WBit 1 :: map WBit (gamma_bits_of (Z.of_nat len - 1)).

(** The writes of one token: those of the three modes of [save]. *)
Definition token_ops (q : Z) (t : token) : list wop :=
  match t with
  | TLit b => [WBit 0; WByte b]
  | TShort len off => match_ops len ++ offset1_ops off
  | TLong len off => match_ops len ++ long_ops q off
  end.

(** [_add3(q - 1)]. *)
Definition header_ops (q : Z) : list wop :=
  [WBit (Z.land (q - 1) 4); WBit (Z.land (q - 1) 2); WBit (Z.land (q - 1) 1)].

(** The end marker: [for (let i = 0; i !== 34; ++i) this._addBit(1)]. *)
Definition end_ops : list wop := repeat (WBit 1) 34.

(** A whole stream: the header, the first byte, the tokens, the end marker. *)
Definition stream_ops (q : Z) (b0 : Z) (toks : list token) : list wop :=
  header_ops q ++ WByte b0 :: flat_map (token_ops q) toks ++ end_ops.

(** The offset of a long match as [save] writes it in mode 2, with the
    masks of [long_masks]. *)
Definition save_long (q : Z) (cposq : nat) (w : writer) : writer :=
  let j := Z.of_nat cposq - 1 in
  let j := j - 128 in
  let w := addData (Z.lor 128 (Z.land j 127)) w in
  fold_left (fun w mask => addBit (Z.land j mask) w) (long_masks q) w.

(** One round of the loop of [save], for a given token. *)
Definition save_token (q : Z) (w : writer) (t : token) : writer :=
  match t with
  | TLit b => addData b (addBit 0 w)
  | TShort len off => save_offset1 off (addVar (Z.of_nat len - 1) (addBit 1 w))
  | TLong len off => save_long q off (addVar (Z.of_nat len - 1) (addBit 1 w))
  end.

(** The stream [save] lays out for subset [q], first byte [b0] and the
    tokens [toks]. *)
Definition written (q : Z) (b0 : Z) (toks : list token) : list Z :=
  let w := mkWriter [] 0 0 0 in
  let w := add3 (q - 1) w in
  let w := addData b0 w in
  let w := fold_left (save_token q) toks w in
  let w := fold_left (fun w _ => addBit 1 w) (seq 0 34) w in
  dest (done w).

(** What the tokens stand for, from the output so far. *)
Fixpoint expand (toks : list token) (output : list Z) : result (list Z) :=
  match toks with
  | [] => Ok output
  | TLit b :: toks => expand toks (output ++ [b])
  | TShort len off :: toks =>
      output ← copy_loop len (Z.of_nat off) output; expand toks output
  | TLong len off :: toks =>
      output ← copy_loop len (Z.of_nat off) output; expand toks output
  end.

(** The largest offset of subset [q]: 256, 640, 1152, 2176, 4224, 8320,
    16512. *)
Definition max_offset (q : Z) : nat :=
  Z.to_nat (128 + 2 ^ (7 + Z.of_nat (extra_width q))).

(** What the format can carry. *)
Definition token_ok (q : Z) (t : token) : Prop :=
  match t with
  | TLit b => 0 <= b < 256
  | TShort len off => 2 <= Z.of_nat len <= 65536 /\ (1 <= off <= 128)%nat
  | TLong len off => 2 <= Z.of_nat len <= 65536 /\ (129 <= off <= max_offset q)%nat
  end.

(** The subset a stream announces: the three header bits as [decompress]
    reads them. *)
Definition stream_q (compressedData : list Z) : Z :=
  let r := mkReader 0 0 7 in
  let '(b2, r) := getBit compressedData r in
  let '(b1, r) := getBit compressedData r in
  let '(b0, r) := getBit compressedData r in
  Z.lor (Z.lor (Z.shiftl b2 2) (Z.shiftl b1 1)) b0 + 1.

Lemma token_ops_bits q t : 9 <= ops_bits (token_ops q t).
Proof.
  destruct t as [b|len off|len off]; cbn [token_ops ops_bits op_bits]; [lia| |];
    rewrite ops_bits_app; unfold match_ops, offset1_ops, long_ops;
    cbn [ops_bits op_bits]; rewrite ?ops_bits_bits; lia.
Qed.

Lemma tokens_bits q toks :
  9 * Z.of_nat (length toks) <= ops_bits (flat_map (token_ops q) toks).
Proof.
  induction toks as [|t toks IH]; cbn [flat_map length]; [cbn; lia|].
  rewrite ops_bits_app. pose proof (token_ops_bits q t). lia.
Qed.

Lemma end_ops_bits : ops_bits end_ops = 34.
Proof. reflexivity. Qed.

(** *** The stream as a sequence of writes *)

Lemma run_w_cons o ops w : run_w (o :: ops) w = run_w ops (run_op w o).
Proof. reflexivity. Qed.

Lemma add3_header q w : add3 (q - 1) w = run_w (header_ops q) w.
Proof. reflexivity. Qed.

Lemma ones_fold : forall n a w,
  fold_left (fun w (_ : nat) => addBit 1 w) (seq a n) w = run_w (repeat (WBit 1) n) w.
Proof.
  induction n as [|n IH]; intros a w; [reflexivity|].
  cbn [seq fold_left repeat]. rewrite IH. reflexivity.
Qed.

Lemma save_long_ops q off w : save_long q off w = run_w (long_ops q off) w.
Proof.
  unfold save_long, long_ops. rewrite run_w_cons. cbn [run_op].
  generalize (addData (Z.lor 128 (Z.land (Z.of_nat off - 1 - 128) 127)) w).
  induction (long_masks q) as [|m ms IH]; intros w'; [reflexivity|].
  cbn [fold_left map]. rewrite run_w_cons. apply IH.
Qed.

Lemma save_token_ops q w t : save_token q w t = run_w (token_ops q t) w.
Proof.
  destruct t as [b|len off|len off]; cbn [save_token token_ops]; [reflexivity| |].
  - unfold match_ops. rewrite run_w_app, run_w_cons. cbn [run_op].
    now rewrite save_offset1_ops, addVar_bits_run.
  - unfold match_ops. rewrite run_w_app, run_w_cons. cbn [run_op].
    now rewrite save_long_ops, addVar_bits_run.
Qed.

Lemma save_tokens_ops q : forall toks w,
  fold_left (save_token q) toks w = run_w (flat_map (token_ops q) toks) w.
Proof.
  induction toks as [|t toks IH]; intros w; [reflexivity|].
  cbn [fold_left flat_map]. rewrite IH, run_w_app, save_token_ops. reflexivity.
Qed.

Lemma written_ops q b0 toks :
  written q b0 toks = dest (done (run_w (stream_ops q b0 toks) w0)).
Proof.
  unfold written, stream_ops.
  rewrite ones_fold. fold end_ops. rewrite save_tokens_ops.
  rewrite (run_w_app (header_ops q)), run_w_cons, run_w_app.
  rewrite <- add3_header. reflexivity.
Qed.

(** *** The long offset, for every subset of the decoder *)

Lemma long_ops_save q off :
  (1 <= q <= 6)%nat -> long_ops (Z.of_nat q) off = offset2_ops q off.
Proof.
  intros Hq. unfold long_ops, offset2_ops, long_masks.
  assert ((Z.of_nat q =? 7) = false) as -> by (apply Z.eqb_neq; lia).
  now rewrite Nat2Z.id.
Qed.

Lemma max_offset_window q :
  (1 <= q <= 6)%nat -> default 0%nat (maxlen constructor !! q) = max_offset (Z.of_nat q).
Proof.
  intros Hq.
  assert (q = 1 \/ q = 2 \/ q = 3 \/ q = 4 \/ q = 5 \/ q = 6)%nat as Hc by lia.
  destruct Hc as [->|[->|[->|[->|[->| ->]]]]]; vm_compute; reflexivity.
Qed.

(** The offset byte of a long match: the top bit and the low seven bits. *)
Definition long_byte_ok (m : Z) : bool :=
  let B := Z.land (Z.lor 128 m) 0xFF in
  (negb (Z.land B 0x80 =? 0) && (Z.land B 0x7F =? m))%bool.

Lemma long_byte_checked : forallb long_byte_ok (map Z.of_nat (seq 0 128)) = true.
Proof. vm_compute. reflexivity. Qed.

Lemma long_byte j :
  let B := Z.land (Z.lor 128 (Z.land j 127)) 0xFF in
  Z.land B 0x80 <> 0 /\ Z.land B 0x7F = j mod 128.
Proof.
  intros B. subst B.
  change 127 with (Z.ones 7). rewrite Z.land_ones by lia. change (2 ^ 7) with 128.
  pose proof (Z.mod_pos_bound j 128 ltac:(lia)) as Hm.
  pose proof long_byte_checked as H. rewrite List.forallb_forall in H.
  specialize (H (j mod 128)). unfold long_byte_ok in H.
  apply andb_prop in H as [H1 H2].
  - apply negb_true_iff, Z.eqb_neq in H1. apply Z.eqb_eq in H2. auto.
  - apply List.in_map_iff. exists (Z.to_nat (j mod 128)).
    split; [lia | apply List.in_seq; lia].
Qed.

Lemma truth_land_pow2 j sh : 0 <= sh -> truth (Z.land j (2 ^ sh)) = (j / 2 ^ sh) mod 2.
Proof.
  intros Hsh. unfold truth. rewrite land_pow2_eqb by exact Hsh.
  rewrite <- testbit_div by exact Hsh. now destruct (Z.testbit j sh).
Qed.

Lemma pl_replay_long7 out off r r2 :
  (129 <= off <= max_offset 7)%nat ->
  replay (long_ops 7 off) out r = Ok (map stored (long_ops 7 off), r2) ->
  read_offset out 7 r = Ok (Z.of_nat off, r2).
Proof.
  intros Hoff Hr. unfold long_ops in Hr.
  assert (Z.of_nat (max_offset 7) = 16512) as Hmax by (vm_compute; reflexivity).
  set (j := Z.of_nat off - 1 - 128) in *.
  assert (0 <= j < 16384) as Hj by lia.
  cbn [map replay] in Hr.
  apply bind_Ok in Hr as ([B r1] & HB & Hr).
  apply bind_Ok in Hr as ([bits r3] & Hbits & [= HeqB Heqbits ->]).
  destruct (long_byte j) as [Hhi Hlo]. cbn [stored] in HeqB. subst B.
  rewrite (read_offset_long out 7 r _ r1 ltac:(lia) HB Hhi).
  change (extra_width 7) with (length (map (Z.land j) (long_masks 7))).
  rewrite (replay_getBits out _ r1 0 bits r2 Hbits). rewrite Hlo.
  do 2 f_equal. rewrite Heqbits.
  cbn [long_masks Z.eqb Pos.eqb map stored fold_left].
  change 8192 with (2 ^ 13). change 4096 with (2 ^ 12). change 2048 with (2 ^ 11).
  change 1024 with (2 ^ 10). change 512 with (2 ^ 9). change 256 with (2 ^ 8).
  change (Z.land j 128) with (Z.land j (2 ^ 7)).
  rewrite !truth_land_pow2 by lia.
  assert (Z.lor (j mod 128) (Z.shiftl (j / 128) 7) = j) as Hsplit.
  { rewrite <- (split_low_7 j) at 3 by lia. rewrite Z.shiftr_div_pow2 by lia.
    change 127 with (Z.ones 7). rewrite Z.land_ones by lia. reflexivity. }
  replace (Z.of_nat off) with (Z.lor (j mod 128) (Z.shiftl (j / 128) 7) + 129)
    by (rewrite Hsplit; lia).
  do 3 f_equal.
  change (2 ^ 13) with 8192. change (2 ^ 12) with 4096. change (2 ^ 11) with 2048.
  change (2 ^ 10) with 1024. change (2 ^ 9) with 512. change (2 ^ 8) with 256.
  change (2 ^ 7) with 128.
  Z.div_mod_to_equations. lia.
Qed.

Lemma pl_replay_long out q off r r2 :
  1 <= q <= 7 -> (129 <= off <= max_offset q)%nat ->
  replay (long_ops q off) out r = Ok (map stored (long_ops q off), r2) ->
  read_offset out q r = Ok (Z.of_nat off, r2).
Proof.
  intros Hq Hoff Hr. destruct (decide (q = 7)) as [->|Hne].
  - now apply pl_replay_long7.
  - replace q with (Z.of_nat (Z.to_nat q)) in * by lia.
    rewrite long_ops_save in Hr by lia.
    apply replay_offset2; [lia | | exact Hr].
    rewrite max_offset_window by lia. exact Hoff.
Qed.

(** *** The decoder on a written stream *)

Lemma taken_nonneg w : wf w -> 0 <= taken w.
Proof.
  intros [Hp Hpos Hbyte]. unfold taken, free_bits.
  destruct (Nat.eqb_spec (pendingBits w) 0) as [E|E]; [lia|].
  specialize (Hpos E). lia.
Qed.

(** The bits of the end marker that follow its first: sixteen pairs and
    one more. *)
Fixpoint ones_pairs (k : nat) : list Z :=
  match k with
  | O => [1]
  | S k => 1 :: 1 :: ones_pairs k
  end.

Lemma end_ops_pairs : end_ops = WBit 1 :: map WBit (ones_pairs 16).
Proof. reflexivity. Qed.

Lemma stored_ones k : map stored (map WBit (ones_pairs k)) = ones_pairs k.
Proof. induction k as [|k IH]; cbn [ones_pairs map stored]; [| rewrite IH]; reflexivity. Qed.

(** The length code that runs into the padding: [k] pairs of ones, a one,
    and the zeros behind the last bit written. *)
Lemma pl_gamma_end out : forall k fuel acc r r',
  replay (map WBit (ones_pairs k)) out r = Ok (ones_pairs k, r') ->
  pad_state out r' ->
  (k + 2 <= fuel)%nat -> 0 <= acc -> (acc + 1) * 2 ^ (Z.of_nat k + 1) <= 2 ^ 31 ->
  fst (gamma_loop fuel out acc r) = 2 * ((acc + 1) * 2 ^ Z.of_nat k - 1).
Proof.
  induction k as [|k IH]; intros fuel acc r r' Hr Hp Hf Ha Hb.
  - cbn [ones_pairs] in Hr.
    apply replay_bits_cons in Hr as (c & vs & Heq & Hr & Hc).
    injection Heq as <- <-.
    destruct fuel as [|[|fuel]]; [lia | lia |]. cbn [gamma_loop].
    destruct (getBit out r) as [c r1]. cbn [fst snd] in *. subst c.
    change (replay (map WBit []) out r1) with (Ok (@nil Z, r1)) in Hr.
    injection Hr as ->.
    cbn [Z.eqb].
    destruct (pl_getBit_pad out r' Hp) as (r2 & -> & Hp2).
    destruct (pl_getBit_pad out r2 Hp2) as (r3 & -> & _).
    cbn [Z.eqb fst]. rewrite lor_shift_bit by auto.
    change (2 ^ (Z.of_nat 0 + 1)) with 2 in Hb. change (2 ^ 31) with 2147483648 in Hb.
    rewrite to_i32_small by (change (2 ^ 31) with 2147483648; lia).
    change (2 ^ Z.of_nat 0) with 1. lia.
  - cbn [ones_pairs] in Hr.
    apply replay_bits_cons in Hr as (c & vs & Heq & Hr & Hc).
    injection Heq as <- <-.
    apply replay_bits_cons in Hr as (b & vs' & Heq & Hr & Hb1).
    injection Heq as <- <-.
    destruct fuel as [|fuel]; [lia|]. cbn [gamma_loop].
    destruct (getBit out r) as [c r1]. cbn [fst snd] in *. subst c.
    destruct (getBit out r1) as [b r2]. cbn [fst snd] in *. subst b.
    cbn [Z.eqb]. rewrite lor_shift_bit by auto.
    assert (2 ^ (Z.of_nat (S k) + 1) = 2 * 2 ^ (Z.of_nat k + 1)) as Hp2.
    { replace (Z.of_nat (S k) + 1) with (Z.succ (Z.of_nat k + 1)) by lia.
      apply Z.pow_succ_r. lia. }
    assert (2 ^ Z.of_nat (S k) = 2 * 2 ^ Z.of_nat k) as Hp1.
    { rewrite Nat2Z.inj_succ. apply Z.pow_succ_r. lia. }
    pose proof (Z.pow_pos_nonneg 2 (Z.of_nat k + 1) ltac:(lia) ltac:(lia)) as Hpos.
    rewrite to_i32_small by nia.
    rewrite (IH fuel (2 * acc + 1) r2 r' Hr Hp); [| lia | lia | nia].
    rewrite Hp1. ring.
Qed.

Lemma copy_loop_bytes : forall n offset output x,
  all_bytes output -> copy_loop n offset output = Ok x -> all_bytes x.
Proof.
  induction n as [|n IH]; intros offset output x Hb; cbn [copy_loop].
  - now intros [= <-].
  - destruct (_ || _)%bool; [discriminate|]. apply IH.
    apply all_bytes_app; [exact Hb|]. constructor; [| constructor].
    apply all_bytes_get, Hb.
Qed.

Lemma expand_bytes q : forall toks output x,
  Forall (token_ok q) toks -> all_bytes output -> expand toks output = Ok x ->
  all_bytes x.
Proof.
  induction toks as [|t toks IH]; intros output x Hok Hb; cbn [expand].
  - now intros [= <-].
  - inversion Hok as [|? ? Ht Hrest]; subst.
    destruct t as [b|len off|len off].
    + apply IH; [exact Hrest|]. apply all_bytes_app; [exact Hb|].
      constructor; [exact Ht | constructor].
    + intros H. apply bind_Ok in H as (o & Hc & He).
      eapply IH; [exact Hrest | | exact He]. eapply copy_loop_bytes; eassumption.
    + intros H. apply bind_Ok in H as (o & Hc & He).
      eapply IH; [exact Hrest | | exact He]. eapply copy_loop_bytes; eassumption.
Qed.

Lemma land_byte b : 0 <= b < 256 -> Z.land b 0xFF = b.
Proof.
  intros Hb. change 255 with (Z.ones 8). rewrite Z.land_ones by lia.
  apply Z.mod_small. exact Hb.
Qed.

Section Reading.

Variable q : Z.
Hypothesis Hq : 1 <= q <= 7.

(** The finished stream and the writer that made it. *)
Variable out : list Z.
Variable wfin : writer.
Hypothesis Hcom : committed out wfin.
Hypothesis Hpad : forall r, sync wfin r -> pad_state out r.
Hypothesis Hsize : taken wfin <= 8 * Z.of_nat (length out).

Lemma pl_committed_before ops w : wf w -> run_w ops w = wfin -> committed out w.
Proof.
  intros Hwf H. apply (run_w_back out ops w Hwf). rewrite H. exact Hcom.
Qed.

Lemma pl_guard ops w r :
  wf w -> sync w r -> run_w ops w = wfin -> 9 <= ops_bits ops ->
  (dataPosition r <? length out)%nat = true.
Proof.
  intros Hwf (Hd & _) H Hb. apply Nat.ltb_lt. rewrite Hd.
  pose proof Hsize as Hs. rewrite <- H in Hs.
  rewrite pl_run_w_taken in Hs by exact Hwf.
  pose proof (free_bits_bound w Hwf). unfold taken in Hs. lia.
Qed.

Lemma pl_out_length ops w :
  wf w -> run_w ops w = wfin -> 9 <= ops_bits ops -> (2 <= length out)%nat.
Proof.
  intros Hwf H Hb. pose proof Hsize as Hs. rewrite <- H in Hs.
  rewrite pl_run_w_taken in Hs by exact Hwf.
  pose proof (taken_nonneg w Hwf). lia.
Qed.

(** The flag and the length code of a match. *)
Lemma pl_read_match len rest w r :
  2 <= Z.of_nat len <= 65536 ->
  wf w -> sync w r -> run_w (match_ops len ++ rest) w = wfin ->
  (1 <= length out)%nat ->
  exists r1 r2,
    getBit out r = (1, r1)
    /\ getInterlacedEliasGamma out r1 = (Z.of_nat len - 1, r2)
    /\ sync (run_w (match_ops len) w) r2.
Proof.
  intros Hlen Hwf Hs Hrun Hout.
  assert (wf (run_w (match_ops len) w)) as Hwf2 by apply run_w_wf, Hwf.
  assert (committed out (run_w (match_ops len) w)) as Hc2.
  { apply (pl_committed_before rest); [exact Hwf2|]. now rewrite <- run_w_app. }
  unfold match_ops in *.
  set (bits := gamma_bits_of (Z.of_nat len - 1)) in *.
  change (run_w (WBit 1 :: map WBit bits) w) with (run_w (map WBit bits) (addBit 1 w)) in *.
  assert (wf (addBit 1 w)) as Hwf1 by apply addBit_wf, Hwf.
  assert (committed out (addBit 1 w)) as Hc1
    by (apply (run_w_back out (map WBit bits)); assumption).
  destruct (addBit_read out 1 w r Hwf Hs Hc1) as (r1 & Hr1 & Hs1).
  destruct (replay_run out (map WBit bits) (addBit 1 w) r1 Hwf1 Hs1 Hc2)
    as (r2 & Hr2 & Hs2).
  exists r1, r2. split; [exact Hr1|]. split; [| exact Hs2].
  destruct (gamma_check_ok (Z.of_nat len - 1) ltac:(lia)) as [Hval Hl]. fold bits in Hval, Hl.
  unfold getInterlacedEliasGamma.
  apply (gamma_loop_value out _ bits r1 (map stored (map WBit bits)) r2 1 _ Hr2).
  - rewrite map_map. exact Hval.
  - lia.
Qed.

(** The end marker: its first bit, and a length code that runs into the
    padding. *)
Lemma pl_read_end k w r :
  wf w -> sync w r -> run_w (WBit 1 :: map WBit (ones_pairs k)) w = wfin ->
  (k + 2 <= 8 * length out + 8)%nat -> (k <= 16)%nat ->
  exists r1 r2,
    getBit out r = (1, r1)
    /\ getInterlacedEliasGamma out r1 = (2 * (2 * 2 ^ Z.of_nat k - 1), r2).
Proof.
  intros Hwf Hs Hrun Hk Hk16.
  set (tl := map WBit (ones_pairs k)) in *.
  change (run_w (WBit 1 :: tl) w) with (run_w tl (addBit 1 w)) in Hrun.
  assert (wf (addBit 1 w)) as Hwf1 by apply addBit_wf, Hwf.
  assert (committed out (addBit 1 w)) as Hc1
    by (apply (pl_committed_before tl); assumption).
  destruct (addBit_read out 1 w r Hwf Hs Hc1) as (r1 & Hr1 & Hs1).
  assert (committed out (run_w tl (addBit 1 w))) as Hc2 by (rewrite Hrun; exact Hcom).
  destruct (replay_run out tl (addBit 1 w) r1 Hwf1 Hs1 Hc2) as (r2 & Hr2 & Hs2).
  rewrite Hrun in Hs2. unfold tl in Hr2. rewrite stored_ones in Hr2.
  assert (2 ^ (Z.of_nat k + 1) <= 2 ^ 17) as Hpow by (apply Z.pow_le_mono_r; lia).
  change (2 ^ 17) with 131072 in Hpow.
  pose proof (pl_gamma_end out k (8 * length out + 8) 1 r1 r2 Hr2 (Hpad r2 Hs2)
               Hk ltac:(lia) ltac:(change (2 ^ 31) with 2147483648; lia)) as Hg.
  exists r1, (snd (gamma_loop (8 * length out + 8) out 1 r1)).
  split; [exact Hr1|]. unfold getInterlacedEliasGamma.
  destruct (gamma_loop (8 * length out + 8) out 1 r1) as [g r3].
  cbn [fst snd] in *. subst g. reflexivity.
Qed.

(** The copy the decoder makes is the copy the token stands for. *)
Lemma pl_decode_tokens : forall toks fuel w r output x,
  wf w -> sync w r ->
  run_w (flat_map (token_ops q) toks ++ end_ops) w = wfin ->
  Forall (token_ok q) toks -> expand toks output = Ok x ->
  (length toks < fuel)%nat ->
  decode_loop fuel out false q r output = Ok x.
Proof.
  induction toks as [|t toks IH]; intros fuel w r output x Hwf Hs Hrun Hok Hx Hf;
    (destruct fuel as [|fuel]; [cbn [length] in Hf; lia|]); cbn [decode_loop].
  - cbn [flat_map app] in Hrun. cbn [expand] in Hx. injection Hx as <-.
    rewrite (pl_guard end_ops w r Hwf Hs Hrun) by (rewrite end_ops_bits; lia).
    pose proof (pl_out_length end_ops w Hwf Hrun ltac:(rewrite end_ops_bits; lia)) as Hlen.
    rewrite end_ops_pairs in Hrun.
    destruct (pl_read_end 16 w r Hwf Hs Hrun ltac:(lia) ltac:(lia)) as (r1 & r2 & -> & ->).
    change (1 =? 0) with false. cbn iota.
    change (2 * (2 * 2 ^ Z.of_nat 16 - 1) + 1 =? END_MARKER_NORMAL) with true.
    reflexivity.
  - pose proof (Forall_inv Hok) as Ht. pose proof (Forall_inv_tail Hok) as Hrest.
    cbn [flat_map] in Hrun. rewrite <- app_assoc in Hrun.
    pose proof (token_ops_bits q t) as Htb.
    assert (9 <= ops_bits (token_ops q t ++ flat_map (token_ops q) toks ++ end_ops)) as Hbits.
    { rewrite ops_bits_app.
      pose proof (ops_bits_nonneg (flat_map (token_ops q) toks ++ end_ops)). lia. }
    rewrite (pl_guard _ w r Hwf Hs Hrun Hbits).
    pose proof (pl_out_length _ w Hwf Hrun Hbits) as Hlen.
    assert (wf (run_w (token_ops q t) w)) as Hwf' by apply run_w_wf, Hwf.
    assert (run_w (flat_map (token_ops q) toks ++ end_ops) (run_w (token_ops q t) w) = wfin)
      as Hrun' by (now rewrite <- run_w_app).
    cbn [length] in Hf.
    destruct t as [b|len off|len off]; cbn [token_ops token_ok expand] in *.
    + change (run_w [WBit 0; WByte b] w) with (addData b (addBit 0 w)) in *.
      assert (wf (addBit 0 w)) as Hwf1 by apply addBit_wf, Hwf.
      assert (committed out (addData b (addBit 0 w))) as Hc2
        by (eapply pl_committed_before; eassumption).
      assert (committed out (addBit 0 w)) as Hc1
        by (eapply addData_back; eassumption).
      destruct (addBit_read out 0 w r Hwf Hs Hc1) as (r1 & -> & Hs1).
      change (truth 0 =? 0) with true. cbn iota.
      destruct (addData_read out b (addBit 0 w) r1 Hwf1 Hs1 Hc2) as (r2 & -> & Hs2).
      cbn [mbind result_bind rbind]. rewrite land_byte by exact Ht.
      apply (IH fuel _ r2 _ x Hwf' Hs2 Hrun' Hrest Hx). lia.
    + destruct Ht as [Hl Ho].
      apply bind_Ok in Hx as (output' & Hcopy & Hx).
      rewrite <- app_assoc in Hrun.
      destruct (pl_read_match len _ w r Hl Hwf Hs Hrun ltac:(lia))
        as (r1 & r2 & -> & Hg & Hs2).
      change (1 =? 0) with false. cbn iota. rewrite Hg.
      replace (Z.of_nat len - 1 + 1) with (Z.of_nat len) by lia.
      assert ((Z.of_nat len =? END_MARKER_NORMAL) = false) as ->
        by (apply Z.eqb_neq; unfold END_MARKER_NORMAL; lia).
      cbn [orb andb].
      assert (wf (run_w (match_ops len) w)) as Hwf2 by apply run_w_wf, Hwf.
      assert (committed out (run_w (offset1_ops off) (run_w (match_ops len) w))) as Hc3.
      { rewrite <- run_w_app. eapply pl_committed_before; eassumption. }
      destruct (replay_run out (offset1_ops off) _ r2 Hwf2 Hs2 Hc3) as (r3 & Hr3 & Hs3).
      rewrite (replay_offset1 out q off r2 r3 Ho Hr3).
      cbn [mbind result_bind rbind]. rewrite Nat2Z.id, Hcopy.
      cbn [mbind result_bind rbind].
      rewrite <- run_w_app in Hs3.
      apply (IH fuel _ r3 _ x Hwf' Hs3 Hrun' Hrest Hx). lia.
    + destruct Ht as [Hl Ho].
      apply bind_Ok in Hx as (output' & Hcopy & Hx).
      rewrite <- app_assoc in Hrun.
      destruct (pl_read_match len _ w r Hl Hwf Hs Hrun ltac:(lia))
        as (r1 & r2 & -> & Hg & Hs2).
      change (1 =? 0) with false. cbn iota. rewrite Hg.
      replace (Z.of_nat len - 1 + 1) with (Z.of_nat len) by lia.
      assert ((Z.of_nat len =? END_MARKER_NORMAL) = false) as ->
        by (apply Z.eqb_neq; unfold END_MARKER_NORMAL; lia).
      cbn [orb andb].
      assert (wf (run_w (match_ops len) w)) as Hwf2 by apply run_w_wf, Hwf.
      assert (committed out (run_w (long_ops q off) (run_w (match_ops len) w))) as Hc3.
      { rewrite <- run_w_app. eapply pl_committed_before; eassumption. }
      destruct (replay_run out (long_ops q off) _ r2 Hwf2 Hs2 Hc3) as (r3 & Hr3 & Hs3).
      rewrite (pl_replay_long out q off r2 r3 Hq Ho Hr3).
      cbn [mbind result_bind rbind]. rewrite Nat2Z.id, Hcopy.
      cbn [mbind result_bind rbind].
      rewrite <- run_w_app in Hs3.
      apply (IH fuel _ r3 _ x Hwf' Hs3 Hrun' Hrest Hx). lia.
Qed.

End Reading.

(** The header bits give the subset back. *)
Lemma header_value q :
  1 <= q <= 7 ->
  Z.lor (Z.lor (Z.shiftl (truth (Z.land (q - 1) 4)) 2)
               (Z.shiftl (truth (Z.land (q - 1) 2)) 1))
        (truth (Z.land (q - 1) 1)) + 1 = q.
Proof.
  intros Hq.
  assert (q = 1 \/ q = 2 \/ q = 3 \/ q = 4 \/ q = 5 \/ q = 6 \/ q = 7) as Hc by lia.
  destruct Hc as [->|[->|[->|[->|[->|[->| ->]]]]]]; reflexivity.
Qed.

Lemma pl_header_read q ops :
  let out := dest (done (run_w (header_ops q ++ ops) w0)) in
  exists ra rb rc,
    getBit out r0 = (truth (Z.land (q - 1) 4), ra)
    /\ getBit out ra = (truth (Z.land (q - 1) 2), rb)
    /\ getBit out rb = (truth (Z.land (q - 1) 1), rc)
    /\ sync (run_w (header_ops q) w0) rc.
Proof.
  intros out.
  assert (wf (run_w (header_ops q) w0)) as Hwf by apply run_w_wf, w0_wf.
  assert (committed out (run_w (header_ops q) w0)) as Hc.
  { apply (run_w_back out ops); [exact Hwf|]. rewrite <- run_w_app.
    apply done_committed, run_w_wf, w0_wf. }
  destruct (replay_run out (header_ops q) w0 r0 w0_wf w0_sync Hc) as (rc & Hr & Hs).
  unfold header_ops in Hr. cbn [replay map stored] in Hr.
  destruct (getBit out r0) as [b2 ra].
  destruct (getBit out ra) as [b1 rb] eqn:Eb.
  destruct (getBit out rb) as [b0 rc'] eqn:Ec. cbn in Hr.
  injection Hr as -> -> -> ->.
  exists ra, rb, rc.
  split; [reflexivity|]. split; [exact Eb|]. split; [exact Ec | exact Hs].
Qed.

(** A written stream announces its subset. *)
Lemma pl_stream_q q b0 toks : 1 <= q <= 7 -> stream_q (written q b0 toks) = q.
Proof.
  intros Hq. rewrite written_ops. unfold stream_ops, stream_q.
  destruct (pl_header_read q (WByte b0 :: flat_map (token_ops q) toks ++ end_ops))
    as (ra & rb & rc & Ha & Hb & Hc & _).
  change (mkReader 0 0 7) with r0. rewrite Ha, Hb, Hc. apply header_value, Hq.
Qed.

(** A written stream decodes to what its tokens stand for. *)
Lemma pl_decompress_written q b0 toks x :
  1 <= q <= 7 -> 0 <= b0 < 256 ->
  Forall (token_ok q) toks -> expand toks [b0] = Ok x ->
  decompress (written q b0 toks) false = Ok x.
Proof.
  intros Hq Hb0 Hok Hx. rewrite written_ops. unfold stream_ops.
  set (body := flat_map (token_ops q) toks ++ end_ops).
  destruct (pl_header_read q (WByte b0 :: body)) as (ra & rb & rc & Ha & Hb & Hc & Hs).
  set (wfin := run_w (header_ops q ++ WByte b0 :: body) w0) in *.
  set (out := dest (done wfin)) in *.
  assert (wf wfin) as Hwfin by apply run_w_wf, w0_wf.
  assert (committed out wfin) as Hcom by apply done_committed, Hwfin.
  set (w1 := run_w (header_ops q) w0) in *.
  assert (wf w1) as Hwf1 by apply run_w_wf, w0_wf.
  assert (run_w body (addData b0 w1) = wfin) as Hrun.
  { unfold wfin. rewrite run_w_app. reflexivity. }
  assert (wf (addData b0 w1)) as Hwf2 by apply addData_wf, Hwf1.
  assert (committed out (addData b0 w1)) as Hc2.
  { apply (run_w_back out body); [exact Hwf2|]. rewrite Hrun. exact Hcom. }
  destruct (addData_read out b0 w1 rc Hwf1 Hs Hc2) as (rd & Hd & Hs2).
  assert (length (dest (addData b0 w1)) = 2%nat) as Hlen2.
  { unfold w1, header_ops. reflexivity. }
  unfold decompress. change (mkReader 0 0 7) with r0. rewrite Ha, Hb, Hc.
  rewrite header_value by exact Hq. rewrite Hd. cbn [mbind result_bind rbind].
  rewrite land_byte by exact Hb0.
  assert (mkReader 2 (varPosition rd) (bitForVarPosition rd) = rd) as ->.
  { destruct Hs2 as (Hdp & _). rewrite Hlen2 in Hdp. destruct rd as [dp vp bf].
    cbn in Hdp. subst dp. reflexivity. }
  pose proof (pl_taken_length wfin Hwfin) as [_ Hsize]. fold out in Hsize.
  rewrite (pl_decode_tokens q Hq out wfin Hcom (fun r => pl_sync_pad wfin r Hwfin) Hsize
             toks _ (addData b0 w1) rd [b0] x Hwf2 Hs2 Hrun Hok Hx).
  - cbn [mbind result_bind rbind]. f_equal. apply to_u8_bytes.
    apply (expand_bytes q toks [b0] x Hok); [| exact Hx].
    constructor; [exact Hb0 | constructor].
  - pose proof (tokens_bits q toks) as Ht.
    pose proof (pl_run_w_taken body (addData b0 w1) Hwf2) as Htk. rewrite Hrun in Htk.
    pose proof (taken_nonneg (addData b0 w1) Hwf2).
    unfold body in Htk. rewrite ops_bits_app, end_ops_bits in Htk. lia.
Qed.

(** *** The metadata: runs, chains and matches *)

Lemma nth_meta_insert_eq (ms : list meta) i m :
  (i < length ms)%nat -> nth_meta (<[i := m]> ms) i = m.
Proof. intros H. unfold nth_meta. now rewrite list_lookup_insert_eq. Qed.

Lemma nth_meta_insert_ne (ms : list meta) i j m :
  i <> j -> nth_meta (<[i := m]> ms) j = nth_meta ms j.
Proof. intros H. unfold nth_meta. now rewrite list_lookup_insert_ne. Qed.

Section Metadata.

Variable data : list Z.

(** [rk] equal bytes stand at [j]. *)
Definition run_at (rk j : nat) : Prop :=
  (1 <= rk)%nat /\ (j + rk <= length data)%nat
  /\ forall k, (k < rk)%nat -> data !! (j + k)%nat = data !! j.

(** Every [reeks] counts equal bytes that are there. *)
Definition reeks_ok (metadata : list meta) : Prop :=
  forall j, (j < length data)%nat -> run_at (reeks_at metadata j) j.

(** One round of the second loop of [createMetadata]. *)
Definition reeks_step : list meta * option Z * nat -> nat -> list meta * option Z * nat :=
  fun '(metadata, r, t) i =>
    let m := nth_meta metadata i in
    if js_eq (at_ data i) r then
      (<[i := mkMeta (S t) (cpos m) (clen m)]> metadata, r, S t)
    else
      (<[i := mkMeta 1 (cpos m) (clen m)]> metadata, at_ data i, 1%nat).

(** The rounds from [length data - 1] down to [k] are done. *)
Definition reeks_inv (k : nat) (st : list meta * option Z * nat) : Prop :=
  let '(metadata, r, t) := st in
  length metadata = (length data + 1)%nat
  /\ (forall j, cpos (nth_meta metadata j) = replicate 7 0%nat
                /\ clen (nth_meta metadata j) = replicate 7 0%nat)
  /\ (forall j, (k <= j < length data)%nat -> run_at (reeks_at metadata j) j)
  /\ ((k < length data)%nat -> r = at_ data k /\ t = reeks_at metadata k)
  /\ (k = length data -> t = 0%nat).

Lemma reeks_step_inv k st :
  (k < length data)%nat -> reeks_inv (S k) st -> reeks_inv k (reeks_step st k).
Proof.
  intros Hk. destruct st as [[metadata r] t]. intros (Hlen & Hz & Hrun & Hr & Ht).
  unfold reeks_step.
  assert (k < length metadata)%nat as Hkm by lia.
  assert (forall rk, run_at rk k ->
            reeks_inv k (<[k := mkMeta rk (cpos (nth_meta metadata k))
                                         (clen (nth_meta metadata k))]> metadata,
                         at_ data k, rk)) as Hgen.
  { intros rk Hrk. cbn [reeks_inv]. rewrite length_insert.
    split; [exact Hlen|]. split; [| split; [| split]].
    - intros j. destruct (decide (k = j)) as [<-|Hne].
      + rewrite nth_meta_insert_eq by exact Hkm. cbn [cpos clen]. apply Hz.
      + rewrite nth_meta_insert_ne by exact Hne. apply Hz.
    - intros j Hj. unfold reeks_at. destruct (decide (k = j)) as [<-|Hne].
      + rewrite nth_meta_insert_eq by exact Hkm. exact Hrk.
      + rewrite nth_meta_insert_ne by exact Hne. apply Hrun. lia.
    - intros _. unfold reeks_at. now rewrite nth_meta_insert_eq by exact Hkm.
    - lia. }
  destruct (js_eq (at_ data k) r) eqn:E.
  - apply js_eq_true in E. rewrite <- E. apply Hgen.
    destruct (decide (S k = length data)) as [Hlast|Hmore].
    + rewrite (Ht Hlast). repeat split; [lia | lia |].
      intros j Hj. replace j with 0%nat by lia. now rewrite Nat.add_0_r.
    + destruct Hr as [Hr1 Hr2]; [lia|]. subst t.
      destruct (Hrun (S k) ltac:(lia)) as (H1 & H2 & H3).
      repeat split; [lia | lia |].
      intros j Hj. destruct j as [|j]; [now rewrite Nat.add_0_r|].
      replace (k + S j)%nat with (S k + j)%nat by lia.
      rewrite H3 by lia. unfold at_ in *. congruence.
  - apply Hgen. repeat split; [lia | lia |].
    intros j Hj. replace j with 0%nat by lia. now rewrite Nat.add_0_r.
Qed.

Lemma reeks_fold_inv : forall k st,
  (k <= length data)%nat -> reeks_inv k st ->
  reeks_inv 0 (fold_left reeks_step (rev (seq 0 k)) st).
Proof.
  induction k as [|k IH]; intros st Hk Hinv; [exact Hinv|].
  rewrite seq_S, rev_app_distr. cbn [rev app fold_left Nat.add].
  apply IH; [lia|]. apply reeks_step_inv; [lia | exact Hinv].
Qed.

(** The metadata before the third loop. *)
Definition metadata0 : list meta :=
  build_reeks data (replicate (length data + 1) meta0).

Lemma metadata0_ok :
  length metadata0 = (length data + 1)%nat
  /\ (forall j, cpos (nth_meta metadata0 j) = replicate 7 0%nat
                /\ clen (nth_meta metadata0 j) = replicate 7 0%nat)
  /\ reeks_ok metadata0.
Proof.
  unfold metadata0, build_reeks. fold reeks_step.
  pose proof (reeks_fold_inv (length data)
                (replicate (length data + 1) meta0, Some (-1), 0%nat) ltac:(lia)) as H.
  destruct (fold_left reeks_step _ _) as [[metadata r] t].
  destruct H as (Hlen & Hz & Hrun & _).
  - cbn [reeks_inv]. rewrite length_replicate. split; [reflexivity|].
    split; [| split; [| split]].
    + intros j. unfold nth_meta.
      destruct (decide (j < length data + 1)%nat).
      * rewrite lookup_replicate_2 by lia. split; reflexivity.
      * rewrite lookup_ge_None_2 by (rewrite length_replicate; lia). split; reflexivity.
    + intros j Hj. lia.
    + intros Hj. lia.
    + reflexivity.
  - split; [exact Hlen|]. split; [exact Hz|]. intros j Hj. apply Hrun. lia.
Qed.

(** *** The length the inner loop finds is the length of a match *)

Lemma match_len_ext metadata metadata' p i :
  (forall j, reeks_at metadata j = reeks_at metadata' j) ->
  forall fuel l,
    match_len fuel data metadata p i l = match_len fuel data metadata' p i l.
Proof.
  intros H. induction fuel as [|fuel IH]; intros l; cbn [match_len]; [reflexivity|].
  rewrite !H. destruct (_ && _)%bool; [| reflexivity].
  destruct (_ <? _)%nat; apply IH.
Qed.

(** The [l] bytes at [p] are the [l] bytes at [i], inside the data. *)
Definition same_upto (p i l : nat) : Prop :=
  (i + l <= length data)%nat
  /\ forall k, (k < l)%nat -> data !! (p + k)%nat = data !! (i + k)%nat.

Lemma pl_match_len_valid metadata p i :
  reeks_ok metadata -> (p < i)%nat ->
  forall fuel l, same_upto p i l -> same_upto p i (match_len fuel data metadata p i l).
Proof.
  intros Hrk Hpi. induction fuel as [|fuel IH]; intros l Hl; cbn [match_len]; [exact Hl|].
  destruct (js_eq _ _ && _)%bool eqn:E; [| exact Hl].
  apply andb_prop in E as [E1 E2]. apply js_eq_true in E1. apply Nat.ltb_lt in E2.
  unfold at_ in E1. destruct Hl as [Hb Hsame].
  destruct (Hrk (i + l)%nat E2) as (Hi1 & Hi2 & Hi3).
  destruct (Hrk (p + l)%nat ltac:(lia)) as (Hp1 & Hp2 & Hp3).
  destruct (1 <? reeks_at metadata (i + l))%nat; apply IH.
  - set (j := if (reeks_at metadata (p + l) <? reeks_at metadata (i + l))%nat
              then reeks_at metadata (p + l) else reeks_at metadata (i + l)).
    assert (j <= reeks_at metadata (p + l) /\ j <= reeks_at metadata (i + l))%nat as [Hj1 Hj2].
    { subst j. destruct (Nat.ltb_spec (reeks_at metadata (p + l)) (reeks_at metadata (i + l))); lia. }
    split; [lia|]. intros k Hk.
    destruct (decide (k < l)%nat) as [Hlt|Hge]; [now apply Hsame|].
    replace (p + k)%nat with (p + l + (k - l))%nat by lia.
    replace (i + k)%nat with (i + l + (k - l))%nat by lia.
    rewrite Hp3, Hi3 by lia. exact E1.
  - split; [lia|]. intros k Hk.
    destruct (decide (k < l)%nat) as [Hlt|Hge]; [now apply Hsame|].
    replace k with l by lia. exact E1.
Qed.

(** *** The chains of [prev] *)

(** [prev] leads towards the start of the data. *)
Definition prev_ok (prev : list (option nat)) : Prop :=
  forall p p', mjoin (prev !! p) = Some p' -> (p' < p)%nat.

(** One round of the first loop of [createMetadata]. *)
Definition prev_step : list (option nat) * gmap Z nat -> nat -> list (option nat) * gmap Z nat :=
  fun '(prev, last) i =>
    let index := get data i
                 + (if (i + 1 <? length data)%nat then get data (i + 1) * 256 else 0) in
    (<[i := last !! index]> prev, <[index := i]> last).

(** The rounds 0 to [k - 1] of the first loop are done. *)
Definition prev_inv (k : nat) (st : list (option nat) * gmap Z nat) : Prop :=
  let '(prev, last) := st in
  length prev = (length data + 1)%nat
  /\ prev_ok prev
  /\ forall key v, last !! key = Some v -> (v < k)%nat.

Lemma prev_step_inv k st :
  (k < length data)%nat -> prev_inv k st -> prev_inv (S k) (prev_step st k).
Proof.
  intros Hk. destruct st as [prev last]. intros (Hlen & Hok & Hlast).
  cbn [prev_step prev_inv]. rewrite length_insert. split; [exact Hlen|]. split.
  - intros p p'. destruct (decide (k = p)) as [<-|Hne].
    + rewrite list_lookup_insert_eq by lia. cbn [mjoin].
      intros H. now apply Hlast in H.
    + rewrite list_lookup_insert_ne by exact Hne. apply Hok.
  - intros key v. set (index := get data k + _).
    destruct (decide (index = key)) as [<-|Hne].
    + rewrite lookup_insert_eq. intros [= <-]. lia.
    + rewrite lookup_insert_ne by exact Hne. intros H. apply Hlast in H. lia.
Qed.

Lemma prev_fold_inv : forall k,
  (k <= length data)%nat ->
  prev_inv k (fold_left prev_step (seq 0 k) (replicate (length data + 1) None, ∅)).
Proof.
  induction k as [|k IH]; intros Hk.
  - cbn [seq fold_left prev_inv]. rewrite length_replicate. split; [reflexivity|].
    split.
    + intros p p'. destruct (decide (p < length data + 1)%nat).
      * rewrite lookup_replicate_2 by lia. discriminate.
      * rewrite lookup_ge_None_2 by (rewrite length_replicate; lia). discriminate.
    + intros key v. rewrite lookup_empty. discriminate.
  - rewrite seq_S, fold_left_app. cbn [fold_left Nat.add].
    apply prev_step_inv; [lia|]. apply IH. lia.
Qed.

Lemma build_prev_ok : prev_ok (build_prev data).
Proof.
  unfold build_prev. fold prev_step.
  pose proof (prev_fold_inv (length data) ltac:(lia)) as H.
  destruct (fold_left prev_step _ _) as [prev last]. apply H.
Qed.

End Metadata.

Section Matches.

Variable data : list Z.
Variable prev : list (option nat).
Hypothesis Hprev : prev_ok prev.

(** The metadata whose runs the inner loop reads. *)
Variable ref : list meta.
Hypothesis Href : reeks_ok data ref.

(** [p'] is on the chain that starts at [p]. *)
Inductive reach : nat -> nat -> Prop :=
  | reach_one p p' : mjoin (prev !! p) = Some p' -> reach p p'
  | reach_more p p1 p' : mjoin (prev !! p) = Some p1 -> reach p1 p' -> reach p p'.

Lemma reach_lt p p' : reach p p' -> (p' < p)%nat.
Proof.
  induction 1 as [p p' H|p p1 p' H _ IH]; apply Hprev in H; lia.
Qed.

Lemma reach_trans p p1 p' : reach p p1 -> reach p1 p' -> reach p p'.
Proof.
  induction 1 as [p p1 H|p p2 p1 H _ IH]; intros H2.
  - eapply reach_more; eassumption.
  - eapply reach_more; [exact H | now apply IH].
Qed.

Lemma reach_first p p' :
  reach p p' ->
  exists p1, mjoin (prev !! p) = Some p1 /\ (p' = p1 \/ reach p1 p').
Proof. destruct 1 as [p p' H|p p1 p' H H']; eauto. Qed.

(** The length [createMetadata] finds for position [i] against [p]. *)
Definition found (i p : nat) : nat := match_len (length data) data ref p i 0.

(** [this.maxlen[bl]]: the largest offset the walk of level [bl] admits. *)
Definition window (bl : nat) : nat := default 0%nat (maxlen constructor !! bl).

Lemma window_mono bl : (bl < 6)%nat -> (window bl <= window (S bl))%nat.
Proof.
  intros Hbl. unfold window.
  do 6 (destruct bl as [|bl]; [apply Nat.leb_le; vm_compute; reflexivity|]). lia.
Qed.

Lemma window_0 : window 0 = 128%nat.
Proof. reflexivity. Qed.

Lemma found_valid i p :
  (p < i)%nat -> (i <= length data)%nat -> same_upto data p i (found i p).
Proof.
  intros Hp Hi. apply pl_match_len_valid; [exact Href | exact Hp |].
  split; [lia|]. intros k Hk. lia.
Qed.

(** The walk along the chain: it keeps the longest match met, and meets
    every position of the chain inside the window. *)
Lemma chain_loop_spec metadata bl i :
  (forall j, reeks_at metadata j = reeks_at ref j) ->
  forall fuel p best,
    (p <= i)%nat -> (p < fuel)%nat ->
    let res := chain_loop fuel constructor data prev metadata bl i p best in
    (fst best <= fst res)%nat
    /\ (forall p', reach p p' -> (i - p' <= window bl)%nat -> (found i p' <= fst res)%nat)
    /\ (res = best
        \/ exists p', reach p p' /\ snd res = (i - p')%nat /\ fst res = found i p'
                      /\ (i - p' <= window bl)%nat /\ (fst best < fst res)%nat).
Proof.
  intros Hrk. induction fuel as [|fuel IH]; intros p best Hpi Hf; [lia|].
  cbn [chain_loop]. destruct (mjoin (prev !! p)) as [p1|] eqn:E.
  2:{ cbn zeta. split; [lia|]. split; [| now left].
      intros p' Hr. apply reach_first in Hr as (p1 & H1 & _). congruence. }
  pose proof (Hprev p p1 E) as Hlt. fold (window bl).
  destruct (Nat.ltb_spec (window bl) (i - p1)) as [Hfar|Hnear].
  { cbn zeta. split; [lia|]. split; [| now left].
    intros p' Hr Hw. apply reach_first in Hr as (p2 & H2 & Hor).
    rewrite E in H2. injection H2 as <-.
    destruct Hor as [->|Hr]; [lia|]. apply reach_lt in Hr. lia. }
  rewrite (match_len_ext data metadata ref p1 i Hrk). fold (found i p1).
  set (best' := if (fst best <? found i p1)%nat then (found i p1, (i - p1)%nat) else best).
  destruct (IH p1 best' ltac:(lia) ltac:(lia)) as (Ha & Hb & Hc).
  assert (fst best <= fst best' /\ found i p1 <= fst best')%nat as [Hb1 Hb2].
  { subst best'. destruct (Nat.ltb_spec (fst best) (found i p1)); cbn [fst]; lia. }
  cbn zeta. split; [lia|]. split.
  - intros p' Hr Hw. apply reach_first in Hr as (p2 & H2 & Hor).
    rewrite E in H2. injection H2 as <-.
    destruct Hor as [->|Hr]; [lia | now apply Hb].
  - destruct Hc as [Hc | (p' & Hr & Hs & Hfd & Hw & Hlt')].
    + rewrite Hc. subst best'.
      destruct (Nat.ltb_spec (fst best) (found i p1)) as [Hnew|Hold]; [right | now left].
      exists p1. cbn [fst snd]. repeat split; try lia. now apply reach_one.
    + right. exists p'. repeat split; try assumption; try lia.
      eapply reach_more; eassumption.
Qed.

(** What an entry of [clen] and [cpos] holds: nothing, or the length found
    at a position of the chain, inside the window. *)
Definition entry_ok (bl i len pos : nat) : Prop :=
  (len = 0 /\ pos = 0)%nat
  \/ ((1 <= len)%nat /\ (1 <= pos <= i)%nat /\ (pos <= window bl)%nat
      /\ reach i (i - pos) /\ len = found i (i - pos)).

(** No position of the chain within 128 bytes gives more than [len0]. *)
Definition complete0 (i len0 : nat) : Prop :=
  forall p', reach i p' -> (i - p' <= 128)%nat -> (found i p' <= len0)%nat.

(** The entry of level [bl] at [i] is in order, and the short entry at [i]
    is the best within 128 bytes. *)
Definition good (metadata : list meta) (bl i : nat) : Prop :=
  entry_ok bl i (clen_at metadata i bl) (cpos_at metadata i bl)
  /\ complete0 i (clen_at metadata i 0).

(** The rounds of the third loop before round [(bl, k)] are done. *)
Definition meta_inv (bl k : nat) (metadata : list meta) : Prop :=
  length metadata = (length data + 1)%nat
  /\ (forall j, reeks_at metadata j = reeks_at ref j)
  /\ (forall j, length (cpos (nth_meta metadata j)) = 7%nat
                /\ length (clen (nth_meta metadata j)) = 7%nat)
  /\ (forall i b, (i < length data)%nat -> (b < bl \/ (b = bl /\ i < k))%nat ->
                  good metadata b i)
  /\ (bl = 0%nat -> forall i, (k <= i < length data)%nat ->
                    clen_at metadata i 0 = 0%nat /\ cpos_at metadata i 0 = 0%nat).

Lemma entry_ok_next bl i len pos :
  (bl < 6)%nat -> entry_ok bl i len pos -> entry_ok (S bl) i len pos.
Proof.
  intros Hbl [H | (H1 & H2 & H3 & H4 & H5)]; [now left | right].
  pose proof (window_mono bl Hbl). repeat split; try assumption; lia.
Qed.

Lemma lookup_insert_default (l : list nat) i j v :
  (i < length l)%nat ->
  default 0%nat (<[i := v]> l !! j) = if decide (i = j) then v else default 0%nat (l !! j).
Proof.
  intros Hi. destruct (decide (i = j)) as [<-|Hne].
  - now rewrite list_lookup_insert_eq.
  - now rewrite list_lookup_insert_ne.
Qed.

(** The walk of one round and the store that ends it. *)
Lemma match_step_tail bl k metadata m' p :
  (k < length metadata)%nat -> (bl < 7)%nat ->
  length (cpos m') = 7%nat -> length (clen m') = 7%nat ->
  let metadata1 := <[k := m']> metadata in
  let R :=
    (let '(len, pos) :=
       chain_loop (S k) constructor data prev metadata1 bl k p
         (clen_at metadata1 k bl, cpos_at metadata1 k bl) in
     <[k := mkMeta (reeks m') (<[bl := pos]> (cpos m')) (<[bl := len]> (clen m'))]>
       metadata1) in
  length R = length metadata
  /\ (forall j, j <> k -> nth_meta R j = nth_meta metadata j)
  /\ reeks (nth_meta R k) = reeks m'
  /\ length (cpos (nth_meta R k)) = 7%nat /\ length (clen (nth_meta R k)) = 7%nat
  /\ (forall b, b <> bl ->
        clen_at R k b = default 0%nat (clen m' !! b)
        /\ cpos_at R k b = default 0%nat (cpos m' !! b))
  /\ (clen_at R k bl, cpos_at R k bl)
     = chain_loop (S k) constructor data prev metadata1 bl k p
         (default 0%nat (clen m' !! bl), default 0%nat (cpos m' !! bl)).
Proof.
  intros Hk Hbl Hszc Hszl metadata1 R. subst R.
  assert (clen_at metadata1 k bl = default 0%nat (clen m' !! bl)) as ->.
  { unfold clen_at, metadata1. now rewrite nth_meta_insert_eq by exact Hk. }
  assert (cpos_at metadata1 k bl = default 0%nat (cpos m' !! bl)) as ->.
  { unfold cpos_at, metadata1. now rewrite nth_meta_insert_eq by exact Hk. }
  destruct (chain_loop _ _ _ _ _ _ _ _ _) as [len pos].
  assert (k < length metadata1)%nat as Hk1 by (unfold metadata1; rewrite length_insert; exact Hk).
  split; [unfold metadata1; now rewrite !length_insert|].
  split.
  { intros j Hj. rewrite nth_meta_insert_ne by auto. unfold metadata1.
    now rewrite nth_meta_insert_ne by auto. }
  unfold clen_at, cpos_at. rewrite !nth_meta_insert_eq by exact Hk1.
  cbn [reeks cpos clen]. rewrite !length_insert.
  split; [reflexivity|]. split; [exact Hszc|]. split; [exact Hszl|]. split.
  - intros b Hb. now rewrite !list_lookup_insert_ne by auto.
  - now rewrite !list_lookup_insert_eq by lia.
Qed.

(** What one round of the third loop changes. *)
Lemma match_step_effect bl k metadata :
  (k < length metadata)%nat -> (bl < 7)%nat ->
  length (cpos (nth_meta metadata k)) = 7%nat ->
  length (clen (nth_meta metadata k)) = 7%nat ->
  let len0 := clen_at metadata k (if (bl =? 0)%nat then 0 else bl - 1) in
  let pos0 := cpos_at metadata k (if (bl =? 0)%nat then 0 else bl - 1) in
  let p := if (bl =? 0)%nat then k else (k - pos0)%nat in
  let R := match_step constructor data prev bl metadata k in
  exists metadata1,
    (forall j, reeks_at metadata1 j = reeks_at metadata j)
    /\ length R = length metadata
    /\ (forall j, j <> k -> nth_meta R j = nth_meta metadata j)
    /\ reeks (nth_meta R k) = reeks (nth_meta metadata k)
    /\ length (cpos (nth_meta R k)) = 7%nat /\ length (clen (nth_meta R k)) = 7%nat
    /\ (forall b, b <> bl ->
          clen_at R k b = clen_at metadata k b /\ cpos_at R k b = cpos_at metadata k b)
    /\ (clen_at R k bl, cpos_at R k bl)
       = chain_loop (S k) constructor data prev metadata1 bl k p (len0, pos0).
Proof.
  intros Hk Hbl Hszc Hszl len0 pos0 p R. subst R. unfold match_step.
  set (m := nth_meta metadata k) in *.
  assert (forall m', reeks m' = reeks m ->
            forall j, reeks_at (<[k := m']> metadata) j = reeks_at metadata j) as Hrk.
  { intros m' Hm' j. unfold reeks_at. destruct (decide (k = j)) as [<-|Hne].
    - now rewrite nth_meta_insert_eq by exact Hk.
    - now rewrite nth_meta_insert_ne by exact Hne. }
  destruct (Nat.eqb_spec bl 0) as [->|Hnz].
  - exists (<[k := m]> metadata).
    destruct (match_step_tail 0 k metadata m k Hk Hbl Hszc Hszl)
      as (H1 & H2 & H3 & H4 & H5 & H6 & H7).
    split; [now apply Hrk|]. split; [exact H1|]. split; [exact H2|].
    split; [exact H3|]. split; [exact H4|]. split; [exact H5|]. split; [exact H6 | exact H7].
  - set (m' := mkMeta (reeks m) (<[bl := cpos_at metadata k (bl - 1)]> (cpos m))
                 (<[bl := clen_at metadata k (bl - 1)]> (clen m))).
    exists (<[k := m']> metadata).
    destruct (match_step_tail bl k metadata m' (k - cpos_at metadata k (bl - 1)) Hk Hbl)
      as (H1 & H2 & H3 & H4 & H5 & H6 & H7);
      [cbn [m' cpos]; now rewrite length_insert | cbn [m' clen]; now rewrite length_insert |].
    split; [now apply Hrk|]. split; [exact H1|]. split; [exact H2|].
    split; [exact H3|]. split; [exact H4|]. split; [exact H5|]. split.
    + intros b Hb. destruct (H6 b Hb) as [-> ->]. cbn [m' cpos clen].
      rewrite !list_lookup_insert_ne by auto. split; reflexivity.
    + rewrite H7. cbn [m' cpos clen].
      rewrite !list_lookup_insert_eq by (rewrite ?length_insert; lia). reflexivity.
Qed.

Lemma good_frame metadata metadata' b i :
  clen_at metadata' i b = clen_at metadata i b ->
  cpos_at metadata' i b = cpos_at metadata i b ->
  clen_at metadata' i 0 = clen_at metadata i 0 ->
  good metadata b i -> good metadata' b i.
Proof. unfold good. intros -> -> ->. auto. Qed.

(** The entry a walk leaves, from the entry it starts with. *)
Lemma walk_entry_ok metadata1 bl k len0 pos0 :
  (forall j, reeks_at metadata1 j = reeks_at ref j) ->
  entry_ok bl k len0 pos0 ->
  let res := chain_loop (S k) constructor data prev metadata1 bl k (k - pos0) (len0, pos0) in
  entry_ok bl k (fst res) (snd res)
  /\ (pos0 = 0%nat ->
      forall p', reach k p' -> (k - p' <= window bl)%nat -> (found k p' <= fst res)%nat).
Proof.
  intros Hrk Hstart res.
  destruct (chain_loop_spec metadata1 bl k Hrk (S k) (k - pos0) (len0, pos0)
              ltac:(lia) ltac:(lia)) as (Ha & Hb & Hc).
  fold res in Ha, Hb, Hc. cbn [fst snd] in *.
  assert (k - pos0 = k \/ reach k (k - pos0))%nat as Hfrom.
  { destruct Hstart as [[_ ->] | (_ & _ & _ & Hr & _)]; [left; lia | now right]. }
  split.
  - destruct Hc as [-> | (p' & Hr & Hs & Hfd & Hw & Hlt)]; [exact Hstart|].
    assert (reach k p') as Hr'.
    { destruct Hfrom as [E|Hr0]; [now rewrite E in Hr | eapply reach_trans; eassumption]. }
    pose proof (reach_lt k p' Hr') as Hlt'.
    right. rewrite Hs, Hfd.
    replace (k - (k - p'))%nat with p' by lia.
    repeat split; try assumption; try lia.
  - intros -> p' Hr Hw. apply Hb; [| exact Hw]. now rewrite Nat.sub_0_r.
Qed.

Lemma match_step_inv bl k metadata :
  (k < length data)%nat -> (bl < 7)%nat ->
  meta_inv bl k metadata ->
  meta_inv bl (S k) (match_step constructor data prev bl metadata k).
Proof.
  intros Hk Hbl (Hlen & Hrk & Hsz & Hgood & Hzero).
  destruct (Hsz k) as [Hszc Hszl].
  destruct (match_step_effect bl k metadata ltac:(lia) Hbl Hszc Hszl)
    as (metadata1 & Hrk1 & HRlen & HRother & HRreeks & HRszc & HRszl & HRframe & HRnew).
  set (R := match_step constructor data prev bl metadata k) in *.
  assert (forall i b, i <> k ->
            clen_at R i b = clen_at metadata i b /\ cpos_at R i b = cpos_at metadata i b)
    as Hrows.
  { intros i b Hi. unfold clen_at, cpos_at. now rewrite HRother by exact Hi. }
  split; [lia|]. split; [| split; [| split]].
  - intros j. rewrite <- Hrk. unfold reeks_at.
    destruct (decide (j = k)) as [->|Hne]; [exact HRreeks | now rewrite HRother].
  - intros j. destruct (decide (j = k)) as [->|Hne]; [auto|].
    rewrite HRother by exact Hne. apply Hsz.
  - intros i b Hi Hdone. destruct (decide (i = k)) as [->|Hne].
    2:{ apply (good_frame metadata); try apply Hrows; try exact Hne. apply Hgood; lia. }
    destruct (decide (b = bl)) as [->|Hb].
    2:{ apply (good_frame metadata); try apply HRframe; try lia. apply Hgood; lia. }
    (* the entry this round stores *)
    set (len0 := clen_at metadata k (if (bl =? 0)%nat then 0 else bl - 1)) in *.
    set (pos0 := cpos_at metadata k (if (bl =? 0)%nat then 0 else bl - 1)) in *.
    assert (entry_ok bl k len0 pos0
            /\ (if (bl =? 0)%nat then k else k - pos0)%nat = (k - pos0)%nat
            /\ (bl <> 0%nat -> complete0 k (clen_at metadata k 0))) as (Hstart & Hp & Hcomp).
    { subst len0 pos0. destruct (Nat.eqb_spec bl 0) as [->|Hnz].
      - destruct (Hzero eq_refl k ltac:(lia)) as [-> ->].
        split; [now left|]. split; [lia | congruence].
      - destruct (Hgood k (bl - 1)%nat Hk ltac:(lia)) as [He Hc0].
        split; [| split; [reflexivity | intros _; exact Hc0]].
        replace bl with (S (bl - 1)) at 1 by lia. apply entry_ok_next; [lia | exact He]. }
    rewrite Hp in HRnew.
    destruct (walk_entry_ok metadata1 bl k len0 pos0) as [Hentry Hall];
      [intros j; now rewrite Hrk1 | exact Hstart |].
    rewrite <- HRnew in Hentry, Hall. cbn [fst snd] in Hentry, Hall.
    split; [exact Hentry|].
    destruct (Nat.eqb_spec bl 0) as [->|Hnz].
    + intros p' Hr Hw. apply Hall; [| exact Hr | rewrite window_0; exact Hw].
      subst pos0. cbn [Nat.eqb]. now destruct (Hzero eq_refl k ltac:(lia)) as [_ ->].
    + destruct (HRframe 0%nat ltac:(lia)) as [-> _]. now apply Hcomp.
  - intros -> i Hi. destruct (Hrows i 0%nat ltac:(lia)) as [-> ->]. apply Hzero; [reflexivity | lia].
Qed.

Lemma level_inv bl : forall k metadata,
  (k <= length data)%nat -> (bl < 7)%nat ->
  meta_inv bl 0 metadata ->
  meta_inv bl k (fold_left (match_step constructor data prev bl) (seq 0 k) metadata).
Proof.
  induction k as [|k IH]; intros metadata Hk Hbl Hinv; [exact Hinv|].
  rewrite seq_S, fold_left_app. cbn [fold_left Nat.add].
  apply match_step_inv; [lia | exact Hbl |]. apply IH; [lia | exact Hbl | exact Hinv].
Qed.

Lemma level_next bl metadata :
  meta_inv bl (length data) metadata -> meta_inv (S bl) 0 metadata.
Proof.
  intros (Hlen & Hrk & Hsz & Hgood & _).
  split; [exact Hlen|]. split; [exact Hrk|]. split; [exact Hsz|]. split.
  - intros i b Hi Hdone. apply Hgood; [exact Hi | lia].
  - discriminate.
Qed.

Lemma levels_inv : forall bl metadata,
  (bl <= 7)%nat -> meta_inv 0 0 metadata ->
  meta_inv bl 0
    (fold_left (fun metadata bl =>
        fold_left (match_step constructor data prev bl) (seq 0 (length data)) metadata)
      (seq 0 bl) metadata).
Proof.
  induction bl as [|bl IH]; intros metadata Hbl Hinv; [exact Hinv|].
  rewrite seq_S, fold_left_app. cbn [fold_left Nat.add].
  apply level_next, level_inv; [lia | lia |]. apply IH; [lia | exact Hinv].
Qed.

End Matches.

(** *** The table of the dynamic program *)

Section Parse.

Variable data : list Z.
Variable metadata : list meta.
Variable q : nat.

(** The cost of a match of length [j] at [i] in the table [p]. *)
Definition match_cost (p : list pak) (i base j : nat) : nat :=
  (base + varcost_val constructor j + cost (nth_pak p (i + j)))%nat.

(** One round of [while (j > 1)] in [getLen]. *)
Definition try_step (p : list pak) (i base m : nat) : nat * nat * nat -> nat -> nat * nat * nat :=
  fun '(kc, kmode, kl) j =>
    let cc := (base + varcost_val constructor j + cost (nth_pak p (i + j)))%nat in
    if (cc <? kc)%nat then (cc, m, j) else (kc, kmode, kl).

Lemma try_step_spec p i base m k j :
  let k' := try_step p i base m k j in
  (fst (fst k') <= fst (fst k))%nat
  /\ (fst (fst k') <= match_cost p i base j)%nat
  /\ (k' = k
      \/ (k' = (match_cost p i base j, m, j)
          /\ (match_cost p i base j < fst (fst k))%nat)).
Proof.
  destruct k as [[kc kmode] kl]. cbn [try_step]. fold (match_cost p i base j).
  destruct (Nat.ltb_spec (match_cost p i base j) kc); cbn [fst snd].
  - split; [lia|]. split; [lia|]. right. split; [reflexivity | lia].
  - split; [lia|]. split; [lia|]. now left.
Qed.

Lemma try_fold_spec p i base m : forall js k,
  let r := fold_left (try_step p i base m) js k in
  (fst (fst r) <= fst (fst k))%nat
  /\ (forall j, In j js -> (fst (fst r) <= match_cost p i base j)%nat)
  /\ (r = k
      \/ (snd (fst r) = m /\ In (snd r) js
          /\ fst (fst r) = match_cost p i base (snd r)
          /\ (fst (fst r) < fst (fst k))%nat)).
Proof.
  induction js as [|j js IH]; intros k; cbn [fold_left].
  - cbn zeta. split; [lia|]. split; [intros j [] | now left].
  - destruct (IH (try_step p i base m k j)) as (H1 & H2 & H3). cbn zeta.
    destruct (try_step_spec p i base m k j) as (G1 & G2 & G3).
    set (k' := try_step p i base m k j) in *.
    set (r := fold_left (try_step p i base m) js k') in *.
    split; [lia|]. split.
    + intros j' [<-|Hin]; [lia | now apply H2].
    + destruct H3 as [H3 | (Hm & Hin & Hc & Hl)].
      * rewrite H3. destruct G3 as [G3 | [G3 G4]]; [now left | right].
        rewrite G3. cbn [fst snd]. repeat split; [now left | exact G4].
      * right. repeat split; [exact Hm | now right | exact Hc | lia].
Qed.

Lemma try_lengths_spec p i base m j k :
  let r := try_lengths constructor p i base m j k in
  (fst (fst r) <= fst (fst k))%nat
  /\ (forall j', (2 <= j' <= j)%nat -> (fst (fst r) <= match_cost p i base j')%nat)
  /\ (r = k
      \/ (snd (fst r) = m /\ (2 <= snd r <= j)%nat
          /\ fst (fst r) = match_cost p i base (snd r)
          /\ (fst (fst r) < fst (fst k))%nat)).
Proof.
  cbn zeta. unfold try_lengths. fold (try_step p i base m).
  destruct (try_fold_spec p i base m (rev (seq 2 (j - 1))) k) as (H1 & H2 & H3).
  split; [exact H1|]. split.
  - intros j' Hj. apply H2. apply List.in_rev. rewrite rev_involutive.
    apply List.in_seq. lia.
  - destruct H3 as [H3 | (Hm & Hin & Hc & Hl)]; [now left | right].
    apply List.in_rev in Hin. rewrite ?rev_involutive in Hin. apply List.in_seq in Hin.
    repeat split; try assumption; lia.
Qed.

(** The fixed part of the cost of a long match. *)
Definition long_base : nat := if (q =? 1)%nat then 9%nat else (9 + q)%nat.

(** What the entry [e] of position [i] says, against the entries behind it
    in [p]. *)
Definition entry_fact (p : list pak) (i : nat) (e : pak) : Prop :=
  (mode e = 0%nat /\ cost e = (9 + cost (nth_pak p (i + 1)))%nat)
  \/ (mode e = 1%nat /\ (2 <= mlen e <= clen_at metadata i 0)%nat
      /\ cost e = match_cost p i 9 (mlen e))
  \/ (mode e = 2%nat /\ (2 <= mlen e)%nat
      /\ (clen_at metadata i 0 < mlen e <= clen_at metadata i q)%nat
      /\ cost e = match_cost p i long_base (mlen e)).

Lemma getLen_step_entry p i :
  (i < length p)%nat ->
  entry_fact p i (nth_pak (getLen_step constructor metadata q p i) i).
Proof.
  intros Hi. unfold getLen_step.
  set (k0 := ((9 + cost (nth_pak p (i + 1)))%nat, 0%nat, 0%nat)).
  destruct (try_lengths_spec p i 9 1 (clen_at metadata i 0) k0) as (Ha1 & Ha2 & Ha3).
  set (k1 := try_lengths constructor p i 9 1 (clen_at metadata i 0) k0) in *.
  fold long_base.
  destruct (try_lengths_spec p i long_base 2 (clen_at metadata i q) k1) as (Hb1 & Hb2 & Hb3).
  destruct (try_lengths constructor p i long_base 2 (clen_at metadata i q) k1)
    as [[kc kmode] kl].
  unfold nth_pak at 1. rewrite list_lookup_insert_eq by exact Hi.
  cbn [default id]. change (id ?x) with x. unfold entry_fact. cbn [mode mlen cost fst snd] in *.
  destruct Hb3 as [Hb3 | (Hm & Hl & Hc & Hlt)].
  - destruct k1 as [[kc1 km1] kl1]. injection Hb3 as -> -> ->.
    destruct Ha3 as [Ha3 | (Hm & Hl & Hc & Hlt)].
    + unfold k0 in Ha3. injection Ha3 as -> -> ->. now left.
    + cbn [fst snd] in *. right. left. subst km1. auto.
  - right. right. subst kmode. split; [reflexivity|]. split; [lia|]. split; [| exact Hc].
    split; [| lia].
    destruct (Nat.lt_ge_cases (clen_at metadata i 0) kl) as [Hgt|Hle]; [exact Hgt | exfalso].
    specialize (Ha2 kl ltac:(lia)). unfold match_cost, long_base in *.
    destruct (q =? 1)%nat; lia.
Qed.

(** The rounds of [getLen] from [length data - 1] down to [k] are done. *)
Definition table_inv (k : nat) (p : list pak) : Prop :=
  length p = (length data + 1)%nat
  /\ cost (nth_pak p (length data)) = 0%nat
  /\ forall i, (k <= i < length data)%nat -> entry_fact p i (nth_pak p i).

Lemma entry_fact_frame p p' i e :
  (forall j, (i < j)%nat -> nth_pak p' j = nth_pak p j) ->
  entry_fact p i e -> entry_fact p' i e.
Proof.
  intros H. unfold entry_fact, match_cost.
  intros [(H1 & H2) | [(H1 & H2 & H3) | (H1 & H2 & H3 & H4)]].
  - left. rewrite H by lia. auto.
  - right. left. rewrite H by lia. auto.
  - right. right. rewrite H by lia. auto.
Qed.

Lemma getLen_fold_table : forall k p,
  (k <= length data)%nat -> table_inv k p ->
  table_inv 0 (fold_left (getLen_step constructor metadata q) (rev (seq 0 k)) p).
Proof.
  induction k as [|k IH]; intros p Hk Hinv; [exact Hinv|].
  rewrite seq_S, rev_app_distr. cbn [rev app fold_left Nat.add].
  apply IH; [lia|]. destruct Hinv as (Hlen & Hend & Hrows).
  destruct (getLen_step_cost constructor data metadata q p k) as (_ & Hl & Ho); [lia|].
  split; [lia|]. split; [rewrite Ho by lia; exact Hend|].
  intros i Hi. apply (entry_fact_frame p).
  { intros j Hj. apply Ho. lia. }
  destruct (decide (i = k)) as [->|Hne].
  - apply getLen_step_entry. lia.
  - rewrite Ho by exact Hne. apply Hrows. lia.
Qed.

Lemma getLen_table :
  table_inv 0 (snd (getLen constructor data metadata q))
  /\ fst (getLen constructor data metadata q)
     = cost (nth_pak (snd (getLen constructor data metadata q)) 0).
Proof.
  unfold getLen. cbn [fst snd]. split; [| reflexivity].
  apply getLen_fold_table; [lia|].
  split; [now rewrite length_replicate|]. split.
  - unfold nth_pak. rewrite lookup_replicate_2 by lia. reflexivity.
  - intros i Hi. lia.
Qed.

(** *** The tokens [save] writes *)

Variable pakdata : list pak.

(** The [while] loop of [save], as the list of tokens it writes. *)
Fixpoint parse (fuel : nat) (i : nat) : list token :=
  match fuel with
  | O => []
  | S fuel' =>
      if (i <? length data)%nat then
        let pk := nth_pak pakdata i in
        match mode pk with
        | 0%nat => TLit (get data i) :: parse fuel' (S i)
        | 1%nat => TShort (mlen pk) (cpos_at metadata i 0) :: parse fuel' (i + mlen pk)
        | 2%nat => TLong (mlen pk) (cpos_at metadata i q) :: parse fuel' (i + mlen pk)
        | _ => parse fuel' i
        end
      else []
  end.

Hypothesis Hq : (1 <= q <= 6)%nat.

Lemma save_loop_parse : forall fuel i w,
  save_loop fuel data metadata pakdata q i w
  = run_w (flat_map (token_ops (Z.of_nat q)) (parse fuel i)) w.
Proof.
  induction fuel as [|fuel IH]; intros i w; cbn [save_loop parse]; [reflexivity|].
  destruct (i <? length data)%nat; [| reflexivity].
  destruct (mode (nth_pak pakdata i)) as [|[|[|md]]]; cbn [flat_map token_ops].
  - rewrite IH. reflexivity.
  - rewrite IH, run_w_app. unfold match_ops. rewrite run_w_app.
    rewrite save_offset1_ops, addVar_bits_run. reflexivity.
  - rewrite IH, run_w_app. unfold match_ops. rewrite run_w_app.
    rewrite save_offset2_ops, addVar_bits_run, long_ops_save by exact Hq. reflexivity.
  - apply IH.
Qed.

Lemma save_written :
  save data metadata pakdata q
  = written (Z.of_nat q) (get data 0) (parse (length data) 1).
Proof.
  rewrite written_ops. unfold save, stream_ops.
  rewrite ones_fold. fold end_ops. rewrite save_loop_parse.
  rewrite (run_w_app (header_ops (Z.of_nat q))), run_w_cons, run_w_app.
  rewrite <- add3_header. reflexivity.
Qed.

End Parse.

(** *** The encoder's stream decodes to its input *)

Lemma take_snoc (data : list Z) i :
  (i < length data)%nat -> take i data ++ [get data i] = take (S i) data.
Proof.
  intros Hi. destruct (lookup_lt_is_Some_2 data i Hi) as [x Hx].
  unfold get. rewrite Hx. cbn [default id]. symmetry. now apply take_S_r.
Qed.

(** A match of the input, copied by the decoder. *)
Lemma pl_copy_take (data : list Z) off : forall k i,
  (1 <= off <= i)%nat -> (i + k <= length data)%nat ->
  (forall j, (j < k)%nat -> data !! (i - off + j)%nat = data !! (i + j)%nat) ->
  copy_loop k (Z.of_nat off) (take i data) = Ok (take (i + k) data).
Proof.
  induction k as [|k IH]; intros i Hoff Hlen Hsame; cbn [copy_loop].
  - now rewrite Nat.add_0_r.
  - rewrite length_take, Nat.min_l by lia.
    assert ((Z.of_nat i - Z.of_nat off <? 0) = false) as -> by (apply Z.ltb_ge; lia).
    assert ((Z.of_nat i <=? Z.of_nat i - Z.of_nat off) = false) as ->
      by (apply Z.leb_gt; lia).
    cbn [orb]. replace (Z.to_nat (Z.of_nat i - Z.of_nat off)) with (i - off)%nat by lia.
    assert (get (take i data) (i - off) = get data i) as ->.
    { unfold get. rewrite lookup_take_lt by lia.
      specialize (Hsame 0%nat ltac:(lia)). rewrite !Nat.add_0_r in Hsame. now rewrite Hsame. }
    rewrite take_snoc by lia. replace (i + S k)%nat with (S i + k)%nat by lia.
    apply IH; [lia | lia |]. intros j Hj.
    replace (S i - off + j)%nat with (i - off + S j)%nat by lia.
    replace (S i + j)%nat with (i + S j)%nat by lia. apply Hsame. lia.
Qed.

Section Encoder.

Variable data : list Z.
Hypothesis Hbytes : all_bytes data.
Hypothesis Hsize : 0 < Z.of_nat (length data) <= 65536.

Let metadata := createMetadata constructor data.

Lemma createMetadata_good i b :
  (i < length data)%nat -> (b < 7)%nat ->
  good data (build_prev data) (metadata0 data) metadata b i.
Proof.
  intros Hi Hb.
  destruct (metadata0_ok data) as (Hlen & Hz & Hrk).
  pose proof (levels_inv data (build_prev data) (build_prev_ok data) (metadata0 data)
                7 (metadata0 data) ltac:(lia)) as H.
  destruct H as (_ & _ & _ & Hgood & _).
  - split; [exact Hlen|]. split; [reflexivity|]. split; [| split].
    + intros j. destruct (Hz j) as [-> ->]. split; reflexivity.
    + intros i' b' _ Hd. lia.
    + intros _ i' _. unfold clen_at, cpos_at. destruct (Hz i') as [-> ->].
      split; reflexivity.
  - apply Hgood; [exact Hi | lia].
Qed.

(** A short match of the metadata is a match, at most 128 bytes back. *)
Lemma short_match i :
  (i < length data)%nat -> (1 <= clen_at metadata i 0)%nat ->
  (1 <= cpos_at metadata i 0 <= 128)%nat /\ (cpos_at metadata i 0 <= i)%nat
  /\ same_upto data (i - cpos_at metadata i 0) i (clen_at metadata i 0).
Proof.
  intros Hi Hl. destruct (createMetadata_good i 0 Hi ltac:(lia)) as [He _].
  destruct He as [[H0 _] | (H1 & H2 & H3 & H4 & H5)]; [lia|].
  rewrite window_0 in H3. split; [lia|]. split; [lia|]. rewrite H5.
  apply found_valid; [apply metadata0_ok | lia | lia].
Qed.

(** A match longer than the short one lies more than 128 bytes back, inside
    the window of its subset. *)
Lemma long_match i b :
  (i < length data)%nat -> (b < 7)%nat ->
  (clen_at metadata i 0 < clen_at metadata i b)%nat ->
  (129 <= cpos_at metadata i b <= window b)%nat /\ (cpos_at metadata i b <= i)%nat
  /\ same_upto data (i - cpos_at metadata i b) i (clen_at metadata i b).
Proof.
  intros Hi Hb Hl. destruct (createMetadata_good i b Hi Hb) as [He Hc].
  destruct He as [[H0 _] | (H1 & H2 & H3 & H4 & H5)]; [lia|].
  assert (129 <= cpos_at metadata i b)%nat as Hfar.
  { destruct (Nat.le_gt_cases 129 (cpos_at metadata i b)) as [Hge|Hlt]; [exact Hge | exfalso].
    specialize (Hc _ H4 ltac:(lia)). lia. }
  split; [lia|]. split; [lia|]. rewrite H5.
  apply found_valid; [apply metadata0_ok | lia | lia].
Qed.

Lemma no_match_at_0 b : (b < 7)%nat -> clen_at metadata 0 b = 0%nat.
Proof.
  intros Hb. destruct (createMetadata_good 0 b ltac:(lia) Hb) as [He _].
  destruct He as [[H0 _] | (H1 & H2 & _)]; [exact H0 | lia].
Qed.

Variable q : nat.
Hypothesis Hq : (1 <= q <= 6)%nat.

Let pakdata := snd (getLen constructor data metadata q).

Lemma long_base_bits :
  Z.of_nat (long_base q) = 9 + Z.of_nat (length (long_masks (Z.of_nat q))).
Proof.
  unfold long_base.
  assert (q = 1 \/ q = 2 \/ q = 3 \/ q = 4 \/ q = 5 \/ q = 6)%nat as Hc by lia.
  destruct Hc as [->|[->|[->|[->|[->| ->]]]]]; reflexivity.
Qed.

(** The tokens of [save] stand for the input, are such as the format
    carries, and take the bits the table counts. *)
Lemma parse_spec : forall fuel i,
  (1 <= i <= length data)%nat -> (length data - i <= fuel)%nat ->
  let toks := parse data metadata q pakdata fuel i in
  expand toks (take i data) = Ok data
  /\ Forall (token_ok (Z.of_nat q)) toks
  /\ ops_bits (flat_map (token_ops (Z.of_nat q)) toks) = Z.of_nat (cost (nth_pak pakdata i)).
Proof.
  destruct (getLen_table data metadata q) as [(Hplen & Hpend & Hprows) _].
  fold pakdata in Hplen, Hpend, Hprows.
  assert (forall i, (length data <= i)%nat -> take i data = data) as Hall
    by (intros i Hi; now apply take_ge).
  induction fuel as [|fuel IH]; intros i Hi Hf; cbn zeta; cbn [parse].
  { assert (i = length data) as -> by lia. cbn [expand flat_map ops_bits].
    rewrite Hall, Hpend by lia. repeat split. constructor. }
  destruct (Nat.ltb_spec i (length data)) as [Hlt|Hge].
  2:{ assert (i = length data) as -> by lia. cbn [expand flat_map ops_bits].
      rewrite Hall, Hpend by lia. repeat split. constructor. }
  specialize (Hprows i ltac:(lia)).
  destruct Hprows as [(Hm & Hc) | [(Hm & Hl & Hc) | (Hm & Hl2 & Hl & Hc)]];
    rewrite Hm; cbn [expand flat_map].
  - destruct (IH (S i) ltac:(lia) ltac:(lia)) as (He & Hok & Hb).
    cbn zeta in He, Hok, Hb. rewrite take_snoc by exact Hlt.
    split; [exact He|]. split.
    + constructor; [| exact Hok]. cbn [token_ok]. apply all_bytes_get, Hbytes.
    + rewrite ops_bits_app, Hb, Hc. cbn [token_ops ops_bits op_bits].
      rewrite Nat.add_1_r. lia.
  - destruct (short_match i Hlt ltac:(lia)) as (Ho1 & Ho2 & Hin & Hsame).
    set (kl := mlen (nth_pak pakdata i)) in *.
    set (off := cpos_at metadata i 0) in *.
    destruct (IH (i + kl)%nat ltac:(lia) ltac:(lia)) as (He & Hok & Hb).
    cbn zeta in He, Hok, Hb.
    rewrite (pl_copy_take data off kl i) by (try lia; intros j Hj; apply Hsame; lia).
    cbn [mbind result_bind rbind]. split; [exact He|]. split.
    + constructor; [| exact Hok]. cbn [token_ok]. lia.
    + rewrite ops_bits_app, Hb, Hc. unfold match_cost. cbn [token_ops].
      rewrite ops_bits_app. unfold match_ops, offset1_ops. cbn [ops_bits op_bits].
      rewrite ops_bits_bits, <- varcost_is_code_length by lia. lia.
  - destruct (long_match i q Hlt ltac:(lia) ltac:(lia)) as (Ho1 & Ho2 & Hin & Hsame).
    set (kl := mlen (nth_pak pakdata i)) in *.
    set (off := cpos_at metadata i q) in *.
    destruct (IH (i + kl)%nat ltac:(lia) ltac:(lia)) as (He & Hok & Hb).
    cbn zeta in He, Hok, Hb.
    rewrite (pl_copy_take data off kl i) by (try lia; intros j Hj; apply Hsame; lia).
    cbn [mbind result_bind rbind]. split; [exact He|]. split.
    + constructor; [| exact Hok]. cbn [token_ok].
      rewrite <- max_offset_window by exact Hq. fold (window q). lia.
    + rewrite ops_bits_app, Hb, Hc. unfold match_cost. cbn [token_ops].
      rewrite ops_bits_app. unfold match_ops, long_ops. cbn [ops_bits op_bits].
      rewrite !ops_bits_bits, length_map, <- varcost_is_code_length by lia.
      pose proof long_base_bits. lia.
Qed.

(** The first byte is never part of a match: the table charges it nine
    bits. *)
Lemma table_first :
  cost (nth_pak pakdata 0) = (9 + cost (nth_pak pakdata 1))%nat.
Proof.
  destruct (getLen_table data metadata q) as [(_ & _ & Hprows) _].
  fold pakdata in Hprows. specialize (Hprows 0%nat ltac:(lia)).
  pose proof (no_match_at_0 0 ltac:(lia)). pose proof (no_match_at_0 q ltac:(lia)).
  destruct Hprows as [(Hm & Hc) | [(Hm & Hl & Hc) | (Hm & Hl2 & Hl & Hc)]]; [exact Hc | lia | lia].
Qed.

(** The stream of [save] for subset [q]: it announces [q], decodes to the
    input, and has the bits the dynamic program counted, with the header
    and the end marker, in whole bytes. *)
Lemma pl_save_spec :
  let s := save data metadata pakdata q in
  stream_q s = Z.of_nat q
  /\ decompress s false = Ok data
  /\ Z.of_nat (length s) = (Z.of_nat (dp_cost constructor data metadata q) + 36 + 7) / 8.
Proof.
  cbn zeta. rewrite save_written by exact Hq.
  destruct (parse_spec (length data) 1 ltac:(lia) ltac:(lia)) as (He & Hok & Hb).
  cbn zeta in He, Hok, Hb.
  set (toks := parse data metadata q pakdata (length data) 1) in *.
  split; [apply pl_stream_q; lia|]. split.
  - apply pl_decompress_written; [lia | apply all_bytes_get, Hbytes | exact Hok |].
    rewrite <- He. f_equal. rewrite <- (take_snoc data 0) by lia. reflexivity.
  - rewrite written_ops.
    set (ops := stream_ops (Z.of_nat q) (get data 0) toks).
    pose proof (pl_taken_length (run_w ops w0) (run_w_wf ops w0 w0_wf)) as Ht.
    rewrite pl_run_w_taken in Ht by exact w0_wf.
    assert (ops_bits ops = Z.of_nat (dp_cost constructor data metadata q) + 36) as Hbits.
    { unfold ops, stream_ops. rewrite ops_bits_app. cbn [ops_bits header_ops op_bits].
      rewrite ops_bits_app, end_ops_bits, Hb.
      unfold dp_cost. destruct (getLen_table data metadata q) as [_ ->].
      fold pakdata. rewrite table_first. lia. }
    rewrite Hbits in Ht. change (taken w0) with 0 in Ht.
    set (L := Z.of_nat (length (dest (done (run_w ops w0))))) in *.
    apply Z.div_unique with (Z.of_nat (dp_cost constructor data metadata q) + 43 - 8 * L); lia.
Qed.

End Encoder.

(** What [compress] returns: the stream of [save] for the subset the
    search chose. *)
Lemma pl_compress_spec data :
  all_bytes data -> 0 < Z.of_nat (length data) <= 65536 ->
  let metadata := createMetadata constructor data in
  let q := chosen_q constructor data metadata in
  exists s,
    compress constructor data = Ok s
    /\ stream_q s = Z.of_nat q
    /\ decompress s false = Ok data
    /\ Z.of_nat (length s) = (Z.of_nat (dp_cost constructor data metadata q) + 36 + 7) / 8.
Proof.
  intros Hb Hlen metadata q.
  destruct (chosen_q_minimal constructor data metadata ltac:(lia)) as [Hq _]. fold q in Hq.
  exists (save data metadata (snd (getLen constructor data metadata q)) q). split.
  - unfold compress.
    assert ((length data =? 0)%nat = false) as -> by (apply Nat.eqb_neq; lia).
    assert ((MAX_LEN constructor <? length data)%nat = false) as ->.
    { apply Nat.ltb_ge. cbn [MAX_LEN constructor]. lia. }
    fold metadata. fold q.
    destruct (getLen constructor data metadata q) as [cost pak]. reflexivity.
  - apply (pl_save_spec data Hb Hlen q Hq).
Qed.

End PletterRound.

(** C6: for a non-empty input within the size limit, [compress] runs the
    dynamic program for each q in 1..6 and emits with a q in 1..6 whose total
    DP cost is least among them. What it emits is the stream [save] writes
    from the table of that q; for an array of bytes this stream announces q
    in its three header bits and decodes to the input, and for every q' in
    1..6 the stream [save] writes for q' has as many bits as the DP counted
    for q', plus 36 (the header and the end marker, less the flag the first
    byte does not have), in whole bytes, so that no q' gives a shorter
    stream than the one emitted. The encoder never emits with q = 7, which
    the decoder accepts all the same: every stream laid out for q = 7
    (header 110, a first byte, literals, matches with a short offset,
    matches with a long offset of seven extra bits, from 129 to 16512, and
    the end marker) announces 7 and decodes to what its tokens stand for. *)
Theorem C6_pletter_q_search data :
  (0 < length data <= Z.to_nat 65536)%nat ->
  let c := Pletter.constructor in
  let metadata := Pletter.createMetadata c data in
  let q := Pletter.chosen_q c data metadata in
  let stream := fun q' =>
    Pletter.save data metadata (snd (Pletter.getLen c data metadata q')) q' in
  Pletter.q_search c data metadata
    = fold_left (fun '((minlen, minbl) : nat * nat) (i : nat) =>
          let '(cost, _) := Pletter.getLen c data metadata i in
          if ((cost <? minlen)%nat && negb (i =? 0)%nat)%bool then (cost, i)
          else (minlen, minbl))
        [1; 2; 3; 4; 5; 6]%nat ((length data * 1000)%nat, 0%nat)
  /\ (1 <= q <= 6)%nat
  /\ (forall q', (1 <= q' <= 6)%nat -> (dp_cost c data metadata q <= dp_cost c data metadata q')%nat)
  /\ Pletter.compress c data = Ok (stream q)
  /\ q <> 7%nat
  /\ (all_bytes data ->
      PletterRound.stream_q (stream q) = Z.of_nat q
      /\ Pletter.decompress (stream q) false = Ok data
      /\ forall q', (1 <= q' <= 6)%nat ->
           Z.of_nat (length (stream q'))
           = (Z.of_nat (dp_cost c data metadata q') + 36 + 7) / 8
           /\ (length (stream q) <= length (stream q'))%nat)
  /\ (forall b0 toks x,
        0 <= b0 < 256 -> Forall (PletterRound.token_ok 7) toks ->
        PletterRound.expand toks [b0] = Ok x ->
        PletterRound.stream_q (PletterRound.written 7 b0 toks) = 7
        /\ Pletter.decompress (PletterRound.written 7 b0 toks) false = Ok x).
Proof.
  intros Hlen c metadata q stream.
  destruct (chosen_q_minimal c data metadata) as [Hq Hmin]; [lia|].
  fold q in Hq, Hmin.
  assert (0 < Z.of_nat (length data) <= 65536) as Hsz by lia.
  split; [reflexivity|]. split; [exact Hq|]. split; [exact Hmin|].
  split; [| split; [lia | split]].
  - unfold Pletter.compress.
    assert ((length data =? 0)%nat = false) as -> by (apply Nat.eqb_neq; lia).
    assert ((Pletter.MAX_LEN c <? length data)%nat = false) as ->.
    { apply Nat.ltb_ge. unfold c, Pletter.constructor. simpl Pletter.MAX_LEN. lia. }
    fold metadata. fold q. unfold stream.
    destruct (Pletter.getLen c data metadata q) as [cost pak]. reflexivity.
  - intros Hb.
    destruct (PletterRound.pl_save_spec data Hb Hsz q Hq) as (Hs & Hd & Hl).
    change (Z.of_nat (length (stream q))
            = (Z.of_nat (dp_cost c data metadata q) + 36 + 7) / 8) in Hl.
    split; [exact Hs|]. split; [exact Hd|]. intros q' Hq'.
    destruct (PletterRound.pl_save_spec data Hb Hsz q' Hq') as (_ & _ & Hl').
    change (Z.of_nat (length (stream q'))
            = (Z.of_nat (dp_cost c data metadata q') + 36 + 7) / 8) in Hl'.
    split; [exact Hl'|]. specialize (Hmin q' Hq').
    apply Nat2Z.inj_le. rewrite Hl, Hl'.
    apply Z.div_le_mono; lia.
  - intros b0 toks x Hb0 Hok Hx. split.
    + apply PletterRound.pl_stream_q. lia.
    + apply PletterRound.pl_decompress_written; [lia | exact Hb0 | exact Hok | exact Hx].
Qed.

(** An input with a repeat, and a stream for q = 7 whose last match lies
    150 bytes back. *)
Lemma C6_witness :
  let data := [1; 2; 3; 1; 2; 3; 1; 2; 3] in
  let c := Pletter.constructor in
  let metadata := Pletter.createMetadata c data in
  let q := Pletter.chosen_q c data metadata in
  let s := Pletter.save data metadata (snd (Pletter.getLen c data metadata q)) q in
  let toks := [PletterRound.TLit 66; PletterRound.TShort 200 1; PletterRound.TLong 5 150] in
  ((1 <= q <= 6)%nat
   /\ Pletter.compress c data = Ok s
   /\ PletterRound.stream_q s = Z.of_nat q
   /\ Pletter.decompress s false = Ok data)
  /\ Pletter.decompress (PletterRound.written 7 65 toks) false
     = Ok (65 :: repeat 66 206).
Proof.
  assert (all_bytes [1; 2; 3; 1; 2; 3; 1; 2; 3]) as Hbytes by (repeat constructor; lia).
  assert (Forall (PletterRound.token_ok 7)
            [PletterRound.TLit 66; PletterRound.TShort 200 1; PletterRound.TLong 5 150])
    as Htoks.
  { constructor; [cbn [PletterRound.token_ok]; lia|].
    constructor; [cbn [PletterRound.token_ok]; lia|].
    constructor; [| constructor]. cbn [PletterRound.token_ok].
    split; [lia|]. split; [lia|]. apply Nat.leb_le. vm_compute. reflexivity. }
  assert (PletterRound.expand
            [PletterRound.TLit 66; PletterRound.TShort 200 1; PletterRound.TLong 5 150] [65]
          = Ok (65 :: repeat 66 206)) as Hexp by (vm_compute; reflexivity).
  assert (0 < length [1; 2; 3; 1; 2; 3; 1; 2; 3] <= Z.to_nat 65536)%nat as Hlen
    by (cbn [length]; lia).
  intros data c metadata q s toks.
  destruct (C6_pletter_q_search data Hlen) as (_ & Hq & _ & Hc & _ & Hb & H7).
  destruct (Hb Hbytes) as (Hs & Hd & _).
  destruct (H7 65 toks (65 :: repeat 66 206) ltac:(lia) Htoks Hexp) as [_ Hd7].
  exact (conj (conj Hq (conj Hc (conj Hs Hd))) Hd7).
Defined.

(** X13: the Pletter round trip. For every non-empty array of at most
    65536 bytes, [compress] returns a stream and [decompress] turns that
    stream back into the array. *)
Theorem pletter_round_trip (x : list Z) :
  all_bytes x -> 0 < Z.of_nat (length x) <= 65536 ->
  exists s,
    Pletter.compress Pletter.constructor x = Ok s
    /\ Pletter.decompress s false = Ok x.
Proof.
  intros Hb Hlen.
  destruct (PletterRound.pl_compress_spec x Hb Hlen) as (s & Hc & _ & Hd & _).
  exists s. split; assumption.
Qed.

Lemma pletter_round_trip_witness :
  exists s,
    Pletter.compress Pletter.constructor [7; 7; 7; 7; 7; 7; 1; 2; 1; 2; 1; 2] = Ok s
    /\ Pletter.decompress s false = Ok [7; 7; 7; 7; 7; 7; 1; 2; 1; 2; 1; 2].
Proof.
  apply (pletter_round_trip [7; 7; 7; 7; 7; 7; 1; 2; 1; 2; 1; 2]).
  - repeat constructor; lia.
  - cbn [length]. lia.
Defined.

(** X14: the worst-case size of a Pletter stream. For every non-empty array
    of at most 65536 bytes, the stream [compress] returns holds at most nine
    bits for each byte of the input and 43 bits more. *)
Theorem pletter_worst_case_size (x : list Z) :
  all_bytes x -> 0 < Z.of_nat (length x) <= 65536 ->
  exists s,
    Pletter.compress Pletter.constructor x = Ok s
    /\ 8 * Z.of_nat (length s) <= 9 * Z.of_nat (length x) + 43.
Proof.
  intros Hb Hlen.
  destruct (PletterRound.pl_compress_spec x Hb Hlen) as (s & Hc & _ & _ & Hl).
  exists s. split; [exact Hc|]. rewrite Hl.
  pose proof (dp_cost_bound Pletter.constructor x
                (Pletter.createMetadata Pletter.constructor x)
                (Pletter.chosen_q Pletter.constructor x
                   (Pletter.createMetadata Pletter.constructor x))) as Hbound.
  set (d := Z.of_nat (dp_cost _ _ _ _)) in *.
  pose proof (Z.mul_div_le (d + 36 + 7) 8 ltac:(lia)). lia.
Qed.

Lemma pletter_worst_case_size_witness :
  exists s,
    Pletter.compress Pletter.constructor [10; 20; 30; 40] = Ok s
    /\ 8 * Z.of_nat (length s) <= 9 * Z.of_nat (length [10; 20; 30; 40]) + 43.
Proof.
  apply (pletter_worst_case_size [10; 20; 30; 40]).
  - repeat constructor; lia.
  - cbn [length]. lia.
Defined.
